(** * ProJoin / ADDMC core ([src/addmc/src/logic.cc]): a shallow embedding.

    The file follows the order of [logic.cc]: namespace [util], the
    exceptions, [Number], [Graph], [Label], [Clause], [Cnf] (with the seven
    variable-order heuristics, [PB_canonicalize] and the DIMACS parser),
    [Assignment] and the join-tree nodes.  The definitions come first, the
    theorems about them after.

    Conventions.
    - [Int] values are kept in [Z]; where the source computes in a narrower
      type ([int] in [PB_canonicalize]) the wrap-around is written with
      [wrap].
    - [Set<Int>] and the [Map]s that the source iterates are duplicate-free
      lists in iteration order (a new element goes to the end); the source
      does not fix that order, and no theorem below depends on it.  Maps that
      are only looked up ([literalWeights], [coefs], [Assignment]) are
      [gmap]s.
    - An exception is a [Throw]; nothing in [logic.cc] catches one. *)

From Stdlib Require Import ZArith Lia Ascii QArith.QArith_base Floats.SpecFloat.
From stdpp Require Import base gmap list strings fin_maps.

Open Scope Z_scope.

(* ===================================================================== *)
(** * Part I: the model *)
(* ===================================================================== *)

(** ** Exceptions *)

Inductive std_exception := out_of_range | invalid_argument.

(** [MyError] keeps the first string literal of the message.  [Stuck] is not
    a C++ exception: the model returns it where a recursion bound is used up
    or where C++ leaves the behaviour undefined; the theorems show that the
    runs they speak of never reach it. *)
Inductive exn :=
| MyError (msg : string)
| EmptyClauseException
| StdException (e : std_exception)
| AssertionFailure
| Stuck (why : string).

Inductive result (A : Type) :=
| Ret (a : A)
| Throw (e : exn).
Arguments Ret {A} a.
Arguments Throw {A} e.

Definition bind {A B} (r : result A) (k : A → result B) : result B :=
  match r with
  | Ret a => k a
  | Throw e => Throw e
  end.

Notation "'let*' x ':=' e 'in' k" := (bind e (λ x, k))
  (at level 10, x pattern, e at level 100, k at level 200).

Fixpoint foldlM {A B} (f : B → A → result B) (b : B) (l : list A) : result B :=
  match l with
  | [] => Ret b
  | x :: l' => let* b' := f b x in foldlM f b' l'
  end.

Definition isRet {A} (r : result A) : bool :=
  match r with Ret _ => true | Throw _ => false end.

(** [v.at(i)] of a [std::vector]. *)
Definition vec_at {A} (v : list A) (i : Z) : result A :=
  if bool_decide (0 ≤ i) then
    match v !! Z.to_nat i with
    | Some x => Ret x
    | None => Throw (StdException out_of_range)
    end
  else Throw (StdException out_of_range).

(** ** Machine integers *)

(** The value of [x] read as a signed [w]-bit integer. *)
Definition wrap (w : Z) (x : Z) : Z :=
  (x + 2 ^ (w - 1)) `mod` 2 ^ w - 2 ^ (w - 1).

Definition to_int (x : Z) : Z := wrap 32 x.
Definition to_Int (x : Z) : Z := wrap 64 x.

(** ** Sets and iterated maps as lists *)

Definition set_contains (s : list Z) (x : Z) : bool := bool_decide (x ∈ s).

Definition set_insert (x : Z) (s : list Z) : list Z :=
  if set_contains s x then s else s ++ [x].

Definition set_erase (x : Z) (s : list Z) : list Z :=
  filter (λ y, y ≠ x) s.

Fixpoint map_find {V} (m : list (Z * V)) (k : Z) : option V :=
  match m with
  | [] => None
  | (k', v) :: m' => if bool_decide (k' = k) then Some v else map_find m' k
  end.

(** [m.at(k)] *)
Definition map_at {V} (m : list (Z * V)) (k : Z) : result V :=
  match map_find m k with
  | Some v => Ret v
  | None => Throw (StdException out_of_range)
  end.

(** [m[k] = v] *)
Fixpoint map_assign {V} (k : Z) (v : V) (m : list (Z * V)) : list (Z * V) :=
  match m with
  | [] => [(k, v)]
  | (k', v') :: m' =>
      if bool_decide (k' = k) then (k, v) :: m' else (k', v') :: map_assign k v m'
  end.

(** [m.erase(k)] *)
Definition map_erase {V} (k : Z) (m : list (Z * V)) : list (Z * V) :=
  filter (λ kv, kv.1 ≠ k) m.

Definition map_keys {V} (m : list (Z * V)) : list Z := m.*1.

(** ** namespace util *)

Module util.

Definition isspace (c : ascii) : bool :=
  let n := nat_of_ascii c in
  bool_decide (n = 32%nat) || (Nat.leb 9 n && Nat.leb n 13).

(** The loop of [istream_iterator<string>]: words separated by white space.
    [cur] is the word being read, in reverse. *)
Fixpoint split_go (cur : list ascii) (s : string) : list string :=
  match s with
  | EmptyString =>
      match cur with [] => [] | _ => [String.string_of_list_ascii (rev cur)] end
  | String c s' =>
      if isspace c then
        match cur with
        | [] => split_go [] s'
        | _ => String.string_of_list_ascii (rev cur) :: split_go [] s'
        end
      else split_go (c :: cur) s'
  end.

Definition splitInputLine (line : string) : list string := split_go [] line.

(** Modelled from the spec: the set algebra of the utility layer
    ([util::getDiff], [util::getUnion], [util::isDisjoint],
    [util::unionize]), whose templates are in [logic.hh]. *)
Definition getDiff (members : list Z) (nonmember : Z → bool) : list Z :=
  filter (λ x, nonmember x = false) members.

Definition unionize (s1 s2 : list Z) : list Z :=
  foldl (λ acc x, set_insert x acc) s1 s2.

Definition getUnion (sets : list (list Z)) : list Z :=
  foldl unionize [] sets.

Definition isDisjoint (s1 s2 : list Z) : bool :=
  forallb (λ x, negb (set_contains s2 x)) s1.

End util.

(** ** The C library's integer parsers *)

Definition digit_of (c : ascii) : option Z :=
  let n := nat_of_ascii c in
  if Nat.leb 48 n && Nat.leb n 57 then Some (Z.of_nat n - 48) else None.

(** The digits at the front of [s], most significant first; [None] when [s]
    does not start with a digit. *)
Fixpoint digits_go (acc : Z) (seen : bool) (s : string) : option Z :=
  match s with
  | EmptyString => if seen then Some acc else None
  | String c s' =>
      match digit_of c with
      | Some d => digits_go (10 * acc + d) true s'
      | None => if seen then Some acc else None
      end
  end.

Fixpoint skip_space (s : string) : string :=
  match s with
  | String c s' => if util.isspace c then skip_space s' else s
  | EmptyString => s
  end.

(** [strtol]-style reading in base 10: white space, an optional sign, digits;
    what follows the digits is ignored.  [w] is the width of the result. *)
Definition sto (w : Z) (s : string) : result Z :=
  let s := skip_space s in
  let '(neg, body) :=
    match s with
    | String "-" s' => (true, s')
    | String "+" s' => (false, s')
    | _ => (false, s)
    end in
  match digits_go 0 false body with
  | None => Throw (StdException invalid_argument)
  | Some n =>
      let v := if (neg : bool) then - n else n in
      if bool_decide (- 2 ^ (w - 1) ≤ v < 2 ^ (w - 1)) then Ret v
      else Throw (StdException out_of_range)
  end.

Definition stoll : string → result Z := sto 64.
Definition stoi : string → result Z := sto 32.

(** [s.substr(pos, n)]; [n] is a [size_t], so a negative count has wrapped to
    a huge one and means the rest of the string. *)
Definition substr (s : string) (pos : nat) (n : Z) : result string :=
  if Nat.ltb (String.length s) pos then Throw (StdException out_of_range)
  else
    let n := n `mod` 2 ^ 64 in
    let rest := Z.of_nat (String.length s - pos) in
    Ret (String.substring pos (Z.to_nat (Z.min n rest)) s).

Fixpoint starts_with (s p : string) : bool :=
  match p, s with
  | EmptyString, _ => true
  | String a p', String b s' => bool_decide (a = b) && starts_with s' p'
  | String _ _, EmptyString => false
  end.

Definition str_eqb (a b : string) : bool := bool_decide (a = b).

(** [s.find(c)] *)
Fixpoint str_find (c : ascii) (s : string) : option nat :=
  match s with
  | EmptyString => None
  | String a s' => if bool_decide (a = c) then Some 0%nat else S <$> str_find c s'
  end.

(** ** class Number: the data *)

(** Both members of the C++ class; the global [multiplePrecision] says which
    one is live.  A constructor leaves the other member at its default (the
    C++ float member is then indeterminate and never read; the model puts
    [+0] there). *)
Record Number := { quotient : Q; fraction : spec_float }.

(** Modelled from the spec: the constant [INF] of [logic.hh]; the spec's
    log-space zero is [-INF]. *)
Definition INF : spec_float := S754_infinity false.

(** ** class Graph: the data *)

Record Graph := { vertices : list Z; adjacencyMap : list (Z * list Z) }.

(** ** class Label *)

Fixpoint insert_desc (i : Z) (l : list Z) : list Z :=
  match l with
  | [] => [i]
  | x :: l' => if bool_decide (x < i) then i :: l else x :: insert_desc i l'
  end.

Definition sort_desc (l : list Z) : list Z := foldr insert_desc [] l.

(** [push_back(i); sort(begin(), end(), greater<Int>())] *)
Definition addNumber (i : Z) (label : list Z) : list Z := sort_desc (label ++ [i]).

(** [operator<] of [vector<Int>]: lexicographic. *)
Fixpoint vec_lt (a b : list Z) : bool :=
  match a, b with
  | _, [] => false
  | [], _ :: _ => true
  | x :: a', y :: b' =>
      if bool_decide (x < y) then true
      else if bool_decide (y < x) then false
      else vec_lt a' b'
  end.

Definition hasSmallerLabel (a b : Z * list Z) : bool := vec_lt a.2 b.2.

(** [std::max_element(first, last, comp)]: the first of the largest
    elements; [None] for an empty range, where C++ returns [last]. *)
Definition max_element {A} (comp : A → A → bool) (l : list A) : option A :=
  match l with
  | [] => None
  | x :: l' => Some (foldl (λ largest y, if comp largest y then y else largest) x l')
  end.

(** ** class Clause *)

Definition getClauseVars (clause : list Z) : list Z :=
  foldl (λ vars literal, set_insert (Z.abs literal) vars) [] clause.

(** The pairs of elements at [it1], [it2] with [it2] after [it1], in the order of the
    nested loops of [fillInEdges], [countFillInEdges] and [getPrimalGraph]. *)
Fixpoint pairs_after {A} (l : list A) : list (A * A) :=
  match l with
  | [] => []
  | x :: l' => map (pair x) l' ++ pairs_after l'
  end.

(** ** class Cnf: the data *)

Record Cnf := {
  declaredVarCount : Z;
  clauses : list (list Z);
  types : list ascii;
  weights : list spec_float;
  coefLists : list (gmap Z Z);
  comparators : list Z;
  klist : list Z;
  literalWeights : gmap Z Number;
  additiveVars : list Z;
  varToClauses : list (Z * list Z);
  apparentVars : list Z;
  trivialBoundPartialMaxSAT : Z
}.

(** ** A reference instance of the library functions

    The section below takes the functions of libc, libm, GMP and [<random>]
    as variables.  The closed examples instantiate them with these: plain
    decimals read exactly and rounded once, the identity for the
    transcendental functions and for the shuffle. *)

Definition Float_of_Z (prec emax z : Z) : spec_float := binary_normalize prec emax z 0 false.

(** The digits of a plain decimal, [n] and the number [k] of digits after the
    point: the value is [n / 10^k]. *)
Fixpoint decimal_digits (s : string) (n k : Z) (frac seen : bool) : option (Z * Z) :=
  match s with
  | EmptyString => if seen then Some (n, k) else None
  | String c s' =>
      match digit_of c with
      | Some d => decimal_digits s' (10 * n + d) (if frac then k + 1 else k) frac true
      | None =>
          if bool_decide (c = "."%char) && negb frac then decimal_digits s' n k true seen
          else if seen then Some (n, k) else None
      end
  end.

Definition decimal (s : string) : option (Z * Z) :=
  match skip_space s with
  | String "-" s' => (λ nk, (- nk.1, nk.2)) <$> decimal_digits s' 0 0 false false
  | String "+" s' => decimal_digits s' 0 0 false false
  | s' => decimal_digits s' 0 0 false false
  end.

Definition ref_strtod (prec emax : Z) (s : string) : result spec_float :=
  match decimal s with
  | Some (n, k) => Ret (SFdiv prec emax (Float_of_Z prec emax n) (Float_of_Z prec emax (10 ^ k)))
  | None => Throw (StdException invalid_argument)
  end.

Definition ref_mpq_of_mpf (s : string) : result Q :=
  match decimal s with
  | Some (n, k) => Ret (Qmake n (Z.to_pos (10 ^ k)))
  | None => Throw (StdException invalid_argument)
  end.

Definition ref_mpq (s : string) : result Q :=
  match str_find "/" s with
  | Some i =>
      match sto 4096 (String.substring 0 i s),
            sto 4096 (String.substring (S i) (String.length s) s) with
      | Ret p, Ret q =>
          if bool_decide (0 < q) then Ret (Qmake p (Z.to_pos q))
          else Throw (StdException invalid_argument)
      | _, _ => Throw (StdException invalid_argument)
      end
  | None => let* p := sto 4096 s in Ret (Qmake p 1)
  end.

Definition ref_shuffle (seed : Z) (l : list Z) : list Z := l.

(** ** The environment of the core

    The global variables of [logic.cc] that the core only reads, and what
    [logic.hh] and the libraries provide: the format of [Float], the integer
    sentinels, the codes and names of the heuristics, members that the header
    may initialise, the default arguments of [addClause], [Number()], and the
    functions of libm, libc, GMP and [<random>] that the core calls. *)
Class Env := {
  weightedCounting : bool;
  projectedCounting : bool;
  maxsatSolving : bool;
  multiplePrecision : bool;
  logCounting : bool;
  randomSeed : Z;
  prec : Z;
  emax : Z;
  MIN_INT : Z;
  MAX_INT : Z;
  RANDOM : Z;
  DECLARED : Z;
  MOST_CLAUSES : Z;
  MINFILL : Z;
  MCS : Z;
  LEXP : Z;
  LEXM : Z;
  BIGGEST_NODE : Z;
  HIGHEST_NODE : Z;
  BUCKET_LIST : string;
  BUCKET_TREE : string;
  BOUQUET_LIST : string;
  BOUQUET_TREE : string;
  log10l : spec_float → spec_float;
  exp10l : spec_float → spec_float;
  stold : string → result spec_float;
  stod : string → result spec_float;
  mpq_class_of_string : string → result Q;
  mpq_class_of_mpf_string : string → result Q;
  double_of_Int : Z → spec_float;
  shuffle : Z → list Z → list Z;
  declaredVarCount_init : Z;
  trivialBoundPartialMaxSAT_init : Z;
  addClause_comparator : Z;
  addClause_k : Z;
  addClause_coefs : gmap Z Z;
  Number_default : Number
}.

(** The reference instance, for the five counting flags. *)
Definition refEnv (wc pc ms mp lc : bool) : Env := {|
  weightedCounting := wc; projectedCounting := pc; maxsatSolving := ms;
  multiplePrecision := mp; logCounting := lc;
  randomSeed := 0; prec := 64; emax := 16384;
  MIN_INT := - 2 ^ 63; MAX_INT := 2 ^ 63 - 1;
  RANDOM := 1; DECLARED := 2; MOST_CLAUSES := 3; MINFILL := 4; MCS := 5;
  LEXP := 6; LEXM := 7; BIGGEST_NODE := 8; HIGHEST_NODE := 9;
  BUCKET_LIST := "bel"; BUCKET_TREE := "bet";
  BOUQUET_LIST := "bml"; BOUQUET_TREE := "bmt";
  log10l := λ x, x; exp10l := λ x, x;
  stold := ref_strtod 64 16384; stod := ref_strtod 53 1024;
  mpq_class_of_string := ref_mpq; mpq_class_of_mpf_string := ref_mpq_of_mpf;
  double_of_Int := Float_of_Z 53 1024;
  shuffle := ref_shuffle;
  declaredVarCount_init := 0; trivialBoundPartialMaxSAT_init := 0;
  addClause_comparator := 0; addClause_k := 0; addClause_coefs := ∅;
  Number_default := {| quotient := 0%Q; fraction := S754_zero false |}
|}.

(** The reference instance with the codes of the heuristics counted from 0,
    so that [RANDOM] has the code 0; the five counting flags are off. *)
Definition refEnv0 : Env := {|
  weightedCounting := false; projectedCounting := false; maxsatSolving := false;
  multiplePrecision := false; logCounting := false;
  randomSeed := 0; prec := 64; emax := 16384;
  MIN_INT := - 2 ^ 63; MAX_INT := 2 ^ 63 - 1;
  RANDOM := 0; DECLARED := 1; MOST_CLAUSES := 2; MINFILL := 3; MCS := 4;
  LEXP := 5; LEXM := 6; BIGGEST_NODE := 7; HIGHEST_NODE := 8;
  BUCKET_LIST := "bel"; BUCKET_TREE := "bet";
  BOUQUET_LIST := "bml"; BOUQUET_TREE := "bmt";
  log10l := λ x, x; exp10l := λ x, x;
  stold := ref_strtod 64 16384; stod := ref_strtod 53 1024;
  mpq_class_of_string := ref_mpq; mpq_class_of_mpf_string := ref_mpq_of_mpf;
  double_of_Int := Float_of_Z 53 1024;
  shuffle := ref_shuffle;
  declaredVarCount_init := 0; trivialBoundPartialMaxSAT_init := 0;
  addClause_comparator := 0; addClause_k := 0; addClause_coefs := ∅;
  Number_default := {| quotient := 0%Q; fraction := S754_zero false |}
|}.

Section Logic.

Context `{Env}.

(** ** class Number *)

Definition Number_of_mpq (q : Q) : result Number :=
  if multiplePrecision then Ret {| quotient := q; fraction := S754_zero false |}
  else Throw AssertionFailure.

Definition Number_of_Float (f : spec_float) : result Number :=
  if negb multiplePrecision then Ret {| quotient := 0%Q; fraction := f |}
  else Throw AssertionFailure.

Definition Number_of_string (s : string) : result Number :=
  let divPos := str_find "/" s in
  if multiplePrecision then
    match divPos with
    | Some _ => let* q := mpq_class_of_string s in Number_of_mpq q
    | None => let* q := mpq_class_of_mpf_string s in Number_of_mpq q
    end
  else
    match divPos with
    | Some divPos =>
        let* num := substr s 0 (Z.of_nat divPos) in
        let* numerator := stold num in
        let* den := substr s (divPos + 1) (-1) in
        let* denominator := stold den in
        Number_of_Float (SFdiv prec emax numerator denominator)
    | None => let* f := stold s in Number_of_Float f
    end.

(** [std::max]: [(a < b) ? b : a]. *)
Definition Float_max (a b : spec_float) : spec_float := if SFltb a b then b else a.

Definition getLogSumExp (self n : Number) : result spec_float :=
  if negb logCounting then Throw AssertionFailure
  else if SFeqb (fraction self) (SFopp INF) then Ret (fraction n)
  else if SFeqb (fraction n) (SFopp INF) then Ret (fraction self)
  else
    let m := Float_max (fraction self) (fraction n) in
    Ret (SFadd prec emax
           (log10l (SFadd prec emax (exp10l (SFsub prec emax (fraction self) m))
                                    (exp10l (SFsub prec emax (fraction n) m))))
           m).

Definition Number_eq (a n : Number) : bool :=
  if multiplePrecision then Qeq_bool (quotient a) (quotient n)
  else SFeqb (fraction a) (fraction n).

Definition Number_ne (a n : Number) : bool := negb (Number_eq a n).

Definition Number_lt (a n : Number) : bool :=
  if multiplePrecision then negb (Qle_bool (quotient n) (quotient a))
  else SFltb (fraction a) (fraction n).

Definition Number_le (a n : Number) : bool := Number_lt a n || Number_eq a n.

Definition Number_ge (a n : Number) : bool :=
  if multiplePrecision then Qle_bool (quotient n) (quotient a)
  else SFleb (fraction n) (fraction a).

Definition Number_mul (a n : Number) : result Number :=
  if multiplePrecision then Number_of_mpq (Qmult (quotient a) (quotient n))
  else Number_of_Float (SFmul prec emax (fraction a) (fraction n)).

Definition Number_add (a n : Number) : result Number :=
  if multiplePrecision then Number_of_mpq (Qplus (quotient a) (quotient n))
  else Number_of_Float (SFadd prec emax (fraction a) (fraction n)).

Definition Number_sub (a n : Number) : result Number :=
  if multiplePrecision then Number_of_mpq (Qminus (quotient a) (quotient n))
  else Number_of_Float (SFsub prec emax (fraction a) (fraction n)).

(** ** class Graph *)

Definition Graph_ctor (vs : list Z) : Graph :=
  foldl (λ g v, {| vertices := set_insert v (vertices g);
                   adjacencyMap := map_assign v [] (adjacencyMap g) |})
        {| vertices := []; adjacencyMap := [] |} vs.

Definition addEdge (v1 v2 : Z) (g : Graph) : result Graph :=
  let* n1 := map_at (adjacencyMap g) v1 in
  let adj := map_assign v1 (set_insert v2 n1) (adjacencyMap g) in
  let* n2 := map_at adj v2 in
  Ret {| vertices := vertices g; adjacencyMap := map_assign v2 (set_insert v1 n2) adj |}.

Definition isNeighbor (g : Graph) (v1 v2 : Z) : result bool :=
  let* n1 := map_at (adjacencyMap g) v1 in
  Ret (set_contains n1 v2).

(** [hasPath(from, to, visitedVertices)]: the result and the visited set the
    call leaves behind.  [depth] bounds the depth of the recursion. *)
Fixpoint hasPath_visited (depth : nat) (g : Graph) (from to : Z) (visitedVertices : list Z)
  : result (bool * list Z) :=
  if bool_decide (from = to) then Ret (true, visitedVertices)
  else
    match depth with
    | O => Throw (Stuck "hasPath: depth")
    | S depth' =>
        let visitedVertices := set_insert from visitedVertices in
        let* neighbors := map_at (adjacencyMap g) from in
        let unvisitedNeighbors := util.getDiff neighbors (set_contains visitedVertices) in
        (fix loop (vs : list Z) (visitedVertices : list Z) : result (bool * list Z) :=
           match vs with
           | [] => Ret (false, visitedVertices)
           | v :: vs' =>
               let* (found, visitedVertices) := hasPath_visited depth' g v to visitedVertices in
               if (found : bool) then Ret (true, visitedVertices) else loop vs' visitedVertices
           end) unvisitedNeighbors visitedVertices
    end.

Definition hasPath (g : Graph) (from to : Z) : result bool :=
  let* (found, _) := hasPath_visited (S (length (adjacencyMap g))) g from to [] in
  Ret found.

Definition removeVertex (v : Z) (g : Graph) : Graph :=
  {| vertices := set_erase v (vertices g);
     adjacencyMap := (λ kv, (kv.1, set_erase v kv.2)) <$> map_erase v (adjacencyMap g) |}.

(** The loops run over [adjacencyMap.at(v)] while [addEdge] inserts into the
    neighbour sets of two of its members; that changes the set being iterated
    only when [v] is its own neighbour, and then inserts what it already has. *)
Definition fillInEdges (v : Z) (g : Graph) : result Graph :=
  let* neighbors := map_at (adjacencyMap g) v in
  foldlM (λ g '(neighbor1, neighbor2), addEdge neighbor1 neighbor2 g) g (pairs_after neighbors).

Definition countFillInEdges (g : Graph) (v : Z) : result Z :=
  let* neighbors := map_at (adjacencyMap g) v in
  foldlM (λ count '(neighbor1, neighbor2),
            let* b := isNeighbor g neighbor1 neighbor2 in
            Ret (if b then count else count + 1))
         0 (pairs_after neighbors).

Definition getMinfillVertex (g : Graph) : result Z :=
  let* (vertex, _) :=
    foldlM (λ '(vertex, fillInEdgeCount) v,
              let* count := countFillInEdges g v in
              Ret (if bool_decide (count < fillInEdgeCount) then (v, count)
                   else (vertex, fillInEdgeCount)))
           (MIN_INT, MAX_INT) (vertices g) in
  if bool_decide (vertex = MIN_INT) then Throw (MyError "graph has no vertex")
  else Ret vertex.

(** ** class Cnf *)

Definition getDisjunctiveVars (cnf : Cnf) : list Z :=
  filter (λ var, set_contains (additiveVars cnf) var = false) (seqZ 1 (declaredVarCount cnf)).

Definition addClause (clause : list Z) (type : ascii) (weight : spec_float)
    (comparator : Z) (coefs : gmap Z Z) (k : Z) (cnf : Cnf) : Cnf :=
  let clauseIndex := Z.of_nat (length (clauses cnf)) in
  {| declaredVarCount := declaredVarCount cnf;
     clauses := clauses cnf ++ [clause];
     types := types cnf ++ [type];
     weights := weights cnf ++ [weight];
     coefLists := coefLists cnf ++ [coefs];
     comparators := comparators cnf ++ [comparator];
     klist := klist cnf ++ [k];
     literalWeights := literalWeights cnf;
     additiveVars := additiveVars cnf;
     varToClauses :=
       foldl (λ m literal,
                let var := Z.abs literal in
                match map_find m var with
                | Some s => map_assign var (set_insert clauseIndex s) m
                | None => map_assign var [clauseIndex] m
                end)
             (varToClauses cnf) clause;
     apparentVars := apparentVars cnf;
     trivialBoundPartialMaxSAT := trivialBoundPartialMaxSAT cnf |}.

Definition setApparentVars (cnf : Cnf) : Cnf :=
  {| declaredVarCount := declaredVarCount cnf;
     clauses := clauses cnf;
     types := types cnf;
     weights := weights cnf;
     coefLists := coefLists cnf;
     comparators := comparators cnf;
     klist := klist cnf;
     literalWeights := literalWeights cnf;
     additiveVars := additiveVars cnf;
     varToClauses := varToClauses cnf;
     apparentVars := foldl (λ s kv, set_insert kv.1 s) (apparentVars cnf) (varToClauses cnf);
     trivialBoundPartialMaxSAT := trivialBoundPartialMaxSAT cnf |}.

Definition getPrimalGraph (cnf : Cnf) : result Graph :=
  foldlM (λ graph clause,
            foldlM (λ graph '(literal1, literal2),
                      addEdge (Z.abs literal1) (Z.abs literal2) graph)
                   graph (pairs_after clause))
         (Graph_ctor (apparentVars cnf)) (clauses cnf).

Definition getRandomVarOrder (cnf : Cnf) : list Z :=
  shuffle randomSeed (apparentVars cnf).

Definition getDeclaredVarOrder (cnf : Cnf) : list Z :=
  filter (λ var, set_contains (apparentVars cnf) var = true) (seqZ 1 (declaredVarCount cnf)).

(** [multimap<Int, Int, greater<Int>>::insert]: keys descend, and a new
    element goes after the elements that have its key. *)
Fixpoint multimap_insert (kv : Z * Z) (m : list (Z * Z)) : list (Z * Z) :=
  match m with
  | [] => [kv]
  | x :: m' => if bool_decide (x.1 < kv.1) then kv :: m else x :: multimap_insert kv m'
  end.

Definition getMostClausesVarOrder (cnf : Cnf) : list Z :=
  let m := foldl (λ m varAndSet, multimap_insert (Z.of_nat (length varAndSet.2), varAndSet.1) m)
                 [] (varToClauses cnf) in
  m.*2.

Fixpoint minfill_loop (fuel : nat) (graph : Graph) (varOrder : list Z) : result (list Z) :=
  match vertices graph with
  | [] => Ret varOrder
  | _ :: _ =>
      match fuel with
      | O => Throw (Stuck "getMinfillVarOrder: fuel")
      | S fuel' =>
          let* vertex := getMinfillVertex graph in
          let* graph := fillInEdges vertex graph in
          minfill_loop fuel' (removeVertex vertex graph) (varOrder ++ [vertex])
      end
  end.

Definition getMinfillVarOrder (cnf : Cnf) : result (list Z) :=
  let* graph := getPrimalGraph cnf in
  minfill_loop (length (vertices graph)) graph [].

(** The [do ... while] of [getMcsVarOrder]. *)
Fixpoint mcs_loop (fuel : nat) (graph : Graph) (rankedNeighborCounts : list (Z * Z))
    (bestVertex : Z) (varOrder : list Z) : result (list Z) :=
  match fuel with
  | O => Throw (Stuck "getMcsVarOrder: fuel")
  | S fuel' =>
      let varOrder := varOrder ++ [bestVertex] in
      let rankedNeighborCounts := map_erase bestVertex rankedNeighborCounts in
      let* neighbors := map_at (adjacencyMap graph) bestVertex in
      let rankedNeighborCounts :=
        foldl (λ m n, match map_find m n with
                      | Some c => map_assign n (c + 1) m
                      | None => m
                      end) rankedNeighborCounts neighbors in
      let '(bestRankedNeighborCount, bestVertex) :=
        foldl (λ '(best, vertex) entry,
                 if bool_decide (entry.2 > best) then (entry.2, entry.1) else (best, vertex))
              (MIN_INT, bestVertex) rankedNeighborCounts in
      if bool_decide (bestRankedNeighborCount ≠ MIN_INT)
      then mcs_loop fuel' graph rankedNeighborCounts bestVertex varOrder
      else Ret varOrder
  end.

Definition getMcsVarOrder (cnf : Cnf) : result (list Z) :=
  let* graph := getPrimalGraph cnf in
  match vertices graph with
  | [] => Ret []
  | startVertex :: rest =>
      let rankedNeighborCounts := foldl (λ m v, map_assign v 0 m) [] rest in
      mcs_loop (length (vertices graph)) graph rankedNeighborCounts startVertex []
  end.

(** The [for] loop of [getLexpVarOrder]; [number] counts down to 1. *)
Fixpoint lexp_loop (graph : Graph) (number : nat) (unnumberedVertices : list (Z * list Z))
    (numberedVertices : list Z) : result (list Z) :=
  match number with
  | O => Ret numberedVertices
  | S number' =>
      match max_element hasSmallerLabel unnumberedVertices with
      | None => Throw (Stuck "max_element of an empty range")
      | Some (vertex, _) =>
          let numberedVertices := numberedVertices ++ [vertex] in
          let unnumberedVertices := map_erase vertex unnumberedVertices in
          let* neighbors := map_at (adjacencyMap graph) vertex in
          let unnumberedVertices :=
            foldl (λ m neighbor,
                     match map_find m neighbor with
                     | Some label => map_assign neighbor (addNumber (Z.of_nat number) label) m
                     | None => m
                     end) unnumberedVertices neighbors in
          lexp_loop graph number' unnumberedVertices numberedVertices
      end
  end.

Definition getLexpVarOrder (cnf : Cnf) : result (list Z) :=
  let unnumberedVertices := foldl (λ m vertex, map_assign vertex [] m) [] (apparentVars cnf) in
  let* graph := getPrimalGraph cnf in
  lexp_loop graph (length (apparentVars cnf)) unnumberedVertices [].

(** The body of the loop of [getLexmVarOrder] over [unnumberedVertices], for
    one entry [w]; [subgraph] is shared by the entries of one round, and the
    labels are updated in place. *)
Definition lexm_visit (v i : Z) (numberedVertices : list Z)
    (st : Graph * list (Z * list Z)) (w : Z) : result (Graph * list (Z * list Z)) :=
  let '(subgraph, unnumberedVertices) := st in
  match map_find unnumberedVertices w with
  | None => Throw (Stuck "getLexmVarOrder: iterator")
  | Some wLabel =>
      let subgraph :=
        foldl (λ g numberedVertex,
                 if bool_decide (numberedVertex ≠ v) then removeVertex numberedVertex g else g)
              subgraph numberedVertices in
      let subgraph :=
        foldl (λ g kv,
                 if bool_decide (kv.1 ≠ w) && negb (vec_lt kv.2 wLabel)
                 then removeVertex kv.1 g else g)
              subgraph unnumberedVertices in
      let* found := hasPath subgraph v w in
      Ret (subgraph,
           if (found : bool) then map_assign w (addNumber i wLabel) unnumberedVertices
           else unnumberedVertices)
  end.

Fixpoint lexm_loop (cnf : Cnf) (i : nat) (unnumberedVertices : list (Z * list Z))
    (numberedVertices : list Z) : result (list Z) :=
  match i with
  | O => Ret numberedVertices
  | S i' =>
      match max_element hasSmallerLabel unnumberedVertices with
      | None => Throw (Stuck "max_element of an empty range")
      | Some (v, _) =>
          let numberedVertices := numberedVertices ++ [v] in
          let unnumberedVertices := map_erase v unnumberedVertices in
          let* subgraph := getPrimalGraph cnf in
          let* (_, unnumberedVertices) :=
            foldlM (lexm_visit v (Z.of_nat i) numberedVertices)
                   (subgraph, unnumberedVertices) (map_keys unnumberedVertices) in
          lexm_loop cnf i' unnumberedVertices numberedVertices
      end
  end.

Definition getLexmVarOrder (cnf : Cnf) : result (list Z) :=
  let unnumberedVertices := foldl (λ m vertex, map_assign vertex [] m) [] (apparentVars cnf) in
  let* graph := getPrimalGraph cnf in
  lexm_loop cnf (length (apparentVars cnf)) unnumberedVertices [].

Definition getCnfVarOrder (cnf : Cnf) (cnfVarOrderHeuristic : Z) : result (list Z) :=
  let h := Z.abs cnfVarOrderHeuristic in
  let* varOrder :=
    if bool_decide (h = RANDOM) then Ret (getRandomVarOrder cnf)
    else if bool_decide (h = DECLARED) then Ret (getDeclaredVarOrder cnf)
    else if bool_decide (h = MOST_CLAUSES) then Ret (getMostClausesVarOrder cnf)
    else if bool_decide (h = MINFILL) then getMinfillVarOrder cnf
    else if bool_decide (h = MCS) then getMcsVarOrder cnf
    else if bool_decide (h = LEXP) then getLexpVarOrder cnf
    else if bool_decide (h = LEXM) then getLexmVarOrder cnf
    else Throw AssertionFailure in
  Ret (if bool_decide (cnfVarOrderHeuristic < 0) then rev varOrder else varOrder).

(** ** PB_canonicalize *)

(** One round of the second loop: [*itr] is narrowed to [int var];
    [coefs[var]] creates a missing entry with 0; [insert] keeps an entry that
    is there; [k] is an [int]. *)
Definition pb_flip (st : gmap Z Z * list Z * Z) (elem : Z) : gmap Z Z * list Z * Z :=
  let '(coefs, tempVar, k) := st in
  let var := to_int elem in
  let c := default 0 (coefs !! var) in
  let coefs := match coefs !! var with Some _ => coefs | None => <[var:=0]> coefs end in
  if bool_decide (c < 0) then
    let nvar := to_int (- var) in
    let coefs := match coefs !! nvar with
                 | Some _ => coefs
                 | None => <[nvar:=to_int (to_Int (- c))]> coefs
                 end in
    (delete var coefs, tempVar ++ [nvar], to_int (to_Int (k - c)))
  else (coefs, tempVar, k).

(** The block for [<=]: the comparator becomes [>=], the bound and every
    coefficient change sign. *)
Definition pb_negate (clause : list Z) (coefs : gmap Z Z) (k comparator : Z)
  : gmap Z Z * Z * Z :=
  if bool_decide (comparator = 3) then
    (foldl (λ coefs elem,
              let var := to_int elem in
              <[var:=to_Int (default 0 (coefs !! var) * -1)]> coefs) coefs clause,
     to_int (- k), 1)
  else (coefs, k, comparator).

(** The second and the third loop: the negative coefficients move to the
    negated variables, and the clause follows. *)
Definition pb_absorb (clause : list Z) (coefs : gmap Z Z) (k comparator : Z)
  : list Z * gmap Z Z * Z * Z :=
  let '(coefs, tempVar, k) := foldl pb_flip (coefs, [], k) clause in
  let clause := foldl (λ clause var, set_erase (to_Int (- var)) (set_insert var clause))
                      clause tempVar in
  (clause, coefs, k, comparator).

Definition PB_canonicalize (clause : list Z) (coefs : gmap Z Z) (k comparator : Z)
  : list Z * gmap Z Z * Z * Z :=
  let '(coefs, k, comparator) := pb_negate clause coefs k comparator in
  pb_absorb clause coefs k comparator.

(** ** The parser [Cnf::Cnf(string filePath)] *)

(** What the constructor changes outside the object: the global
    [minMaxsatSolving], and [cout], of which the model keeps the warnings
    (line index and line) that [EmptyClauseException] prints. *)
Record World := { minMaxsatSolving : bool; cout : list (Z * string) }.

Definition PM (A : Type) : Type := World → result A * World.

Definition pm_bind {A B} (m : PM A) (k : A → PM B) : PM B :=
  λ world, match m world with
           | (Ret a, world') => k a world'
           | (Throw e, world') => (Throw e, world')
           end.

Definition lift {A} (r : result A) : PM A := λ world, (r, world).

Notation "'do*' x ':=' e 'in' k" := (pm_bind e (λ x, k))
  (at level 10, x pattern, e at level 100, k at level 200).

Fixpoint pm_foldl {A B} (f : B → A → PM B) (b : B) (l : list A) : PM B :=
  match l with
  | [] => lift (Ret b)
  | x :: l' => do* b' := f b x in pm_foldl f b' l'
  end.

(** [throw EmptyClauseException(lineIndex, line)]: the constructor prints the
    warning, then the exception leaves. *)
Definition throw_EmptyClauseException {A} (lineIndex : Z) (line : string) : PM A :=
  λ world, (Throw EmptyClauseException,
            {| minMaxsatSolving := minMaxsatSolving world;
               cout := cout world ++ [(lineIndex, line)] |}).

Definition set_minMaxsatSolving (b : bool) : PM unit :=
  λ world, (Ret (), {| minMaxsatSolving := b; cout := cout world |}).

(** The locals of the constructor, and the object under construction. *)
Record ParseState := {
  this : Cnf;
  declaredClauseCount : Z;
  processedClauseCount : Z;
  problemLineIndex : Z;
  wcnfFlag : bool;
  hwcnfFlag : bool
}.

Definition Cnf_empty : Cnf :=
  {| declaredVarCount := declaredVarCount_init; clauses := []; types := [];
     weights := []; coefLists := []; comparators := []; klist := [];
     literalWeights := ∅; additiveVars := []; varToClauses := [];
     apparentVars := []; trivialBoundPartialMaxSAT := trivialBoundPartialMaxSAT_init |}.

Definition set_header (declared top : Z) (cnf : Cnf) : Cnf :=
  {| declaredVarCount := declared; clauses := clauses cnf; types := types cnf;
     weights := weights cnf; coefLists := coefLists cnf; comparators := comparators cnf;
     klist := klist cnf; literalWeights := literalWeights cnf;
     additiveVars := additiveVars cnf; varToClauses := varToClauses cnf;
     apparentVars := apparentVars cnf; trivialBoundPartialMaxSAT := top |}.

Definition set_literalWeights (lw : gmap Z Number) (cnf : Cnf) : Cnf :=
  {| declaredVarCount := declaredVarCount cnf; clauses := clauses cnf; types := types cnf;
     weights := weights cnf; coefLists := coefLists cnf; comparators := comparators cnf;
     klist := klist cnf; literalWeights := lw;
     additiveVars := additiveVars cnf; varToClauses := varToClauses cnf;
     apparentVars := apparentVars cnf;
     trivialBoundPartialMaxSAT := trivialBoundPartialMaxSAT cnf |}.

Definition set_additiveVars (s : list Z) (cnf : Cnf) : Cnf :=
  {| declaredVarCount := declaredVarCount cnf; clauses := clauses cnf; types := types cnf;
     weights := weights cnf; coefLists := coefLists cnf; comparators := comparators cnf;
     klist := klist cnf; literalWeights := literalWeights cnf;
     additiveVars := s; varToClauses := varToClauses cnf;
     apparentVars := apparentVars cnf;
     trivialBoundPartialMaxSAT := trivialBoundPartialMaxSAT cnf |}.

Definition set_this (cnf : Cnf) (st : ParseState) : ParseState :=
  {| this := cnf; declaredClauseCount := declaredClauseCount st;
     processedClauseCount := processedClauseCount st;
     problemLineIndex := problemLineIndex st;
     wcnfFlag := wcnfFlag st; hwcnfFlag := hwcnfFlag st |}.

Definition vec_size {A} (v : list A) : Z := Z.of_nat (length v).

(** *** Problem lines *)

Definition parse_problem_line (lineIndex : Z) (words : list string) (st : ParseState)
  : result ParseState :=
  if bool_decide (problemLineIndex st ≠ MIN_INT) then Throw (MyError "multiple problem lines: ")
  else if bool_decide (vec_size words < 4) then Throw (MyError "problem line ")
  else
    let* w2 := vec_at words 2 in
    let* declared := stoll w2 in
    let* w3 := vec_at words 3 in
    let* declaredClauses := stoll w3 in
    let* w1 := vec_at words 1 in
    let hwcnf := str_eqb w1 "hwcnf" in
    let wcnf := str_eqb w1 "wcnf" || hwcnf in
    let* top :=
      if wcnf && bool_decide (vec_size words = 5)
      then (let* w4 := vec_at words 4 in stoll w4)
      else Ret (trivialBoundPartialMaxSAT (this st)) in
    Ret {| this := set_header declared top (this st);
           declaredClauseCount := declaredClauses;
           processedClauseCount := processedClauseCount st;
           problemLineIndex := lineIndex;
           wcnfFlag := wcnf; hwcnfFlag := hwcnf |}.

(** The problem line of a WBO/PBO file. *)
Definition parse_wbo_line (lineIndex : Z) (words : list string) (st : ParseState)
  : result ParseState :=
  let* w2 := vec_at words 2 in
  let* declared := stoll w2 in
  let* w4 := vec_at words 4 in
  let* declaredClauses := stoll w4 in
  let* w12 := vec_at words 12 in
  let* top := stoll w12 in
  Ret {| this := set_header declared top (this st);
         declaredClauseCount := declaredClauses;
         processedClauseCount := processedClauseCount st;
         problemLineIndex := lineIndex;
         wcnfFlag := wcnfFlag st; hwcnfFlag := hwcnfFlag st |}.

(** *** Weight lines and show lines *)

Definition is_weight_line (words : list string) : result bool :=
  if negb weightedCounting then Ret false
  else
    let* w0 := vec_at words 0 in
    if str_eqb w0 "w" then Ret true
    else if negb (bool_decide (vec_size words > 4)) then Ret false
    else
      let* w1 := vec_at words 1 in
      if negb (str_eqb w1 "p") then Ret false
      else let* w2 := vec_at words 2 in Ret (str_eqb w2 "weight").

Definition parse_weight_line (words : list string) (st : ParseState) : result ParseState :=
  if bool_decide (problemLineIndex st = MIN_INT)
  then Throw (MyError "no problem line before weighted literal | line ")
  else
    let* w0 := vec_at words 0 in
    let isW := str_eqb w0 "w" in
    let* wl := vec_at words (if isW then 1 else 3) in
    let* literal := stoll wl in
    if bool_decide (Z.abs literal > declaredVarCount (this st)) then Throw (MyError "literal '")
    else
      let* ww := vec_at words (if isW then 2 else 4) in
      let* weight := Number_of_string ww in
      if Number_lt weight Number_default
      then Throw (MyError "weight must be non-negative | line ")
      else Ret (set_this (set_literalWeights (<[literal:=weight]> (literalWeights (this st)))
                                             (this st)) st).

Definition is_show_line (words : list string) : result bool :=
  if negb (projectedCounting || maxsatSolving) then Ret false
  else
    let* w0 := vec_at words 0 in
    if str_eqb w0 "vp" || str_eqb w0 "vm" then Ret true
    else if negb (bool_decide (vec_size words > 3)) then Ret false
    else
      let* w1 := vec_at words 1 in
      if negb (str_eqb w1 "p") then Ret false
      else let* w2 := vec_at words 2 in Ret (str_eqb w2 "show").

(** One round of the loop over the words of a show line. *)
Definition show_word (words : list string) (declared : Z) (additive : list Z) (i : Z)
  : PM (list Z) :=
  do* _ := set_minMaxsatSolving maxsatSolving in
  do* w := lift (vec_at words i) in
  do* num := lift (stoll w) in
  if bool_decide (num = 0) then
    if bool_decide (i ≠ vec_size words - 1)
    then lift (Throw (MyError "additive vars terminated prematurely by '0' | line "))
    else lift (Ret additive)
  else if bool_decide (num < 0) || bool_decide (num > declared)
  then lift (Throw (MyError "var '"))
  else lift (Ret (set_insert num additive)).

Definition parse_show_line (words : list string) (st : ParseState) : PM ParseState :=
  if bool_decide (problemLineIndex st = MIN_INT)
  then lift (Throw (MyError "no problem line before projected var | line "))
  else
    do* w0 := lift (vec_at words 0) in
    let start := if str_eqb w0 "vp" || str_eqb w0 "vm" then 1 else 3 in
    do* additive :=
      pm_foldl (show_word words (declaredVarCount (this st)))
               (additiveVars (this st)) (seqZ start (vec_size words - start)) in
    lift (Ret (set_this (set_additiveVars additive (this st)) st)).

(** *** Constraint lines *)

(** The state of the loop over the words of a clause line: [type], [weight],
    [clause], and the object with [processedClauseCount]. *)
Definition ClauseLoop : Type := ascii * spec_float * list Z * ParseState.

Definition add_parsed_clause (clause : list Z) (type : ascii) (weight : spec_float)
    (st : ParseState) : ParseState :=
  {| this := addClause clause type weight addClause_comparator addClause_coefs addClause_k (this st);
     declaredClauseCount := declaredClauseCount st;
     processedClauseCount := processedClauseCount st + 1;
     problemLineIndex := problemLineIndex st;
     wcnfFlag := wcnfFlag st; hwcnfFlag := hwcnfFlag st |}.

(** One round of the loop over the words of a CNF or XOR line. [catchWeight]
    is false in the hybrid branch, which has no weight word of this kind. *)
Definition clause_word (catchWeight : bool) (lineIndex : Z) (line : string)
    (words : list string) (acc : ClauseLoop) (i : Z) : PM ClauseLoop :=
  let '(type, weight, clause, st) := acc in
  do* w := lift (vec_at words i) in
  if str_eqb w "x" then lift (Ret ("x"%char, weight, clause, st))
  else if catchWeight && wcnfFlag st &&
          ((bool_decide (type = "c"%char) && bool_decide (i = 0)) ||
           (bool_decide (type = "x"%char) && bool_decide (i = 1)))
  then do* weight := lift (stod w) in lift (Ret (type, weight, clause, st))
  else
    do* num := lift (stoll w) in
    if bool_decide (num > declaredVarCount (this st)) ||
       bool_decide (num < - declaredVarCount (this st))
    then lift (Throw (MyError "literal '"))
    else if bool_decide (num = 0) then
      if bool_decide (i ≠ vec_size words - 1)
      then lift (Throw (MyError "clause terminated prematurely by '0' | line "))
      else if bool_decide (clause = []) then throw_EmptyClauseException lineIndex line
      else lift (Ret (type, weight, clause, add_parsed_clause clause type weight st))
    else
      if bool_decide (i = vec_size words - 1)
      then lift (Throw (MyError "missing end-of-clause indicator '0' | line "))
      else lift (Ret (type, weight, set_insert num clause, st)).

Definition parse_clause_words (catchWeight : bool) (lineIndex : Z) (line : string)
    (words : list string) (weight : spec_float) (st : ParseState) : PM ParseState :=
  do* acc := pm_foldl (clause_word catchWeight lineIndex line words)
                      ("c"%char, weight, [], st) (seqZ 0 (vec_size words)) in
  lift (Ret acc.2).

(** One term [coef x<var>] of a PB constraint. *)
Definition pb_term (words : list string) (acc : list Z * gmap Z Z) (i : Z)
  : result (list Z * gmap Z Z) :=
  let '(clause, coefs) := acc in
  let* str := vec_at words (i * 2 + 1) in
  let* digits := substr str 1 (Z.of_nat (String.length str)) in
  let* var := stoll digits in
  let* cw := vec_at words (i * 2) in
  let* coef := stoi cw in
  Ret (set_insert var clause,
       match coefs !! var with Some _ => coefs | None => <[var:=coef]> coefs end).

(** The terms, the comparator and the bound of a PB line, canonicalized and
    added.  The bound of the loop is a [size_t]: with fewer than three words
    it has wrapped, and the loop runs until [words.at] throws, which it does
    within [words.size()] rounds. *)
Definition parse_pb (words : list string) (weight : spec_float) (st : ParseState)
  : result ParseState :=
  let bound := ((vec_size words - 3) `mod` 2 ^ 64) `div` 2 in
  let* (clause, coefs) :=
    foldlM (pb_term words) ([], ∅) (seqZ 0 (Z.min bound (vec_size words))) in
  let* comparator_string := vec_at words (vec_size words - 3) in
  let* kw := vec_at words (vec_size words - 2) in
  let* k := stoi kw in
  let comparator :=
    if str_eqb comparator_string ">=" then 1
    else if str_eqb comparator_string "=" then 2
    else if str_eqb comparator_string "<=" then 3
    else 0 in
  let '(clause, coefs, k, comparator) := PB_canonicalize clause coefs k comparator in
  Ret (set_this (addClause clause "p"%char weight comparator coefs k (this st)) st).

(** [stod(firstWord.substr(1, firstWord.length() - 2))] *)
Definition bracket_weight (firstWord : string) : result spec_float :=
  let* inner := substr firstWord 1 (Z.of_nat (String.length firstWord) - 2) in
  stod inner.

Definition parse_constraint_line (lineIndex : Z) (line : string) (words : list string)
    (st : ParseState) : PM ParseState :=
  if bool_decide (problemLineIndex st = MIN_INT)
  then lift (Throw (MyError "no problem line before clause | line "))
  else
    let weight := double_of_Int 1 in
    if hwcnfFlag st then
      do* firstWord := lift (vec_at words 0) in
      do* weight := lift (bracket_weight firstWord) in
      let words := drop 1 words in
      do* w1 := lift (vec_at words 1) in
      if starts_with w1 "x" then lift (parse_pb words weight st)
      else parse_clause_words false lineIndex line words weight st
    else
      do* w0 := lift (vec_at words 0) in
      do* isPb :=
        (if starts_with w0 "[" then lift (Ret true)
         else do* w1 := lift (vec_at words 1) in lift (Ret (starts_with w1 "x"))) in
      if (isPb : bool) then
        if starts_with w0 "[" then
          do* weight := lift (bracket_weight w0) in
          lift (parse_pb (drop 1 words) weight st)
        else
          lift (parse_pb words
                  (double_of_Int (to_Int (trivialBoundPartialMaxSAT (this st) + 1))) st)
      else parse_clause_words true lineIndex line words weight st.

(** *** One line, and the whole file *)

Definition parse_line (lineIndex : Z) (line : string) (st : ParseState) : PM ParseState :=
  let words := util.splitInputLine line in
  match words with
  | [] => lift (Ret st)
  | front :: _ =>
      if str_eqb front "p" then lift (parse_problem_line lineIndex words st)
      else
        do* isWbo :=
          (if str_eqb front "*"
           then do* w1 := lift (vec_at words 1) in lift (Ret (str_eqb w1 "#variable="))
           else lift (Ret false)) in
        if (isWbo : bool) then lift (parse_wbo_line lineIndex words st)
        else if bool_decide (front ∈ ["w"; "vp"; "c"; "vm"]) then
          do* isWeight := lift (is_weight_line words) in
          if (isWeight : bool) then lift (parse_weight_line words st)
          else
            do* isShow := lift (is_show_line words) in
            if (isShow : bool) then parse_show_line words st else lift (Ret st)
        else if bool_decide (front ∈ ["s"; "INDETERMINATE"])
        then lift (Throw (MyError "unexpected output from preprocessor pmc | line "))
        else if negb (starts_with front "c") && negb (starts_with front "*")
                && negb (starts_with front "soft")
        then parse_constraint_line lineIndex line words st
        else lift (Ret st)
  end.

(** The [while (getline(...))] loop; [lineIndex] is its value before the
    [lineIndex++] of the round. *)
Fixpoint parse_from (lineIndex : Z) (lines : list string) (st : ParseState)
  : PM ParseState :=
  match lines with
  | [] => lift (Ret st)
  | line :: lines' =>
      do* st := parse_line (lineIndex + 1) line st in
      parse_from (lineIndex + 1) lines' st
  end.

Definition parse_lines (lines : list string) (st : ParseState) : PM ParseState :=
  parse_from 0 lines st.

Definition ParseState_init : ParseState :=
  {| this := Cnf_empty; declaredClauseCount := MIN_INT; processedClauseCount := 0;
     problemLineIndex := MIN_INT; wcnfFlag := false; hwcnfFlag := false |}.

(** [assert(w <= Number("1"))], compiled in under [logCounting] only. *)
Definition assert_at_most_one (w : Number) : result unit :=
  if logCounting then
    let* one := Number_of_string "1" in
    if Number_le w one then Ret () else Throw AssertionFailure
  else Ret ().

Definition set_both_one (var : Z) (lw : gmap Z Number) : result (gmap Z Number) :=
  let* one := Number_of_string "1" in
  let lw := <[var:=one]> lw in
  let* one := Number_of_string "1" in
  Ret (<[- var:=one]> lw).

(** One round of the loop that fills [literalWeights] for [var]. *)
Definition complete_var (lw : gmap Z Number) (var : Z) : result (gmap Z Number) :=
  if negb weightedCounting then set_both_one var lw
  else
    match lw !! var, lw !! (- var) with
    | None, None => set_both_one var lw
    | None, Some wNeg =>
        let* _ := assert_at_most_one wNeg in
        let* one := Number_of_string "1" in
        let* d := Number_sub one wNeg in
        Ret (<[var:=d]> lw)
    | Some wPos, None =>
        let* _ := assert_at_most_one wPos in
        let* one := Number_of_string "1" in
        let* d := Number_sub one wPos in
        Ret (<[- var:=d]> lw)
    | Some _, Some _ => Ret lw
    end.

(** What the constructor does after the last line. *)
Definition finish (st : ParseState) : result Cnf :=
  if bool_decide (problemLineIndex st = MIN_INT)
  then Throw (MyError "no problem line before cnf file ends on line ")
  else
    let cnf := setApparentVars (this st) in
    let cnf :=
      if negb projectedCounting && negb maxsatSolving
      then set_additiveVars (foldl (λ s var, set_insert var s) (additiveVars cnf)
                                   (seqZ 1 (declaredVarCount cnf))) cnf
      else cnf in
    let* lw := foldlM complete_var (literalWeights cnf) (seqZ 1 (declaredVarCount cnf)) in
    Ret (set_literalWeights lw cnf).

(** [Cnf::Cnf(filePath)] on a file that opens and holds [lines]. *)
Definition Cnf_ctor (lines : list string) : PM Cnf :=
  do* st := parse_lines lines ParseState_init in
  lift (finish st).

(** ** class Assignment *)

Definition Assignment_ctor (var : Z) (val : bool) : gmap Z bool := <[var:=val]> ∅.

Definition extendAssignments (assignments : list (gmap Z bool)) (var : Z)
  : list (gmap Z bool) :=
  match assignments with
  | [] => [] ++ [Assignment_ctor var false] ++ [Assignment_ctor var true]
  | _ :: _ =>
      foldl (λ extendedAssignments assignment,
               let assignment := <[var:=false]> assignment in
               let extendedAssignments := extendedAssignments ++ [assignment] in
               let assignment := <[var:=true]> assignment in
               extendedAssignments ++ [assignment])
            [] assignments
  end.

(** ** The join tree *)

(** A node with the members of the base class; the constructor of the model
    is the dynamic class.  The static [JoinNode::cnf] and
    [JoinNode::terminalCount] are arguments of the methods that read them. *)
#[warnings="-register-all"]
Inductive JoinNode :=
| JoinTerminal (nodeIndex : Z) (preProjectionVars projectionVars : list Z)
| JoinNonterminal (nodeIndex : Z) (preProjectionVars projectionVars : list Z)
    (children : list JoinNode).

Definition nodeIndex (node : JoinNode) : Z :=
  match node with JoinTerminal i _ _ | JoinNonterminal i _ _ _ => i end.

Definition preProjectionVars (node : JoinNode) : list Z :=
  match node with JoinTerminal _ p _ | JoinNonterminal _ p _ _ => p end.

Definition projectionVars (node : JoinNode) : list Z :=
  match node with JoinTerminal _ _ p | JoinNonterminal _ _ p _ => p end.

Definition getPostProjectionVars (node : JoinNode) : list Z :=
  util.getDiff (preProjectionVars node) (set_contains (projectionVars node)).

(** The loop of [chooseClusterIndex] from [target] on; [sets] is what is left
    of [projectableVarSets] from that index. *)
Fixpoint cluster_scan (postProjectionVars : list Z) (sets : list (list Z)) (target : Z)
  : option Z :=
  match sets with
  | [] => None
  | s :: sets' =>
      if negb (util.isDisjoint postProjectionVars s) then Some target
      else cluster_scan postProjectionVars sets' (target + 1)
  end.

Definition chooseClusterIndex (node : JoinNode) (clusterIndex : Z)
    (projectableVarSets : list (list Z)) (clusteringHeuristic : string) : result Z :=
  if bool_decide (clusterIndex < 0) || bool_decide (clusterIndex >= vec_size projectableVarSets)
  then Throw (MyError "clusterIndex == ")
  else
    let projectableVars := util.getUnion projectableVarSets in
    let postProjectionVars := getPostProjectionVars node in
    if util.isDisjoint projectableVars postProjectionVars
    then Ret (vec_size projectableVarSets)
    else if str_eqb clusteringHeuristic BUCKET_LIST || str_eqb clusteringHeuristic BOUQUET_LIST
    then Ret (clusterIndex + 1)
    else
      match cluster_scan postProjectionVars
              (drop (Z.to_nat (clusterIndex + 1)) projectableVarSets) (clusterIndex + 1) with
      | Some target => Ret target
      | None => Ret (vec_size projectableVarSets)
      end.

Definition getNodeRank (node : JoinNode) (restrictedVarOrder : list Z)
    (clusteringHeuristic : string) : Z :=
  let postProjectionVars := getPostProjectionVars node in
  let ranked := zip (seqZ 0 (vec_size restrictedVarOrder)) restrictedVarOrder in
  if str_eqb clusteringHeuristic BUCKET_LIST || str_eqb clusteringHeuristic BUCKET_TREE then
    let rank := foldl (λ rank rv, if set_contains postProjectionVars rv.2
                                  then Z.min rank rv.1 else rank) MAX_INT ranked in
    if bool_decide (rank = MAX_INT) then vec_size restrictedVarOrder else rank
  else
    let rank := foldl (λ rank rv, if set_contains postProjectionVars rv.2
                                  then Z.max rank rv.1 else rank) MIN_INT ranked in
    if bool_decide (rank = MIN_INT) then vec_size restrictedVarOrder else rank.

Definition isTerminal (terminalCount : Z) (node : JoinNode) : bool :=
  bool_decide (nodeIndex node < terminalCount).

(** [getWidth], for both classes. *)
Fixpoint getWidth (node : JoinNode) (assignment : gmap Z bool) : Z :=
  let own := vec_size (util.getDiff (preProjectionVars node)
                                    (λ v, bool_decide (is_Some (assignment !! v)))) in
  match node with
  | JoinTerminal _ _ _ => own
  | JoinNonterminal _ _ _ children =>
      foldl (λ width child, Z.max width (getWidth child assignment)) own children
  end.

(** [varSizes[var] = max(varSizes[var], n)] *)
Definition bump_size (n : Z) (varSizes : list (Z * Z)) (var : Z) : list (Z * Z) :=
  map_assign var (Z.max (default 0 (map_find varSizes var)) n) varSizes.

(** [updateVarSizes], for both classes. *)
Fixpoint updateVarSizes (cnf : Cnf) (node : JoinNode) (varSizes : list (Z * Z))
  : result (list (Z * Z)) :=
  match node with
  | JoinTerminal nodeIndex _ _ =>
      let* clause := vec_at (clauses cnf) nodeIndex in
      let vars := getClauseVars clause in
      Ret (foldl (bump_size (vec_size vars)) varSizes vars)
  | JoinNonterminal _ preProjectionVars _ children =>
      let varSizes := foldl (bump_size (vec_size preProjectionVars)) varSizes preProjectionVars in
      (fix each (cs : list JoinNode) (varSizes : list (Z * Z)) : result (list (Z * Z)) :=
         match cs with
         | [] => Ret varSizes
         | child :: cs' => let* varSizes := updateVarSizes cnf child varSizes in each cs' varSizes
         end) children varSizes
  end.

(** Modelled from the spec: [util::flipMap] of [logic.hh], which turns the
    map into a multimap from size (descending) to variable, equal sizes in
    the order of the map. *)
Definition flipMap (inMap : list (Z * Z)) : list (Z * Z) :=
  foldl (λ m kv, multimap_insert (kv.2, kv.1) m) [] inMap.

Definition getBiggestNodeVarOrder (cnf : Cnf) (node : JoinNode) : result (list Z) :=
  let varSizes := foldl (λ m var, map_assign var 0 m) [] (apparentVars cnf) in
  let* varSizes := updateVarSizes cnf node varSizes in
  Ret (flipMap varSizes).*2.

(** The queue loop of [getHighestNodeVarOrder].  The queue holds
    [JoinNonterminal] pointers made by [static_cast] from children that are
    not [isTerminal()]. *)
Fixpoint highest_loop (terminalCount : Z) (fuel : nat) (q : list JoinNode)
    (varOrder : list Z) : result (list Z) :=
  match q with
  | [] => Ret varOrder
  | n :: q' =>
      match fuel, n with
      | S fuel', JoinNonterminal _ _ projectionVars children =>
          highest_loop terminalCount fuel'
            (q' ++ filter (λ child, isTerminal terminalCount child = false) children)
            (varOrder ++ projectionVars)
      | S _, JoinTerminal _ _ _ => Throw (Stuck "static_cast of a terminal")
      | O, _ => Throw (Stuck "getHighestNodeVarOrder: fuel")
      end
  end.

Fixpoint nodeCount_of (node : JoinNode) : nat :=
  match node with
  | JoinTerminal _ _ _ => 1
  | JoinNonterminal _ _ _ children => S (foldr (λ c n, nodeCount_of c + n)%nat 0%nat children)
  end.

Definition getHighestNodeVarOrder (terminalCount : Z) (node : JoinNode) : result (list Z) :=
  highest_loop terminalCount (nodeCount_of node) [node] [].

(** Modelled from the spec: [CNF_VAR_ORDER_HEURISTICS] of [logic.hh] holds
    the codes of the seven heuristics of [Cnf]. *)
Definition CNF_VAR_ORDER_HEURISTICS : list Z :=
  [RANDOM; DECLARED; MOST_CLAUSES; MINFILL; MCS; LEXP; LEXM].

Definition getVarOrder (cnf : Cnf) (terminalCount : Z) (node : JoinNode)
    (varOrderHeuristic : Z) : result (list Z) :=
  if set_contains CNF_VAR_ORDER_HEURISTICS (Z.abs varOrderHeuristic)
  then getCnfVarOrder cnf varOrderHeuristic
  else
    let* varOrder :=
      if bool_decide (Z.abs varOrderHeuristic = BIGGEST_NODE)
      then getBiggestNodeVarOrder cnf node
      else if bool_decide (Z.abs varOrderHeuristic = HIGHEST_NODE)
      then getHighestNodeVarOrder terminalCount node
      else Throw AssertionFailure in
    Ret (if bool_decide (varOrderHeuristic < 0) then rev varOrder else varOrder).

(** The loop of [getAdditiveAssignments] over what is left of [varOrder]. *)
Fixpoint slice_loop (cnf : Cnf) (sliceVarCount : Z) (varOrder : list Z) (assignedVars : Z)
    (assignments : list (gmap Z bool)) : list (gmap Z bool) :=
  match varOrder with
  | [] => assignments
  | var :: varOrder' =>
      if bool_decide (assignedVars < sliceVarCount) then
        if set_contains (additiveVars cnf) var
        then slice_loop cnf sliceVarCount varOrder' (assignedVars + 1)
                        (extendAssignments assignments var)
        else slice_loop cnf sliceVarCount varOrder' assignedVars assignments
      else assignments
  end.

Definition getAdditiveAssignments (cnf : Cnf) (terminalCount : Z) (node : JoinNode)
    (varOrderHeuristic sliceVarCount : Z) : result (list (gmap Z bool)) :=
  if bool_decide (sliceVarCount ≤ 0) then Ret [∅]
  else
    let* varOrder := getVarOrder cnf terminalCount node varOrderHeuristic in
    Ret (slice_loop cnf sliceVarCount varOrder 0 []).

(** ** Vocabulary of the statements *)

(** Modelled from the spec: the meaning of a PB constraint, which
    [logic.cc] stores and hands to the diagram layer.  A positive member [v]
    of the clause is the variable [x_v], a negative member [-v] is its
    negation [1 - x_v]; the constraint compares the sum of the coefficients
    of the true literals with [k], by [>=] (1), [=] (2) or [<=] (3). *)
Definition literal_value (x : Z → bool) (l : Z) : Z :=
  if bool_decide (0 < l) then (if x l then 1 else 0) else (if x (- l) then 0 else 1).

Definition pb_sum (x : Z → bool) (clause : list Z) (coefs : gmap Z Z) : Z :=
  foldr (λ l s, default 0 (coefs !! l) * literal_value x l + s) 0 clause.

Definition pb_sat (x : Z → bool) (c : list Z * gmap Z Z * Z * Z) : bool :=
  let '(clause, coefs, k, comparator) := c in
  if bool_decide (comparator = 1) then bool_decide (k ≤ pb_sum x clause coefs)
  else if bool_decide (comparator = 2) then bool_decide (pb_sum x clause coefs = k)
  else if bool_decide (comparator = 3) then bool_decide (pb_sum x clause coefs ≤ k)
  else false.

(** The bound of a canonicalized PB constraint, computed in [Z]: the bound
    (negated for [<=]) minus the negative coefficients (after the negation
    for [<=]). *)
Definition pb_sign (comparator : Z) : Z := if bool_decide (comparator = 3) then -1 else 1.

Definition neg_sum (coefs : gmap Z Z) (clause : list Z) : Z :=
  foldr (λ v s, Z.min 0 (default 0 (coefs !! v)) + s) 0 clause.

Definition pb_bound (clause : list Z) (coefs : gmap Z Z) (k comparator : Z) : Z :=
  pb_sign comparator * k - neg_sum (Z.mul (pb_sign comparator) <$> coefs) clause.

(** A PB constraint as the grammar of the input gives it: variables
    [x1, x2, ...] that fit the [int] of the loops, each with one coefficient
    that [stoi] has read (and whose negation is an [int]), a bound that
    [stoi] has read (and whose negation is an [int]), and one of the three
    comparators. *)
Definition pb_wf (clause : list Z) (coefs : gmap Z Z) (k comparator : Z) : Prop :=
  NoDup clause
  ∧ (∀ v, v ∈ clause → 1 ≤ v < 2 ^ 31)
  ∧ (∀ v, v ∈ clause ↔ is_Some (coefs !! v))
  ∧ (∀ v c, coefs !! v = Some c → - 2 ^ 31 < c < 2 ^ 31)
  ∧ - 2 ^ 31 < k < 2 ^ 31
  ∧ (comparator = 1 ∨ comparator = 2 ∨ comparator = 3).

(** What the second loop has to find for the members [R] it has yet to
    visit: a coefficient for each, and none for its negation. *)
Definition flip_pre (coefs : gmap Z Z) (R : list Z) : Prop :=
  NoDup R
  ∧ ∀ v, v ∈ R → 1 ≤ v < 2 ^ 31 ∧ coefs !! (- v) = None
                 ∧ ∃ c, coefs !! v = Some c ∧ - 2 ^ 31 < c < 2 ^ 31.

(** [v] is in the neighbour set of [u]. *)
Definition edge (g : Graph) (u v : Z) : Prop :=
  ∃ s, map_find (adjacencyMap g) u = Some s ∧ v ∈ s.

(** The invariant of [Graph]: the vertices are the keys of the adjacency
    map, the sets hold no element twice, and adjacency is symmetric (so that
    every neighbour is a vertex). *)
Definition Graph_inv (g : Graph) : Prop :=
  NoDup (vertices g)
  ∧ (∀ v, v ∈ vertices g ↔ is_Some (map_find (adjacencyMap g) v))
  ∧ (∀ u s, map_find (adjacencyMap g) u = Some s → NoDup s)
  ∧ (∀ u v, edge g u v → edge g v u).

(** The invariant of a parsed [Cnf] that the variable orders rely on: the
    apparent variables are the keys of [varToClauses], without repetition;
    they are the variables of the clauses; and they lie in
    [1..declaredVarCount]. *)
Definition Cnf_wf (cnf : Cnf) : Prop :=
  NoDup (apparentVars cnf)
  ∧ NoDup (map_keys (varToClauses cnf))
  ∧ Forall (λ v, v ∈ map_keys (varToClauses cnf)) (apparentVars cnf)
  ∧ Forall (λ v, v ∈ apparentVars cnf) (map_keys (varToClauses cnf))
  ∧ Forall (λ clause, Forall (λ l, Z.abs l ∈ apparentVars cnf) clause) (clauses cnf)
  ∧ Forall (λ v, 1 ≤ v ≤ declaredVarCount cnf) (apparentVars cnf).

(** The part of [Cnf_wf] that does not involve [declaredVarCount]: the
    apparent variables are the keys of [varToClauses], without repetition,
    and the variables of the clauses are among them. *)
Definition Cnf_vars_wf (cnf : Cnf) : Prop :=
  NoDup (apparentVars cnf)
  ∧ NoDup (map_keys (varToClauses cnf))
  ∧ Forall (λ v, v ∈ map_keys (varToClauses cnf)) (apparentVars cnf)
  ∧ Forall (λ v, v ∈ apparentVars cnf) (map_keys (varToClauses cnf))
  ∧ Forall (λ clause, Forall (λ l, Z.abs l ∈ apparentVars cnf) clause) (clauses cnf).

(** The number of additive variables met in a variable order. *)
Definition additive_count (cnf : Cnf) (varOrder : list Z) : nat :=
  length (filter (λ v, v ∈ additiveVars cnf) varOrder).

(** A sequence of calls on a graph. *)
Inductive GraphCall :=
| call_addEdge (v1 v2 : Z)
| call_removeVertex (v : Z).

Definition run_call (g : Graph) (c : GraphCall) : result Graph :=
  match c with
  | call_addEdge v1 v2 => addEdge v1 v2 g
  | call_removeVertex v => Ret (removeVertex v g)
  end.

Definition run_calls (vs : list Z) (calls : list GraphCall) : result Graph :=
  foldlM run_call (Graph_ctor vs) calls.

(** The three shapes of a show line, with at least one word after the
    keyword. *)
Definition show_shape (words : list string) : Prop :=
  ∃ w rest, words = "vp" :: w :: rest ∨ words = "vm" :: w :: rest
            ∨ words = "c" :: "p" :: "show" :: w :: rest.

(** What the completion of [literalWeights] leaves for the variable [v],
    given the weights [supplied] by the weight lines. *)
Definition completed (supplied lw : gmap Z Number) (v : Z) : Prop :=
  if weightedCounting then
    match supplied !! v, supplied !! (- v) with
    | None, None =>
        ∃ one, Number_of_string "1" = Ret one ∧ lw !! v = Some one ∧ lw !! (- v) = Some one
    | Some wPos, None =>
        ∃ one d, Number_of_string "1" = Ret one ∧ Number_sub one wPos = Ret d
                 ∧ lw !! v = Some wPos ∧ lw !! (- v) = Some d
    | None, Some wNeg =>
        ∃ one d, Number_of_string "1" = Ret one ∧ Number_sub one wNeg = Ret d
                 ∧ lw !! v = Some d ∧ lw !! (- v) = Some wNeg
    | Some wPos, Some wNeg => lw !! v = Some wPos ∧ lw !! (- v) = Some wNeg
    end
  else ∃ one, Number_of_string "1" = Ret one ∧ lw !! v = Some one ∧ lw !! (- v) = Some one.

Definition no_ece {A} (r : result A) : Prop := r ≠ Throw EmptyClauseException.

(** The library functions do not throw the parser's own exception. *)
Definition lib_ok : Prop :=
  ∀ s, no_ece (stod s) ∧ no_ece (stold s) ∧ no_ece (mpq_class_of_string s)
       ∧ no_ece (mpq_class_of_mpf_string s).

(** A step of the parser on the line [line] prints the warning of
    [EmptyClauseException] when it throws it, and nothing otherwise. *)
Definition warns_iff_empty {A} (lineIndex : Z) (line : string) (m : PM A) : Prop :=
  ∀ w, (m w).1 = Throw EmptyClauseException ∧ cout (m w).2 = cout w ++ [(lineIndex, line)]
       ∨ (m w).1 ≠ Throw EmptyClauseException ∧ cout (m w).2 = cout w.

(** Two sets of variables share no member. *)
Definition disjoint_sets (s1 s2 : list Z) : Prop := ∀ x, x ∈ s1 → x ∉ s2.

(** A label in descending order (equal numbers may repeat). *)
Fixpoint descending (l : list Z) : Prop :=
  match l with
  | [] => True
  | x :: l' => (∀ y, y ∈ l' → y ≤ x) ∧ descending l'
  end.

(** A word: not empty, and free of white space. *)
Definition is_word (w : string) : Prop :=
  w ≠ EmptyString ∧ ∀ c, c ∈ String.list_ascii_of_string w → util.isspace c = false.

(** The nodes of a subtree, the root first. *)
Fixpoint subnodes (node : JoinNode) : list JoinNode :=
  node :: match node with
          | JoinTerminal _ _ _ => []
          | JoinNonterminal _ _ _ children => flat_map subnodes children
          end.

(** The dynamic class of a node is [JoinTerminal]. *)
Definition is_JoinTerminal (node : JoinNode) : bool :=
  match node with JoinTerminal _ _ _ => true | JoinNonterminal _ _ _ _ => false end.

(** What [getHighestNodeVarOrder] relies on when it casts the children that
    are not [isTerminal()]: in the subtree, [isTerminal()] tells the class. *)
Definition classes_agree (terminalCount : Z) (node : JoinNode) : Prop :=
  Forall (λ n, isTerminal terminalCount n = is_JoinTerminal n) (subnodes node).

(** The variables of a node that [assignment] leaves unassigned: the first
    term of [getWidth]. *)
Definition unassigned (node : JoinNode) (assignment : gmap Z bool) : list Z :=
  util.getDiff (preProjectionVars node) (λ v, bool_decide (is_Some (assignment !! v))).

(** ** The static fields of [JoinNode] and the constructors of the nodes *)

Record Statics := {
  nodeCount : Z;
  terminalCount : Z;
  nonterminalIndices : list Z;
  backupNodeCount : Z;
  backupTerminalCount : Z;
  backupNonterminalIndices : list Z
}.

Definition resetStaticFields (s : Statics) : Statics :=
  {| nodeCount := 0; terminalCount := 0; nonterminalIndices := [];
     backupNodeCount := nodeCount s;
     backupTerminalCount := terminalCount s;
     backupNonterminalIndices := nonterminalIndices s |}.

Definition restoreStaticFields (s : Statics) : Statics :=
  {| nodeCount := backupNodeCount s;
     terminalCount := backupTerminalCount s;
     nonterminalIndices := backupNonterminalIndices s;
     backupNodeCount := backupNodeCount s;
     backupTerminalCount := backupTerminalCount s;
     backupNonterminalIndices := backupNonterminalIndices s |}.

(** [JoinTerminal::JoinTerminal()]: the counters are incremented before
    [cnf.clauses.at(nodeIndex)] can throw.  The result and the static fields
    the call leaves. *)
Definition JoinTerminal_ctor (cnf : Cnf) (s : Statics) : result JoinNode * Statics :=
  let index := terminalCount s in
  (let* clause := vec_at (clauses cnf) index in
   Ret (JoinTerminal index (getClauseVars clause) []),
   {| nodeCount := nodeCount s + 1;
      terminalCount := terminalCount s + 1;
      nonterminalIndices := nonterminalIndices s;
      backupNodeCount := backupNodeCount s;
      backupTerminalCount := backupTerminalCount s;
      backupNonterminalIndices := backupNonterminalIndices s |}).

(** [JoinNonterminal::JoinNonterminal(children, projectionVars,
    requestedNodeIndex)] *)
Definition JoinNonterminal_ctor (children : list JoinNode) (projection : list Z)
    (requestedNodeIndex : Z) (s : Statics) : result JoinNode * Statics :=
  let build (index : Z) :=
    (Ret (JoinNonterminal index
            (foldl (λ pre child, util.unionize pre (getPostProjectionVars child)) [] children)
            projection children),
     {| nodeCount := nodeCount s + 1;
        terminalCount := terminalCount s;
        nonterminalIndices := set_insert index (nonterminalIndices s);
        backupNodeCount := backupNodeCount s;
        backupTerminalCount := backupTerminalCount s;
        backupNonterminalIndices := backupNonterminalIndices s |}) in
  if bool_decide (requestedNodeIndex = MIN_INT) then build (nodeCount s)
  else if bool_decide (requestedNodeIndex < terminalCount s)
  then (Throw (MyError "requestedNodeIndex == "), s)
  else if set_contains (nonterminalIndices s) requestedNodeIndex
  then (Throw (MyError "requestedNodeIndex "), s)
  else build requestedNodeIndex.

(** A sequence of constructor calls, of which the nodes are dropped and the
    static fields kept. *)
Inductive NodeCall :=
| call_JoinTerminal
| call_JoinNonterminal (children : list JoinNode) (projection : list Z)
    (requestedNodeIndex : Z).

Definition run_node_call (cnf : Cnf) (s : Statics) (c : NodeCall) : Statics :=
  match c with
  | call_JoinTerminal => (JoinTerminal_ctor cnf s).2
  | call_JoinNonterminal children projection requestedNodeIndex =>
      (JoinNonterminal_ctor children projection requestedNodeIndex s).2
  end.

(** Every member of the list is [R]-related to the members after it. *)
Fixpoint ordered {A} (R : A → A → Prop) (l : list A) : Prop :=
  match l with
  | [] => True
  | x :: l' => (∀ y, y ∈ l' → R x y) ∧ ordered R l'
  end.

(** [x] is at an earlier position of [l] than [y]. *)
Definition before {A} (l : list A) (x y : A) : Prop :=
  ∃ p q : nat, (p < q)%nat ∧ l !! p = Some x ∧ l !! q = Some y.

(** ** Vocabulary for the parser *)

(** Whatever [r] returns satisfies [Q]. *)
Definition returns {A} (r : result A) (Q : A → Prop) : Prop :=
  ∀ a, r = Ret a → Q a.

Definition pm_returns {A} (m : PM A) (Q : A → Prop) : Prop :=
  ∀ world a world', m world = (Ret a, world') → Q a.

(** The words of a problem line: [p ...], or [* #variable= ...] of a WBO/PBO
    file. *)
Definition is_wbo_header (words : list string) : bool :=
  match words with
  | w0 :: w1 :: _ => str_eqb w0 "*" && str_eqb w1 "#variable="
  | _ => false
  end.

Definition is_header (words : list string) : bool :=
  match words with
  | w0 :: _ => str_eqb w0 "p" || is_wbo_header words
  | [] => false
  end.

(** A literal of a clause over [n] declared variables. *)
Definition literal_ok (n : Z) (l : Z) : Prop := l ≠ 0 ∧ - n ≤ l ≤ n.

(** The members of a [Cnf] that [addClause] keeps in step: one entry of
    [types], [weights], [coefLists], [comparators] and [klist] for each
    clause, and in [varToClauses], for each variable, the set (not empty, no
    index twice) of the indices of the clauses that hold a literal of it. *)
Definition Cnf_indexed (cnf : Cnf) : Prop :=
  length (types cnf) = length (clauses cnf)
  ∧ length (weights cnf) = length (clauses cnf)
  ∧ length (coefLists cnf) = length (clauses cnf)
  ∧ length (comparators cnf) = length (clauses cnf)
  ∧ length (klist cnf) = length (clauses cnf)
  ∧ NoDup (map_keys (varToClauses cnf))
  ∧ (∀ v s, map_find (varToClauses cnf) v = Some s → NoDup s ∧ s ≠ [])
  ∧ (∀ v i, (∃ s, map_find (varToClauses cnf) v = Some s ∧ i ∈ s)
            ↔ 0 ≤ i ∧ ∃ clause l, clauses cnf !! Z.to_nat i = Some clause
                                  ∧ l ∈ clause ∧ v = Z.abs l).

(** What the lines read so far have put into the object, when no line was
    the problem line of a WBO/PBO file: nothing before the problem line;
    literals, show variables and weighted literals within the declared
    variables; no negative weight. *)
Definition Cnf_ranged (st : ParseState) : Prop :=
  let n := declaredVarCount (this st) in
  (problemLineIndex st = MIN_INT →
     clauses (this st) = [] ∧ additiveVars (this st) = [] ∧ literalWeights (this st) = ∅)
  ∧ length (types (this st)) = length (clauses (this st))
  ∧ (∀ (i : nat) clause type, clauses (this st) !! i = Some clause →
       types (this st) !! i = Some type → type ≠ "p"%char → Forall (literal_ok n) clause)
  ∧ Forall (λ v, 1 ≤ v ≤ n) (additiveVars (this st))
  ∧ (∀ l w, literalWeights (this st) !! l = Some w →
       Z.abs l ≤ n ∧ Number_lt w Number_default = false).

(** A computation that leaves [minMaxsatSolving] as it was, whether it
    returns or throws. *)
Definition pm_keeps_flag {A} (m : PM A) : Prop :=
  ∀ world, minMaxsatSolving (m world).2 = minMaxsatSolving world.

(** The list holds every assignment of exactly the variables [D], each
    once. *)
Definition enumerates (A : list (gmap Z bool)) (D : list Z) : Prop :=
  NoDup A ∧ ∀ a : gmap Z bool, a ∈ A ↔ ∀ v, is_Some (a !! v) ↔ v ∈ D.


(** ** Vocabulary for [updateVarSizes] *)

(** The variables over which [updateVarSizes] runs at one node: the
    variables of its clause for a [JoinTerminal], the [preProjectionVars]
    for a [JoinNonterminal]. *)
Definition sized_vars (cnf : Cnf) (node : JoinNode) : list Z :=
  match node with
  | JoinTerminal nodeIndex _ _ =>
      match vec_at (clauses cnf) nodeIndex with
      | Ret clause => getClauseVars clause
      | Throw _ => []
      end
  | JoinNonterminal _ preProjectionVars _ _ => preProjectionVars
  end.

(** [varSizes[var]] as an expression reads it: 0 for a variable that the map
    does not hold. *)
Definition size_of (varSizes : list (Z * Z)) (var : Z) : Z :=
  default 0 (map_find varSizes var).

(** [varSizes'] is [varSizes] brought up to the sizes of the nodes [nodes]:
    it holds the old variables and the variables of these nodes; no size has
    gone down; the size of a variable is at least the size of every node
    among them that holds it, and it is the old size or the size of such a
    node. *)
Definition sizes_updated (cnf : Cnf) (nodes : list JoinNode) (varSizes varSizes' : list (Z * Z))
  : Prop :=
  (∀ v, is_Some (map_find varSizes' v)
        ↔ is_Some (map_find varSizes v) ∨ ∃ n, n ∈ nodes ∧ v ∈ sized_vars cnf n)
  ∧ (∀ v, size_of varSizes v ≤ size_of varSizes' v)
  ∧ (∀ v n, n ∈ nodes → v ∈ sized_vars cnf n →
       vec_size (sized_vars cnf n) ≤ size_of varSizes' v)
  ∧ (∀ v, size_of varSizes' v = size_of varSizes v
          ∨ ∃ n, n ∈ nodes ∧ v ∈ sized_vars cnf n
                 ∧ size_of varSizes' v = vec_size (sized_vars cnf n)).

(** The [JoinTerminal] nodes of the subtree have the index of a clause. *)
Definition terminals_in_range (cnf : Cnf) (node : JoinNode) : Prop :=
  Forall (λ n, is_JoinTerminal n = true → 0 ≤ nodeIndex n < vec_size (clauses cnf))
         (subnodes node).
(* ===================================================================== *)
(** * Part II: the theorems *)
(* ===================================================================== *)

(** ** Assignment::extendAssignments *)

Lemma extend_fold (var : Z) (assignments acc : list (gmap Z bool)) :
  foldl (λ extendedAssignments assignment,
           let assignment := <[var:=false]> assignment in
           let extendedAssignments := extendedAssignments ++ [assignment] in
           let assignment := <[var:=true]> assignment in
           extendedAssignments ++ [assignment]) acc assignments
  = acc ++ (assignments ≫= λ a, [<[var:=false]> a; <[var:=true]> a]).
Proof.
  revert acc. induction assignments as [|a l IH]; intros acc; simpl.
  - by rewrite app_nil_r.
  - rewrite IH, insert_insert_eq, <- !app_assoc. done.
Qed.

Lemma extendAssignments_cons (var : Z) (a : gmap Z bool) (l : list (gmap Z bool)) :
  extendAssignments (a :: l) var
  = <[var:=false]> a :: <[var:=true]> a :: (l ≫= λ a, [<[var:=false]> a; <[var:=true]> a]).
Proof.
  unfold extendAssignments. rewrite extend_fold. simpl. done.
Qed.

Lemma lookup_pairs_even (v : Z) (l : list (gmap Z bool)) (i : nat) :
  (l ≫= λ a, [<[v:=false]> a; <[v:=true]> a]) !! (2 * i)%nat = <[v:=false]> <$> l !! i.
Proof.
  revert i. induction l as [|a l IH]; intros i; [done|].
  destruct i as [|i]; [done|].
  replace (2 * S i)%nat with (S (S (2 * i))) by lia. apply IH.
Qed.

Lemma lookup_pairs_odd (v : Z) (l : list (gmap Z bool)) (i : nat) :
  (l ≫= λ a, [<[v:=false]> a; <[v:=true]> a]) !! (2 * i + 1)%nat = <[v:=true]> <$> l !! i.
Proof.
  revert i. induction l as [|a l IH]; intros i; [done|].
  destruct i as [|i]; [done|].
  replace (2 * S i + 1)%nat with (S (S (2 * i + 1))) by lia. apply IH.
Qed.

Lemma half_even (i : nat) : ((2 * i) `div` 2 = i)%nat ∧ Nat.odd (2 * i) = false.
Proof.
  split.
  - rewrite Nat.mul_comm. apply Nat.div_mul. lia.
  - rewrite <- Nat.negb_even, Nat.even_mul. done.
Qed.

Lemma half_odd (i : nat) : ((2 * i + 1) `div` 2 = i)%nat ∧ Nat.odd (2 * i + 1) = true.
Proof.
  split.
  - rewrite Nat.mul_comm, Nat.div_add_l by lia. change (1 `div` 2)%nat with 0%nat. lia.
  - rewrite Nat.odd_add, <- Nat.negb_even, Nat.even_mul. done.
Qed.

Lemma length_pairs (v : Z) (l : list (gmap Z bool)) :
  length (l ≫= λ a, [<[v:=false]> a; <[v:=true]> a]) = (2 * length l)%nat.
Proof. induction l as [|a l IH]; [done|]. cbn. cbn in IH. rewrite IH. lia. Qed.

Lemma extendAssignments_nonempty (var : Z) (l : list (gmap Z bool)) :
  l ≠ [] →
  extendAssignments l var = (l ≫= λ a, [<[var:=false]> a; <[var:=true]> a]).
Proof. destruct l; [done|]. intros _. by rewrite extendAssignments_cons. Qed.

Lemma extendAssignments_length (var : Z) (l : list (gmap Z bool)) :
  length (extendAssignments l var) = Nat.max 2 (2 * length l).
Proof.
  destruct l as [|a l]; [done|].
  rewrite extendAssignments_nonempty, length_pairs by done. simpl. lia.
Qed.

(** C7. [extendAssignments(A, v)] has [max(2, 2|A|)] members; for an empty
    [A] they are [v ↦ false] and [v ↦ true]; otherwise the member at [2i] is
    the [i]-th member of [A] with [v ↦ false], the one at [2i+1] the same
    with [v ↦ true], and every member of the result arises so, from the
    member of [A] at half its position. *)
Theorem extendAssignments_spec (A : list (gmap Z bool)) (v : Z) :
  length (extendAssignments A v) = Nat.max 2 (2 * length A)
  ∧ (A = [] → extendAssignments A v = [{[v := false]}; {[v := true]}])
  ∧ (∀ (i : nat) (a : gmap Z bool), A !! i = Some a →
       extendAssignments A v !! (2 * i)%nat = Some (<[v:=false]> a)
       ∧ extendAssignments A v !! (2 * i + 1)%nat = Some (<[v:=true]> a))
  ∧ (A ≠ [] → ∀ (j : nat) (b : gmap Z bool), extendAssignments A v !! j = Some b →
       ∃ a, A !! (j `div` 2)%nat = Some a ∧ b = <[v:=Nat.odd j]> a
            ∧ ∀ u, u ≠ v → b !! u = a !! u).
Proof.
  split; [apply extendAssignments_length|].
  split; [by intros ->|].
  split.
  - intros i a Hi.
    assert (A ≠ []) as HA by (intros ->; done).
    rewrite extendAssignments_nonempty by done.
    rewrite lookup_pairs_even, lookup_pairs_odd, Hi. done.
  - intros HA j b Hj.
    rewrite extendAssignments_nonempty in Hj by done.
    destruct (Nat.Even_or_Odd j) as [[i ->]|[i ->]].
    + destruct (half_even i) as [-> ->].
      rewrite lookup_pairs_even in Hj.
      destruct (A !! i) as [a|]; [|done].
      injection Hj as <-. exists a. split; [done|]. split; [done|].
      intros u Hu. by rewrite lookup_insert_ne.
    + destruct (half_odd i) as [-> ->].
      rewrite lookup_pairs_odd in Hj.
      destruct (A !! i) as [a|]; [|done].
      injection Hj as <-. exists a. split; [done|]. split; [done|].
      intros u Hu. by rewrite lookup_insert_ne.
Qed.

(** ** Sets as lists *)

Lemma set_contains_true (s : list Z) (x : Z) : set_contains s x = true ↔ x ∈ s.
Proof. unfold set_contains. by rewrite bool_decide_eq_true. Qed.

Lemma set_contains_false (s : list Z) (x : Z) : set_contains s x = false ↔ x ∉ s.
Proof. unfold set_contains. by rewrite bool_decide_eq_false. Qed.

Lemma elem_of_set_insert (x y : Z) (s : list Z) : y ∈ set_insert x s ↔ y = x ∨ y ∈ s.
Proof.
  unfold set_insert. destruct (set_contains s x) eqn:E.
  - apply set_contains_true in E. split; [by right|]. by intros [->|].
  - rewrite elem_of_app, list_elem_of_singleton. tauto.
Qed.

Lemma elem_of_set_erase (x y : Z) (s : list Z) : y ∈ set_erase x s ↔ y ≠ x ∧ y ∈ s.
Proof. unfold set_erase. by rewrite list_elem_of_filter. Qed.

Lemma NoDup_set_insert (x : Z) (s : list Z) : NoDup s → NoDup (set_insert x s).
Proof.
  intros Hs. unfold set_insert. destruct (set_contains s x) eqn:E; [done|].
  apply set_contains_false in E. apply NoDup_app. split_and!; [done| |apply NoDup_singleton].
  intros y Hy ->%list_elem_of_singleton. done.
Qed.

Lemma NoDup_set_erase (x : Z) (s : list Z) : NoDup s → NoDup (set_erase x s).
Proof. apply NoDup_filter. Qed.

Lemma elem_of_unionize (s1 s2 : list Z) (y : Z) : y ∈ util.unionize s1 s2 ↔ y ∈ s1 ∨ y ∈ s2.
Proof.
  unfold util.unionize. revert s1. induction s2 as [|x s2 IH]; intros s1; simpl.
  - rewrite elem_of_nil. tauto.
  - rewrite IH, elem_of_set_insert, elem_of_cons. tauto.
Qed.

Lemma elem_of_getUnion_from (acc : list Z) (sets : list (list Z)) (y : Z) :
  y ∈ foldl util.unionize acc sets ↔ y ∈ acc ∨ ∃ s, s ∈ sets ∧ y ∈ s.
Proof.
  revert acc. induction sets as [|s sets IH]; intros acc; simpl.
  - split; [by left|]. intros [|(s & Hs & _)]; [done|]. by apply elem_of_nil in Hs.
  - rewrite IH, elem_of_unionize. split.
    + intros [[|]|(s' & Hs' & Hy)]; [by left| |].
      * right. exists s. split; [apply list_elem_of_here|done].
      * right. exists s'. split; [by apply list_elem_of_further|done].
    + intros [|(s' & Hs' & Hy)]; [by left; left|].
      apply elem_of_cons in Hs' as [->|]; [by left; right|].
      right. by exists s'.
Qed.

Lemma elem_of_getUnion (sets : list (list Z)) (y : Z) :
  y ∈ util.getUnion sets ↔ ∃ s, s ∈ sets ∧ y ∈ s.
Proof.
  unfold util.getUnion. rewrite elem_of_getUnion_from, elem_of_nil. tauto.
Qed.

Lemma isDisjoint_true (s1 s2 : list Z) : util.isDisjoint s1 s2 = true ↔ disjoint_sets s1 s2.
Proof.
  unfold util.isDisjoint, disjoint_sets. rewrite forallb_forall. split.
  - intros Hd x Hx. apply set_contains_false, negb_true_iff, Hd. by apply list_elem_of_In.
  - intros Hd x Hx. apply negb_true_iff, set_contains_false, Hd. by apply list_elem_of_In.
Qed.

Lemma isDisjoint_false (s1 s2 : list Z) : util.isDisjoint s1 s2 = false ↔ ¬ disjoint_sets s1 s2.
Proof. rewrite <- isDisjoint_true. by destruct (util.isDisjoint s1 s2). Qed.

Lemma elem_of_getDiff (members : list Z) (nonmember : Z → bool) (x : Z) :
  x ∈ util.getDiff members nonmember ↔ x ∈ members ∧ nonmember x = false.
Proof. unfold util.getDiff. rewrite list_elem_of_filter. tauto. Qed.

(** ** JoinNode::chooseClusterIndex *)

Lemma cluster_scan_spec (post : list Z) (sets : list (list Z)) (target : Z) :
  match cluster_scan post sets target with
  | Some r =>
      ∃ (i : nat) s, r = target + Z.of_nat i ∧ sets !! i = Some s ∧ ¬ disjoint_sets post s
                     ∧ ∀ (j : nat) s', (j < i)%nat → sets !! j = Some s' → disjoint_sets post s'
  | None => ∀ s, s ∈ sets → disjoint_sets post s
  end.
Proof.
  revert target. induction sets as [|s sets IH]; intros target; simpl.
  - intros s Hs. by apply elem_of_nil in Hs.
  - destruct (util.isDisjoint post s) eqn:E; simpl.
    + apply isDisjoint_true in E. specialize (IH (target + 1)).
      destruct (cluster_scan post sets (target + 1)) as [r|].
      * destruct IH as (i & s' & -> & Hi & Hs' & Hlt).
        exists (S i), s'. split_and!; [lia|done|done|].
        intros [|j] s'' Hj Hl; simpl in Hl; [by injection Hl as <-|].
        apply (Hlt j); [lia|done].
      * intros s' [->|Hs']%elem_of_cons; [done|by apply IH].
    + apply isDisjoint_false in E.
      exists 0%nat, s. split_and!; [lia|done|done|]. intros j s' Hj. lia.
Qed.

(** C6. Outside [0 <= currentIndex < |projectableVarSets|] the call throws
    [MyError].  Inside: when the node's [postProjectionVars] meets none of the
    sets the result is the sentinel [|projectableVarSets|]; otherwise it is
    [currentIndex + 1] under [BUCKET_LIST]/[BOUQUET_LIST], and under
    [BUCKET_TREE]/[BOUQUET_TREE] the least index above [currentIndex] whose
    set meets [postProjectionVars], or the sentinel when there is none.  The
    names of the tree heuristics are taken to differ from those of the list
    heuristics. *)
Theorem chooseClusterIndex_spec (node : JoinNode) (currentIndex : Z)
    (projectableVarSets : list (list Z)) (h : string) :
  BUCKET_TREE ≠ BUCKET_LIST → BUCKET_TREE ≠ BOUQUET_LIST →
  BOUQUET_TREE ≠ BUCKET_LIST → BOUQUET_TREE ≠ BOUQUET_LIST →
  let post := getPostProjectionVars node in
  let n := vec_size projectableVarSets in
  let meets (t : Z) :=
    ∃ s, projectableVarSets !! Z.to_nat t = Some s ∧ ¬ disjoint_sets post s in
  (¬ (0 ≤ currentIndex < n) →
     ∃ msg, chooseClusterIndex node currentIndex projectableVarSets h = Throw (MyError msg))
  ∧ (0 ≤ currentIndex < n →
       ((∀ s, s ∈ projectableVarSets → disjoint_sets post s) →
          chooseClusterIndex node currentIndex projectableVarSets h = Ret n)
       ∧ (¬ (∀ s, s ∈ projectableVarSets → disjoint_sets post s) →
            (h = BUCKET_LIST ∨ h = BOUQUET_LIST →
               chooseClusterIndex node currentIndex projectableVarSets h
               = Ret (currentIndex + 1))
            ∧ (h = BUCKET_TREE ∨ h = BOUQUET_TREE →
                 ∃ target,
                   chooseClusterIndex node currentIndex projectableVarSets h = Ret target
                   ∧ currentIndex < target ≤ n
                   ∧ (∀ t, currentIndex < t < target → ¬ meets t)
                   ∧ (target < n → meets target)))).
Proof.
  intros Hn1 Hn2 Hn3 Hn4 post n meets.
  assert (Hdisj : util.isDisjoint (util.getUnion projectableVarSets) post = true
                  ↔ ∀ s, s ∈ projectableVarSets → disjoint_sets post s).
  { rewrite isDisjoint_true. unfold disjoint_sets. split.
    - intros Hd s Hs x Hx Hxs. apply (Hd x); [|done]. apply elem_of_getUnion. by exists s.
    - intros Hd x (s & Hs & Hxs)%elem_of_getUnion Hx. by apply (Hd s Hs x). }
  unfold chooseClusterIndex. fold post. fold n. split.
  - intros Hr. exists "clusterIndex == ".
    destruct (bool_decide (currentIndex < 0)) eqn:E1; [done|].
    destruct (bool_decide (currentIndex >= n)) eqn:E2; [done|].
    apply bool_decide_eq_false in E1, E2. lia.
  - intros Hr.
    rewrite (bool_decide_eq_false_2 (currentIndex < 0)) by lia.
    rewrite (bool_decide_eq_false_2 (currentIndex >= n)) by lia. simpl.
    split.
    + intros Hall. apply Hdisj in Hall. by rewrite Hall.
    + intros Hsome.
      destruct (util.isDisjoint (util.getUnion projectableVarSets) post) eqn:E.
      { exfalso. apply Hsome. by apply Hdisj. }
      split.
      * intros [->| ->]; unfold str_eqb.
        -- by rewrite bool_decide_eq_true_2.
        -- rewrite (bool_decide_eq_true_2 (BOUQUET_LIST = BOUQUET_LIST)) by done.
           by rewrite orb_true_r.
      * intros Htree. unfold n, vec_size in Hr.
        assert (str_eqb h BUCKET_LIST || str_eqb h BOUQUET_LIST = false) as ->.
        { unfold str_eqb. apply orb_false_iff.
          split; apply bool_decide_eq_false; destruct Htree as [-> | ->]; done. }
        pose proof (cluster_scan_spec post
                      (drop (Z.to_nat (currentIndex + 1)) projectableVarSets)
                      (currentIndex + 1)) as Hscan.
        destruct (cluster_scan post _ (currentIndex + 1)) as [r|].
        -- destruct Hscan as (i & s & -> & Hi & Hs & Hlt).
           rewrite lookup_drop in Hi.
           assert (Z.to_nat (currentIndex + 1) + i < length projectableVarSets)%nat
             by (by apply lookup_lt_Some in Hi).
           exists (currentIndex + 1 + Z.of_nat i). unfold n, vec_size.
           split_and!; [done|lia|lia| |].
           ++ intros t Ht (s' & Hs' & Hnd). apply Hnd.
              apply (Hlt (Z.to_nat (t - (currentIndex + 1)))); [lia|].
              rewrite lookup_drop, <- Hs'. f_equal. lia.
           ++ intros _. exists s. split; [|done]. rewrite <- Hi. f_equal. lia.
        -- exists n. unfold n, vec_size. split_and!; [done|lia|lia| |lia].
           intros t Ht (s' & Hs' & Hnd). apply Hnd, Hscan.
           apply list_elem_of_lookup. exists (Z.to_nat (t - (currentIndex + 1))).
           rewrite lookup_drop, <- Hs'. f_equal. lia.
Qed.

(** ** Number::getLogSumExp *)

Lemma SFeqb_neg_INF (x : spec_float) : SFeqb x (SFopp INF) = true ↔ x = SFopp INF.
Proof.
  destruct x as [[]|[]| |[] m e]; cbn; split; intros Hx; done.
Qed.

Lemma SFadd_comm (p e : Z) (x y : spec_float) : SFadd p e x y = SFadd p e y x.
Proof.
  destruct x as [[]|[]| |sx mx ex], y as [[]|[]| |sy my ey]; try done.
  cbn. rewrite (Z.min_comm ey ex). f_equal. apply Z.add_comm.
Qed.

(** C9. In log-counting mode [-INF] is absorbed: with [-INF] as the argument
    the result is the stored float of [a], with [-INF] as the receiver it is
    the stored float of the argument; when neither is [-INF] the result is
    [M + log10l(exp10l(a - M) + exp10l(b - M))] with [M = max(a, b)] (the
    source adds [M] on the right, which is the same float). *)
Theorem getLogSumExp_spec (a b : Number) :
  logCounting = true →
  (fraction b = SFopp INF → getLogSumExp a b = Ret (fraction a))
  ∧ (fraction a = SFopp INF → getLogSumExp a b = Ret (fraction b))
  ∧ (fraction a ≠ SFopp INF → fraction b ≠ SFopp INF →
       let M := Float_max (fraction a) (fraction b) in
       getLogSumExp a b
       = Ret (SFadd prec emax M
                (log10l (SFadd prec emax (exp10l (SFsub prec emax (fraction a) M))
                                         (exp10l (SFsub prec emax (fraction b) M)))))).
Proof.
  intros Hlog. unfold getLogSumExp. rewrite Hlog. cbn [negb].
  split; [|split].
  - intros Hb. destruct (SFeqb (fraction a) (SFopp INF)) eqn:Ea.
    + apply SFeqb_neg_INF in Ea. by rewrite Ea, Hb.
    + rewrite Hb. done.
  - intros Ha. rewrite Ha. done.
  - intros Ha Hb.
    destruct (SFeqb (fraction a) (SFopp INF)) eqn:Ea; [by apply SFeqb_neg_INF in Ea|].
    destruct (SFeqb (fraction b) (SFopp INF)) eqn:Eb; [by apply SFeqb_neg_INF in Eb|].
    f_equal. apply SFadd_comm.
Qed.

(** ** Show lines *)

Lemma show_word_world (words : list string) (declared : Z) (additive : list Z) (i : Z)
    (world : World) :
  minMaxsatSolving (show_word words declared additive i world).2 = maxsatSolving.
Proof.
  unfold show_word, pm_bind, set_minMaxsatSolving, lift. simpl.
  destruct (vec_at words i) as [w|]; [|done].
  destruct (stoll w) as [num|]; [|done].
  repeat case_match; done.
Qed.

Lemma show_fold_world (words : list string) (declared : Z) (additive : list Z)
    (idx : list Z) (world : World) :
  idx ≠ [] →
  minMaxsatSolving (pm_foldl (show_word words declared) additive idx world).2
  = maxsatSolving.
Proof.
  revert additive world. induction idx as [|i idx IH]; intros additive world Hne; [done|].
  simpl. unfold pm_bind.
  pose proof (show_word_world words declared additive i world) as Hw.
  destruct (show_word words declared additive i world) as [[a|e] world1]; simpl in Hw; [|done].
  destruct idx as [|j idx]; [done|]. by apply IH.
Qed.

Lemma parse_show_line_world (f : string) (tl : list string) (st st' : ParseState)
    (world world' : World) :
  0 < vec_size (f :: tl) - (if str_eqb f "vp" || str_eqb f "vm" then 1 else 3) →
  parse_show_line (f :: tl) st world = (Ret st', world') →
  minMaxsatSolving world' = maxsatSolving.
Proof.
  intros Hpos. unfold parse_show_line.
  destruct (bool_decide (problemLineIndex st = MIN_INT)); [done|].
  unfold pm_bind at 1. unfold lift at 1.
  change (vec_at (f :: tl) 0) with (Ret (A:=string) f). cbn beta iota.
  set (start := if str_eqb f "vp" || str_eqb f "vm" then 1 else 3) in *.
  assert (seqZ start (vec_size (f :: tl) - start) ≠ []) as Hne.
  { intros Hnil. apply (f_equal length) in Hnil. rewrite length_seqZ in Hnil.
    simpl in Hnil. lia. }
  pose proof (show_fold_world (f :: tl) (declaredVarCount (this st))
                (additiveVars (this st)) _ world Hne) as Hfold.
  unfold pm_bind.
  destruct (pm_foldl _ _ _ world) as [[additive|e] world1]; simpl in Hfold; [|done].
  unfold lift. intros Heq. injection Heq as _ <-. done.
Qed.

(** C10. With projected counting or MaxSAT solving on, a show line ([vp],
    [vm] or [c p show]) that has a word after its keyword and that the parser
    accepts leaves [minMaxsatSolving] equal to [maxsatSolving]: a [vp] line
    as much as a [vm] line.  (Under weighted counting the parser tries the
    weight-line test first; a show line is one that fails it.) *)
Theorem show_line_sets_minMaxsatSolving (lineIndex : Z) (line : string)
    (st st' : ParseState) (world world' : World) :
  projectedCounting || maxsatSolving = true →
  show_shape (util.splitInputLine line) →
  is_weight_line (util.splitInputLine line) = Ret false →
  parse_line lineIndex line st world = (Ret st', world') →
  minMaxsatSolving world' = maxsatSolving.
Proof.
  intros Hflag (w & rest & Hshape) Hnw. unfold parse_line.
  assert (is_show_line (util.splitInputLine line) = Ret true) as Hshow.
  { unfold is_show_line. rewrite Hflag. simpl.
    destruct Hshape as [-> | [-> | ->]]; [reflexivity..|].
    assert (vec_size ("c" :: "p" :: "show" :: w :: rest) > 3) as Hsz
      by (unfold vec_size; simpl length; lia).
    cbn [vec_at bool_decide]. change (vec_at _ 0) with (Ret (A:=string) "c").
    cbn [bind]. rewrite (bool_decide_eq_true_2 _ Hsz). reflexivity. }
  assert (∃ front tail, util.splitInputLine line = front :: tail
            ∧ str_eqb front "p" = false ∧ str_eqb front "*" = false
            ∧ bool_decide (front ∈ ["w"; "vp"; "c"; "vm"]) = true
            ∧ 0 < vec_size (front :: tail)
                  - (if str_eqb front "vp" || str_eqb front "vm" then 1 else 3))
    as (f & tl & Hw & Hp & Hs & Hin & Hpos).
  { destruct Hshape as [-> | [-> | ->]]; eexists _, _;
      (split_and!; [reflexivity..|]); unfold vec_size; simpl length.
    - replace (if str_eqb "vp" "vp" || str_eqb "vp" "vm" then 1 else 3) with 1
        by reflexivity. lia.
    - replace (if str_eqb "vm" "vp" || str_eqb "vm" "vm" then 1 else 3) with 1
        by reflexivity. lia.
    - replace (if str_eqb "c" "vp" || str_eqb "c" "vm" then 1 else 3) with 3
        by reflexivity. lia. }
  clear Hshape. rewrite Hw in *. rewrite Hp, Hs.
  unfold pm_bind, lift. cbn beta iota. rewrite Hin, Hnw. cbn beta iota.
  rewrite Hshow. cbn beta iota.
  intros Hparse. by eapply parse_show_line_world.
Qed.

(** ** Completion of [literalWeights] *)

Lemma completed_ext (supplied supplied' lw lw' : gmap Z Number) (v : Z) :
  supplied' !! v = supplied !! v → supplied' !! (- v) = supplied !! (- v) →
  lw' !! v = lw !! v → lw' !! (- v) = lw !! (- v) →
  completed supplied lw v → completed supplied' lw' v.
Proof. unfold completed. by intros -> -> -> ->. Qed.

Lemma set_both_one_spec (lw lw' : gmap Z Number) (var : Z) :
  var ≠ 0 → set_both_one var lw = Ret lw' →
  (∃ one, Number_of_string "1" = Ret one ∧ lw' !! var = Some one ∧ lw' !! (- var) = Some one)
  ∧ ∀ l, l ≠ var → l ≠ - var → lw' !! l = lw !! l.
Proof.
  intros Hv. unfold set_both_one.
  destruct (Number_of_string "1") as [one|] eqn:E1; [|done]. simpl.
  intros [= <-]. split.
  - exists one. split; [done|]. split.
    + rewrite lookup_insert_ne by lia. apply lookup_insert_eq.
    + apply lookup_insert_eq.
  - intros l H1 H2. by rewrite !lookup_insert_ne.
Qed.

Lemma complete_var_spec (lw lw' : gmap Z Number) (var : Z) :
  var ≠ 0 → complete_var lw var = Ret lw' →
  completed lw lw' var ∧ ∀ l, l ≠ var → l ≠ - var → lw' !! l = lw !! l.
Proof.
  intros Hv. unfold complete_var, completed.
  destruct weightedCounting; simpl.
  2:{ apply set_both_one_spec. done. }
  destruct (lw !! var) as [wPos|] eqn:Ep, (lw !! (- var)) as [wNeg|] eqn:En.
  - intros [= <-]. done.
  - destruct (assert_at_most_one wPos); [|done]. simpl.
    destruct (Number_of_string "1") as [one|]; [|done]. simpl.
    destruct (Number_sub one wPos) as [d|] eqn:Ed; [|done]. simpl.
    intros [= <-]. split.
    + exists one, d. split_and!; [done|done| |apply lookup_insert_eq].
      rewrite lookup_insert_ne by lia. done.
    + intros l H1 H2. by rewrite lookup_insert_ne.
  - destruct (assert_at_most_one wNeg); [|done]. simpl.
    destruct (Number_of_string "1") as [one|]; [|done]. simpl.
    destruct (Number_sub one wNeg) as [d|] eqn:Ed; [|done]. simpl.
    intros [= <-]. split.
    + exists one, d. split_and!; [done|done|apply lookup_insert_eq|].
      rewrite lookup_insert_ne by lia. done.
    + intros l H1 H2. by rewrite lookup_insert_ne.
  - apply set_both_one_spec. done.
Qed.

Lemma complete_fold (vars : list Z) (lw lw' : gmap Z Number) :
  NoDup vars → (∀ v, v ∈ vars → 0 < v) →
  foldlM complete_var lw vars = Ret lw' →
  (∀ l, (∀ v, v ∈ vars → l ≠ v ∧ l ≠ - v) → lw' !! l = lw !! l)
  ∧ (∀ v, v ∈ vars → completed lw lw' v).
Proof.
  revert lw. induction vars as [|var vars IH]; intros lw Hnd Hpos; simpl.
  - intros [= <-]. split; [done|]. intros v Hv. by apply elem_of_nil in Hv.
  - apply NoDup_cons in Hnd as [Hnin Hnd].
    destruct (complete_var lw var) as [lw1|] eqn:E1; [|done]. simpl. intros Hrest.
    assert (0 < var) as Hvar by (apply Hpos, list_elem_of_here).
    apply complete_var_spec in E1 as [Hc1 Ho1]; [|lia].
    apply IH in Hrest as [Ho Hc]; [|done|by intros v Hv; apply Hpos, list_elem_of_further].
    assert (∀ l, l = var ∨ l = - var → lw' !! l = lw1 !! l) as Hkeep.
    { intros l Hl. apply Ho. intros v Hv.
      assert (0 < v) by (by apply Hpos, list_elem_of_further).
      assert (v ≠ var) by (by intros ->). lia. }
    split.
    + intros l Hl. rewrite Ho.
      * apply Ho1; apply (Hl var), list_elem_of_here.
      * intros v Hv. by apply Hl, list_elem_of_further.
    + intros v [->|Hv]%elem_of_cons.
      * eapply completed_ext; [done|done| | |exact Hc1]; apply Hkeep; tauto.
      * assert (0 < v) by (by apply Hpos, list_elem_of_further).
        assert (v ≠ var) by (by intros ->).
        eapply completed_ext; [| |done|done|by apply Hc]; symmetry; apply Ho1; lia.
Qed.

Lemma completed_is_Some (supplied lw : gmap Z Number) (v : Z) :
  completed supplied lw v → is_Some (lw !! v) ∧ is_Some (lw !! (- v)).
Proof.
  unfold completed. destruct weightedCounting.
  - destruct (supplied !! v), (supplied !! (- v)).
    + intros [-> ->]. eauto.
    + intros (? & ? & _ & _ & -> & ->). eauto.
    + intros (? & ? & _ & _ & -> & ->). eauto.
    + intros (? & _ & -> & ->). eauto.
  - intros (? & _ & -> & ->). eauto.
Qed.

Lemma finish_literalWeights (st : ParseState) (cnf : Cnf) :
  finish st = Ret cnf →
  declaredVarCount cnf = declaredVarCount (this st)
  ∧ foldlM complete_var (literalWeights (this st)) (seqZ 1 (declaredVarCount (this st)))
    = Ret (literalWeights cnf).
Proof.
  unfold finish. destruct (bool_decide (problemLineIndex st = MIN_INT)); [done|].
  destruct (negb projectedCounting && negb maxsatSolving); simpl;
    destruct (foldlM complete_var _ _) as [lw|]; simpl; [|done| |done];
    intros [= <-]; done.
Qed.

(** C3. After the constructor has returned, [literalWeights] has an entry
    for every literal of [-n..n] but 0, [n] being [declaredVarCount]; for
    each variable [v] of [1..n]: without weighted counting both [v] and [-v]
    have the weight [Number("1")]; with it, both have [Number("1")] when the
    weight lines gave neither, they keep their weights when the lines gave
    both, and when the lines gave one the other is [Number("1")] minus it. *)
Theorem literalWeights_complete (lines : list string) (world world' : World) (cnf : Cnf) :
  Cnf_ctor lines world = (Ret cnf, world') →
  ∃ st, parse_lines lines ParseState_init world = (Ret st, world')
        ∧ declaredVarCount cnf = declaredVarCount (this st)
        ∧ (∀ l, l ≠ 0 → - declaredVarCount cnf ≤ l ≤ declaredVarCount cnf →
             is_Some (literalWeights cnf !! l))
        ∧ (∀ v, 1 ≤ v ≤ declaredVarCount cnf →
             completed (literalWeights (this st)) (literalWeights cnf) v).
Proof.
  unfold Cnf_ctor, pm_bind, lift.
  destruct (parse_lines lines ParseState_init world) as [[st|e] world1]; [|done].
  destruct (finish st) as [cnf'|] eqn:Ef; [|done].
  intros [= <- <-]. exists st. split; [done|].
  apply finish_literalWeights in Ef as [Hn Hfold]. split; [done|].
  apply complete_fold in Hfold as [_ Hc];
    [|apply NoDup_seqZ|by intros v Hv%elem_of_seqZ; lia].
  assert (∀ v, 1 ≤ v ≤ declaredVarCount cnf' →
            completed (literalWeights (this st)) (literalWeights cnf') v) as Hall.
  { intros v Hv. apply Hc, elem_of_seqZ. lia. }
  split; [|done].
  intros l Hl Hr. destruct (decide (0 < l)).
  - apply (completed_is_Some (literalWeights (this st)) _ l), Hall. lia.
  - replace l with (- - l) by lia.
    apply (completed_is_Some (literalWeights (this st)) _ (- l)), Hall. lia.
Qed.

(** ** EmptyClauseException *)

Create HintDb ece discriminated.

Lemma no_ece_Ret {A} (a : A) : no_ece (Ret a).
Proof. done. Qed.

Lemma no_ece_MyError {A} (msg : string) : no_ece (A:=A) (Throw (MyError msg)).
Proof. done. Qed.

Lemma no_ece_std {A} (e : std_exception) : no_ece (A:=A) (Throw (StdException e)).
Proof. done. Qed.

Lemma no_ece_assert {A} : no_ece (A:=A) (Throw AssertionFailure).
Proof. done. Qed.

Lemma no_ece_bind {A B} (r : result A) (k : A → result B) :
  no_ece r → (∀ a, no_ece (k a)) → no_ece (bind r k).
Proof.
  intros Hr Hk. destruct r as [a|e]; [apply Hk|].
  simpl. intros [= ->]. by apply Hr.
Qed.

Lemma no_ece_foldlM {A B} (f : B → A → result B) (b : B) (l : list A) :
  (∀ b x, no_ece (f b x)) → no_ece (foldlM f b l).
Proof.
  intros Hf. revert b. induction l as [|x l IH]; intros b; simpl; [done|].
  apply no_ece_bind; [apply Hf|apply IH].
Qed.

Lemma no_ece_vec_at {A} (v : list A) (i : Z) : no_ece (vec_at v i).
Proof. unfold vec_at. repeat case_match; done. Qed.

Lemma no_ece_sto (w : Z) (s : string) : no_ece (sto w s).
Proof. unfold sto. repeat case_match; done. Qed.

Lemma no_ece_substr (s : string) (pos : nat) (n : Z) : no_ece (substr s pos n).
Proof. unfold substr. case_match; done. Qed.

Lemma no_ece_stoll (s : string) : no_ece (stoll s).
Proof. apply no_ece_sto. Qed.

Lemma no_ece_stoi (s : string) : no_ece (stoi s).
Proof. apply no_ece_sto. Qed.

#[local] Hint Resolve no_ece_Ret no_ece_MyError no_ece_std no_ece_assert
  no_ece_vec_at no_ece_sto no_ece_stoll no_ece_stoi no_ece_substr : ece.

(** One step through the structure of a computation in [result]. *)
Ltac no_ece_step :=
  match goal with
  | |- no_ece (bind _ _) => apply no_ece_bind; [|intros ?]
  | |- no_ece (foldlM _ _ _) => apply no_ece_foldlM; intros ? ?; cbv beta
  | |- no_ece (if ?b then _ else _) => destruct b
  | |- no_ece (match ?x with _ => _ end) => destruct x
  | |- no_ece (stoll _) => apply no_ece_sto
  | |- no_ece (stoi _) => apply no_ece_sto
  | |- no_ece _ => solve [auto with ece]
  end.

Section Warnings.

Hypothesis Hlib : lib_ok.

Lemma no_ece_stod (s : string) : no_ece (stod s).
Proof. apply Hlib. Qed.

Lemma no_ece_stold (s : string) : no_ece (stold s).
Proof. apply Hlib. Qed.

Lemma no_ece_Number_of_string (s : string) : no_ece (Number_of_string s).
Proof.
  unfold Number_of_string, Number_of_mpq, Number_of_Float.
  repeat (first [apply no_ece_stold | apply Hlib | no_ece_step]).
Qed.

Lemma no_ece_parse_problem_line (i : Z) (words : list string) (st : ParseState) :
  no_ece (parse_problem_line i words st).
Proof. unfold parse_problem_line. repeat no_ece_step. Qed.

Lemma no_ece_parse_wbo_line (i : Z) (words : list string) (st : ParseState) :
  no_ece (parse_wbo_line i words st).
Proof. unfold parse_wbo_line. repeat no_ece_step. Qed.

Lemma no_ece_is_weight_line (words : list string) : no_ece (is_weight_line words).
Proof. unfold is_weight_line. repeat no_ece_step. Qed.

Lemma no_ece_is_show_line (words : list string) : no_ece (is_show_line words).
Proof. unfold is_show_line. repeat no_ece_step. Qed.

Lemma no_ece_parse_weight_line (words : list string) (st : ParseState) :
  no_ece (parse_weight_line words st).
Proof.
  unfold parse_weight_line.
  repeat (first [apply no_ece_Number_of_string | no_ece_step]).
Qed.

Lemma no_ece_bracket_weight (w : string) : no_ece (bracket_weight w).
Proof. unfold bracket_weight. repeat (first [apply no_ece_stod | no_ece_step]). Qed.

Lemma no_ece_parse_pb (words : list string) (weight : spec_float) (st : ParseState) :
  no_ece (parse_pb words weight st).
Proof.
  unfold parse_pb, pb_term.
  repeat (first [no_ece_step | destruct (PB_canonicalize _ _ _ _) as [[[? ?] ?] ?]]).
Qed.

#[local] Hint Resolve no_ece_stod no_ece_Number_of_string no_ece_parse_problem_line
  no_ece_parse_wbo_line no_ece_is_weight_line no_ece_is_show_line
  no_ece_parse_weight_line no_ece_bracket_weight no_ece_parse_pb : ece.

Lemma wie_lift {A} (i : Z) (line : string) (r : result A) :
  no_ece r → warns_iff_empty i line (lift r).
Proof. intros Hr w. right. done. Qed.

Lemma wie_throw {A} (i : Z) (line : string) :
  warns_iff_empty (A:=A) i line (throw_EmptyClauseException i line).
Proof. intros w. left. done. Qed.

Lemma wie_set (i : Z) (line : string) (b : bool) :
  warns_iff_empty i line (set_minMaxsatSolving b).
Proof. intros w. right. done. Qed.

Lemma wie_bind {A B} (i : Z) (line : string) (m : PM A) (k : A → PM B) :
  warns_iff_empty i line m → (∀ a, warns_iff_empty i line (k a)) →
  warns_iff_empty i line (pm_bind m k).
Proof.
  intros Hm Hk w. unfold pm_bind. specialize (Hm w).
  destruct (m w) as [[a|e] w1]; simpl in Hm.
  - destruct Hm as [[? _]|[_ Hc]]; [done|]. rewrite <- Hc. apply Hk.
  - destruct Hm as [[He Hc]|[Hne Hc]].
    + left. injection He as ->. done.
    + right. split; [|done]. simpl. intros [= ->]. by apply Hne.
Qed.

Lemma wie_foldl {A B} (i : Z) (line : string) (f : B → A → PM B) (b : B) (l : list A) :
  (∀ b x, warns_iff_empty i line (f b x)) → warns_iff_empty i line (pm_foldl f b l).
Proof.
  intros Hf. revert b. induction l as [|x l IH]; intros b; simpl.
  - by apply wie_lift.
  - apply wie_bind; [apply Hf|apply IH].
Qed.

(** One step through the structure of a computation in [PM]. *)
Ltac wie_step :=
  match goal with
  | |- warns_iff_empty _ _ (pm_bind _ _) => apply wie_bind; [|intros ?]
  | |- warns_iff_empty _ _ (pm_foldl _ _ _) => apply wie_foldl; intros ? ?; cbv beta
  | |- warns_iff_empty _ _ (lift _) => apply wie_lift; solve [auto with ece]
  | |- warns_iff_empty _ _ (throw_EmptyClauseException _ _) => apply wie_throw
  | |- warns_iff_empty _ _ (set_minMaxsatSolving _) => apply wie_set
  | |- warns_iff_empty _ _ (if ?b then _ else _) => destruct b
  | |- warns_iff_empty _ _ (match ?x with _ => _ end) => destruct x
  end.

Lemma wie_parse_show_line (i : Z) (line : string) (words : list string) (st : ParseState) :
  warns_iff_empty i line (parse_show_line words st).
Proof. unfold parse_show_line, show_word. repeat wie_step. Qed.

Lemma wie_parse_clause_words (cw : bool) (i : Z) (line : string) (words : list string)
    (weight : spec_float) (st : ParseState) :
  warns_iff_empty i line (parse_clause_words cw i line words weight st).
Proof. unfold parse_clause_words, clause_word. repeat wie_step. Qed.

Lemma wie_parse_constraint_line (i : Z) (line : string) (words : list string)
    (st : ParseState) :
  warns_iff_empty i line (parse_constraint_line i line words st).
Proof.
  unfold parse_constraint_line.
  repeat (first [apply wie_parse_clause_words | wie_step]).
Qed.

Lemma wie_parse_line (i : Z) (line : string) (st : ParseState) :
  warns_iff_empty i line (parse_line i line st).
Proof.
  unfold parse_line.
  repeat (first [apply wie_parse_constraint_line | apply wie_parse_show_line | wie_step]).
Qed.

End Warnings.

Lemma parse_from_app (i : Z) (l1 l2 : list string) (st : ParseState) (w : World) :
  parse_from i (l1 ++ l2) st w
  = match parse_from i l1 st w with
    | (Ret st1, w1) => parse_from (i + vec_size l1) l2 st1 w1
    | (Throw e, w1) => (Throw e, w1)
    end.
Proof.
  revert i st w. induction l1 as [|line l1 IH]; intros i st w; simpl.
  - unfold lift, vec_size. simpl. by rewrite Z.add_0_r.
  - unfold pm_bind. destruct (parse_line (i + 1) line st w) as [[st1|e] w1]; [|done].
    rewrite IH. replace (i + 1 + vec_size l1) with (i + vec_size (line :: l1)); [done|].
    unfold vec_size. simpl length. lia.
Qed.

(** C2, as the code has it.  When the parser throws [EmptyClauseException]
    on a line, the warning with the index and the text of that line has been
    printed, and the exception leaves the constructor: whatever lines follow
    are not read, and no [Cnf] results.  (The library functions are taken not
    to throw the parser's exception.) *)
Theorem empty_clause_exception_aborts (l1 l2 : list string) (line : string)
    (st : ParseState) (w w1 w2 : World) :
  lib_ok →
  parse_lines l1 ParseState_init w = (Ret st, w1) →
  parse_line (vec_size l1 + 1) line st w1 = (Throw EmptyClauseException, w2) →
  cout w2 = cout w1 ++ [(vec_size l1 + 1, line)]
  ∧ Cnf_ctor (l1 ++ line :: l2) w = (Throw EmptyClauseException, w2).
Proof.
  intros Hlib H1 Hline. split.
  - destruct (wie_parse_line Hlib (vec_size l1 + 1) line st w1) as [[_ Hc]|[Hne _]].
    + by rewrite Hline in Hc.
    + by rewrite Hline in Hne.
  - unfold Cnf_ctor, parse_lines, pm_bind in *.
    rewrite parse_from_app, H1. simpl. unfold pm_bind.
    rewrite Z.add_0_l, Hline. done.
Qed.

(** ** PB_canonicalize *)

Lemma to_int_id (x : Z) : - 2 ^ 31 ≤ x < 2 ^ 31 → to_int x = x.
Proof. intros Hx. unfold to_int, wrap. rewrite Z.mod_small; lia. Qed.

Lemma to_Int_id (x : Z) : - 2 ^ 63 ≤ x < 2 ^ 63 → to_Int x = x.
Proof. intros Hx. unfold to_Int, wrap. rewrite Z.mod_small; lia. Qed.

Lemma to_int_to_Int (x : Z) : to_int (to_Int x) = to_int x.
Proof.
  unfold to_int, to_Int, wrap. f_equal.
  rewrite (Z.mod_eq (x + 2 ^ (64 - 1)) (2 ^ 64)) by lia.
  set (q := (x + 2 ^ (64 - 1)) `div` 2 ^ 64).
  replace (x + 2 ^ (64 - 1) - 2 ^ 64 * q - 2 ^ (64 - 1) + 2 ^ (32 - 1))
    with (x + 2 ^ (32 - 1) + (- q * 2 ^ 32) * 2 ^ 32) by lia.
  apply Z_mod_plus_full.
Qed.

Lemma to_int_sub (a c : Z) : to_int (to_int a - c) = to_int (a - c).
Proof.
  unfold to_int, wrap. f_equal.
  rewrite (Z.mod_eq (a + 2 ^ (32 - 1)) (2 ^ 32)) by lia.
  set (q := (a + 2 ^ (32 - 1)) `div` 2 ^ 32).
  replace (a + 2 ^ (32 - 1) - 2 ^ 32 * q - 2 ^ (32 - 1) - c + 2 ^ (32 - 1))
    with (a - c + 2 ^ (32 - 1) + (- q) * 2 ^ 32) by lia.
  apply Z_mod_plus_full.
Qed.

(** The loop for [<=] negates the coefficient of each member of the clause. *)
Lemma negate_loop (clause : list Z) (coefs : gmap Z Z) (l : Z) :
  NoDup clause →
  (∀ v, v ∈ clause → 1 ≤ v < 2 ^ 31) →
  (∀ v c, coefs !! v = Some c → - 2 ^ 31 < c < 2 ^ 31) →
  foldl (λ coefs elem,
           let var := to_int elem in
           <[var:=to_Int (default 0 (coefs !! var) * -1)]> coefs) coefs clause !! l
  = if bool_decide (l ∈ clause) then Some (- default 0 (coefs !! l)) else coefs !! l.
Proof.
  revert coefs. induction clause as [|v clause IH]; intros coefs Hnd Hv Hc; simpl.
  - done.
  - apply NoDup_cons in Hnd as [Hnin Hnd].
    assert (1 ≤ v < 2 ^ 31) as Hvr by apply Hv, list_elem_of_here.
    rewrite to_int_id by lia.
    assert (- 2 ^ 31 < default 0 (coefs !! v) < 2 ^ 31) as Hcv.
    { destruct (coefs !! v) as [c|] eqn:E; simpl; [by apply (Hc v)|lia]. }
    rewrite to_Int_id by lia.
    rewrite IH; [|done|by intros u Hu; apply Hv, list_elem_of_further|].
    2:{ intros u c. destruct (decide (v = u)) as [->|Hne].
        - rewrite lookup_insert_eq. intros [= <-]. lia.
        - rewrite lookup_insert_ne by done. apply Hc. }
    destruct (decide (l = v)) as [->|Hne].
    + rewrite (bool_decide_eq_false_2 (v ∈ clause)) by done.
      rewrite (bool_decide_eq_true_2 (v ∈ v :: clause)) by apply list_elem_of_here.
      rewrite lookup_insert_eq. f_equal. lia.
    + rewrite lookup_insert_ne by done.
      destruct (decide (l ∈ clause)) as [Hin|Hnin'].
      * rewrite !bool_decide_eq_true_2; [done|by apply list_elem_of_further|done].
      * rewrite !bool_decide_eq_false_2; [done| |done].
        rewrite elem_of_cons. tauto.
Qed.

Lemma negate_loop_fmap (clause : list Z) (coefs : gmap Z Z) :
  NoDup clause →
  (∀ v, v ∈ clause → 1 ≤ v < 2 ^ 31) →
  (∀ v, v ∈ clause ↔ is_Some (coefs !! v)) →
  (∀ v c, coefs !! v = Some c → - 2 ^ 31 < c < 2 ^ 31) →
  foldl (λ coefs elem,
           let var := to_int elem in
           <[var:=to_Int (default 0 (coefs !! var) * -1)]> coefs) coefs clause
  = Z.mul (-1) <$> coefs.
Proof.
  intros Hnd Hv Hdom Hc. apply map_eq. intros l.
  rewrite negate_loop, lookup_fmap by done.
  destruct (decide (l ∈ clause)) as [Hin|Hnin].
  - rewrite bool_decide_eq_true_2 by done.
    apply Hdom in Hin as [c ->]. simpl. f_equal; lia.
  - rewrite bool_decide_eq_false_2 by done.
    destruct (coefs !! l) as [c|] eqn:E; [|done].
    exfalso. apply Hnin, Hdom. eauto.
Qed.


Lemma filter_neg_ext (m1 m2 : gmap Z Z) (R : list Z) :
  (∀ u, u ∈ R → m1 !! u = m2 !! u) →
  filter (λ v, default 0 (m1 !! v) < 0) R = filter (λ v, default 0 (m2 !! v) < 0) R.
Proof.
  induction R as [|v R IH]; intros Hext; [done|].
  rewrite !filter_cons, (Hext v) by apply list_elem_of_here.
  rewrite IH by (intros u Hu; apply Hext; by apply list_elem_of_further). done.
Qed.

Lemma neg_sum_ext (m1 m2 : gmap Z Z) (R : list Z) :
  (∀ u, u ∈ R → m1 !! u = m2 !! u) → neg_sum m1 R = neg_sum m2 R.
Proof.
  induction R as [|v R IH]; intros Hext; [done|]. simpl.
  rewrite (Hext v) by apply list_elem_of_here.
  rewrite IH by (intros u Hu; apply Hext; by apply list_elem_of_further). done.
Qed.

Lemma neg_sum_none (m : gmap Z Z) (R : list Z) :
  filter (λ v, default 0 (m !! v) < 0) R = [] → neg_sum m R = 0.
Proof.
  induction R as [|u R IH]; [done|].
  rewrite filter_cons. simpl. case_decide; [done|].
  intros Hnil. rewrite IH by done. lia.
Qed.

(** The second loop: what it leaves in [coefs], [tempVar] and [k]. *)
Lemma flip_loop (R : list Z) (coefs : gmap Z Z) (tempVar : list Z) (k : Z) :
  flip_pre coefs R →
  ∃ coefs',
    foldl pb_flip (coefs, tempVar, k) R
    = (coefs', tempVar ++ (Z.opp <$> filter (λ v, default 0 (coefs !! v) < 0) R),
       if bool_decide (filter (λ v, default 0 (coefs !! v) < 0) R = []) then k
       else to_int (k - neg_sum coefs R))
    ∧ (∀ l, l ∉ R → - l ∉ R → coefs' !! l = coefs !! l)
    ∧ (∀ v, v ∈ R →
         let c := default 0 (coefs !! v) in
         coefs' !! v = (if bool_decide (c < 0) then None else Some c)
         ∧ coefs' !! (- v) = (if bool_decide (c < 0) then Some (- c) else None)).
Proof.
  revert coefs tempVar k. induction R as [|v R IH]; intros coefs tempVar k [Hnd Hpre].
  - exists coefs. simpl. rewrite app_nil_r. split; [done|]. split; [done|].
    intros v Hv. by apply elem_of_nil in Hv.
  - apply NoDup_cons in Hnd as [Hnin Hnd].
    destruct (Hpre v) as (Hvr & Hnone & c & Hc & Hcr); [apply list_elem_of_here|].
    assert (Hrest : ∀ u, u ∈ R → 1 ≤ u < 2 ^ 31 ∧ u ≠ v).
    { intros u Hu. split; [by apply Hpre, list_elem_of_further|by intros ->]. }
    assert (Hnv : - v ∉ R) by (intros Hin; destruct (Hrest _ Hin); lia).
    assert (Hnvv : - - v ∉ R) by (by rewrite Z.opp_involutive).
    simpl foldl. rewrite (to_int_id v) by lia. rewrite Hc. simpl default.
    rewrite filter_cons. simpl neg_sum. rewrite Hc. simpl default.
    destruct (decide (c < 0)) as [Hneg|Hpos].
    + rewrite (bool_decide_eq_true_2 (c < 0)) by done.
      rewrite (to_int_id (- v)) by lia. rewrite Hnone.
      rewrite to_int_to_Int, (to_int_id (- c)) by lia. rewrite to_int_to_Int.
      set (coefs1 := delete v (<[- v:=- c]> coefs)).
      assert (Hsame : ∀ l, l ≠ v → l ≠ - v → coefs1 !! l = coefs !! l).
      { intros l H1 H2. unfold coefs1.
        by rewrite lookup_delete_ne, lookup_insert_ne by done. }
      assert (HsameR : ∀ u, u ∈ R → coefs1 !! u = coefs !! u).
      { intros u Hu. destruct (Hrest u Hu). apply Hsame; lia. }
      destruct (IH coefs1 (tempVar ++ [- v]) (to_int (k - c))) as (coefs' & Hfold & Hother & Hmem).
      { split; [done|]. intros u Hu. destruct (Hrest u Hu) as [Hur Hne].
        destruct (Hpre u) as (_ & Hn & Hs); [by apply list_elem_of_further|].
        split; [done|]. split.
        - rewrite Hsame by lia. done.
        - rewrite HsameR by done. done. }
      exists coefs'. rewrite Hfold.
      rewrite (filter_neg_ext coefs1 coefs), (neg_sum_ext coefs1 coefs) by done.
      split; [|split].
      * rewrite <- app_assoc. simpl. f_equal.
        rewrite Z.min_r by lia.
        destruct (decide (filter (λ v, default 0 (coefs !! v) < 0) R = [])) as [Hnil|Hnn].
        -- rewrite bool_decide_eq_true_2 by done.
           f_equal. rewrite (neg_sum_none coefs R Hnil). lia.
        -- rewrite bool_decide_eq_false_2 by done.
           rewrite to_int_sub. f_equal. lia.
      * intros l Hl Hl'. rewrite not_elem_of_cons in Hl, Hl'.
        rewrite Hother by tauto. apply Hsame; lia.
      * intros u [->|Hu]%elem_of_cons.
        -- rewrite Hc. simpl. rewrite (bool_decide_eq_true_2 (c < 0)) by done.
           rewrite !Hother by done.
           unfold coefs1. rewrite lookup_delete_eq.
           rewrite lookup_delete_ne, lookup_insert_eq by lia. done.
        -- specialize (Hmem u Hu). rewrite HsameR in Hmem by done. apply Hmem.
    + rewrite (bool_decide_eq_false_2 (c < 0)) by done.
      destruct (IH coefs tempVar k) as (coefs' & Hfold & Hother & Hmem).
      { split; [done|]. intros u Hu. by apply Hpre, list_elem_of_further. }
      exists coefs'. rewrite Hfold. split; [|split].
      * rewrite Z.min_l by lia. simpl. done.
      * intros l Hl Hl'. rewrite not_elem_of_cons in Hl, Hl'. apply Hother; tauto.
      * intros u [->|Hu]%elem_of_cons.
        -- rewrite Hc. simpl. rewrite (bool_decide_eq_false_2 (c < 0)) by done.
           rewrite !Hother by done. done.
        -- by apply Hmem.
Qed.

(** The third loop: the members of the clause afterwards. *)
Lemma clause_update (F clause : list Z) (l : Z) :
  (∀ v, v ∈ F → 1 ≤ v < 2 ^ 31) →
  l ∈ foldl (λ clause var, set_erase (to_Int (- var)) (set_insert var clause))
            clause (Z.opp <$> F)
  ↔ (l ∈ clause ∧ l ∉ F) ∨ - l ∈ F.
Proof.
  revert clause. induction F as [|v F IH]; intros clause HF.
  - simpl. rewrite !elem_of_nil. tauto.
  - assert (1 ≤ v < 2 ^ 31) as Hv by apply HF, list_elem_of_here.
    assert (∀ u, u ∈ F → 1 ≤ u < 2 ^ 31) as HF'
      by (intros u Hu; by apply HF, list_elem_of_further).
    rewrite fmap_cons. simpl foldl. rewrite Z.opp_involutive, to_Int_id by lia.
    rewrite IH by done. rewrite elem_of_set_erase, elem_of_set_insert.
    rewrite not_elem_of_cons, elem_of_cons. split.
    + intros [[[Hne [->|Hin]] Hnf]|Hf]; [right; left; lia|left; tauto|right; tauto].
    + intros [[Hin [Hne Hnf]]|[Heq|Hf]]; [left; tauto| |right; done].
      left. split; [split; [lia|left; lia]|].
      intros Hin. apply HF' in Hin. lia.
Qed.

Lemma clause_update_NoDup (F clause : list Z) :
  NoDup clause →
  NoDup (foldl (λ clause var, set_erase (to_Int (- var)) (set_insert var clause))
               clause F).
Proof.
  revert clause. induction F as [|v F IH]; intros clause Hnd; [done|].
  simpl. apply IH, NoDup_set_erase, NoDup_set_insert, Hnd.
Qed.

Lemma pb_sum_perm (x : Z → bool) (l1 l2 : list Z) (m : gmap Z Z) :
  l1 ≡ₚ l2 → pb_sum x l1 m = pb_sum x l2 m.
Proof.
  unfold pb_sum. induction 1 as [|a l1 l2 _ IH|a b l|l1 l2 l3 _ IH1 _ IH2]; simpl; lia.
Qed.

Lemma pb_sum_app (x : Z → bool) (l1 l2 : list Z) (m : gmap Z Z) :
  pb_sum x (l1 ++ l2) m = pb_sum x l1 m + pb_sum x l2 m.
Proof. unfold pb_sum. induction l1 as [|a l1 IH]; simpl; lia. Qed.

Lemma pb_sum_scale (x : Z → bool) (l : list Z) (m : gmap Z Z) (s : Z) :
  pb_sum x l (Z.mul s <$> m) = s * pb_sum x l m.
Proof.
  unfold pb_sum. induction l as [|a l IH]; simpl; [lia|].
  rewrite IH, lookup_fmap. destruct (m !! a); simpl; lia.
Qed.

Lemma literal_value_neg (x : Z → bool) (v : Z) :
  1 ≤ v → literal_value x (- v) = 1 - literal_value x v.
Proof.
  intros Hv. unfold literal_value.
  rewrite (bool_decide_eq_false_2 (0 < - v)), (bool_decide_eq_true_2 (0 < v)) by lia.
  rewrite Z.opp_involutive. by destruct (x v).
Qed.

(** The sum of the canonical form: the unflipped members, then the negations
    of the flipped ones. *)
Lemma pb_sum_canonical (x : Z → bool) (R : list Z) (coefs coefs' : gmap Z Z) :
  (∀ v, v ∈ R → 1 ≤ v) →
  (∀ v, v ∈ R →
     let c := default 0 (coefs !! v) in
     coefs' !! v = (if bool_decide (c < 0) then None else Some c)
     ∧ coefs' !! (- v) = (if bool_decide (c < 0) then Some (- c) else None)) →
  pb_sum x (filter (λ v, ¬ default 0 (coefs !! v) < 0) R) coefs'
  + pb_sum x (Z.opp <$> filter (λ v, default 0 (coefs !! v) < 0) R) coefs'
  = pb_sum x R coefs - neg_sum coefs R.
Proof.
  induction R as [|v R IH]; intros Hpos Hl; [done|].
  assert (1 ≤ v) as Hv by apply Hpos, list_elem_of_here.
  destruct (Hl v) as [H1 H2]; [apply list_elem_of_here|].
  specialize (IH (λ u Hu, Hpos u (list_elem_of_further _ _ _ Hu))
                 (λ u Hu, Hl u (list_elem_of_further _ _ _ Hu))).
  rewrite !filter_cons. unfold pb_sum, neg_sum in *. simpl foldr.
  set (c := default 0 (coefs !! v)) in *.
  destruct (Z_lt_ge_dec c 0) as [Hneg|Hnn].
  - rewrite (decide_False (P:=¬ c < 0)) by tauto. rewrite (decide_True (P:=c < 0)) by done.
    rewrite bool_decide_eq_true_2 in H2 by done.
    rewrite fmap_cons. simpl foldr. rewrite H2. simpl.
    rewrite (literal_value_neg x v) by lia. rewrite Z.min_r by lia.
    set (L := literal_value x v) in *. nia.
  - rewrite (decide_True (P:=¬ c < 0)) by lia. rewrite (decide_False (P:=c < 0)) by lia.
    rewrite bool_decide_eq_false_2 in H1 by lia.
    simpl foldr. rewrite H1. simpl.
    rewrite Z.min_l by lia. lia.
Qed.

Lemma fmap_mul_one (m : gmap Z Z) : Z.mul 1 <$> m = m.
Proof.
  apply map_eq. intros l. rewrite lookup_fmap.
  destruct (m !! l) as [c|]; simpl; [f_equal; lia|done].
Qed.

(** C1, as the code has it.  For a PB constraint as the grammar gives it,
    after [PB_canonicalize] the comparator is [>=] or [=], and no
    coefficient is negative; every coefficient is strictly positive when no
    coefficient of the input is 0; and the constraint has the assignments
    that satisfied the input, provided the canonical bound fits the [int]
    that holds it. *)
Theorem PB_canonicalize_spec (clause : list Z) (coefs : gmap Z Z) (k comparator : Z)
    (clause' : list Z) (coefs' : gmap Z Z) (k' comparator' : Z) :
  pb_wf clause coefs k comparator →
  PB_canonicalize clause coefs k comparator = (clause', coefs', k', comparator') →
  (comparator' = 1 ∨ comparator' = 2)
  ∧ (∀ l c, coefs' !! l = Some c → 0 ≤ c)
  ∧ ((∀ v c, coefs !! v = Some c → c ≠ 0) → ∀ l c, coefs' !! l = Some c → 0 < c)
  ∧ (- 2 ^ 31 ≤ pb_bound clause coefs k comparator < 2 ^ 31 →
       ∀ x, pb_sat x (clause', coefs', k', comparator')
            = pb_sat x (clause, coefs, k, comparator)).
Proof.
  intros (Hnd & Hv & Hdom & Hc & Hk & Hcmp).
  set (s := pb_sign comparator).
  assert (Hs : s = 1 ∨ s = -1) by (unfold s, pb_sign; case_bool_decide; tauto).
  set (coefs1 := Z.mul s <$> coefs).
  assert (Hstep1 : pb_negate clause coefs k comparator
                   = (coefs1, s * k, if bool_decide (comparator = 3) then 1 else comparator)).
  { unfold pb_negate, coefs1, s, pb_sign. case_bool_decide.
    - rewrite negate_loop_fmap, to_int_id by (done || lia). do 2 f_equal; lia.
    - rewrite fmap_mul_one. do 2 f_equal; lia. }
  assert (Hl1 : ∀ v, v ∈ clause →
            ∃ c0, coefs !! v = Some c0 ∧ coefs1 !! v = Some (s * c0)
                  ∧ - 2 ^ 31 < s * c0 < 2 ^ 31).
  { intros v [c0 Hc0]%Hdom. exists c0. unfold coefs1.
    rewrite lookup_fmap, Hc0. specialize (Hc v c0 Hc0). split_and!; [done|done|lia|lia]. }
  assert (Hpre : flip_pre coefs1 clause).
  { split; [done|]. intros v Hin. split; [by apply Hv|]. split.
    - unfold coefs1. rewrite lookup_fmap.
      destruct (coefs !! (- v)) as [c|] eqn:E; [|done].
      assert (- v ∈ clause) as Hin' by (apply Hdom; eauto).
      apply Hv in Hin, Hin'. lia.
    - destruct (Hl1 v Hin) as (c0 & _ & ? & ?). eauto. }
  unfold PB_canonicalize. rewrite Hstep1. unfold pb_absorb.
  destruct (flip_loop clause coefs1 [] (s * k) Hpre) as (cf & Hfold & Hother & Hmem).
  rewrite Hfold. rewrite app_nil_l. intros [= <- <- <- <-].
  assert (Hcoef : ∀ l c, cf !! l = Some c →
            0 ≤ c ∧ ((∀ v c0, coefs !! v = Some c0 → c0 ≠ 0) → 0 < c)).
  { intros l c Hlc. destruct (decide (l ∈ clause)) as [Hin|Hnin].
    - destruct (Hl1 l Hin) as (c0 & Hc0 & Hc1 & _).
      destruct (Hmem l Hin) as [Hm _]. rewrite Hc1 in Hm. simpl in Hm.
      rewrite Hlc in Hm. case_bool_decide; [done|]. injection Hm as ->.
      split; [lia|]. intros Hnz. specialize (Hnz l c0 Hc0). lia.
    - destruct (decide (- l ∈ clause)) as [Hin'|Hnin'].
      + destruct (Hl1 _ Hin') as (c0 & Hc0 & Hc1 & _).
        destruct (Hmem _ Hin') as [_ Hm]. rewrite Hc1, Z.opp_involutive in Hm. simpl in Hm.
        rewrite Hlc in Hm. case_bool_decide; [|done]. injection Hm as ->. lia.
      + rewrite Hother in Hlc by done. unfold coefs1 in Hlc.
        rewrite lookup_fmap in Hlc. destruct (coefs !! l) as [c0|] eqn:E; [|done].
        exfalso. apply Hnin, Hdom. eauto. }
  split; [|split; [|split]].
  - destruct Hcmp as [-> | [-> | ->]]; [by left|by right|by left].
  - intros l c Hlc. by destruct (Hcoef l c Hlc).
  - intros Hnz l c Hlc. destruct (Hcoef l c Hlc) as [_ Hp]. by apply Hp.
  - intros Hfit x.
    set (F := filter (λ v, default 0 (coefs1 !! v) < 0) clause) in *.
    assert (HF : ∀ v, v ∈ F → 1 ≤ v < 2 ^ 31).
    { intros v [_ Hin]%list_elem_of_filter. by apply Hv. }
    set (clause2 := foldl _ clause (Z.opp <$> F)).
    assert (Hperm : clause2 ≡ₚ filter (λ v, ¬ default 0 (coefs1 !! v) < 0) clause
                              ++ (Z.opp <$> F)).
    { apply NoDup_Permutation.
      - by apply clause_update_NoDup.
      - apply NoDup_app. split_and!.
        + by apply NoDup_filter.
        + intros l [_ Hin]%list_elem_of_filter (v & -> & Hvf)%list_elem_of_fmap.
          apply Hv in Hin. apply HF in Hvf. lia.
        + apply NoDup_fmap_2; [intros a b Hab; lia|]. by apply NoDup_filter.
      - intros l. unfold clause2. rewrite clause_update by done.
        rewrite elem_of_app, list_elem_of_fmap. unfold F.
        setoid_rewrite list_elem_of_filter. split.
        + intros [[Hin Hnf]|[Hneg Hin]]; [left; tauto|].
          right. exists (- l). split_and!; [lia|done|done].
        + intros [[Hnn Hin]|(v & -> & Hneg & Hin)]; [left; tauto|].
          right. rewrite Z.opp_involutive. done. }
    assert (Hsum : pb_sum x clause2 cf
                   = s * pb_sum x clause coefs - neg_sum coefs1 clause).
    { rewrite (pb_sum_perm _ _ _ _ Hperm), pb_sum_app.
      rewrite pb_sum_canonical; [|by intros v Hin; apply Hv in Hin; lia|done].
      unfold coefs1. by rewrite pb_sum_scale. }
    assert (Hk' : (if bool_decide (F = []) then s * k else to_int (s * k - neg_sum coefs1 clause))
                  = s * k - neg_sum coefs1 clause).
    { unfold pb_bound in Hfit. fold s in Hfit. fold coefs1 in Hfit.
      case_bool_decide as HFn.
      - rewrite (neg_sum_none coefs1 clause HFn). lia.
      - by apply to_int_id. }
    unfold pb_sat. rewrite Hk', Hsum.
    destruct Hcmp as [-> | [-> | ->]]; unfold s, pb_sign; simpl;
      apply bool_decide_ext; lia.
Qed.

(** ** Iterated maps as lists *)

Lemma map_find_assign {V} (k k' : Z) (v : V) (m : list (Z * V)) :
  map_find (map_assign k v m) k' = if bool_decide (k = k') then Some v else map_find m k'.
Proof.
  induction m as [|[k0 v0] m IH]; simpl.
  - by case_bool_decide.
  - destruct (decide (k0 = k)) as [->|Hne].
    + rewrite (bool_decide_eq_true_2 (k = k)) by done. simpl.
      destruct (decide (k = k')) as [->|Hne'].
      * by rewrite !bool_decide_eq_true_2.
      * by rewrite !bool_decide_eq_false_2.
    + rewrite (bool_decide_eq_false_2 (k0 = k)) by done. simpl. rewrite IH.
      destruct (decide (k0 = k')) as [->|Hne'].
      * rewrite (bool_decide_eq_true_2 (k' = k')) by done.
        by rewrite (bool_decide_eq_false_2 (k = k')).
      * by rewrite (bool_decide_eq_false_2 (k0 = k')) by done.
Qed.

Lemma map_find_erase {V} (k k' : Z) (m : list (Z * V)) :
  map_find (map_erase k m) k' = if bool_decide (k = k') then None else map_find m k'.
Proof.
  unfold map_erase. induction m as [|[k0 v0] m IH]; simpl.
  - by case_bool_decide.
  - rewrite filter_cons. simpl. destruct (decide (k0 ≠ k)) as [Hne|Heq].
    + simpl. rewrite IH. destruct (decide (k0 = k')) as [->|Hne'].
      * rewrite (bool_decide_eq_true_2 (k' = k')) by done.
        by rewrite (bool_decide_eq_false_2 (k = k')).
      * by rewrite (bool_decide_eq_false_2 (k0 = k')) by done.
    + assert (k0 = k) as -> by (destruct (decide (k0 = k)); [done|by destruct Heq]).
      rewrite IH. destruct (decide (k = k')) as [->|Hne'].
      * by rewrite !bool_decide_eq_true_2.
      * by rewrite !bool_decide_eq_false_2.
Qed.

Lemma map_find_fmap {V W} (f : V → W) (k : Z) (m : list (Z * V)) :
  map_find ((λ kv, (kv.1, f kv.2)) <$> m) k = f <$> map_find m k.
Proof.
  induction m as [|[k0 v0] m IH]; simpl; [done|]. by case_bool_decide.
Qed.

Lemma map_find_keys {V} (k : Z) (m : list (Z * V)) :
  k ∈ map_keys m ↔ is_Some (map_find m k).
Proof.
  unfold map_keys. induction m as [|[k0 v0] m IH]; simpl.
  - rewrite elem_of_nil. split; [done|]. by intros [? ?].
  - rewrite elem_of_cons, IH. case_bool_decide.
    + split; [eauto|]. intros _. by left.
    + split; [intros [?|?]; [congruence|done]|by right].
Qed.

Lemma map_keys_assign_in {V} (k : Z) (v : V) (m : list (Z * V)) :
  k ∈ map_keys m → map_keys (map_assign k v m) = map_keys m.
Proof.
  unfold map_keys. induction m as [|[k0 v0] m IH]; simpl.
  - by intros ?%elem_of_nil.
  - intros Hin. case_bool_decide as Hk; simpl; [by subst|].
    f_equal. apply IH. apply elem_of_cons in Hin as [->|]; done.
Qed.

Lemma map_keys_assign_new {V} (k : Z) (v : V) (m : list (Z * V)) :
  k ∉ map_keys m → map_keys (map_assign k v m) = map_keys m ++ [k].
Proof.
  unfold map_keys. induction m as [|[k0 v0] m IH]; simpl; [done|].
  intros Hnin. apply not_elem_of_cons in Hnin as [Hne Hnin].
  rewrite bool_decide_eq_false_2 by done. simpl. f_equal. by apply IH.
Qed.

Lemma map_keys_erase {V} (k : Z) (m : list (Z * V)) :
  map_keys (map_erase k m) = filter (λ y, y ≠ k) (map_keys m).
Proof.
  unfold map_keys, map_erase. induction m as [|[k0 v0] m IH]; [done|].
  rewrite fmap_cons, !filter_cons. cbn [fst].
  destruct (decide (k0 ≠ k)); [rewrite fmap_cons|]; by rewrite IH.
Qed.

Lemma map_at_Ret {V} (m : list (Z * V)) (k : Z) (v : V) :
  map_at m k = Ret v ↔ map_find m k = Some v.
Proof. unfold map_at. destruct (map_find m k); split; congruence. Qed.

(** ** class Graph *)

Lemma Graph_ctor_from (vs : list Z) (g : Graph) :
  NoDup (vertices g) →
  (∀ v, v ∈ vertices g ↔ is_Some (map_find (adjacencyMap g) v)) →
  (∀ u s, map_find (adjacencyMap g) u = Some s → s = []) →
  let g' := foldl (λ g v, {| vertices := set_insert v (vertices g);
                             adjacencyMap := map_assign v [] (adjacencyMap g) |}) g vs in
  NoDup (vertices g')
  ∧ (∀ v, v ∈ vertices g' ↔ is_Some (map_find (adjacencyMap g') v))
  ∧ (∀ u s, map_find (adjacencyMap g') u = Some s → s = [])
  ∧ (∀ v, v ∈ vertices g' ↔ v ∈ vertices g ∨ v ∈ vs)
  ∧ vertices g' = foldl (λ s v, set_insert v s) (vertices g) vs.
Proof.
  revert g. induction vs as [|x vs IH]; intros g Hnd Hkeys Hempty; simpl.
  - split_and!; try done. intros v. rewrite elem_of_nil. tauto.
  - edestruct (IH {| vertices := set_insert x (vertices g);
                     adjacencyMap := map_assign x [] (adjacencyMap g) |})
      as (H1 & H2 & H3 & H4 & H5); simpl.
    + by apply NoDup_set_insert.
    + intros v. rewrite elem_of_set_insert, map_find_assign, Hkeys.
      case_bool_decide; [subst; split; eauto|]. split; [intros [?|?]; [congruence|done]|tauto].
    + intros u s. rewrite map_find_assign. case_bool_decide; [congruence|apply Hempty].
    + split_and!; try done. intros v. rewrite H4. simpl.
      rewrite elem_of_set_insert, elem_of_cons. tauto.
Qed.

Lemma foldl_set_insert_NoDup (vs acc : list Z) :
  NoDup (acc ++ vs) → foldl (λ s v, set_insert v s) acc vs = acc ++ vs.
Proof.
  revert acc. induction vs as [|x vs IH]; intros acc Hnd; simpl.
  - by rewrite app_nil_r.
  - assert (x ∉ acc) as Hx.
    { apply NoDup_app in Hnd as (_ & Hd & _). intros Hin. apply (Hd x Hin), list_elem_of_here. }
    unfold set_insert at 2. rewrite (proj2 (set_contains_false acc x) Hx).
    rewrite IH; rewrite <- app_assoc; done.
Qed.

Lemma Graph_ctor_spec (vs : list Z) :
  Graph_inv (Graph_ctor vs)
  ∧ (∀ u v, ¬ edge (Graph_ctor vs) u v)
  ∧ (∀ v, v ∈ vertices (Graph_ctor vs) ↔ v ∈ vs)
  ∧ (NoDup vs → vertices (Graph_ctor vs) = vs).
Proof.
  unfold Graph_ctor.
  destruct (Graph_ctor_from vs {| vertices := []; adjacencyMap := [] |})
    as (H1 & H2 & H3 & H4 & H5); simpl.
  - apply NoDup_nil_2.
  - intros v. rewrite elem_of_nil. split; [done|]. by intros [? ?].
  - done.
  - assert (Hne : ∀ u v, ¬ edge (foldl (λ g v, {| vertices := set_insert v (vertices g);
                             adjacencyMap := map_assign v [] (adjacencyMap g) |})
                             {| vertices := []; adjacencyMap := [] |} vs) u v).
    { intros u v (s & Hs & Hv). apply H3 in Hs as ->. by apply elem_of_nil in Hv. }
    split_and!.
    + split_and!; [done|done| |].
      * intros u s Hs. apply H3 in Hs as ->. apply NoDup_nil_2.
      * intros u v He. by apply Hne in He.
    + done.
    + intros v. rewrite H4. simpl. rewrite elem_of_nil. tauto.
    + intros Hnd. rewrite H5. simpl. by apply (foldl_set_insert_NoDup vs []).
Qed.

Lemma addEdge_lookup (v1 v2 : Z) (g g' : Graph) :
  addEdge v1 v2 g = Ret g' →
  vertices g' = vertices g
  ∧ ∃ n1 n2, map_find (adjacencyMap g) v1 = Some n1 ∧ map_find (adjacencyMap g) v2 = Some n2
     ∧ ∀ u, map_find (adjacencyMap g') u
            = if bool_decide (v2 = u)
              then Some (set_insert v1 (if bool_decide (v1 = v2) then set_insert v2 n1 else n2))
              else if bool_decide (v1 = u) then Some (set_insert v2 n1)
              else map_find (adjacencyMap g) u.
Proof.
  unfold addEdge, map_at.
  destruct (map_find (adjacencyMap g) v1) as [n1|] eqn:E1; [|done]. simpl.
  rewrite map_find_assign.
  destruct (decide (v1 = v2)) as [<-|Hne].
  - rewrite bool_decide_eq_true_2 by done. simpl. intros [= <-]. simpl.
    split; [done|]. exists n1, n1. split_and!; [done|done|].
    intros u. rewrite !map_find_assign. by case_bool_decide.
  - rewrite (bool_decide_eq_false_2 (v1 = v2)) by done.
    destruct (map_find (adjacencyMap g) v2) as [n2|] eqn:E2; [|done]. simpl.
    intros [= <-]. simpl. split; [done|]. exists n1, n2. split_and!; [done|done|].
    intros u. by rewrite !map_find_assign.
Qed.

Lemma addEdge_edge (v1 v2 : Z) (g g' : Graph) :
  addEdge v1 v2 g = Ret g' →
  ∀ u v, edge g' u v ↔ edge g u v ∨ (u = v1 ∧ v = v2) ∨ (u = v2 ∧ v = v1).
Proof.
  intros (_ & n1 & n2 & H1 & H2 & Hl)%addEdge_lookup u v. unfold edge. rewrite Hl.
  destruct (decide (v2 = u)) as [<-|Hne2].
  - rewrite bool_decide_eq_true_2 by done. split.
    + intros (s & [= <-] & Hv). apply elem_of_set_insert in Hv as [->|Hv]; [tauto|].
      case_bool_decide; [subst|eauto].
      apply elem_of_set_insert in Hv as [->|Hv]; [tauto|]. eauto.
    + intros Hor. eexists. split; [done|]. rewrite elem_of_set_insert.
      destruct Hor as [(s & Hs & Hv)|[[-> ->]|[_ ->]]]; [|by left|by left].
      right. rewrite H2 in Hs. injection Hs as <-.
      case_bool_decide; [|done]. subst. rewrite elem_of_set_insert. right. congruence.
  - rewrite (bool_decide_eq_false_2 (v2 = u)) by done.
    destruct (decide (v1 = u)) as [<-|Hne1].
    + rewrite bool_decide_eq_true_2 by done. split.
      * intros (s & [= <-] & Hv). apply elem_of_set_insert in Hv as [->|Hv]; [tauto|]. eauto.
      * intros Hor. eexists. split; [done|]. rewrite elem_of_set_insert.
        destruct Hor as [(s & Hs & Hv)|[[_ ->]|[-> _]]]; [|by left|done].
        right. congruence.
    + rewrite (bool_decide_eq_false_2 (v1 = u)) by done. split; [eauto|].
      intros [?|[[-> _]|[-> _]]]; done.
Qed.

Lemma addEdge_inv (v1 v2 : Z) (g g' : Graph) :
  Graph_inv g → addEdge v1 v2 g = Ret g' → Graph_inv g'.
Proof.
  intros (Hnd & Hkeys & Hsets & Hsym) Hadd.
  pose proof (addEdge_edge _ _ _ _ Hadd) as He.
  destruct (addEdge_lookup _ _ _ _ Hadd) as (Hv & n1 & n2 & H1 & H2 & Hl).
  split_and!.
  - by rewrite Hv.
  - intros v. rewrite Hv, Hkeys, Hl. repeat case_bool_decide; subst; split; eauto.
  - intros u s. rewrite Hl.
    destruct (bool_decide (v2 = u)).
    { intros [= <-]. destruct (bool_decide (v1 = v2));
        repeat apply NoDup_set_insert; eauto. }
    destruct (bool_decide (v1 = u)); [|apply Hsets].
    intros [= <-]. apply NoDup_set_insert. eauto.
  - intros u v. rewrite !He. intros [?|[?|?]]; [left; by apply Hsym|tauto|tauto].
Qed.

Lemma addEdge_total (v1 v2 : Z) (g : Graph) :
  Graph_inv g → v1 ∈ vertices g → v2 ∈ vertices g → ∃ g', addEdge v1 v2 g = Ret g'.
Proof.
  intros (_ & Hkeys & _) [n1 H1]%Hkeys [n2 H2]%Hkeys. unfold addEdge, map_at.
  rewrite H1. simpl. rewrite map_find_assign. case_bool_decide; simpl; [eauto|].
  rewrite H2. simpl. eauto.
Qed.

Lemma removeVertex_lookup (w u : Z) (g : Graph) :
  map_find (adjacencyMap (removeVertex w g)) u
  = if bool_decide (w = u) then None else set_erase w <$> map_find (adjacencyMap g) u.
Proof. unfold removeVertex. simpl. rewrite map_find_fmap, map_find_erase. by case_bool_decide. Qed.

Lemma removeVertex_edge (w : Z) (g : Graph) (u v : Z) :
  edge (removeVertex w g) u v ↔ edge g u v ∧ u ≠ w ∧ v ≠ w.
Proof.
  unfold edge. rewrite removeVertex_lookup. case_bool_decide as Hw.
  - split; [by intros (? & ? & _)|]. intros (_ & ? & _). congruence.
  - destruct (map_find (adjacencyMap g) u) as [s|]; simpl.
    + split.
      * intros (s' & [= <-] & [? ?]%elem_of_set_erase). split; [eauto|]. split; congruence.
      * intros ((s' & [= <-] & Hv) & _ & Hne). eexists. split; [done|].
        by apply elem_of_set_erase.
    + split; [by intros (? & ? & _)|]. by intros ((? & ? & _) & _).
Qed.

Lemma removeVertex_inv (w : Z) (g : Graph) : Graph_inv g → Graph_inv (removeVertex w g).
Proof.
  intros (Hnd & Hkeys & Hsets & Hsym). split_and!.
  - simpl. by apply NoDup_set_erase.
  - intros v. rewrite removeVertex_lookup. simpl. rewrite elem_of_set_erase, Hkeys.
    case_bool_decide; subst.
    + split; [tauto|]. by intros [? ?].
    + rewrite fmap_is_Some. split; [tauto|]. intros ?. split; [congruence|done].
  - intros u s. rewrite removeVertex_lookup. case_bool_decide; [done|].
    destruct (map_find (adjacencyMap g) u) as [s'|] eqn:E; [|done]. simpl.
    intros [= <-]. apply NoDup_set_erase. eauto.
  - intros u v. rewrite !removeVertex_edge. intros (? & ? & ?). split; [by apply Hsym|done].
Qed.

Lemma edge_vertices (g : Graph) (u v : Z) :
  Graph_inv g → edge g u v → u ∈ vertices g ∧ v ∈ vertices g.
Proof.
  intros (_ & Hkeys & _ & Hsym) He. split.
  - destruct He as (s & Hs & _). apply Hkeys. eauto.
  - apply Hsym in He as (s & Hs & _). apply Hkeys. eauto.
Qed.

Lemma isNeighbor_edge (g : Graph) (u v : Z) :
  isNeighbor g u v = Ret true ↔ edge g u v.
Proof.
  unfold isNeighbor, map_at, edge. destruct (map_find (adjacencyMap g) u) as [s|]; simpl.
  - split.
    + intros [= Hc]. apply set_contains_true in Hc. eauto.
    + intros (s' & [= <-] & Hv). f_equal. by apply set_contains_true.
  - split; [done|]. by intros (? & ? & _).
Qed.

Lemma isNeighbor_total (g : Graph) (u v : Z) :
  Graph_inv g → u ∈ vertices g → ∃ b, isNeighbor g u v = Ret b.
Proof.
  intros (_ & Hkeys & _) [s Hs]%Hkeys. unfold isNeighbor, map_at. rewrite Hs. simpl. eauto.
Qed.

Lemma run_call_inv (c : GraphCall) (g g' : Graph) :
  Graph_inv g → run_call g c = Ret g' →
  Graph_inv g'
  ∧ (∀ v, v ∈ vertices g' → v ∈ vertices g)
  ∧ (∀ w, c = call_removeVertex w → w ∉ vertices g')
  ∧ ((∀ v, ¬ edge g v v) → (∀ v1 v2, c = call_addEdge v1 v2 → v1 ≠ v2) →
     ∀ v, ¬ edge g' v v).
Proof.
  intros Hinv. destruct c as [v1 v2|w]; simpl.
  - intros Hadd. split_and!.
    + by eapply addEdge_inv.
    + intros v. destruct (addEdge_lookup _ _ _ _ Hadd) as [-> _]. done.
    + done.
    + intros Hno Hne v. rewrite (addEdge_edge _ _ _ _ Hadd).
      specialize (Hne v1 v2 eq_refl). intros [?|[[-> ->]|[-> ->]]]; [by eapply Hno|done|done].
  - intros [= <-]. split_and!.
    + by apply removeVertex_inv.
    + intros v. simpl. by intros [_ ?]%elem_of_set_erase.
    + intros ? [= <-]. simpl. by intros [? _]%elem_of_set_erase.
    + intros Hno _ v [He _]%removeVertex_edge. by eapply Hno.
Qed.

Lemma run_calls_inv (calls : list GraphCall) (g g' : Graph) :
  Graph_inv g → foldlM run_call g calls = Ret g' →
  Graph_inv g'
  ∧ (∀ v, v ∈ vertices g' → v ∈ vertices g)
  ∧ (∀ w, call_removeVertex w ∈ calls → w ∉ vertices g')
  ∧ ((∀ v, ¬ edge g v v) → (∀ v1 v2, call_addEdge v1 v2 ∈ calls → v1 ≠ v2) →
     ∀ v, ¬ edge g' v v).
Proof.
  revert g. induction calls as [|c calls IH]; intros g Hinv; simpl.
  - intros [= <-]. split_and!; [done|done| |done]. intros w Hw. by apply elem_of_nil in Hw.
  - destruct (run_call g c) as [g1|] eqn:E1; [|done]. simpl. intros Hrest.
    destruct (run_call_inv c g g1 Hinv E1) as (Hi1 & Hv1 & Hr1 & Hs1).
    destruct (IH g1 Hi1 Hrest) as (Hi & Hv & Hr & Hs).
    split_and!; [done|by intros v Hin; apply Hv1, Hv| |].
    + intros w [Heq|Hw]%elem_of_cons; [|by apply Hr].
      intros Hin%Hv. by apply (Hr1 w (eq_sym Heq)).
    + intros Hno Hne. apply Hs.
      * apply Hs1; [done|]. intros v1 v2 ->. apply Hne, list_elem_of_here.
      * intros v1 v2 Hin. by apply Hne, list_elem_of_further.
Qed.

(** C8, as the code has it.  After any sequence of [addEdge] and
    [removeVertex] calls that return, on a graph made from a vertex set:
    adjacency is symmetric; a neighbour set holds vertices of the graph only,
    so that a removed vertex is in none; [hasPath(v, v)] is true; and there
    is no self-loop provided no call was [addEdge(v, v)]. *)
Theorem graph_calls_spec (vs : list Z) (calls : list GraphCall) (g : Graph) :
  run_calls vs calls = Ret g →
  (∀ u v, u ∈ vertices g → v ∈ vertices g → isNeighbor g u v = isNeighbor g v u)
  ∧ (∀ u v, isNeighbor g u v = Ret true → u ∈ vertices g ∧ v ∈ vertices g)
  ∧ (∀ w, call_removeVertex w ∈ calls →
       (w ∉ vertices g) ∧ (∀ u, isNeighbor g u w ≠ Ret true))
  ∧ (∀ v, hasPath g v v = Ret true)
  ∧ ((∀ v1 v2, call_addEdge v1 v2 ∈ calls → v1 ≠ v2) → ∀ v, isNeighbor g v v ≠ Ret true).
Proof.
  unfold run_calls. intros Hrun.
  destruct (Graph_ctor_spec vs) as (Hinv0 & Hno0 & _ & _).
  destruct (run_calls_inv calls _ _ Hinv0 Hrun) as (Hinv & _ & Hrem & Hself).
  assert (Hsym : ∀ u v, edge g u v → edge g v u) by apply Hinv.
  split_and!.
  - intros u v Hu Hv.
    destruct (isNeighbor_total g u v Hinv Hu) as [b1 E1].
    destruct (isNeighbor_total g v u Hinv Hv) as [b2 E2].
    rewrite E1, E2. f_equal.
    destruct b1, b2; try done.
    + apply isNeighbor_edge, Hsym, isNeighbor_edge in E1. congruence.
    + apply isNeighbor_edge, Hsym, isNeighbor_edge in E2. congruence.
  - intros u v He%isNeighbor_edge. by apply edge_vertices.
  - intros w Hw. split; [by apply Hrem|].
    intros u He%isNeighbor_edge. apply edge_vertices in He as [_ Hin]; [|done].
    by apply (Hrem w).
  - intros v. unfold hasPath. simpl. by rewrite bool_decide_eq_true_2.
  - intros Hne v He%isNeighbor_edge. by apply (Hself (λ v, Hno0 v v) Hne v).
Qed.

(** ** JoinNonterminal::getAdditiveAssignments *)

Lemma extendAssignments_length2 (var : Z) (l : list (gmap Z bool)) :
  length (extendAssignments l var) = (2 * Nat.max 1 (length l))%nat.
Proof. rewrite extendAssignments_length. lia. Qed.

(** The loop doubles the list once for each additive variable it meets,
    until [sliceVarCount] of them are assigned; a list that is empty stays
    empty when it meets none. *)
Lemma slice_loop_length (cnf : Cnf) (sliceVarCount : Z) (varOrder : list Z)
    (assignedVars : Z) (assignments : list (gmap Z bool)) :
  let n := Nat.min (Z.to_nat (sliceVarCount - assignedVars)) (additive_count cnf varOrder) in
  length (slice_loop cnf sliceVarCount varOrder assignedVars assignments)
  = if decide (n = 0%nat) then length assignments
    else (2 ^ n * Nat.max 1 (length assignments))%nat.
Proof.
  revert assignedVars assignments.
  induction varOrder as [|var varOrder IH]; intros a A; simpl.
  - unfold additive_count. simpl. rewrite Nat.min_0_r. done.
  - unfold additive_count in *. rewrite filter_cons.
    case_bool_decide as Hlt.
    + destruct (set_contains (additiveVars cnf) var) eqn:Hadd.
      * apply set_contains_true in Hadd.
        rewrite (decide_True (P:=var ∈ additiveVars cnf)) by done. simpl length.
        rewrite IH. rewrite extendAssignments_length2.
        replace (Z.to_nat (sliceVarCount - a)) with (S (Z.to_nat (sliceVarCount - (a + 1))))
          by lia.
        rewrite <- Nat.succ_min_distr.
        set (n := Nat.min _ _).
        rewrite (decide_False (P:=S n = 0%nat)) by lia.
        destruct (decide (n = 0%nat)) as [->|Hn]; simpl; lia.
      * apply set_contains_false in Hadd.
        rewrite (decide_False (P:=var ∈ additiveVars cnf)) by done. apply IH.
    + replace (Z.to_nat (sliceVarCount - a)) with 0%nat by lia. done.
Qed.

(** C5, as the code has it.  For [k <= 0] the result is the single empty
    assignment.  For [k > 0], when the variable order is computed, the result
    has [2^min(k, c)] members, [c] being the number of additive variables in
    the order, except when [c = 0]: the loop then never extends the list it
    starts from, which is empty, and the result has no member instead of
    [2^0 = 1]. *)
Theorem getAdditiveAssignments_length (cnf : Cnf) (terminalCount : Z) (node : JoinNode)
    (h k : Z) (varOrder : list Z) :
  (k ≤ 0 → getAdditiveAssignments cnf terminalCount node h k = Ret [∅])
  ∧ (0 < k → getVarOrder cnf terminalCount node h = Ret varOrder →
       ∃ A, getAdditiveAssignments cnf terminalCount node h k = Ret A
            ∧ length A = if decide (additive_count cnf varOrder = 0%nat) then 0%nat
                         else (2 ^ Nat.min (Z.to_nat k) (additive_count cnf varOrder))%nat).
Proof.
  unfold getAdditiveAssignments. split.
  - intros Hk. by rewrite bool_decide_eq_true_2.
  - intros Hk Hord. rewrite bool_decide_eq_false_2 by lia. rewrite Hord. simpl.
    eexists. split; [done|]. rewrite slice_loop_length. simpl length.
    rewrite Z.sub_0_r.
    destruct (decide (additive_count cnf varOrder = 0%nat)) as [->|Hc].
    + rewrite Nat.min_0_r. done.
    + rewrite decide_False by lia. lia.
Qed.

(** ** The variable orders of [Cnf] *)

Lemma elem_of_pairs_after {A} (l : list A) (a b : A) :
  (a, b) ∈ pairs_after l → a ∈ l ∧ b ∈ l.
Proof.
  induction l as [|x l IH]; simpl; [by intros ?%elem_of_nil|].
  rewrite elem_of_app, list_elem_of_fmap. intros [(y & [= -> ->] & Hy)|Hin].
  - split; [apply list_elem_of_here|by apply list_elem_of_further].
  - destruct (IH Hin). split; by apply list_elem_of_further.
Qed.

Lemma length_pairs_after {A} (l : list A) :
  (length (pairs_after l) ≤ length l * length l)%nat.
Proof.
  induction l as [|x l IH]; simpl; [done|].
  rewrite length_app, length_map. lia.
Qed.

Lemma set_erase_perm (v : Z) (s : list Z) :
  NoDup s → v ∈ s → s ≡ₚ v :: set_erase v s.
Proof.
  intros Hnd Hv. apply NoDup_Permutation; [done| |].
  - apply NoDup_cons. split; [|by apply NoDup_set_erase].
    rewrite elem_of_set_erase. tauto.
  - intros x. rewrite elem_of_cons, elem_of_set_erase.
    destruct (decide (x = v)) as [->|]; tauto.
Qed.

Lemma NoDup_subseteq_length (l k : list Z) :
  NoDup l → (∀ x, x ∈ l → x ∈ k) → (length l ≤ length k)%nat.
Proof. intros Hnd Hsub. apply submseteq_length, NoDup_submseteq; done. Qed.

(** A run of [addEdge] over pairs of vertices returns, and keeps the
    invariant and the vertex set. *)
Lemma addEdges_total {A} (φ : A → Z) (pairs : list (A * A)) (g : Graph) :
  Graph_inv g →
  (∀ a b, (a, b) ∈ pairs → φ a ∈ vertices g ∧ φ b ∈ vertices g) →
  ∃ g', foldlM (λ graph '(a, b), addEdge (φ a) (φ b) graph) g pairs = Ret g'
        ∧ Graph_inv g' ∧ vertices g' = vertices g.
Proof.
  revert g. induction pairs as [|[a b] pairs IH]; intros g Hinv Hin; simpl.
  - eauto.
  - destruct (Hin a b) as [Ha Hb]; [apply list_elem_of_here|].
    destruct (addEdge_total (φ a) (φ b) g Hinv Ha Hb) as [g1 E1]. rewrite E1. simpl.
    pose proof (addEdge_inv _ _ _ _ Hinv E1) as Hinv1.
    destruct (addEdge_lookup _ _ _ _ E1) as [Hv1 _].
    destruct (IH g1 Hinv1) as (g' & E & Hinv' & Hv').
    { intros a' b' Hin'. rewrite Hv1. by apply Hin, list_elem_of_further. }
    exists g'. rewrite Hv', Hv1. done.
Qed.

Lemma getPrimalGraph_from (cnf : Cnf) (cls : list (list Z)) (g : Graph) :
  Graph_inv g →
  Forall (λ clause, Forall (λ l, Z.abs l ∈ vertices g) clause) cls →
  ∃ g', foldlM (λ graph clause,
                  foldlM (λ graph '(literal1, literal2),
                            addEdge (Z.abs literal1) (Z.abs literal2) graph)
                         graph (pairs_after clause)) g cls = Ret g'
        ∧ Graph_inv g' ∧ vertices g' = vertices g.
Proof.
  revert g. induction cls as [|clause cls IH]; intros g Hinv Hall; simpl; [eauto|].
  apply Forall_cons in Hall as [Hc Hall].
  destruct (addEdges_total Z.abs (pairs_after clause) g Hinv) as (g1 & E1 & Hinv1 & Hv1).
  { intros a b [Ha Hb]%elem_of_pairs_after. rewrite Forall_forall in Hc. split; by apply Hc. }
  rewrite E1. simpl.
  destruct (IH g1 Hinv1) as (g' & E & Hinv' & Hv'); [by rewrite Hv1|].
  exists g'. rewrite Hv', Hv1. done.
Qed.

Lemma Cnf_wf_vars (cnf : Cnf) : Cnf_wf cnf → Cnf_vars_wf cnf.
Proof. intros (H1 & H2 & H3 & H4 & H5 & _). by split_and!. Qed.

Lemma getPrimalGraph_total (cnf : Cnf) :
  Cnf_vars_wf cnf →
  ∃ g, getPrimalGraph cnf = Ret g ∧ Graph_inv g ∧ vertices g = apparentVars cnf.
Proof.
  intros (Hnd & _ & _ & _ & Hcl). unfold getPrimalGraph.
  destruct (Graph_ctor_spec (apparentVars cnf)) as (Hinv & _ & _ & Hv).
  specialize (Hv Hnd).
  destruct (getPrimalGraph_from cnf (clauses cnf) _ Hinv) as (g & E & Hinv' & Hv');
    [by rewrite Hv|].
  exists g. rewrite Hv', Hv. done.
Qed.

Lemma neighbors_vertices (g : Graph) (v : Z) (s : list Z) :
  Graph_inv g → map_find (adjacencyMap g) v = Some s →
  NoDup s ∧ ∀ u, u ∈ s → u ∈ vertices g.
Proof.
  intros Hinv Hs. split; [by eapply Hinv|].
  intros u Hu. eapply (edge_vertices g v u); [done|]. by exists s.
Qed.

Lemma countFillInEdges_total (g : Graph) (v : Z) :
  Graph_inv g → v ∈ vertices g →
  ∃ count, countFillInEdges g v = Ret count
           ∧ 0 ≤ count ≤ Z.of_nat (length (vertices g)) ^ 2.
Proof.
  intros Hinv Hv. unfold countFillInEdges, map_at.
  assert (is_Some (map_find (adjacencyMap g) v)) as [s Hs] by by apply Hinv.
  rewrite Hs. simpl.
  destruct (neighbors_vertices g v s Hinv Hs) as [Hnd Hsub].
  assert (Hgen : ∀ pairs c0,
    (∀ a b, (a, b) ∈ pairs → a ∈ vertices g) →
    ∃ count, foldlM (λ count '(neighbor1, neighbor2),
                       let* b := isNeighbor g neighbor1 neighbor2 in
                       Ret (if b then count else count + 1)) c0 pairs = Ret count
             ∧ c0 ≤ count ≤ c0 + Z.of_nat (length pairs)).
  { induction pairs as [|[a b] pairs IH]; intros c0 Hin; simpl.
    - exists c0. split; [done|lia].
    - destruct (isNeighbor_total g a b Hinv) as [r Er];
        [by eapply Hin, list_elem_of_here|].
      rewrite Er. simpl.
      destruct (IH (if r then c0 else c0 + 1)) as (count & E & Hb).
      { intros a' b' Hin'. by eapply Hin, list_elem_of_further. }
      exists count. split; [done|]. destruct r; lia. }
  destruct (Hgen (pairs_after s) 0) as (count & E & Hb).
  { intros a b [Ha _]%elem_of_pairs_after. by apply Hsub. }
  exists count. split; [done|].
  pose proof (length_pairs_after s). pose proof (NoDup_subseteq_length s _ Hnd Hsub). nia.
Qed.

Lemma getMinfillVertex_total (g : Graph) :
  Graph_inv g → vertices g ≠ [] →
  Z.of_nat (length (vertices g)) ^ 2 < MAX_INT →
  (∀ v, v ∈ vertices g → v ≠ MIN_INT) →
  ∃ v, getMinfillVertex g = Ret v ∧ v ∈ vertices g.
Proof.
  intros Hinv Hne Hmax Hmin. unfold getMinfillVertex.
  set (step := λ '(vertex, fillInEdgeCount) v,
         let* count := countFillInEdges g v in
         Ret (if bool_decide (count < fillInEdgeCount) then (v, count)
              else (vertex, fillInEdgeCount))).
  assert (Hkeep : ∀ L vx c, (∀ v, v ∈ L → v ∈ vertices g) → vx ∈ vertices g →
            ∃ vx' c', foldlM step (vx, c) L = Ret (vx', c') ∧ vx' ∈ vertices g).
  { induction L as [|v L IH]; intros vx c HL Hvx; simpl; [eauto|].
    destruct (countFillInEdges_total g v Hinv) as (count & -> & _);
      [apply HL, list_elem_of_here|]. simpl.
    case_bool_decide; apply IH;
      try (intros u Hu; by apply HL, list_elem_of_further); [|done].
    apply HL, list_elem_of_here. }
  destruct (vertices g) as [|v L] eqn:Ev; [done|]. simpl.
  destruct (countFillInEdges_total g v Hinv) as (count & -> & Hc);
    [rewrite Ev; apply list_elem_of_here|]. simpl.
  rewrite Ev in Hc. rewrite bool_decide_eq_true_2 by lia.
  destruct (Hkeep L v count) as (vx' & c' & -> & Hin).
  { intros u Hu. try rewrite Ev. by apply list_elem_of_further. }
  { try rewrite Ev. apply list_elem_of_here. }
  simpl. rewrite bool_decide_eq_false_2; [eauto|].
  by apply Hmin.
Qed.

Lemma fillInEdges_total (g : Graph) (v : Z) :
  Graph_inv g → v ∈ vertices g →
  ∃ g', fillInEdges v g = Ret g' ∧ Graph_inv g' ∧ vertices g' = vertices g.
Proof.
  intros Hinv Hv. unfold fillInEdges, map_at.
  assert (is_Some (map_find (adjacencyMap g) v)) as [s Hs] by by apply Hinv.
  rewrite Hs. simpl.
  destruct (neighbors_vertices g v s Hinv Hs) as [_ Hsub].
  apply (addEdges_total (λ x, x) (pairs_after s) g Hinv).
  intros a b [Ha Hb]%elem_of_pairs_after. split; by apply Hsub.
Qed.

Lemma minfill_loop_spec (fuel : nat) (g : Graph) (varOrder : list Z) :
  Graph_inv g → (length (vertices g) ≤ fuel)%nat →
  Z.of_nat (length (vertices g)) ^ 2 < MAX_INT →
  (∀ v, v ∈ vertices g → v ≠ MIN_INT) →
  ∃ order, minfill_loop fuel g varOrder = Ret order ∧ order ≡ₚ varOrder ++ vertices g.
Proof.
  revert g varOrder. induction fuel as [|fuel IH]; intros g varOrder Hinv Hlen Hmax Hmin.
  - destruct (vertices g) eqn:Ev; [|simpl in Hlen; lia].
    simpl. rewrite Ev. exists varOrder. by rewrite app_nil_r.
  - simpl. destruct (vertices g) as [|v0 L] eqn:Ev.
    { exists varOrder. by rewrite app_nil_r. }
    rewrite <- Ev in *.
    destruct (getMinfillVertex_total g Hinv) as (v & -> & Hv); [by rewrite Ev|done|done|].
    simpl. destruct (fillInEdges_total g v Hinv Hv) as (g1 & -> & Hinv1 & Hv1). simpl.
    assert (vertices g1 ≡ₚ v :: vertices (removeVertex v g1)) as Hperm.
    { simpl. apply set_erase_perm; [apply Hinv1|by rewrite Hv1]. }
    assert (length (vertices g1) = S (length (vertices (removeVertex v g1)))) as Hl
      by by rewrite Hperm.
    destruct (IH (removeVertex v g1) (varOrder ++ [v])) as (order & E & Hp).
    + by apply removeVertex_inv.
    + rewrite <- Hv1 in Hlen. lia.
    + rewrite <- Hv1 in Hmax. rewrite Hl in Hmax. nia.
    + intros u [_ Hu]%elem_of_set_erase. apply Hmin. by rewrite <- Hv1.
    + exists order. split; [done|]. rewrite Hp, <- Hv1, Hperm, <- app_assoc. done.
Qed.

Lemma getMinfillVarOrder_spec (cnf : Cnf) :
  Cnf_vars_wf cnf → Forall (λ v, v ≠ MIN_INT) (apparentVars cnf) →
  Z.of_nat (length (apparentVars cnf)) ^ 2 < MAX_INT →
  ∃ order, getMinfillVarOrder cnf = Ret order ∧ order ≡ₚ apparentVars cnf.
Proof.
  intros Hwf Hr Hmax. unfold getMinfillVarOrder.
  destruct (getPrimalGraph_total cnf Hwf) as (g & -> & Hinv & Hv). simpl.
  destruct (minfill_loop_spec (length (vertices g)) g [] Hinv) as (order & E & Hp).
  - done.
  - by rewrite Hv.
  - intros v Hin. rewrite Hv in Hin. rewrite Forall_forall in Hr. by apply Hr.
  - exists order. split; [done|]. by rewrite Hp, Hv.
Qed.

Lemma Cnf_wf_keys (cnf : Cnf) :
  Cnf_vars_wf cnf → map_keys (varToClauses cnf) ≡ₚ apparentVars cnf.
Proof.
  intros (Hnd & Hndk & Hak & Hka & _). rewrite Forall_forall in Hak, Hka.
  apply NoDup_Permutation; [done|done|]. intros x. split; [apply Hka|apply Hak].
Qed.

Lemma getDeclaredVarOrder_spec (cnf : Cnf) :
  Cnf_vars_wf cnf → Forall (λ v, 1 ≤ v ≤ declaredVarCount cnf) (apparentVars cnf) →
  getDeclaredVarOrder cnf ≡ₚ apparentVars cnf.
Proof.
  intros (Hnd & _) Hr. rewrite Forall_forall in Hr.
  unfold getDeclaredVarOrder. apply NoDup_Permutation; [|done|].
  - apply NoDup_filter, NoDup_seqZ.
  - intros x. rewrite list_elem_of_filter, set_contains_true, elem_of_seqZ.
    split; [tauto|]. intros Hx. split; [done|]. apply Hr in Hx. lia.
Qed.

Lemma multimap_insert_perm (kv : Z * Z) (m : list (Z * Z)) : multimap_insert kv m ≡ₚ kv :: m.
Proof.
  induction m as [|x m IH]; simpl; [done|].
  case_bool_decide; [done|]. rewrite IH. apply Permutation_swap.
Qed.

Lemma getMostClausesVarOrder_spec (cnf : Cnf) :
  Cnf_vars_wf cnf → getMostClausesVarOrder cnf ≡ₚ apparentVars cnf.
Proof.
  intros Hwf. rewrite <- (Cnf_wf_keys cnf Hwf). unfold getMostClausesVarOrder, map_keys.
  assert (Hgen : ∀ (l : list (Z * list Z)) (acc : list (Z * Z)),
            (foldl (λ m varAndSet,
                      multimap_insert (Z.of_nat (length varAndSet.2), varAndSet.1) m) acc l).*2
            ≡ₚ acc.*2 ++ l.*1).
  { induction l as [|x l IH]; intros acc; simpl.
    - by rewrite app_nil_r.
    - rewrite IH, multimap_insert_perm. simpl.
      by rewrite <- Permutation_middle. }
  by rewrite Hgen.
Qed.

(** Updating the values of keys that are present keeps the keys. *)
Lemma foldl_update_keys {V} (f : V → V) (l : list Z) (m : list (Z * V)) :
  map_keys (foldl (λ m n, match map_find m n with
                          | Some x => map_assign n (f x) m
                          | None => m
                          end) m l) = map_keys m.
Proof.
  revert m. induction l as [|n l IH]; intros m; simpl; [done|].
  rewrite IH. destruct (map_find m n) eqn:E; [|done].
  apply map_keys_assign_in, map_find_keys. eauto.
Qed.

Lemma Forall_map_assign {V} (P : Z * V → Prop) (k : Z) (v : V) (m : list (Z * V)) :
  P (k, v) → Forall P m → Forall P (map_assign k v m).
Proof.
  intros Hp. induction 1 as [|[k0 v0] m Hx Hm IH]; simpl.
  - by apply Forall_singleton.
  - case_bool_decide; apply Forall_cons; done.
Qed.

Lemma map_find_Forall {V} (P : Z * V → Prop) (k : Z) (v : V) (m : list (Z * V)) :
  Forall P m → map_find m k = Some v → P (k, v).
Proof.
  induction 1 as [|[k0 v0] m Hx Hm IH]; simpl; [done|].
  case_bool_decide; [|done]. intros [= <-]. by subst.
Qed.

Lemma foldl_incr_nonneg (l : list Z) (m : list (Z * Z)) :
  Forall (λ kv, 0 ≤ kv.2) m →
  Forall (λ kv, 0 ≤ kv.2)
    (foldl (λ m n, match map_find m n with
                   | Some c => map_assign n (c + 1) m
                   | None => m
                   end) m l).
Proof.
  revert m. induction l as [|n l IH]; intros m Hm; simpl; [done|].
  apply IH. destruct (map_find m n) as [c|] eqn:E; [|done].
  apply Forall_map_assign; [|done].
  pose proof (map_find_Forall _ _ _ _ Hm E) as Hc. simpl in *. lia.
Qed.

Lemma foldl_init_keys {V} (x : V) (l : list Z) (acc : list (Z * V)) :
  NoDup (map_keys acc ++ l) →
  map_keys (foldl (λ m v, map_assign v x m) acc l) = map_keys acc ++ l.
Proof.
  revert acc. induction l as [|v l IH]; intros acc Hnd; simpl.
  - by rewrite app_nil_r.
  - assert (v ∉ map_keys acc) as Hv.
    { apply NoDup_app in Hnd as (_ & Hd & _). intros Hin. apply (Hd v Hin), list_elem_of_here. }
    rewrite IH; rewrite map_keys_assign_new by done; rewrite <- app_assoc; done.
Qed.

Lemma foldl_init_Forall {V} (P : Z * V → Prop) (x : V) (l : list Z) (acc : list (Z * V)) :
  (∀ k, P (k, x)) → Forall P acc → Forall P (foldl (λ m v, map_assign v x m) acc l).
Proof.
  intros Hx. revert acc. induction l as [|v l IH]; intros acc Hacc; simpl; [done|].
  apply IH, Forall_map_assign; done.
Qed.

Lemma Forall_filter_keep {A} (P Q : A → Prop) `{∀ x, Decision (Q x)} (l : list A) :
  Forall P l → Forall P (filter Q l).
Proof.
  rewrite !Forall_forall. intros Hl x [_ Hx]%list_elem_of_filter. by apply Hl.
Qed.

Lemma filter_all {A} (P : A → Prop) `{∀ x, Decision (P x)} (l : list A) :
  (∀ x, x ∈ l → P x) → filter P l = l.
Proof.
  induction l as [|x l IH]; intros Hl; [done|].
  rewrite filter_cons_True by apply Hl, list_elem_of_here.
  f_equal. apply IH. intros y Hy. by apply Hl, list_elem_of_further.
Qed.

(** The selection loop of [getMcsVarOrder]. *)
Lemma mcs_select (L : list (Z * Z)) (b0 v0 : Z) :
  ∃ b v, foldl (λ '(best, vertex) entry,
                  if bool_decide (entry.2 > best) then (entry.2, entry.1)
                  else (best, vertex)) (b0, v0) L = (b, v)
         ∧ ((b = b0 ∧ v = v0 ∧ Forall (λ kv, kv.2 ≤ b0) L) ∨ (v, b) ∈ L).
Proof.
  revert b0 v0. induction L as [|[k c] L IH]; intros b0 v0; simpl.
  - exists b0, v0. split; [done|]. left. done.
  - case_bool_decide as Hc.
    + destruct (IH c k) as (b & v & -> & [(-> & -> & _)|Hin]);
        eexists _, _; (split; [done|]); right;
        [apply list_elem_of_here|by apply list_elem_of_further].
    + destruct (IH b0 v0) as (b & v & -> & [(-> & -> & Hall)|Hin]);
        eexists _, _; (split; [done|]).
      * left. split_and!; [done|done|]. apply Forall_cons. split; [simpl; lia|done].
      * right. by apply list_elem_of_further.
Qed.

Lemma length_map_keys {V} (m : list (Z * V)) : length (map_keys m) = length m.
Proof. unfold map_keys. apply length_fmap. Qed.

Lemma elem_of_map_keys {V} (k : Z) (v : V) (m : list (Z * V)) : (k, v) ∈ m → k ∈ map_keys m.
Proof. intros Hin. unfold map_keys. apply list_elem_of_fmap. by exists (k, v). Qed.

Lemma map_erase_keys_perm {V} (k : Z) (m : list (Z * V)) :
  NoDup (map_keys m) → k ∈ map_keys m →
  map_keys m ≡ₚ k :: map_keys (map_erase k m)
  ∧ length m = S (length (map_erase k m)).
Proof.
  intros Hnd Hk. rewrite map_keys_erase.
  pose proof (set_erase_perm k _ Hnd Hk) as Hp. split; [done|].
  rewrite <- (length_map_keys m), Hp. simpl. f_equal.
  rewrite <- (length_map_keys (map_erase k m)), map_keys_erase. done.
Qed.

Lemma mcs_loop_spec (fuel : nat) (g : Graph) (rnc : list (Z * Z)) (best : Z)
    (varOrder : list Z) :
  MIN_INT < 0 → Graph_inv g → best ∈ vertices g →
  NoDup (map_keys rnc) → (∀ k, k ∈ map_keys rnc → k ∈ vertices g) →
  Forall (λ kv, 0 ≤ kv.2) rnc →
  (length (map_erase best rnc) < fuel)%nat →
  ∃ order, mcs_loop fuel g rnc best varOrder = Ret order
           ∧ order ≡ₚ varOrder ++ best :: map_keys (map_erase best rnc).
Proof.
  intros Hmin Hinv. revert rnc best varOrder.
  induction fuel as [|fuel IH]; intros rnc best varOrder Hbest Hnd Hsub Hnn Hlen; [lia|].
  simpl. unfold map_at.
  assert (is_Some (map_find (adjacencyMap g) best)) as [nb ->] by by apply Hinv.
  simpl.
  set (rnc1 := map_erase best rnc) in *.
  set (rnc2 := foldl _ rnc1 nb).
  assert (Hk2 : map_keys rnc2 = map_keys rnc1) by apply (foldl_update_keys (λ c, c + 1)).
  assert (Hnn2 : Forall (λ kv, 0 ≤ kv.2) rnc2).
  { apply foldl_incr_nonneg. unfold rnc1, map_erase. by apply Forall_filter_keep. }
  assert (Hnd1 : NoDup (map_keys rnc1)).
  { unfold rnc1. rewrite map_keys_erase. by apply NoDup_filter. }
  assert (Hsub1 : ∀ k, k ∈ map_keys rnc1 → k ∈ vertices g).
  { intros k. unfold rnc1. rewrite map_keys_erase. intros [_ ?]%list_elem_of_filter.
    by apply Hsub. }
  destruct (mcs_select rnc2 MIN_INT best) as (b & v & -> & Hsel).
  destruct Hsel as [(-> & -> & Hall)|Hin].
  - rewrite bool_decide_eq_false_2 by (intros Hne; by apply Hne).
    assert (rnc2 = []) as Hnil.
    { destruct rnc2 as [|[k c] r]; [done|].
      apply Forall_cons in Hall as [Hc _]. apply Forall_cons in Hnn2 as [Hc' _].
      simpl in *. lia. }
    exists (varOrder ++ [best]). split; [done|].
    rewrite <- Hk2, Hnil. simpl. by rewrite <- Permutation_middle, app_nil_r.
  - assert (0 ≤ b) as Hb.
    { rewrite Forall_forall in Hnn2. by apply (Hnn2 (v, b)). }
    rewrite bool_decide_eq_true_2 by lia.
    assert (v ∈ map_keys rnc2) as Hv2 by by eapply elem_of_map_keys.
    destruct (map_erase_keys_perm v rnc2) as [Hp Hl]; [by rewrite Hk2|done|].
    destruct (IH rnc2 v (varOrder ++ [best])) as (order & E & Hord).
    + apply Hsub1. by rewrite <- Hk2.
    + by rewrite Hk2.
    + intros k. rewrite Hk2. apply Hsub1.
    + done.
    + assert (length rnc2 = length rnc1) as Hl2
        by (by rewrite <- !length_map_keys, Hk2).
      lia.
    + exists order. split; [done|].
      rewrite Hord, <- app_assoc. simpl. rewrite <- Hp, Hk2. done.
Qed.

Lemma getMcsVarOrder_spec (cnf : Cnf) :
  MIN_INT < 0 → Cnf_vars_wf cnf →
  ∃ order, getMcsVarOrder cnf = Ret order ∧ order ≡ₚ apparentVars cnf.
Proof.
  intros Hmin Hwf. unfold getMcsVarOrder.
  destruct (getPrimalGraph_total cnf Hwf) as (g & -> & Hinv & Hv). simpl.
  assert (NoDup (vertices g)) as Hnd by apply Hinv.
  rewrite <- Hv.
  destruct (vertices g) as [|start rest] eqn:Ev; [by exists []|].
  apply NoDup_cons in Hnd as [Hstart Hrest].
  set (rnc := foldl (λ m v, map_assign v 0 m) [] rest).
  assert (Hk : map_keys rnc = rest) by (by apply (foldl_init_keys 0 rest [])).
  assert (Herase : map_keys (map_erase start rnc) = rest).
  { rewrite map_keys_erase, Hk. apply filter_all. by intros x Hx ->. }
  destruct (mcs_loop_spec (length (start :: rest)) g rnc start []) as (order & E & Hp).
  - done.
  - done.
  - rewrite Ev. apply list_elem_of_here.
  - by rewrite Hk.
  - intros k. rewrite Hk, Ev. apply list_elem_of_further.
  - apply foldl_init_Forall; [simpl; lia|done].
  - rewrite <- length_map_keys, Herase. simpl. lia.
  - exists order. split; [done|]. rewrite Hp, Herase. done.
Qed.

Lemma max_element_in {A} (comp : A → A → bool) (l : list A) :
  l ≠ [] → ∃ x, max_element comp l = Some x ∧ x ∈ l.
Proof.
  destruct l as [|x l]; [done|]. intros _. simpl. eexists. split; [done|].
  assert (Hgen : ∀ l0 x0, foldl (λ largest y, if comp largest y then y else largest) x0 l0
                          ∈ x0 :: l0).
  { induction l0 as [|y l0 IH]; intros x0; simpl; [apply list_elem_of_here|].
    specialize (IH (if comp x0 y then y else x0)).
    apply elem_of_cons in IH as [->|Hin].
    - destruct (comp x0 y); [apply list_elem_of_further|]; apply list_elem_of_here.
    - by do 2 apply list_elem_of_further. }
  apply Hgen.
Qed.

Lemma lexp_loop_spec (g : Graph) (number : nat) (unnumbered : list (Z * list Z))
    (numbered : list Z) :
  Graph_inv g → NoDup (map_keys unnumbered) →
  (∀ k, k ∈ map_keys unnumbered → k ∈ vertices g) →
  length unnumbered = number →
  ∃ order, lexp_loop g number unnumbered numbered = Ret order
           ∧ order ≡ₚ numbered ++ map_keys unnumbered.
Proof.
  intros Hinv. revert unnumbered numbered.
  induction number as [|number IH]; intros unnumbered numbered Hnd Hsub Hlen.
  - destruct unnumbered; [|done]. exists numbered. simpl. by rewrite app_nil_r.
  - simpl. destruct (max_element_in hasSmallerLabel unnumbered) as ([v lbl] & -> & Hin).
    { intros ->. done. }
    apply elem_of_map_keys in Hin.
    unfold map_at.
    assert (is_Some (map_find (adjacencyMap g) v)) as [nb ->] by by apply Hinv, Hsub.
    simpl.
    destruct (map_erase_keys_perm v unnumbered Hnd Hin) as [Hp Hl].
    set (un2 := foldl _ (map_erase v unnumbered) nb).
    assert (Hk2 : map_keys un2 = map_keys (map_erase v unnumbered))
      by apply (foldl_update_keys (addNumber (Z.of_nat (S number)))).
    destruct (IH un2 (numbered ++ [v])) as (order & E & Hord).
    + rewrite Hk2, map_keys_erase. by apply NoDup_filter.
    + intros k. rewrite Hk2, map_keys_erase. intros [_ ?]%list_elem_of_filter. by apply Hsub.
    + rewrite <- length_map_keys, Hk2, length_map_keys. lia.
    + exists order. split; [done|]. rewrite Hord, Hk2, <- app_assoc. simpl. by rewrite <- Hp.
Qed.

Lemma unnumbered_init (cnf : Cnf) :
  Cnf_vars_wf cnf →
  map_keys (foldl (λ m vertex, map_assign vertex ([] : list Z) m) [] (apparentVars cnf))
  = apparentVars cnf.
Proof. intros (Hnd & _). by apply (foldl_init_keys [] (apparentVars cnf) []). Qed.

Lemma getLexpVarOrder_spec (cnf : Cnf) :
  Cnf_vars_wf cnf → ∃ order, getLexpVarOrder cnf = Ret order ∧ order ≡ₚ apparentVars cnf.
Proof.
  intros Hwf. unfold getLexpVarOrder.
  destruct (getPrimalGraph_total cnf Hwf) as (g & -> & Hinv & Hv). simpl.
  pose proof (unnumbered_init cnf Hwf) as Hk.
  set (un := foldl _ _ _) in *.
  destruct (lexp_loop_spec g (length (apparentVars cnf)) un [] Hinv) as (order & E & Hp);
    [rewrite Hk; apply Hwf|by intros k; rewrite Hk, Hv
    |by rewrite <- length_map_keys, Hk|].
  exists order. split; [done|]. by rewrite Hp, Hk.
Qed.

(** *** Termination of [hasPath] *)

(** The keys of the adjacency map that a snapshot [V0] of the visited set
    does not hold bound the depth of the recursion. *)
Lemma unvisited_lt (keys V0 : list Z) (x : Z) :
  x ∈ keys → x ∉ V0 →
  (length (filter (λ k, k ∉ x :: V0) keys) < length (filter (λ k, k ∉ V0) keys))%nat.
Proof.
  induction keys as [|k keys IH]; intros Hin Hx; [by apply elem_of_nil in Hin|].
  assert (Hle : ∀ l, (length (filter (λ k, k ∉ x :: V0) l)
                      ≤ length (filter (λ k, k ∉ V0) l))%nat).
  { induction l as [|y l IHl]; [done|]. rewrite !filter_cons.
    destruct (decide (y ∉ x :: V0)) as [Hy|Hy].
    - rewrite decide_True; [simpl; lia|]. rewrite not_elem_of_cons in Hy. tauto.
    - destruct (decide (y ∉ V0)); simpl; lia. }
  rewrite !filter_cons. destruct (decide (k = x)) as [->|Hne].
  - rewrite decide_False.
    + rewrite decide_True by done. simpl. specialize (Hle keys). lia.
    + intros Hn. apply Hn, list_elem_of_here.
  - apply elem_of_cons in Hin as [->|Hin]; [done|]. specialize (IH Hin Hx).
    destruct (decide (k ∉ V0)) as [Hk|Hk].
    + rewrite decide_True; [simpl; lia|]. rewrite not_elem_of_cons. tauto.
    + rewrite decide_False; [done|]. rewrite not_elem_of_cons. tauto.
Qed.

Lemma hasPath_visited_total (g : Graph) (to : Z) (depth : nat) :
  Graph_inv g →
  ∀ (from : Z) (visited V0 : list Z),
    from ∈ vertices g → from ∉ V0 → (∀ x, x ∈ V0 → x ∈ visited) →
    (length (filter (λ k, k ∉ V0) (map_keys (adjacencyMap g))) ≤ depth)%nat →
    ∃ b visited', hasPath_visited depth g from to visited = Ret (b, visited')
                  ∧ ∀ x, x ∈ visited → x ∈ visited'.
Proof.
  intros Hinv. induction depth as [|depth IH]; intros from visited V0 Hfrom HV0 Hsub Hlen.
  - exfalso.
    assert (from ∈ map_keys (adjacencyMap g)) as Hk by (by apply map_find_keys, Hinv).
    pose proof (unvisited_lt _ V0 from Hk HV0). lia.
  - simpl. case_bool_decide; [eauto|].
    unfold map_at.
    assert (is_Some (map_find (adjacencyMap g) from)) as [nb Hnb] by by apply Hinv.
    rewrite Hnb. simpl.
    assert (from ∈ map_keys (adjacencyMap g)) as Hk by (apply map_find_keys; eauto).
    pose proof (unvisited_lt _ V0 from Hk HV0) as Hlt.
    set (V1 := from :: V0) in *.
    set (visited1 := set_insert from visited).
    assert (HV1 : ∀ x, x ∈ V1 → x ∈ visited1).
    { intros x [->|Hx]%elem_of_cons; apply elem_of_set_insert; [by left|right; by apply Hsub]. }
    assert (Hchild : ∀ c, c ∈ util.getDiff nb (set_contains visited1) →
                          c ∈ vertices g ∧ c ∉ V1).
    { intros c [Hc Hnv]%elem_of_getDiff. apply set_contains_false in Hnv. split.
      - by apply (neighbors_vertices g from nb Hinv Hnb).
      - intros Hin. by apply Hnv, HV1. }
    assert (Hvis1 : ∀ x, x ∈ visited → x ∈ visited1).
    { intros x Hx. apply elem_of_set_insert. by right. }
    revert Hchild. generalize (util.getDiff nb (set_contains visited1)).
    revert Hvis1 HV1. generalize visited1. clear visited1.
    intros vis Hvis HV1 L. revert vis Hvis HV1.
    induction L as [|c L IHL]; intros vis Hvis HV1 Hchild.
    + eauto.
    + destruct (Hchild c) as [Hc Hcn]; [apply list_elem_of_here|].
      destruct (IH c vis V1 Hc Hcn HV1) as (b & vis' & -> & Hmono); [lia|].
      simpl. destruct b; [exists true, vis'; split; [done|]; intros x Hx; by apply Hmono, Hvis|].
      apply IHL; [by intros x Hx; apply Hmono, Hvis|by intros x Hx; apply Hmono, HV1|].
      intros c' Hc'. by apply Hchild, list_elem_of_further.
Qed.

Lemma hasPath_total (g : Graph) (from to : Z) :
  Graph_inv g → from ∈ vertices g → ∃ b, hasPath g from to = Ret b.
Proof.
  intros Hinv Hfrom. unfold hasPath.
  destruct (hasPath_visited_total g to (S (length (adjacencyMap g))) Hinv from [] [])
    as (b & vis & -> & _); [done|apply not_elem_of_nil|done| |by exists b].
  rewrite filter_all by (intros; apply not_elem_of_nil). rewrite length_map_keys. lia.
Qed.

(** *** LEXM *)

Lemma foldl_remove_inv {A} (v : Z) (f : A → Z) (c : A → bool) (l : list A) (g : Graph) :
  Graph_inv g → v ∈ vertices g → (∀ a, a ∈ l → c a = true → f a ≠ v) →
  Graph_inv (foldl (λ g a, if c a then removeVertex (f a) g else g) g l)
  ∧ v ∈ vertices (foldl (λ g a, if c a then removeVertex (f a) g else g) g l).
Proof.
  revert g. induction l as [|a l IH]; intros g Hinv Hv Hne; simpl; [done|].
  apply IH.
  - destruct (c a); [by apply removeVertex_inv|done].
  - destruct (c a) eqn:Ec; [|done]. simpl. apply elem_of_set_erase. split; [|done].
    intros Heq. symmetry in Heq. revert Heq. apply Hne; [apply list_elem_of_here|done].
  - intros a' Ha'. apply Hne. by apply list_elem_of_further.
Qed.

Lemma lexm_visit_spec (v i : Z) (numbered : list Z) (sg : Graph) (un : list (Z * list Z))
    (w : Z) :
  Graph_inv sg → v ∈ vertices sg → v ∉ map_keys un → w ∈ map_keys un →
  ∃ sg' un', lexm_visit v i numbered (sg, un) w = Ret (sg', un')
             ∧ Graph_inv sg' ∧ v ∈ vertices sg' ∧ map_keys un' = map_keys un.
Proof.
  intros Hinv Hv Hvn Hw. unfold lexm_visit.
  pose proof Hw as Hw'. apply map_find_keys in Hw' as [wLabel ->].
  destruct (foldl_remove_inv v (λ x : Z, x) (λ x, bool_decide (x ≠ v)) numbered sg Hinv Hv)
    as [Hinv1 Hv1].
  { intros a _ Ha. by apply bool_decide_eq_true in Ha. }
  set (sg1 := foldl _ sg numbered) in *.
  destruct (foldl_remove_inv v (λ kv : Z * list Z, kv.1)
              (λ kv, bool_decide (kv.1 ≠ w) && negb (vec_lt kv.2 wLabel)) un sg1 Hinv1 Hv1)
    as [Hinv2 Hv2].
  { intros [k lbl] Hin _ Heq. simpl in Heq. subst k. by apply Hvn, (elem_of_map_keys _ lbl). }
  set (sg2 := foldl _ sg1 un) in *.
  destruct (hasPath_total sg2 v w Hinv2 Hv2) as [b ->]. simpl.
  eexists _, _. split; [done|]. split; [done|]. split; [done|].
  destruct b; [|done]. by apply map_keys_assign_in.
Qed.

Lemma lexm_round_spec (v i : Z) (numbered : list Z) (L : list Z) (sg : Graph)
    (un : list (Z * list Z)) :
  Graph_inv sg → v ∈ vertices sg → v ∉ map_keys un → (∀ w, w ∈ L → w ∈ map_keys un) →
  ∃ sg' un', foldlM (lexm_visit v i numbered) (sg, un) L = Ret (sg', un')
             ∧ map_keys un' = map_keys un.
Proof.
  revert sg un. induction L as [|w L IH]; intros sg un Hinv Hv Hvn HL; cbn [foldlM]; [eauto|].
  destruct (lexm_visit_spec v i numbered sg un w Hinv Hv Hvn)
    as (sg1 & un1 & -> & Hinv1 & Hv1 & Hk1); [apply HL, list_elem_of_here|].
  cbn [bind]. destruct (IH sg1 un1 Hinv1 Hv1) as (sg2 & un2 & -> & Hk2).
  - by rewrite Hk1.
  - intros w' Hw'. rewrite Hk1. by apply HL, list_elem_of_further.
  - eexists _, _. split; [done|]. by rewrite Hk2.
Qed.

Lemma lexm_loop_spec (cnf : Cnf) (i : nat) (unnumbered : list (Z * list Z))
    (numbered : list Z) :
  Cnf_vars_wf cnf → NoDup (map_keys unnumbered) →
  (∀ k, k ∈ map_keys unnumbered → k ∈ apparentVars cnf) →
  length unnumbered = i →
  ∃ order, lexm_loop cnf i unnumbered numbered = Ret order
           ∧ order ≡ₚ numbered ++ map_keys unnumbered.
Proof.
  intros Hwf. revert unnumbered numbered.
  induction i as [|i IH]; intros unnumbered numbered Hnd Hsub Hlen.
  - destruct unnumbered; [|done]. exists numbered. simpl. by rewrite app_nil_r.
  - cbn [lexm_loop].
    destruct (max_element_in hasSmallerLabel unnumbered) as ([v lbl] & -> & Hin).
    { intros ->. done. }
    apply elem_of_map_keys in Hin.
    destruct (getPrimalGraph_total cnf Hwf) as (g & -> & Hinv & Hv). cbn [bind].
    destruct (map_erase_keys_perm v unnumbered Hnd Hin) as [Hp Hl].
    destruct (lexm_round_spec v (Z.of_nat (S i)) (numbered ++ [v])
                (map_keys (map_erase v unnumbered)) g (map_erase v unnumbered) Hinv)
      as (sg' & un' & -> & Hk); [by rewrite Hv; apply Hsub| |done|].
    { rewrite map_keys_erase. intros [? _]%list_elem_of_filter. done. }
    cbn [bind].
    destruct (IH un' (numbered ++ [v])) as (order & E & Hord).
    + rewrite Hk, map_keys_erase. by apply NoDup_filter.
    + intros k. rewrite Hk, map_keys_erase. intros [_ ?]%list_elem_of_filter. by apply Hsub.
    + rewrite <- length_map_keys, Hk, length_map_keys. lia.
    + exists order. split; [done|]. rewrite Hord, Hk, <- app_assoc. simpl. by rewrite <- Hp.
Qed.

Lemma getLexmVarOrder_spec (cnf : Cnf) :
  Cnf_vars_wf cnf → ∃ order, getLexmVarOrder cnf = Ret order ∧ order ≡ₚ apparentVars cnf.
Proof.
  intros Hwf. unfold getLexmVarOrder.
  destruct (getPrimalGraph_total cnf Hwf) as (g & -> & Hinv & Hv). simpl.
  pose proof (unnumbered_init cnf Hwf) as Hk.
  set (un := foldl _ _ _) in *.
  destruct (lexm_loop_spec cnf (length (apparentVars cnf)) un [] Hwf) as (order & E & Hp);
    [rewrite Hk; apply Hwf|by intros k; rewrite Hk
    |by rewrite <- length_map_keys, Hk|].
  exists order. split; [done|]. by rewrite Hp, Hk.
Qed.

Lemma cnf_order_core (cnf : Cnf) (a : Z) :
  MIN_INT < 0 → (∀ seed l, shuffle seed l ≡ₚ l) → Cnf_vars_wf cnf →
  a ∈ CNF_VAR_ORDER_HEURISTICS →
  (a = DECLARED → Forall (λ v, 1 ≤ v ≤ declaredVarCount cnf) (apparentVars cnf)) →
  (a = MINFILL → Forall (λ v, v ≠ MIN_INT) (apparentVars cnf)
                 ∧ Z.of_nat (length (apparentVars cnf)) ^ 2 < MAX_INT) →
  ∃ order,
    (if bool_decide (a = RANDOM) then Ret (getRandomVarOrder cnf)
     else if bool_decide (a = DECLARED) then Ret (getDeclaredVarOrder cnf)
     else if bool_decide (a = MOST_CLAUSES) then Ret (getMostClausesVarOrder cnf)
     else if bool_decide (a = MINFILL) then getMinfillVarOrder cnf
     else if bool_decide (a = MCS) then getMcsVarOrder cnf
     else if bool_decide (a = LEXP) then getLexpVarOrder cnf
     else if bool_decide (a = LEXM) then getLexmVarOrder cnf
     else Throw AssertionFailure) = Ret order
    ∧ order ≡ₚ apparentVars cnf.
Proof.
  intros Hmin Hsh Hwf Ha Hdeclared Hminfill.
  case_bool_decide; [eexists; split; [done|apply Hsh]|].
  case_bool_decide as Hd;
    [eexists; split; [done|by apply getDeclaredVarOrder_spec; [|apply Hdeclared]]|].
  case_bool_decide; [eexists; split; [done|by apply getMostClausesVarOrder_spec]|].
  case_bool_decide as Hm;
    [destruct (Hminfill Hm) as [Hne Hmax]; by apply getMinfillVarOrder_spec|].
  case_bool_decide; [by apply getMcsVarOrder_spec|].
  case_bool_decide; [by apply getLexpVarOrder_spec|].
  case_bool_decide; [by apply getLexmVarOrder_spec|].
  unfold CNF_VAR_ORDER_HEURISTICS in Ha. rewrite !elem_of_cons, elem_of_nil in Ha. tauto.
Qed.

(** C4, as the code has it.  On a [Cnf] whose apparent variables are the
    keys of [varToClauses], without repetition, and include the variables of
    the clauses, with a [shuffle] that permutes and [MIN_INT] negative, for
    every heuristic code [h] whose absolute value is one of the seven
    heuristics, [getCnfVarOrder h] returns a permutation of [apparentVars];
    for DECLARED provided the apparent variables lie in
    [1..declaredVarCount], and for MINFILL provided none of them is the
    sentinel [MIN_INT] and the square of their number is below [MAX_INT].
    When [h] is not 0, [getCnfVarOrder (- h)] returns exactly the reverse. *)
Theorem getCnfVarOrder_permutation (cnf : Cnf) (h : Z) :
  MIN_INT < 0 → (∀ seed l, shuffle seed l ≡ₚ l) → Cnf_vars_wf cnf →
  Z.abs h ∈ CNF_VAR_ORDER_HEURISTICS →
  (Z.abs h = DECLARED → Forall (λ v, 1 ≤ v ≤ declaredVarCount cnf) (apparentVars cnf)) →
  (Z.abs h = MINFILL → Forall (λ v, v ≠ MIN_INT) (apparentVars cnf)
                       ∧ Z.of_nat (length (apparentVars cnf)) ^ 2 < MAX_INT) →
  ∃ varOrder, getCnfVarOrder cnf h = Ret varOrder
              ∧ varOrder ≡ₚ apparentVars cnf
              ∧ (h ≠ 0 → getCnfVarOrder cnf (- h) = Ret (rev varOrder)).
Proof.
  intros Hmin Hsh Hwf Ha Hdeclared Hminfill.
  destruct (cnf_order_core cnf (Z.abs h) Hmin Hsh Hwf Ha Hdeclared Hminfill)
    as (order & E & Hp).
  unfold getCnfVarOrder. rewrite Z.abs_opp. cbv zeta. rewrite E. cbn [bind].
  destruct (Z_lt_ge_dec h 0) as [Hneg|Hpos].
  - rewrite (bool_decide_eq_true_2 (h < 0)) by done.
    rewrite (bool_decide_eq_false_2 (- h < 0)) by lia.
    exists (rev order). split; [done|]. split; [by rewrite <- Permutation_rev|].
    intros _. by rewrite rev_involutive.
  - rewrite (bool_decide_eq_false_2 (h < 0)) by lia.
    exists order. split; [done|]. split; [done|]. intros Hh.
    by rewrite (bool_decide_eq_true_2 (- h < 0)) by lia.
Qed.

(* ===================================================================== *)
(** * Part II, continued: further properties of the code *)
(* ===================================================================== *)

(** ** class Graph *)

Lemma run_calls_Graph_inv (vs : list Z) (calls : list GraphCall) (g : Graph) :
  run_calls vs calls = Ret g → Graph_inv g.
Proof.
  intros Hrun. destruct (Graph_ctor_spec vs) as (Hinv0 & _).
  by destruct (run_calls_inv calls _ _ Hinv0 Hrun) as (Hinv & _).
Qed.

(** X1. On a graph that satisfies the invariant, [addEdge(v1, v2)] returns
    exactly when both ends are vertices, and throws [std::out_of_range] (from
    [adjacencyMap.at]) otherwise.  When it returns, the vertices are the
    same, the invariant holds, and the adjacency is the old one with [v2]
    among the neighbours of [v1] and [v1] among those of [v2], and nothing
    else. *)
Theorem addEdge_spec (v1 v2 : Z) (g : Graph) :
  Graph_inv g →
  (v1 ∈ vertices g → v2 ∈ vertices g →
     ∃ g', addEdge v1 v2 g = Ret g' ∧ Graph_inv g' ∧ vertices g' = vertices g
           ∧ ∀ u v, isNeighbor g' u v = Ret true
                    ↔ isNeighbor g u v = Ret true ∨ (u = v1 ∧ v = v2) ∨ (u = v2 ∧ v = v1))
  ∧ (v1 ∉ vertices g ∨ v2 ∉ vertices g →
       addEdge v1 v2 g = Throw (StdException out_of_range)).
Proof.
  intros Hinv. split.
  - intros H1 H2. destruct (addEdge_total v1 v2 g Hinv H1 H2) as [g' E].
    exists g'. split; [done|]. split; [by eapply addEdge_inv|].
    split; [by apply addEdge_lookup in E as [? _]|].
    intros u v. rewrite !isNeighbor_edge. by apply addEdge_edge.
  - intros Hout. unfold addEdge, map_at.
    destruct (map_find (adjacencyMap g) v1) as [n1|] eqn:E1; [|done]. simpl.
    rewrite map_find_assign.
    assert (v1 ∈ vertices g) as H1 by (apply Hinv; eauto).
    destruct Hout as [?|H2]; [done|].
    rewrite bool_decide_eq_false_2 by congruence.
    destruct (map_find (adjacencyMap g) v2) eqn:E2; [|done].
    exfalso. apply H2, Hinv. eauto.
Qed.

Lemma map_find_NoDup {V} (m : list (Z * V)) (k : Z) (v : V) :
  NoDup (map_keys m) → (k, v) ∈ m → map_find m k = Some v.
Proof.
  unfold map_keys. induction m as [|[k0 v0] m IH]; simpl; intros Hnd Hin.
  - by apply elem_of_nil in Hin.
  - apply NoDup_cons in Hnd as [Hk0 Hnd].
    apply elem_of_cons in Hin as [[= -> ->]|Hin].
    + by rewrite bool_decide_eq_true_2.
    + rewrite bool_decide_eq_false_2; [by apply IH|].
      intros ->. apply Hk0. apply list_elem_of_fmap. by exists (k, v).
Qed.

Lemma Graph_ctor_keys_from (vs : list Z) (g : Graph) :
  NoDup (map_keys (adjacencyMap g)) →
  NoDup (map_keys (adjacencyMap
    (foldl (λ g v, {| vertices := set_insert v (vertices g);
                      adjacencyMap := map_assign v [] (adjacencyMap g) |}) g vs))).
Proof.
  revert g. induction vs as [|v vs IH]; intros g Hnd; simpl; [done|].
  apply IH. simpl.
  destruct (decide (v ∈ map_keys (adjacencyMap g))) as [Hin|Hnin].
  - by rewrite map_keys_assign_in.
  - rewrite map_keys_assign_new by done. apply NoDup_app. split_and!; [done| |apply NoDup_singleton].
    intros x Hx ->%list_elem_of_singleton. done.
Qed.

Lemma addEdge_keys (v1 v2 : Z) (g g' : Graph) :
  addEdge v1 v2 g = Ret g' → map_keys (adjacencyMap g') = map_keys (adjacencyMap g).
Proof.
  unfold addEdge, map_at.
  destruct (map_find (adjacencyMap g) v1) as [n1|] eqn:E1; [|done]. simpl.
  destruct (map_find (map_assign v1 (set_insert v2 n1) (adjacencyMap g)) v2) as [n2|] eqn:E2;
    [|done].
  simpl. intros [= <-]. simpl.
  rewrite map_keys_assign_in.
  - apply map_keys_assign_in, map_find_keys. eauto.
  - apply map_find_keys. eauto.
Qed.

Lemma run_calls_keys (calls : list GraphCall) (g g' : Graph) :
  NoDup (map_keys (adjacencyMap g)) → foldlM run_call g calls = Ret g' →
  NoDup (map_keys (adjacencyMap g')).
Proof.
  revert g. induction calls as [|c calls IH]; intros g Hnd; simpl.
  - by intros [= <-].
  - destruct (run_call g c) as [g1|] eqn:E1; [|done]. simpl. apply IH.
    destruct c as [v1 v2|v]; simpl in E1.
    + by rewrite (addEdge_keys _ _ _ _ E1).
    + injection E1 as <-. simpl.
      change (NoDup (map_keys ((λ kv : Z * list Z, (kv.1, set_erase v kv.2))
                                 <$> map_erase v (adjacencyMap g)))).
      unfold map_keys. rewrite <- list_fmap_compose.
      change (NoDup (map_keys (map_erase v (adjacencyMap g)))).
      rewrite map_keys_erase. by apply NoDup_filter.
Qed.

(** X2. After any sequence of [addEdge] and [removeVertex] calls that
    return, [removeVertex(w)] leaves the invariant in place, removes [w] from
    the vertices and keeps the others, and keeps the adjacency between the
    vertices other than [w] as it was; on a [w] that is not a vertex it
    changes nothing at all. *)
Theorem removeVertex_spec (vs : list Z) (calls : list GraphCall) (g : Graph) (w : Z) :
  run_calls vs calls = Ret g →
  Graph_inv (removeVertex w g)
  ∧ (∀ v, v ∈ vertices (removeVertex w g) ↔ v ∈ vertices g ∧ v ≠ w)
  ∧ (∀ u v, isNeighbor (removeVertex w g) u v = Ret true
            ↔ isNeighbor g u v = Ret true ∧ u ≠ w ∧ v ≠ w)
  ∧ (w ∉ vertices g → removeVertex w g = g).
Proof.
  unfold run_calls. intros Hrun.
  destruct (Graph_ctor_spec vs) as (Hinv0 & _).
  destruct (run_calls_inv calls _ _ Hinv0 Hrun) as (Hinv & _).
  assert (Hkeys : NoDup (map_keys (adjacencyMap g))).
  { apply (run_calls_keys calls (Graph_ctor vs)); [|done].
    unfold Graph_ctor. apply Graph_ctor_keys_from. simpl. apply NoDup_nil_2. }
  split; [by apply removeVertex_inv|].
  split; [intros v; simpl; rewrite elem_of_set_erase; tauto|].
  split; [intros u v; rewrite !isNeighbor_edge; apply removeVertex_edge|].
  intros Hw. destruct g as [V adj]. unfold removeVertex. simpl in *. f_equal.
  - unfold set_erase. apply filter_all. intros x Hx ->. done.
  - assert (Herase : map_erase w adj = adj).
    { unfold map_erase. apply filter_all. intros [k s] Hin. simpl. intros ->.
      apply Hw, Hinv. simpl. rewrite (map_find_NoDup adj w s Hkeys Hin). eauto. }
    rewrite Herase.
    transitivity (id <$> adj); [|apply list_fmap_id].
    apply list_fmap_ext. intros i [k s] Hi. simpl. f_equal.
    unfold set_erase. apply filter_all. intros x Hx ->.
    apply Hw.
    assert ((k, s) ∈ adj) as Hin by (apply list_elem_of_lookup; eauto).
    apply (edge_vertices {| vertices := V; adjacencyMap := adj |} k w Hinv).
    exists s. split; [|done]. simpl. by apply map_find_NoDup.
Qed.

Lemma addEdges_edge (pairs : list (Z * Z)) (g g' : Graph) :
  foldlM (λ g '(a, b), addEdge a b g) g pairs = Ret g' →
  ∀ u v, edge g' u v ↔ edge g u v ∨ (u, v) ∈ pairs ∨ (v, u) ∈ pairs.
Proof.
  revert g. induction pairs as [|[a b] pairs IH]; intros g; simpl.
  - intros [= <-] u v. rewrite !elem_of_nil. tauto.
  - destruct (addEdge a b g) as [g1|] eqn:E1; [|done]. simpl. intros Hrest u v.
    rewrite (IH g1 Hrest), (addEdge_edge a b g g1 E1), !elem_of_cons.
    split.
    + intros [[?|[[-> ->]|[-> ->]]]|[?|?]]; auto.
    + intros [?|[[[= -> ->]|?]|[[= -> ->]|?]]]; auto.
Qed.

Lemma pairs_after_NoDup {A} (l : list A) (a b : A) :
  NoDup l → ((a, b) ∈ pairs_after l ∨ (b, a) ∈ pairs_after l ↔ a ∈ l ∧ b ∈ l ∧ a ≠ b).
Proof.
  induction l as [|x l IH]; simpl; intros Hnd.
  - rewrite !elem_of_nil. tauto.
  - apply NoDup_cons in Hnd as [Hx Hnd]. specialize (IH Hnd).
    rewrite !elem_of_app, !list_elem_of_fmap, !elem_of_cons.
    split.
    + intros [[(y & [= -> ->] & Hy)|Hin]|[(y & [= -> ->] & Hy)|Hin]].
      * split; [by left|]. split; [by right|]. by intros ->.
      * assert (a ∈ l ∧ b ∈ l ∧ a ≠ b) as (? & ? & ?) by (apply IH; by left). tauto.
      * split; [by right|]. split; [by left|]. by intros ->.
      * assert (a ∈ l ∧ b ∈ l ∧ a ≠ b) as (? & ? & ?) by (apply IH; by right). tauto.
    + intros ([->|Ha] & [->|Hb] & Hne).
      * done.
      * left. left. by exists b.
      * right. left. by exists a.
      * assert ((a, b) ∈ pairs_after l ∨ (b, a) ∈ pairs_after l) as [?|?]
          by (apply IH; tauto); tauto.
Qed.

(** X3. [fillInEdges(v)] on a vertex [v] returns, keeps the vertices and the
    invariant, and adds exactly the edges between distinct neighbours of [v];
    afterwards [countFillInEdges(v)] is 0. *)
Theorem fillInEdges_spec (g : Graph) (v : Z) :
  Graph_inv g → v ∈ vertices g →
  ∃ g', fillInEdges v g = Ret g' ∧ Graph_inv g' ∧ vertices g' = vertices g
        ∧ (∀ a b, isNeighbor g' a b = Ret true
                  ↔ isNeighbor g a b = Ret true
                    ∨ (isNeighbor g v a = Ret true ∧ isNeighbor g v b = Ret true ∧ a ≠ b))
        ∧ countFillInEdges g' v = Ret 0.
Proof.
  intros Hinv Hv.
  destruct (fillInEdges_total g v Hinv Hv) as (g' & E & Hinv' & Hvs).
  exists g'. split; [done|]. split; [done|]. split; [done|].
  assert (is_Some (map_find (adjacencyMap g) v)) as [s Hs] by by apply Hinv.
  destruct (neighbors_vertices g v s Hinv Hs) as [Hnd Hsub].
  assert (Hedge : ∀ a b, edge g' a b ↔ edge g a b ∨ (edge g v a ∧ edge g v b ∧ a ≠ b)).
  { intros a b. unfold fillInEdges, map_at in E. rewrite Hs in E. simpl in E.
    rewrite (addEdges_edge _ _ _ E a b), (pairs_after_NoDup s a b Hnd).
    unfold edge at 3 4. rewrite Hs. split.
    - intros [?|(? & ? & ?)]; [by left|right; split_and!; eauto].
    - intros [?|((? & [= <-] & ?) & (? & [= <-] & ?) & ?)]; [by left|by right]. }
  split; [intros a b; rewrite !isNeighbor_edge; apply Hedge|].
  unfold countFillInEdges, map_at.
  assert (v ∈ vertices g') as Hv' by by rewrite Hvs.
  assert (is_Some (map_find (adjacencyMap g') v)) as [s' Hs'] by by apply Hinv'.
  rewrite Hs'. simpl.
  destruct (neighbors_vertices g' v s' Hinv' Hs') as [Hnd' _].
  assert (Hall : ∀ a b, (a, b) ∈ pairs_after s' → isNeighbor g' a b = Ret true).
  { intros a b Hab. apply isNeighbor_edge.
    assert (a ∈ s' ∧ b ∈ s' ∧ a ≠ b) as (Ha & Hb & Hne)
      by (apply pairs_after_NoDup; [done|by left]).
    assert (Hold : ∀ x, x ∈ s' → edge g v x).
    { intros x Hx. assert (edge g' v x) as Hx' by (exists s'; done).
      apply Hedge in Hx' as [?|(_ & ? & _)]; done. }
    apply Hedge. right. split; [by apply Hold|]. split; [by apply Hold|done]. }
  revert Hall. generalize (pairs_after s'). intros pairs.
  induction pairs as [|[a b] pairs IH]; intros Hall; simpl; [done|].
  rewrite (Hall a b) by apply list_elem_of_here. simpl.
  apply IH. intros a' b' Hin. by apply Hall, list_elem_of_further.
Qed.

(** X4. [getMinfillVertex] throws [MyError] on a graph with no vertex.
    Otherwise, when no vertex is [MIN_INT] and the square of the number of
    vertices is below [MAX_INT], it returns a vertex whose
    [countFillInEdges] is the least among all vertices, and the first such
    in the order of the vertex set. *)
Theorem getMinfillVertex_spec (g : Graph) :
  Graph_inv g →
  Z.of_nat (length (vertices g)) ^ 2 < MAX_INT →
  (∀ v, v ∈ vertices g → v ≠ MIN_INT) →
  (vertices g = [] → getMinfillVertex g = Throw (MyError "graph has no vertex"))
  ∧ (vertices g ≠ [] →
       ∃ v c before after,
         getMinfillVertex g = Ret v ∧ vertices g = before ++ v :: after
         ∧ countFillInEdges g v = Ret c
         ∧ (∀ u c', u ∈ vertices g → countFillInEdges g u = Ret c' → c ≤ c')
         ∧ (∀ u c', u ∈ before → countFillInEdges g u = Ret c' → c < c')).
Proof.
  intros Hinv Hmax Hmin. unfold getMinfillVertex.
  set (step := λ '(vertex, fillInEdgeCount) v,
         let* count := countFillInEdges g v in
         Ret (if bool_decide (count < fillInEdgeCount) then (v, count)
              else (vertex, fillInEdgeCount))).
  split.
  - intros ->. simpl. by rewrite bool_decide_eq_true_2.
  - intros Hne.
    assert (Hkeep : ∀ L seen before vx after c,
              seen ++ L = vertices g → seen = before ++ vx :: after →
              countFillInEdges g vx = Ret c →
              (∀ u c', u ∈ seen → countFillInEdges g u = Ret c' → c ≤ c') →
              (∀ u c', u ∈ before → countFillInEdges g u = Ret c' → c < c') →
              ∃ vx' c' before' after',
                foldlM step (vx, c) L = Ret (vx', c')
                ∧ vertices g = before' ++ vx' :: after'
                ∧ countFillInEdges g vx' = Ret c'
                ∧ (∀ u c'', u ∈ vertices g → countFillInEdges g u = Ret c'' → c' ≤ c'')
                ∧ (∀ u c'', u ∈ before' → countFillInEdges g u = Ret c'' → c' < c'')).
    { induction L as [|v L IH]; intros seen before vx after c Hsplit Hseen Hc Hle Hlt.
      - simpl. rewrite app_nil_r in Hsplit. subst seen.
        exists vx, c, before, after. done.
      - cbn [foldlM]. unfold step at 1.
        assert (v ∈ vertices g) as Hv
          by (rewrite <- Hsplit; apply elem_of_app; right; apply list_elem_of_here).
        destruct (countFillInEdges_total g v Hinv Hv) as (count & Ecount & _).
        rewrite Ecount. cbn [bind].
        case_bool_decide as Hcmp.
        + apply (IH (seen ++ [v]) seen v [] count).
          * by rewrite <- app_assoc.
          * done.
          * done.
          * intros u c' [Hu|Heq%list_elem_of_singleton]%elem_of_app Hu'; [|subst u].
            -- specialize (Hle u c' Hu Hu'). lia.
            -- rewrite Ecount in Hu'. injection Hu' as <-. lia.
          * intros u c' Hu Hu'. specialize (Hle u c' Hu Hu'). lia.
        + apply (IH (seen ++ [v]) before vx (after ++ [v]) c).
          * by rewrite <- app_assoc.
          * rewrite Hseen, <- app_assoc. done.
          * done.
          * intros u c' [Hu|Heq%list_elem_of_singleton]%elem_of_app Hu'; [|subst u].
            -- by apply (Hle u).
            -- rewrite Ecount in Hu'. injection Hu' as <-. lia.
          * done. }
    destruct (vertices g) as [|v L] eqn:Ev; [done|]. cbn [foldlM]. unfold step at 1.
    assert (v ∈ vertices g) as Hv by (rewrite Ev; apply list_elem_of_here).
    destruct (countFillInEdges_total g v Hinv Hv) as (count & Ecount & Hc).
    rewrite Ecount. cbn [bind]. rewrite Ev in Hc.
    rewrite bool_decide_eq_true_2 by lia.
    destruct (Hkeep L [v] [] v [] count) as (vx' & c' & before' & after' & -> & Hsp & Hc' & Hle & Hlt).
    + done.
    + done.
    + done.
    + intros u c'' Heq%list_elem_of_singleton Hu. subst u. rewrite Ecount in Hu. injection Hu as <-. lia.
    + intros u c'' Hu. by apply elem_of_nil in Hu.
    + cbn [bind]. rewrite bool_decide_eq_false_2.
      * exists vx', c', before', after'. done.
      * apply Hmin. rewrite Hsp. apply elem_of_app. right. apply list_elem_of_here.
Qed.

(** *** [hasPath] decides reachability *)

Lemma hasPath_visited_post (g : Graph) (to : Z) (depth : nat) :
  ∀ (x : Z) (V : list Z) (b : bool) (V' : list Z),
    hasPath_visited depth g x to V = Ret (b, V') → to ∉ V →
    (∀ y, y ∈ V → y ∈ V') ∧ (to ∉ V')
    ∧ (b = true → rtc (edge g) x to)
    ∧ (b = false → x ∈ V' ∧ ∀ y, y ∈ V' → y ∉ V → ∀ z, edge g y z → z ∈ V').
Proof.
  induction depth as [|depth IH]; intros x V b V'.
  - simpl. case_bool_decide as Hx; [|done]. intros [= <- <-] Hto. subst x.
    split; [done|]. split; [done|]. split; [done|]. done.
  - simpl. case_bool_decide as Hx.
    { intros [= <- <-] Hto. subst x. split; [done|]. split; [done|]. split; [done|]. done. }
    unfold map_at. destruct (map_find (adjacencyMap g) x) as [nb|] eqn:Enb; [|done].
    simpl. intros Hrun Hto.
    set (V1 := set_insert x V) in *.
    assert (Hto1 : to ∉ V1).
    { unfold V1. rewrite elem_of_set_insert. intros [?|?]; [congruence|done]. }
    assert (HL : ∀ v, v ∈ util.getDiff nb (set_contains V1) → edge g x v).
    { intros v [Hv _]%elem_of_getDiff. by exists nb. }
    assert (Hloop :
      (∀ y, y ∈ V1 → y ∈ V') ∧ (to ∉ V')
      ∧ (b = true → rtc (edge g) x to)
      ∧ (b = false → (∀ v, v ∈ util.getDiff nb (set_contains V1) → v ∈ V')
                     ∧ ∀ y, y ∈ V' → y ∉ V1 → ∀ z, edge g y z → z ∈ V')).
    { revert Hrun HL Hto1. generalize (util.getDiff nb (set_contains V1)).
      generalize V1. clear V1. intros W L. revert W.
      induction L as [|v L IHL]; intros W Hrun HL HtoW.
      - injection Hrun as <- <-. split; [done|]. split; [done|]. split; [done|].
        intros _. split; [by intros v ?%elem_of_nil|]. intros y Hy Hny. done.
      - destruct (hasPath_visited depth g v to W) as [[found W1]|] eqn:Ev; [|done].
        simpl in Hrun.
        destruct (IH v W found W1 Ev HtoW) as (Hsub1 & Hto1 & Htrue1 & Hfalse1).
        destruct found.
        + injection Hrun as <- <-. split; [done|]. split; [done|].
          split; [|done]. intros _. eapply rtc_l; [apply HL, list_elem_of_here|by apply Htrue1].
        + destruct (IHL W1 Hrun) as (Hsub2 & Hto2 & Htrue2 & Hfalse2); [|done|].
          { intros v' Hv'. by apply HL, list_elem_of_further. }
          destruct (Hfalse1 eq_refl) as [Hv1 Hcl1].
          split; [by intros y Hy; apply Hsub2, Hsub1|]. split; [done|]. split; [done|].
          intros Hb. destruct (Hfalse2 Hb) as [HL2 Hcl2]. split.
          * intros v' [->|Hv']%elem_of_cons; [by apply Hsub2|by apply HL2].
          * intros y Hy HyW z Hz.
            destruct (decide (y ∈ W1)) as [HyW1|HyW1].
            -- apply Hsub2. by apply (Hcl1 y HyW1 HyW z).
            -- by apply (Hcl2 y Hy HyW1 z). }
    destruct Hloop as (Hsub & HtoV' & Htrue & Hfalse).
    assert (HxV1 : x ∈ V1) by (unfold V1; apply elem_of_set_insert; by left).
    assert (HVV1 : ∀ y, y ∈ V → y ∈ V1)
      by (intros y Hy; unfold V1; apply elem_of_set_insert; by right).
    split; [by intros y Hy; apply Hsub, HVV1|]. split; [done|]. split; [done|].
    intros Hb. destruct (Hfalse Hb) as [HL' Hcl]. split; [by apply Hsub|].
    intros y Hy HyV z Hz.
    destruct (decide (y ∈ V1)) as [HyV1|HyV1]; [|by apply (Hcl y Hy HyV1 z)].
    assert (y = x) as ->.
    { unfold V1 in HyV1. apply elem_of_set_insert in HyV1 as [?|?]; done. }
    destruct Hz as (s & Hs & Hzs). rewrite Enb in Hs. injection Hs as <-.
    destruct (decide (z ∈ V1)) as [HzV1|HzV1]; [by apply Hsub|].
    apply HL'. apply elem_of_getDiff. split; [done|]. by apply set_contains_false.
Qed.

(** X5. [hasPath] decides reachability: on a graph that satisfies the
    invariant, from a vertex [from] the call returns, and the result is true
    exactly when a chain of neighbours leads from [from] to [to] (the empty
    chain when they are equal).  From a [from] that is not a vertex the
    result is true when [to] is [from], and [adjacencyMap.at] throws
    [std::out_of_range] otherwise. *)
Theorem hasPath_spec (g : Graph) (from to : Z) :
  Graph_inv g →
  (from ∈ vertices g →
     ∃ b, hasPath g from to = Ret b ∧ (b = true ↔ rtc (edge g) from to))
  ∧ (from ∉ vertices g →
       hasPath g from to
       = if bool_decide (from = to) then Ret true else Throw (StdException out_of_range)).
Proof.
  intros Hinv. split.
  - intros Hfrom. unfold hasPath.
    destruct (hasPath_visited_total g to (S (length (adjacencyMap g))) Hinv from [] [])
      as (b & V' & E & _); [done|apply not_elem_of_nil|done| |].
    { rewrite filter_all by (intros; apply not_elem_of_nil). rewrite length_map_keys. lia. }
    rewrite E. simpl. exists b. split; [done|].
    destruct (hasPath_visited_post g to _ from [] b V' E) as (_ & Hto & Htrue & Hfalse);
      [apply not_elem_of_nil|].
    split; [done|]. intros Hpath. destruct b; [done|]. exfalso.
    destruct (Hfalse eq_refl) as [Hin Hcl].
    assert (Hall : ∀ y, rtc (edge g) from y → y ∈ V').
    { intros y Hy. apply rtc_nsteps in Hy as [n Hn]. revert y Hn.
      induction n as [|n IHn]; intros y Hn.
      - by inversion Hn; subst.
      - apply nsteps_inv_r in Hn as (w & Hw & Hedge).
        apply (Hcl w (IHn w Hw)); [apply not_elem_of_nil|done]. }
    by apply Hto, Hall.
  - intros Hfrom. unfold hasPath. simpl. case_bool_decide; [done|].
    unfold map_at. destruct (map_find (adjacencyMap g) from) eqn:E; [|done].
    exfalso. apply Hfrom, Hinv. eauto.
Qed.

(** ** The primal graph *)

Lemma elem_of_pairs_after_lookup {A} (l : list A) (a b : A) :
  (a, b) ∈ pairs_after l ↔ ∃ i j : nat, (i < j)%nat ∧ l !! i = Some a ∧ l !! j = Some b.
Proof.
  induction l as [|x l IH]; simpl.
  - rewrite elem_of_nil. split; [done|]. by intros (i & j & _ & Hi & _).
  - rewrite elem_of_app, list_elem_of_fmap, IH. split.
    + intros [(y & [= -> ->] & Hy)|(i & j & Hij & Hi & Hj)].
      * apply list_elem_of_lookup in Hy as [j Hj]. exists 0%nat, (S j). split; [lia|done].
      * exists (S i), (S j). split; [lia|done].
    + intros (i & j & Hij & Hi & Hj). destruct j as [|j]; [lia|]. simpl in Hj.
      destruct i as [|i]; simpl in Hi.
      * injection Hi as ->. left. exists b. split; [done|].
        apply list_elem_of_lookup. eauto.
      * right. exists i, j. split; [lia|done].
Qed.

Lemma addEdges_abs_edge (pairs : list (Z * Z)) (g g' : Graph) :
  foldlM (λ graph '(literal1, literal2), addEdge (Z.abs literal1) (Z.abs literal2) graph)
         g pairs = Ret g' →
  ∀ u v, edge g' u v
         ↔ edge g u v
           ∨ ∃ a b, (a, b) ∈ pairs
                    ∧ ((u = Z.abs a ∧ v = Z.abs b) ∨ (u = Z.abs b ∧ v = Z.abs a)).
Proof.
  revert g. induction pairs as [|[a b] pairs IH]; intros g; simpl.
  - intros [= <-] u v. split; [by left|]. intros [?|(a & b & Hin & _)]; [done|].
    by apply elem_of_nil in Hin.
  - destruct (addEdge (Z.abs a) (Z.abs b) g) as [g1|] eqn:E1; [|done]. simpl.
    intros Hrest u v. rewrite (IH g1 Hrest), (addEdge_edge _ _ g g1 E1). split.
    + intros [[?|Hnew]|(a' & b' & Hin & Hab)].
      * by left.
      * right. exists a, b. split; [apply list_elem_of_here|done].
      * right. exists a', b'. split; [by apply list_elem_of_further|done].
    + intros [?|(a' & b' & [[= -> ->]|Hin]%elem_of_cons & Hab)].
      * left. by left.
      * left. by right.
      * right. by exists a', b'.
Qed.

Lemma getPrimalGraph_edge_from (cls : list (list Z)) (g g' : Graph) :
  foldlM (λ graph clause,
            foldlM (λ graph '(literal1, literal2),
                      addEdge (Z.abs literal1) (Z.abs literal2) graph)
                   graph (pairs_after clause)) g cls = Ret g' →
  ∀ u v, edge g' u v
         ↔ edge g u v
           ∨ ∃ clause a b, clause ∈ cls ∧ (a, b) ∈ pairs_after clause
                           ∧ ((u = Z.abs a ∧ v = Z.abs b) ∨ (u = Z.abs b ∧ v = Z.abs a)).
Proof.
  revert g. induction cls as [|clause cls IH]; intros g; cbn [foldlM].
  - intros [= <-] u v. split; [by left|]. intros [?|(c & a & b & Hin & _)]; [done|].
    by apply elem_of_nil in Hin.
  - destruct (foldlM _ g (pairs_after clause)) as [g1|] eqn:E1; [|done]. cbn [bind].
    intros Hrest u v. rewrite (IH g1 Hrest), (addEdges_abs_edge _ g g1 E1). split.
    + intros [[?|(a & b & Hin & Hab)]|(c & a & b & Hc & Hin & Hab)].
      * by left.
      * right. exists clause, a, b. split; [apply list_elem_of_here|done].
      * right. exists c, a, b. split; [by apply list_elem_of_further|done].
    + intros [?|(c & a & b & [->|Hc]%elem_of_cons & Hin & Hab)].
      * left. by left.
      * left. right. by exists a, b.
      * right. by exists c, a, b.
Qed.

(** X6. On a [Cnf] that satisfies [Cnf_wf], [getPrimalGraph] returns a graph
    on the apparent variables in which [u] and [v] are neighbours exactly
    when they are the variables of two literals at different positions of
    one clause.  (A clause that holds a literal and its negation makes its
    variable its own neighbour.) *)
Theorem getPrimalGraph_spec (cnf : Cnf) :
  Cnf_wf cnf →
  ∃ g, getPrimalGraph cnf = Ret g ∧ Graph_inv g ∧ vertices g = apparentVars cnf
       ∧ ∀ u v, isNeighbor g u v = Ret true
                ↔ ∃ clause (i j : nat) l1 l2,
                    clause ∈ clauses cnf ∧ i ≠ j
                    ∧ clause !! i = Some l1 ∧ clause !! j = Some l2
                    ∧ u = Z.abs l1 ∧ v = Z.abs l2.
Proof.
  intros Hwf. destruct (getPrimalGraph_total cnf (Cnf_wf_vars cnf Hwf)) as (g & E & Hinv & Hv).
  exists g. split; [done|]. split; [done|]. split; [done|].
  intros u v. rewrite isNeighbor_edge.
  unfold getPrimalGraph in E. rewrite (getPrimalGraph_edge_from _ _ _ E u v).
  destruct (Graph_ctor_spec (apparentVars cnf)) as (_ & Hno & _).
  split.
  - intros [Hold|(clause & a & b & Hc & Hin & Hab)]; [by apply Hno in Hold|].
    apply elem_of_pairs_after_lookup in Hin as (i & j & Hij & Hi & Hj).
    destruct Hab as [[-> ->]|[-> ->]].
    + exists clause, i, j, a, b. split_and!; [done|lia|done..].
    + exists clause, j, i, b, a. split_and!; [done|lia|done..].
  - intros (clause & i & j & l1 & l2 & Hc & Hij & Hi & Hj & -> & ->). right.
    destruct (decide (i < j)%nat) as [Hlt|Hge].
    + exists clause, l1, l2. split; [done|]. split; [|by left].
      apply elem_of_pairs_after_lookup. exists i, j. done.
    + exists clause, l2, l1. split; [done|]. split; [|by right].
      apply elem_of_pairs_after_lookup. exists j, i. split; [lia|done].
Qed.

(** ** Label::addNumber *)

Lemma insert_desc_perm (i : Z) (l : list Z) : insert_desc i l ≡ₚ i :: l.
Proof.
  induction l as [|x l IH]; simpl; [done|].
  case_bool_decide; [done|]. rewrite IH. apply Permutation_swap.
Qed.

Lemma insert_desc_descending (i : Z) (l : list Z) :
  descending l → descending (insert_desc i l).
Proof.
  induction l as [|x l IH]; simpl.
  - intros _. split; [by intros y ?%elem_of_nil|done].
  - intros [Hx Hl]. case_bool_decide as Hlt.
    + split; [|done]. intros y [->|Hy]%elem_of_cons; [lia|]. specialize (Hx y Hy). lia.
    + split; [|by apply IH]. intros y Hy.
      rewrite insert_desc_perm in Hy. apply elem_of_cons in Hy as [->|Hy]; [lia|by apply Hx].
Qed.

(** X7. [addNumber(i)] leaves the label with its old numbers and [i], each
    as often as before ([i] once more), in descending order; whatever the
    order of the label was. *)
Theorem addNumber_spec (i : Z) (label : list Z) :
  addNumber i label ≡ₚ i :: label ∧ descending (addNumber i label).
Proof.
  unfold addNumber, sort_desc.
  assert (Hgen : ∀ l, foldr insert_desc [] l ≡ₚ l ∧ descending (foldr insert_desc [] l)).
  { induction l as [|x l [IHp IHd]]; simpl; [done|]. split.
    - by rewrite insert_desc_perm, IHp.
    - by apply insert_desc_descending. }
  destruct (Hgen (label ++ [i])) as [Hp Hd]. split; [|done].
  rewrite Hp. by rewrite Permutation_app_comm.
Qed.

(** ** util::splitInputLine *)

Lemma elem_of_rev_list {A} (l : list A) (x : A) : x ∈ rev l ↔ x ∈ l.
Proof. rewrite !list_elem_of_In. symmetry. apply in_rev. Qed.

Lemma rev_word (cur : list ascii) :
  cur ≠ [] → Forall (λ c, util.isspace c = false) cur →
  is_word (String.string_of_list_ascii (rev cur)).
Proof.
  intros Hne Hall. split.
  - intros Heq. apply (f_equal String.list_ascii_of_string) in Heq.
    rewrite String.list_ascii_of_string_of_list_ascii in Heq. simpl in Heq.
    apply (f_equal (@rev ascii)) in Heq. rewrite rev_involutive in Heq. done.
  - intros c. rewrite String.list_ascii_of_string_of_list_ascii, elem_of_rev_list.
    rewrite Forall_forall in Hall. apply Hall.
Qed.

Lemma split_go_words (cur : list ascii) (s : string) :
  Forall (λ c, util.isspace c = false) cur →
  Forall is_word (util.split_go cur s).
Proof.
  revert cur. induction s as [|c s IH]; intros cur Hcur; simpl.
  - destruct cur as [|c0 cur]; [done|]. apply Forall_singleton. by apply rev_word.
  - destruct (util.isspace c) eqn:Ec.
    + destruct cur as [|c0 cur]; [by apply IH|].
      apply Forall_cons. split; [by apply rev_word|by apply IH].
    + apply IH. by apply Forall_cons.
Qed.

Lemma split_go_word (w : string) (cur : list ascii) (s : string) :
  (∀ c, c ∈ String.list_ascii_of_string w → util.isspace c = false) →
  util.split_go cur (w +:+ s)
  = util.split_go (rev (String.list_ascii_of_string w) ++ cur) s.
Proof.
  revert cur. induction w as [|c w IH]; intros cur Hw; simpl; [done|].
  rewrite (Hw c) by (simpl; apply list_elem_of_here).
  rewrite IH by (intros c' Hc'; apply Hw; simpl; by apply list_elem_of_further).
  by rewrite <- app_assoc.
Qed.

Lemma append_empty_r (w : string) : w +:+ EmptyString = w.
Proof.
  induction w as [|c w IH]; [done|].
  change (String c (w +:+ EmptyString) = String c w). by rewrite IH.
Qed.

Lemma split_go_blank (s : string) :
  (∀ c, c ∈ String.list_ascii_of_string s → util.isspace c = true) →
  util.split_go [] s = [].
Proof.
  induction s as [|c s IH]; intros Hs; simpl; [done|].
  rewrite (Hs c) by (simpl; apply list_elem_of_here).
  apply IH. intros c' Hc'. apply Hs. simpl. by apply list_elem_of_further.
Qed.

(** X8. [splitInputLine] returns words that are not empty and hold no
    white space; it returns no word for an empty line and for a line of
    white space; and it undoes the joining of such words by single blanks:
    the words of the joined line are the words that were joined. *)
Theorem splitInputLine_spec :
  (∀ line, Forall is_word (util.splitInputLine line))
  ∧ (∀ line, (∀ c, c ∈ String.list_ascii_of_string line → util.isspace c = true) →
             util.splitInputLine line = [])
  ∧ (∀ words, Forall is_word words →
              util.splitInputLine (String.concat " " words) = words).
Proof.
  split; [intros line; by apply split_go_words|].
  split; [apply split_go_blank|].
  unfold util.splitInputLine.
  assert (Hone : ∀ w, is_word w →
            String.string_of_list_ascii (rev (rev (String.list_ascii_of_string w) ++ [])) = w
            ∧ rev (String.list_ascii_of_string w) ++ [] ≠ []).
  { intros w [Hne _]. rewrite app_nil_r, rev_involutive, String.string_of_list_ascii_of_string.
    split; [done|]. destruct w as [|c w]; [done|]. simpl. intros Heq.
    by apply app_eq_nil in Heq as [_ ?]. }
  induction words as [|w words IH]; intros Hall; [done|].
  apply Forall_cons in Hall as [Hw Hall]. specialize (IH Hall).
  destruct (Hone w Hw) as [Hback Hcur].
  destruct words as [|w' words].
  - simpl. rewrite <- (append_empty_r w) at 1.
    rewrite split_go_word by apply Hw. simpl.
    destruct (rev (String.list_ascii_of_string w) ++ []) eqn:E; [done|]. by rewrite Hback.
  - change (String.concat " " (w :: w' :: words))
      with (w +:+ String " " (String.concat " " (w' :: words))).
    rewrite split_go_word by apply Hw. cbn [util.split_go].
    change (util.isspace " ") with true. cbv iota.
    destruct (rev (String.list_ascii_of_string w) ++ []) eqn:E; [done|].
    rewrite IH, Hback. done.
Qed.

(** ** JoinNode::getNodeRank *)

Lemma seqZ_succ (k : Z) (n : nat) : seqZ k (Z.of_nat (S n)) = k :: seqZ (k + 1) (Z.of_nat n).
Proof.
  rewrite seqZ_cons by lia. f_equal. f_equal; lia.
Qed.

Lemma rank_min_fold (post : list Z) (l : list Z) (k acc : Z) :
  let r := foldl (λ rank (rv : Z * Z), if set_contains post rv.2 then Z.min rank rv.1 else rank)
                 acc (zip (seqZ k (vec_size l)) l) in
  r ≤ acc
  ∧ (r = acc ∨ ∃ (j : nat) x, l !! j = Some x ∧ x ∈ post ∧ r = k + Z.of_nat j)
  ∧ (∀ (j : nat) x, l !! j = Some x → x ∈ post → r ≤ k + Z.of_nat j).
Proof.
  unfold vec_size. revert k acc. induction l as [|y l IH]; intros k acc.
  - simpl. split; [lia|]. split; [by left|]. intros j x Hj. done.
  - cbn [length]. rewrite seqZ_succ. cbn [zip zip_with foldl snd fst].
    destruct (set_contains post y) eqn:Ey.
    + apply set_contains_true in Ey.
      destruct (IH (k + 1) (Z.min acc k)) as (Hle & Hor & Hall). cbv zeta in *.
      set (r := foldl _ _ _) in *.
      split; [lia|]. split.
      * destruct Hor as [Hr|(j & x & Hj & Hx & Hr)].
        -- destruct (decide (acc ≤ k)); [left; lia|].
           right. exists 0%nat, y. split; [done|]. split; [done|]. lia.
        -- right. exists (S j), x. split; [done|]. split; [done|]. lia.
      * intros [|j] x Hj Hx; simpl in Hj.
        -- lia.
        -- specialize (Hall j x Hj Hx). lia.
    + apply set_contains_false in Ey.
      destruct (IH (k + 1) acc) as (Hle & Hor & Hall). cbv zeta in *.
      set (r := foldl _ _ _) in *.
      split; [lia|]. split.
      * destruct Hor as [Hr|(j & x & Hj & Hx & Hr)]; [by left|].
        right. exists (S j), x. split; [done|]. split; [done|]. lia.
      * intros [|j] x Hj Hx; simpl in Hj.
        -- by injection Hj as ->.
        -- specialize (Hall j x Hj Hx). lia.
Qed.

Lemma rank_max_fold (post : list Z) (l : list Z) (k acc : Z) :
  let r := foldl (λ rank (rv : Z * Z), if set_contains post rv.2 then Z.max rank rv.1 else rank)
                 acc (zip (seqZ k (vec_size l)) l) in
  acc ≤ r
  ∧ (r = acc ∨ ∃ (j : nat) x, l !! j = Some x ∧ x ∈ post ∧ r = k + Z.of_nat j)
  ∧ (∀ (j : nat) x, l !! j = Some x → x ∈ post → k + Z.of_nat j ≤ r).
Proof.
  unfold vec_size. revert k acc. induction l as [|y l IH]; intros k acc.
  - simpl. split; [lia|]. split; [by left|]. intros j x Hj. done.
  - cbn [length]. rewrite seqZ_succ. cbn [zip zip_with foldl snd fst].
    destruct (set_contains post y) eqn:Ey.
    + apply set_contains_true in Ey.
      destruct (IH (k + 1) (Z.max acc k)) as (Hle & Hor & Hall). cbv zeta in *.
      set (r := foldl _ _ _) in *.
      split; [lia|]. split.
      * destruct Hor as [Hr|(j & x & Hj & Hx & Hr)].
        -- destruct (decide (k ≤ acc)); [left; lia|].
           right. exists 0%nat, y. split; [done|]. split; [done|]. lia.
        -- right. exists (S j), x. split; [done|]. split; [done|]. lia.
      * intros [|j] x Hj Hx; simpl in Hj.
        -- lia.
        -- specialize (Hall j x Hj Hx). lia.
    + apply set_contains_false in Ey.
      destruct (IH (k + 1) acc) as (Hle & Hor & Hall). cbv zeta in *.
      set (r := foldl _ _ _) in *.
      split; [lia|]. split.
      * destruct Hor as [Hr|(j & x & Hj & Hx & Hr)]; [by left|].
        right. exists (S j), x. split; [done|]. split; [done|]. lia.
      * intros [|j] x Hj Hx; simpl in Hj.
        -- by injection Hj as ->.
        -- specialize (Hall j x Hj Hx). lia.
Qed.

(** X9. With [MIN_INT] negative and an order no longer than [MAX_INT],
    [getNodeRank] returns the length of [restrictedVarOrder] when none of
    its members is among the node's [postProjectionVars]; otherwise, under
    [BUCKET_LIST] and [BUCKET_TREE] it returns the least position of the
    order whose variable is among them, and under every other heuristic the
    greatest. *)
Theorem getNodeRank_spec (node : JoinNode) (restrictedVarOrder : list Z) (h : string) :
  MIN_INT < 0 → vec_size restrictedVarOrder ≤ MAX_INT →
  let post := getPostProjectionVars node in
  let n := vec_size restrictedVarOrder in
  let r := getNodeRank node restrictedVarOrder h in
  ((∀ x, x ∈ restrictedVarOrder → x ∉ post) → r = n)
  ∧ ((∃ x, x ∈ restrictedVarOrder ∧ x ∈ post) →
       0 ≤ r < n
       ∧ (∃ x, restrictedVarOrder !! Z.to_nat r = Some x ∧ x ∈ post)
       ∧ ∀ (j : nat) x, restrictedVarOrder !! j = Some x → x ∈ post →
           if bool_decide (h = BUCKET_LIST ∨ h = BUCKET_TREE)
           then r ≤ Z.of_nat j else Z.of_nat j ≤ r).
Proof.
  intros Hmin Hmax post n r. subst r. unfold getNodeRank. fold post. fold n.
  assert (Hlt : ∀ (j : nat) x, restrictedVarOrder !! j = Some x → Z.of_nat j < n).
  { intros j x Hj. apply lookup_lt_Some in Hj. unfold n, vec_size. lia. }
  assert (Hbucket : str_eqb h BUCKET_LIST || str_eqb h BUCKET_TREE
                    = bool_decide (h = BUCKET_LIST ∨ h = BUCKET_TREE)).
  { unfold str_eqb. repeat case_bool_decide; simpl; tauto. }
  rewrite Hbucket. destruct (bool_decide (h = BUCKET_LIST ∨ h = BUCKET_TREE)).
  - destruct (rank_min_fold post restrictedVarOrder 0 MAX_INT) as (Hle & Hor & Hall).
    cbv zeta in *. fold n in Hle, Hor, Hall. set (rank := foldl _ _ _) in *. split.
    + intros Hnone. destruct Hor as [->|(j & x & Hj & Hx & _)].
      * by rewrite bool_decide_eq_true_2.
      * exfalso. apply (Hnone x); [|done]. apply list_elem_of_lookup. eauto.
    + intros (x & Hin & Hx). apply list_elem_of_lookup in Hin as [j Hj].
      pose proof (Hall j x Hj Hx) as Hrj. pose proof (Hlt j x Hj) as Hjn.
      destruct Hor as [Hr|(j0 & x0 & Hj0 & Hx0 & Hr)]; [lia|].
      rewrite bool_decide_eq_false_2 by (pose proof (Hlt j0 x0 Hj0); lia).
      pose proof (Hlt j0 x0 Hj0).
      split; [lia|]. split.
      * exists x0. rewrite Hr, Z.add_0_l, Nat2Z.id. done.
      * intros j' x' Hj' Hx'. specialize (Hall j' x' Hj' Hx'). lia.
  - destruct (rank_max_fold post restrictedVarOrder 0 MIN_INT) as (Hle & Hor & Hall).
    cbv zeta in *. fold n in Hle, Hor, Hall. set (rank := foldl _ _ _) in *. split.
    + intros Hnone. destruct Hor as [->|(j & x & Hj & Hx & _)].
      * by rewrite bool_decide_eq_true_2.
      * exfalso. apply (Hnone x); [|done]. apply list_elem_of_lookup. eauto.
    + intros (x & Hin & Hx). apply list_elem_of_lookup in Hin as [j Hj].
      pose proof (Hall j x Hj Hx) as Hrj.
      destruct Hor as [Hr|(j0 & x0 & Hj0 & Hx0 & Hr)]; [lia|].
      rewrite bool_decide_eq_false_2 by lia.
      pose proof (Hlt j0 x0 Hj0).
      split; [lia|]. split.
      * exists x0. rewrite Hr, Z.add_0_l, Nat2Z.id. done.
      * intros j' x' Hj' Hx'. specialize (Hall j' x' Hj' Hx'). lia.
Qed.

(** ** JoinNonterminal::getVarOrder *)

(** X10. For every heuristic code [h] other than 0, of a [Cnf] heuristic or
    of a join-tree heuristic, and every [Cnf] and join tree: when
    [getVarOrder(h)] returns an order, [getVarOrder(-h)] returns exactly its
    reverse. *)
Theorem getVarOrder_negate (cnf : Cnf) (terminalCount : Z) (node : JoinNode) (h : Z)
    (varOrder : list Z) :
  h ≠ 0 →
  getVarOrder cnf terminalCount node h = Ret varOrder →
  getVarOrder cnf terminalCount node (- h) = Ret (rev varOrder).
Proof.
  intros Hh. unfold getVarOrder, getCnfVarOrder. rewrite !Z.abs_opp. cbv zeta.
  assert (Hflip : ∀ r : result (list Z),
            (let* vo := r in Ret (if bool_decide (h < 0) then rev vo else vo)) = Ret varOrder →
            (let* vo := r in Ret (if bool_decide (- h < 0) then rev vo else vo))
            = Ret (rev varOrder)).
  { intros [vo|e]; simpl; [|done]. intros [= <-].
    destruct (Z_lt_ge_dec h 0).
    - rewrite (bool_decide_eq_true_2 (h < 0)), (bool_decide_eq_false_2 (- h < 0)) by lia.
      by rewrite rev_involutive.
    - by rewrite (bool_decide_eq_false_2 (h < 0)), (bool_decide_eq_true_2 (- h < 0)) by lia. }
  destruct (set_contains CNF_VAR_ORDER_HEURISTICS (Z.abs h)); apply Hflip.
Qed.

(** ** The join tree *)

Lemma JoinNode_children_ind (P : JoinNode → Prop) :
  (∀ i pre proj, P (JoinTerminal i pre proj)) →
  (∀ i pre proj children, Forall P children → P (JoinNonterminal i pre proj children)) →
  ∀ node, P node.
Proof.
  intros Ht Hn. fix IH 1. intros [i pre proj|i pre proj children]; [apply Ht|].
  apply Hn. induction children as [|c cs IHcs]; constructor; [apply IH|exact IHcs].
Qed.

Lemma subnodes_self (node : JoinNode) : node ∈ subnodes node.
Proof. destruct node; simpl; apply list_elem_of_here. Qed.

Lemma elem_of_flat_map {A B} (f : A → list B) (l : list A) (y : B) :
  y ∈ flat_map f l ↔ ∃ x, x ∈ l ∧ y ∈ f x.
Proof.
  rewrite list_elem_of_In, in_flat_map. split; intros (x & Hx & Hy); exists x.
  - by rewrite !list_elem_of_In.
  - by rewrite <- !list_elem_of_In.
Qed.

Lemma getWidth_fold (a : gmap Z bool) (children : list JoinNode) (w0 : Z) :
  let w := foldl (λ width child, Z.max width (getWidth child a)) w0 children in
  w0 ≤ w ∧ (∀ c, c ∈ children → getWidth c a ≤ w)
  ∧ (w = w0 ∨ ∃ c, c ∈ children ∧ w = getWidth c a).
Proof.
  revert w0. induction children as [|c cs IH]; intros w0; cbn [foldl].
  - split; [lia|]. split; [by intros c ?%elem_of_nil|by left].
  - destruct (IH (Z.max w0 (getWidth c a))) as (Hle & Hall & Hor). cbv zeta in *.
    set (w := foldl _ _ cs) in *. split; [lia|]. split.
    + intros c' [->|Hc']%elem_of_cons; [lia|by apply Hall].
    + destruct Hor as [Hw|(c' & Hc' & Hw)].
      * destruct (decide (getWidth c a ≤ w0)); [left; lia|].
        right. exists c. split; [apply list_elem_of_here|lia].
      * right. exists c'. split; [by apply list_elem_of_further|done].
Qed.

Lemma getWidth_unfold (node : JoinNode) (a : gmap Z bool) :
  getWidth node a
  = match node with
    | JoinTerminal _ _ _ => vec_size (unassigned node a)
    | JoinNonterminal _ _ _ children =>
        foldl (λ width child, Z.max width (getWidth child a))
              (vec_size (unassigned node a)) children
    end.
Proof. by destruct node. Qed.

Lemma length_getDiff_mono (l : list Z) (p q : Z → bool) :
  (∀ x, p x = false → q x = false) →
  vec_size (util.getDiff l p) ≤ vec_size (util.getDiff l q).
Proof.
  intros Hpq. unfold vec_size, util.getDiff. apply inj_le.
  induction l as [|x l IH]; [done|]. rewrite !filter_cons.
  destruct (decide (p x = false)) as [Hp|Hp].
  - rewrite decide_True by by apply Hpq. simpl. lia.
  - destruct (decide (q x = false)); simpl; lia.
Qed.

(** X11. [getWidth(assignment)] of a node is the greatest number of
    variables that [assignment] leaves unassigned in the
    [preProjectionVars] of a node of the subtree; and an assignment that
    assigns more variables gives a width that is no greater. *)
Theorem getWidth_spec (node : JoinNode) (assignment : gmap Z bool) :
  (∀ n, n ∈ subnodes node → vec_size (unassigned n assignment) ≤ getWidth node assignment)
  ∧ (∃ n, n ∈ subnodes node ∧ getWidth node assignment = vec_size (unassigned n assignment))
  ∧ (∀ assignment' : gmap Z bool,
       (∀ v, is_Some (assignment !! v) → is_Some (assignment' !! v)) →
       getWidth node assignment' ≤ getWidth node assignment).
Proof.
  induction node as [i pre proj|i pre proj children IH] using JoinNode_children_ind.
  - rewrite getWidth_unfold. split; [|split].
    + intros n [->|Hn]%elem_of_cons; [done|]. by apply elem_of_nil in Hn.
    + eexists. split; [apply subnodes_self|done].
    + intros a' Ha'. rewrite getWidth_unfold. apply length_getDiff_mono.
      intros x Hx. apply bool_decide_eq_false in Hx. apply bool_decide_eq_false.
      intros Hs. by apply Hx, Ha'.
  - rewrite Forall_forall in IH.
    assert (IH' : ∀ c, c ∈ children →
              (∀ n, n ∈ subnodes c → vec_size (unassigned n assignment) ≤ getWidth c assignment)
              ∧ (∃ n, n ∈ subnodes c ∧ getWidth c assignment = vec_size (unassigned n assignment))
              ∧ (∀ assignment' : gmap Z bool,
                   (∀ v, is_Some (assignment !! v) → is_Some (assignment' !! v)) →
                   getWidth c assignment' ≤ getWidth c assignment)).
    { intros c Hc. by apply IH. }
    clear IH. rewrite getWidth_unfold.
    set (node := JoinNonterminal i pre proj children).
    destruct (getWidth_fold assignment children (vec_size (unassigned node assignment)))
      as (Hle & Hall & Hor). cbv zeta in *.
    set (w := foldl _ _ children) in *. split; [|split].
    + intros n [->|Hn]%elem_of_cons; [done|].
      apply elem_of_flat_map in Hn as (c & Hc & Hn).
      destruct (IH' c Hc) as (Hsub & _). specialize (Hsub n Hn). specialize (Hall c Hc). lia.
    + destruct Hor as [Hw|(c & Hc & Hw)].
      * exists node. split; [apply subnodes_self|done].
      * destruct (IH' c Hc) as (_ & (n & Hn & Hwn) & _).
        exists n. split; [|congruence].
        apply list_elem_of_further, elem_of_flat_map. by exists c.
    + intros a' Ha'.
      change (getWidth node a')
        with (foldl (λ width child, Z.max width (getWidth child a'))
                    (vec_size (unassigned node a')) children).
      destruct (getWidth_fold a' children (vec_size (unassigned node a')))
        as (Hle' & Hall' & Hor'). cbv zeta in *.
      set (w' := foldl _ _ children) in *.
      destruct Hor' as [->|(c & Hc & ->)].
      * etrans; [|exact Hle]. apply length_getDiff_mono.
        intros x Hx. apply bool_decide_eq_false in Hx. apply bool_decide_eq_false.
        intros Hs. by apply Hx, Ha'.
      * destruct (IH' c Hc) as (_ & _ & Hmono). specialize (Hmono a' Ha').
        specialize (Hall c Hc). lia.
Qed.

Lemma classes_agree_child (tc : Z) (i : Z) (pre proj : list Z) (children : list JoinNode) :
  classes_agree tc (JoinNonterminal i pre proj children) →
  Forall (classes_agree tc) children.
Proof.
  unfold classes_agree. simpl. intros Hall%Forall_cons_1. destruct Hall as [_ Hall].
  rewrite Forall_forall in Hall. apply Forall_forall. intros c Hc.
  apply Forall_forall. intros n Hn. apply Hall, elem_of_flat_map. by exists c.
Qed.

Lemma nodeCount_of_pos (node : JoinNode) : (1 ≤ nodeCount_of node)%nat.
Proof. destruct node; simpl; lia. Qed.

Lemma nodeCount_filter (P : JoinNode → Prop) `{∀ x, Decision (P x)} (cs : list JoinNode) :
  (foldr (λ c n, nodeCount_of c + n) 0 (filter P cs)
   ≤ foldr (λ c n, nodeCount_of c + n) 0 cs)%nat.
Proof.
  induction cs as [|c cs IH]; [done|]. rewrite filter_cons.
  destruct (decide (P c)); simpl; lia.
Qed.

Lemma nodeCount_app (q1 q2 : list JoinNode) :
  foldr (λ c n, nodeCount_of c + n)%nat 0%nat (q1 ++ q2)
  = (foldr (λ c n, nodeCount_of c + n) 0 q1 + foldr (λ c n, nodeCount_of c + n) 0 q2)%nat.
Proof. induction q1 as [|c q1 IH]; simpl; [done|]. rewrite IH. lia. Qed.

Lemma nonterminal_children (tc : Z) (cs : list JoinNode) :
  Forall (classes_agree tc) cs →
  filter (λ n, is_JoinTerminal n = false)
         (flat_map subnodes (filter (λ child, isTerminal tc child = false) cs))
  = filter (λ n, is_JoinTerminal n = false) (flat_map subnodes cs).
Proof.
  induction cs as [|c cs IH]; [done|]. intros [Hc Hcs]%Forall_cons_1.
  specialize (IH Hcs). rewrite filter_cons.
  assert (Hroot : isTerminal tc c = is_JoinTerminal c).
  { unfold classes_agree in Hc. rewrite Forall_forall in Hc. apply Hc, subnodes_self. }
  destruct (decide (isTerminal tc c = false)) as [Hnt|Ht].
  - cbn [flat_map]. by rewrite !filter_app, IH.
  - cbn [flat_map]. rewrite filter_app, IH.
    destruct c as [i p q|i p q cs0]; [|rewrite Hroot in Ht; done].
    simpl. done.
Qed.

Lemma highest_loop_spec (tc : Z) (fuel : nat) :
  ∀ (q : list JoinNode) (acc : list Z),
    Forall (λ n, is_JoinTerminal n = false ∧ classes_agree tc n) q →
    (foldr (λ c n, nodeCount_of c + n) 0 q ≤ fuel)%nat →
    ∃ rest, highest_loop tc fuel q acc = Ret (acc ++ rest)
            ∧ rest ≡ₚ flat_map projectionVars
                        (filter (λ n, is_JoinTerminal n = false) (flat_map subnodes q))
            ∧ (∀ n q', q = n :: q' → ∃ rest', rest = projectionVars n ++ rest').
Proof.
  induction fuel as [|fuel IH]; intros q acc Hq Hfuel.
  - destruct q as [|n q]; [|simpl in Hfuel; pose proof (nodeCount_of_pos n); lia].
    exists []. simpl. rewrite app_nil_r. split; [done|]. split; [done|]. by intros n q' [=].
  - destruct q as [|n q].
    { exists []. simpl. rewrite app_nil_r. split; [done|]. split; [done|]. by intros n q' [=]. }
    apply Forall_cons_1 in Hq as [[Hn Hagree] Hq].
    destruct n as [i p proj|i p proj cs]; [done|]. cbn [highest_loop].
    pose proof (classes_agree_child tc i p proj cs Hagree) as Hcs.
    destruct (IH (q ++ filter (λ child, isTerminal tc child = false) cs) (acc ++ proj))
      as (rest & E & Hperm & _).
    + apply Forall_app. split; [done|]. apply Forall_forall.
      intros c [Hnt Hc]%list_elem_of_filter. rewrite Forall_forall in Hcs.
      specialize (Hcs c Hc). split; [|done].
      unfold classes_agree in Hcs. rewrite Forall_forall in Hcs.
      rewrite <- (Hcs c (subnodes_self c)). done.
    + rewrite nodeCount_app.
      pose proof (nodeCount_filter (λ child, isTerminal tc child = false) cs).
      simpl in Hfuel. lia.
    + exists (proj ++ rest). rewrite E, <- app_assoc. split; [done|]. split.
      * rewrite Hperm. cbn [flat_map subnodes app]. rewrite filter_cons. cbn [is_JoinTerminal].
        rewrite decide_True by done. cbn [flat_map projectionVars].
        apply Permutation_app_head.
        rewrite !flat_map_app, !filter_app, !flat_map_app, (nonterminal_children tc cs Hcs).
        apply Permutation_app_comm.
      * intros n q' [= <- <-]. by exists rest.
Qed.

(** X12. On a tree in which [isTerminal()] tells the class of every node,
    [getHighestNodeVarOrder] of a [JoinNonterminal] returns; the order
    begins with the [projectionVars] of the root, and it holds the
    [projectionVars] of the [JoinNonterminal] nodes of the subtree, each as
    often as they occur there, and nothing else. *)
Theorem getHighestNodeVarOrder_spec (tc : Z) (node : JoinNode) :
  is_JoinTerminal node = false → classes_agree tc node →
  ∃ order rest,
    getHighestNodeVarOrder tc node = Ret order
    ∧ order = projectionVars node ++ rest
    ∧ order ≡ₚ flat_map projectionVars
                 (filter (λ n, is_JoinTerminal n = false) (subnodes node)).
Proof.
  intros Hn Hagree. unfold getHighestNodeVarOrder.
  destruct (highest_loop_spec tc (nodeCount_of node) [node] []) as (rest & E & Hperm & Hfirst).
  - apply Forall_singleton. done.
  - simpl. lia.
  - destruct (Hfirst node [] eq_refl) as [rest' ->].
    exists (projectionVars node ++ rest'), rest'. split; [done|]. split; [done|].
    rewrite Hperm. simpl. by rewrite app_nil_r.
Qed.

(** ** The static fields and the constructors of the nodes *)

Lemma run_node_call_backup (cnf : Cnf) (s : Statics) (c : NodeCall) :
  backupNodeCount (run_node_call cnf s c) = backupNodeCount s
  ∧ backupTerminalCount (run_node_call cnf s c) = backupTerminalCount s
  ∧ backupNonterminalIndices (run_node_call cnf s c) = backupNonterminalIndices s.
Proof.
  destruct c as [|children projection requested]; simpl; [done|].
  unfold JoinNonterminal_ctor. repeat case_bool_decide; try done.
  destruct (set_contains _ _); done.
Qed.

Lemma run_node_calls_backup (cnf : Cnf) (calls : list NodeCall) (s : Statics) :
  backupNodeCount (foldl (run_node_call cnf) s calls) = backupNodeCount s
  ∧ backupTerminalCount (foldl (run_node_call cnf) s calls) = backupTerminalCount s
  ∧ backupNonterminalIndices (foldl (run_node_call cnf) s calls) = backupNonterminalIndices s.
Proof.
  revert s. induction calls as [|c calls IH]; intros s; simpl; [done|].
  destruct (IH (run_node_call cnf s c)) as (-> & -> & ->).
  apply run_node_call_backup.
Qed.

(** X13. [resetStaticFields] and [restoreStaticFields] bracket a
    construction: whatever constructor calls run in between, and whether they
    return or throw, [restoreStaticFields] puts [nodeCount], [terminalCount]
    and [nonterminalIndices] back to what they were at the reset.  The backup
    has one level: after a second reset inside the bracket, two restores
    lead back to the counters of the second reset, not of the first. *)
Theorem static_fields_round_trip (cnf : Cnf) (s : Statics) (calls calls' : list NodeCall) :
  let inner := foldl (run_node_call cnf) (resetStaticFields s) calls in
  let restored := restoreStaticFields inner in
  let nested := foldl (run_node_call cnf) (resetStaticFields inner) calls' in
  let twice := restoreStaticFields (restoreStaticFields nested) in
  (nodeCount restored = nodeCount s ∧ terminalCount restored = terminalCount s
   ∧ nonterminalIndices restored = nonterminalIndices s)
  ∧ (nodeCount twice = nodeCount inner ∧ terminalCount twice = terminalCount inner
     ∧ nonterminalIndices twice = nonterminalIndices inner).
Proof.
  intros inner restored nested twice. split.
  - destruct (run_node_calls_backup cnf calls (resetStaticFields s)) as (H1 & H2 & H3).
    subst restored. simpl. fold inner in H1, H2, H3. by rewrite H1, H2, H3.
  - destruct (run_node_calls_backup cnf calls' (resetStaticFields inner)) as (H1 & H2 & H3).
    subst twice. simpl. fold nested in H1, H2, H3. by rewrite H1, H2, H3.
Qed.

Lemma foldl_set_insert_elem {A} (f : A → Z) (l : list A) (acc : list Z) (y : Z) :
  y ∈ foldl (λ s x, set_insert (f x) s) acc l ↔ y ∈ acc ∨ ∃ x, x ∈ l ∧ y = f x.
Proof.
  revert acc. induction l as [|x l IH]; intros acc; simpl.
  - split; [by left|]. intros [?|(x & Hx & _)]; [done|]. by apply elem_of_nil in Hx.
  - rewrite IH, elem_of_set_insert. split.
    + intros [[->|?]|(x' & Hx' & ->)].
      * right. exists x. split; [apply list_elem_of_here|done].
      * by left.
      * right. exists x'. split; [by apply list_elem_of_further|done].
    + intros [?|(x' & [->|Hx']%elem_of_cons & ->)].
      * left. by right.
      * left. by left.
      * right. by exists x'.
Qed.

Lemma foldl_set_insert_NoDup_gen {A} (f : A → Z) (l : list A) (acc : list Z) :
  NoDup acc → NoDup (foldl (λ s x, set_insert (f x) s) acc l).
Proof.
  revert acc. induction l as [|x l IH]; intros acc Hnd; simpl; [done|].
  by apply IH, NoDup_set_insert.
Qed.

Lemma getClauseVars_spec (clause : list Z) :
  NoDup (getClauseVars clause)
  ∧ ∀ v, v ∈ getClauseVars clause ↔ ∃ l, l ∈ clause ∧ v = Z.abs l.
Proof.
  unfold getClauseVars. split.
  - apply (foldl_set_insert_NoDup_gen Z.abs), NoDup_nil_2.
  - intros v. rewrite (foldl_set_insert_elem Z.abs), elem_of_nil. tauto.
Qed.

(** X14. [JoinTerminal()] takes the old [terminalCount] as its index and
    increments [terminalCount] and [nodeCount], also when it throws.  It
    returns exactly when that index is the index of a clause, and throws
    [std::out_of_range] otherwise; the node it returns has no projection
    variables, and its [preProjectionVars] are the variables of the
    literals of the clause, each once. *)
Theorem JoinTerminal_ctor_spec (cnf : Cnf) (s : Statics) :
  let r := JoinTerminal_ctor cnf s in
  (terminalCount r.2 = terminalCount s + 1 ∧ nodeCount r.2 = nodeCount s + 1
   ∧ nonterminalIndices r.2 = nonterminalIndices s)
  ∧ (¬ (0 ≤ terminalCount s < vec_size (clauses cnf)) →
       r.1 = Throw (StdException out_of_range))
  ∧ (∀ clause, 0 ≤ terminalCount s →
       clauses cnf !! Z.to_nat (terminalCount s) = Some clause →
       ∃ node, r.1 = Ret node ∧ nodeIndex node = terminalCount s
               ∧ is_JoinTerminal node = true
               ∧ isTerminal (terminalCount r.2) node = true
               ∧ projectionVars node = []
               ∧ getPostProjectionVars node = preProjectionVars node
               ∧ NoDup (preProjectionVars node)
               ∧ ∀ v, v ∈ preProjectionVars node ↔ ∃ l, l ∈ clause ∧ v = Z.abs l).
Proof.
  intros r. subst r. unfold JoinTerminal_ctor. cbn [fst snd].
  split; [done|]. split.
  - intros Hout. unfold vec_at. case_bool_decide; [|done].
    destruct (clauses cnf !! Z.to_nat (terminalCount s)) as [clause|] eqn:E; [|done].
    exfalso. apply Hout. apply lookup_lt_Some in E. unfold vec_size. lia.
  - intros clause Hpos Hclause. unfold vec_at. rewrite bool_decide_eq_true_2 by done.
    rewrite Hclause. simpl. eexists. split; [done|]. simpl.
    split; [done|]. split; [done|].
    split; [unfold isTerminal; simpl; apply bool_decide_eq_true_2; lia|].
    split; [done|].
    destruct (getClauseVars_spec clause) as [Hnd Hin].
    split; [|split; [done|done]].
    unfold getPostProjectionVars, util.getDiff. simpl. apply filter_all.
    intros x _. apply set_contains_false, not_elem_of_nil.
Qed.

Lemma unionize_NoDup (s1 s2 : list Z) : NoDup s1 → NoDup (util.unionize s1 s2).
Proof. unfold util.unionize. apply (foldl_set_insert_NoDup_gen (λ x, x)). Qed.

Lemma children_union (children : list JoinNode) (acc : list Z) :
  NoDup acc →
  NoDup (foldl (λ pre child, util.unionize pre (getPostProjectionVars child)) acc children)
  ∧ ∀ x, x ∈ foldl (λ pre child, util.unionize pre (getPostProjectionVars child)) acc children
         ↔ x ∈ acc ∨ ∃ child, child ∈ children ∧ x ∈ getPostProjectionVars child.
Proof.
  revert acc. induction children as [|c cs IH]; intros acc Hnd; simpl.
  - split; [done|]. intros x. split; [by left|]. intros [?|(c & Hc & _)]; [done|].
    by apply elem_of_nil in Hc.
  - destruct (IH (util.unionize acc (getPostProjectionVars c))) as [Hnd' Hin];
      [by apply unionize_NoDup|].
    split; [done|]. intros x. rewrite Hin, elem_of_unionize. split.
    + intros [[?|?]|(c' & Hc' & Hx)].
      * by left.
      * right. exists c. split; [apply list_elem_of_here|done].
      * right. exists c'. split; [by apply list_elem_of_further|done].
    + intros [?|(c' & [->|Hc']%elem_of_cons & Hx)].
      * left. by left.
      * left. by right.
      * right. by exists c'.
Qed.

(** X15. [JoinNonterminal(children, projectionVars, requestedNodeIndex)]
    throws [MyError], and leaves the static fields as they were, exactly when
    an index is requested (not [MIN_INT]) that is below [terminalCount] or
    already among [nonterminalIndices].  Otherwise it returns a node whose
    index is the requested one, or [nodeCount] when none is requested; it
    records the index, increments [nodeCount], and the [preProjectionVars] of
    the node are the [postProjectionVars] of its children, each variable
    once. *)
Theorem JoinNonterminal_ctor_spec (children : list JoinNode) (projection : list Z)
    (requestedNodeIndex : Z) (s : Statics) :
  let r := JoinNonterminal_ctor children projection requestedNodeIndex s in
  let refused := requestedNodeIndex ≠ MIN_INT
                 ∧ (requestedNodeIndex < terminalCount s
                    ∨ requestedNodeIndex ∈ nonterminalIndices s) in
  (refused → (∃ msg, r.1 = Throw (MyError msg)) ∧ r.2 = s)
  ∧ (¬ refused →
       ∃ node, r.1 = Ret node
         ∧ nodeIndex node
           = (if bool_decide (requestedNodeIndex = MIN_INT) then nodeCount s
              else requestedNodeIndex)
         ∧ is_JoinTerminal node = false
         ∧ projectionVars node = projection
         ∧ NoDup (preProjectionVars node)
         ∧ (∀ x, x ∈ preProjectionVars node
                 ↔ ∃ child, child ∈ children ∧ x ∈ getPostProjectionVars child)
         ∧ nodeCount r.2 = nodeCount s + 1
         ∧ terminalCount r.2 = terminalCount s
         ∧ (∀ i, i ∈ nonterminalIndices r.2 ↔ i = nodeIndex node ∨ i ∈ nonterminalIndices s)).
Proof.
  intros r refused. subst r refused. unfold JoinNonterminal_ctor.
  destruct (children_union children [] (NoDup_nil_2 (A:=Z))) as [Hnd Hin].
  assert (Hbuild : ∀ index,
    ∃ node,
      Ret (JoinNonterminal index
             (foldl (λ pre child, util.unionize pre (getPostProjectionVars child)) [] children)
             projection children) = Ret node
      ∧ nodeIndex node = index ∧ is_JoinTerminal node = false
      ∧ projectionVars node = projection ∧ NoDup (preProjectionVars node)
      ∧ (∀ x, x ∈ preProjectionVars node
              ↔ ∃ child, child ∈ children ∧ x ∈ getPostProjectionVars child)).
  { intros index. eexists. split; [done|]. simpl. split_and!; try done.
    intros x. rewrite Hin, elem_of_nil. tauto. }
  cbv zeta. case_bool_decide as Hreq.
  - split; [by intros [? _]|]. intros _. cbn [fst snd].
    destruct (Hbuild (nodeCount s)) as (node & E & Hi & Ht & Hp & Hn & Hx).
    exists node. rewrite Hi. split_and!; try done. cbn [nonterminalIndices].
    intros i. by rewrite elem_of_set_insert.
  - case_bool_decide as Hlt.
    + split; [|intros Hno; exfalso; apply Hno; split; [done|by left]].
      intros _. split; [eauto|done].
    + destruct (set_contains (nonterminalIndices s) requestedNodeIndex) eqn:Etaken.
      * apply set_contains_true in Etaken.
        split; [|intros Hno; exfalso; apply Hno; split; [done|by right]].
        intros _. split; [eauto|done].
      * apply set_contains_false in Etaken.
        split; [intros [_ [?|?]]; done|]. intros _. cbn [fst snd].
        destruct (Hbuild requestedNodeIndex) as (node & E & Hi & Ht & Hp & Hn & Hx).
        exists node. rewrite Hi. split_and!; try done. cbn [nonterminalIndices].
        intros i. by rewrite elem_of_set_insert.
Qed.

(** ** The MOST_CLAUSES order *)

Lemma ordered_lookup {A} (R : A → A → Prop) (l : list A) (i j : nat) (x y : A) :
  ordered R l → (i < j)%nat → l !! i = Some x → l !! j = Some y → R x y.
Proof.
  revert i j. induction l as [|z l IH]; intros i j Hord Hij Hi Hj; [done|].
  destruct Hord as [Hz Hord]. destruct j as [|j]; [lia|]. simpl in Hj.
  destruct i as [|i]; simpl in Hi.
  - injection Hi as ->. apply Hz. apply list_elem_of_lookup. eauto.
  - apply (IH i j); [done|lia|done..].
Qed.

Lemma ordered_mono {A} (R R' : A → A → Prop) (l : list A) :
  (∀ x y, x ∈ l → y ∈ l → R x y → R' x y) → ordered R l → ordered R' l.
Proof.
  induction l as [|z l IH]; [done|]. intros Himp [Hz Hord]. split.
  - intros y Hy. apply Himp; [apply list_elem_of_here|by apply list_elem_of_further|by apply Hz].
  - apply IH; [|done]. intros x y Hx Hy. apply Himp; by apply list_elem_of_further.
Qed.

Lemma multimap_insert_ordered (R : Z * Z → Z * Z → Prop) (e : Z * Z) (m : list (Z * Z)) :
  (∀ x y, R x y → y.1 ≤ x.1) →
  (∀ x, x ∈ m → e.1 ≤ x.1 → R x e) →
  (∀ y, y ∈ m → y.1 < e.1 → R e y) →
  ordered R m → ordered R (multimap_insert e m).
Proof.
  intros Hkey Hbefore Hafter. induction m as [|x m IH]; intros Hord; simpl.
  - split; [by intros y ?%elem_of_nil|done].
  - destruct Hord as [Hx Hord]. case_bool_decide as Hlt.
    + split; [|by split]. intros y [->|Hy]%elem_of_cons.
      * apply Hafter; [apply list_elem_of_here|done].
      * apply Hafter; [by apply list_elem_of_further|].
        specialize (Hkey x y (Hx y Hy)). lia.
    + split.
      * intros y Hy. rewrite multimap_insert_perm in Hy.
        apply elem_of_cons in Hy as [->|Hy]; [|by apply Hx].
        apply Hbefore; [apply list_elem_of_here|lia].
      * apply IH; [| |done].
        -- intros x' Hx'. apply Hbefore. by apply list_elem_of_further.
        -- intros y Hy. apply Hafter. by apply list_elem_of_further.
Qed.

Lemma multimap_sort (entries : list (Z * Z)) :
  let R := λ (P : list (Z * Z)) (x y : Z * Z), y.1 < x.1 ∨ (x.1 = y.1 ∧ before P x y) in
  foldl (λ m e, multimap_insert e m) [] entries ≡ₚ entries
  ∧ ordered (R entries) (foldl (λ m e, multimap_insert e m) [] entries).
Proof.
  intros R.
  assert (Hgen : ∀ todo P acc,
            acc ≡ₚ P → ordered (R P) acc →
            foldl (λ m e, multimap_insert e m) acc todo ≡ₚ P ++ todo
            ∧ ordered (R (P ++ todo)) (foldl (λ m e, multimap_insert e m) acc todo)).
  { induction todo as [|e todo IH]; intros P acc Hperm Hord; simpl.
    - by rewrite app_nil_r.
    - replace (P ++ e :: todo) with ((P ++ [e]) ++ todo) by by rewrite <- app_assoc.
      apply IH.
      + rewrite multimap_insert_perm, Hperm. apply Permutation_cons_append.
      + apply multimap_insert_ordered.
        * intros x y [?|[? _]]; lia.
        * intros x Hx Hle. destruct (decide (e.1 < x.1)); [by left|]. right.
          split; [lia|]. rewrite Hperm in Hx. apply list_elem_of_lookup in Hx as [p Hp].
          exists p, (length P). split; [by apply lookup_lt_Some in Hp|].
          split; [by rewrite lookup_app_l by by apply lookup_lt_Some in Hp|].
          by rewrite list_lookup_middle.
        * intros y _ Hlt. by left.
        * eapply ordered_mono; [|exact Hord].
          intros x y _ _ [?|[? (p & q & Hpq & Hp & Hq)]]; [by left|right].
          split; [done|]. exists p, q. split; [done|].
          split; rewrite lookup_app_l; try done; by eapply lookup_lt_Some. }
  destruct (Hgen entries [] []) as [Hp Ho]; done.
Qed.

(** X16. The MOST_CLAUSES order is sorted by the number of clauses a
    variable occurs in, most first; variables with the same number keep the
    order they have in [varToClauses]. *)
Theorem getMostClausesVarOrder_sorted (cnf : Cnf) (i j : nat) (u v : Z) (su sv : list Z) :
  Cnf_wf cnf → (i < j)%nat →
  getMostClausesVarOrder cnf !! i = Some u →
  getMostClausesVarOrder cnf !! j = Some v →
  map_find (varToClauses cnf) u = Some su →
  map_find (varToClauses cnf) v = Some sv →
  (length sv ≤ length su)%nat
  ∧ (length sv = length su → before (map_keys (varToClauses cnf)) u v).
Proof.
  intros Hwf Hij Hi Hj Hsu Hsv.
  assert (Hkeys : NoDup (map_keys (varToClauses cnf))) by apply Hwf.
  unfold getMostClausesVarOrder in Hi, Hj. cbv zeta in Hi, Hj.
  set (g := λ varAndSet : Z * list Z, (Z.of_nat (length varAndSet.2), varAndSet.1)).
  assert (Hfold : foldl (λ m varAndSet,
                           multimap_insert (Z.of_nat (length varAndSet.2), varAndSet.1) m)
                        [] (varToClauses cnf)
                  = foldl (λ m e, multimap_insert e m) [] (g <$> varToClauses cnf)).
  { by rewrite foldl_fmap. }
  rewrite Hfold in Hi, Hj.
  destruct (multimap_sort (g <$> varToClauses cnf)) as [Hperm Hord]. cbv zeta in Hord.
  set (m := foldl _ [] (g <$> varToClauses cnf)) in *.
  rewrite list_lookup_fmap in Hi, Hj.
  destruct (m !! i) as [[ku u']|] eqn:Emi; [|done]. injection Hi as ->.
  destruct (m !! j) as [[kv v']|] eqn:Emj; [|done]. injection Hj as ->.
  assert (Hcount : ∀ k x s, (k, x) ∈ m → map_find (varToClauses cnf) x = Some s →
                            k = Z.of_nat (length s)).
  { intros k x s Hin Hs. rewrite Hperm in Hin.
    apply list_elem_of_fmap in Hin as ([x' s'] & [= -> ->] & Hin).
    rewrite (map_find_NoDup _ _ _ Hkeys Hin) in Hs. by injection Hs as ->. }
  assert (ku = Z.of_nat (length su)) as ->
    by (apply (Hcount _ u); [apply list_elem_of_lookup; eauto|done]).
  assert (kv = Z.of_nat (length sv)) as ->
    by (apply (Hcount _ v); [apply list_elem_of_lookup; eauto|done]).
  pose proof (ordered_lookup _ m i j _ _ Hord Hij Emi Emj) as HR. simpl in HR.
  split; [destruct HR as [?|[? _]]; lia|].
  intros Heq. destruct HR as [?|[_ (p & q & Hpq & Hp & Hq)]]; [lia|].
  exists p, q. split; [done|]. unfold map_keys.
  rewrite list_lookup_fmap in Hp, Hq. rewrite !list_lookup_fmap.
  destruct (varToClauses cnf !! p) as [[x1 s1]|]; [|done].
  destruct (varToClauses cnf !! q) as [[x2 s2]|]; [|done].
  simpl in *. injection Hp as _ ->. injection Hq as _ ->. done.
Qed.

(** ** The parser: what the lines of a file do to the object *)

Lemma returns_Ret {A} (a : A) (Q : A → Prop) : Q a → returns (Ret a) Q.
Proof. intros Hq a' [= <-]. done. Qed.

Lemma returns_Throw {A} (e : exn) (Q : A → Prop) : returns (Throw e) Q.
Proof. intros a. done. Qed.

Lemma returns_bind {A B} (r : result A) (k : A → result B) (P : A → Prop) (Q : B → Prop) :
  returns r P → (∀ a, P a → returns (k a) Q) → returns (bind r k) Q.
Proof.
  intros Hr Hk b. destruct r as [a|e]; simpl; [|done]. by apply Hk, Hr.
Qed.

Lemma returns_bind_any {A B} (r : result A) (k : A → result B) (Q : B → Prop) :
  (∀ a, r = Ret a → returns (k a) Q) → returns (bind r k) Q.
Proof. intros Hk b. destruct r as [a|e]; simpl; [|done]. by apply Hk. Qed.

Lemma returns_foldlM {A B} (f : B → A → result B) (I : B → Prop) (b : B) (l : list A) :
  I b → (∀ b x, I b → returns (f b x) I) → returns (foldlM f b l) I.
Proof.
  intros Hb Hf. revert b Hb. induction l as [|x l IH]; intros b Hb; simpl.
  - by apply returns_Ret.
  - apply (returns_bind _ _ I); [by apply Hf|]. intros b' Hb'. by apply IH.
Qed.

Lemma pm_returns_lift {A} (r : result A) (Q : A → Prop) : returns r Q → pm_returns (lift r) Q.
Proof. intros Hr w a w' [= -> _]. by apply Hr. Qed.

Lemma pm_returns_throw {A} (i : Z) (line : string) (Q : A → Prop) :
  pm_returns (throw_EmptyClauseException i line) Q.
Proof. intros w a w'. done. Qed.

Lemma pm_returns_bind {A B} (m : PM A) (k : A → PM B) (P : A → Prop) (Q : B → Prop) :
  pm_returns m P → (∀ a, P a → pm_returns (k a) Q) → pm_returns (pm_bind m k) Q.
Proof.
  intros Hm Hk w b w'. unfold pm_bind.
  destruct (m w) as [[a|e] w1] eqn:E; [|done]. apply Hk. by apply (Hm w a w1).
Qed.

Lemma pm_returns_bind_lift {A B} (r : result A) (k : A → PM B) (Q : B → Prop) :
  (∀ a, r = Ret a → pm_returns (k a) Q) → pm_returns (pm_bind (lift r) k) Q.
Proof.
  intros Hk. apply (pm_returns_bind _ _ (λ a, r = Ret a)); [|done].
  apply pm_returns_lift. by intros a.
Qed.

Lemma pm_returns_foldl {A B} (f : B → A → PM B) (I : B → Prop) (b : B) (l : list A) :
  I b → (∀ b x, I b → pm_returns (f b x) I) → pm_returns (pm_foldl f b l) I.
Proof.
  intros Hb Hf. revert b Hb. induction l as [|x l IH]; intros b Hb; simpl.
  - by apply pm_returns_lift, returns_Ret.
  - apply (pm_returns_bind _ _ I); [by apply Hf|]. intros b' Hb'. by apply IH.
Qed.

Lemma pm_returns_bind_any {A B} (m : PM A) (k : A → PM B) (Q : B → Prop) :
  (∀ a, pm_returns (k a) Q) → pm_returns (pm_bind m k) Q.
Proof. intros Hk. apply (pm_returns_bind _ _ (λ _, True)); [done|]. intros a _. apply Hk. Qed.

(** One step through the structure of a computation that is followed to the
    values it returns. *)
Ltac ret_step :=
  match goal with
  | |- returns (Throw _) _ => apply returns_Throw
  | |- returns (bind _ _) _ => apply returns_bind_any; intros ? ?
  | |- returns (if ?b then _ else _) _ => destruct b eqn:?
  | |- pm_returns (lift (Throw _)) _ => apply pm_returns_lift, returns_Throw
  | |- pm_returns (pm_bind (lift _) _) _ => apply pm_returns_bind_lift; intros ? ?
  | |- pm_returns (throw_EmptyClauseException _ _) _ => apply pm_returns_throw
  | |- pm_returns (if ?b then _ else _) _ => destruct b eqn:?
  end.

Lemma is_weight_line_flag (words : list string) :
  is_weight_line words = Ret true → weightedCounting = true.
Proof. unfold is_weight_line. by destruct weightedCounting. Qed.

Lemma is_show_line_flag (words : list string) :
  is_show_line words = Ret true → projectedCounting || maxsatSolving = true.
Proof. unfold is_show_line. by destruct (projectedCounting || maxsatSolving). Qed.

Lemma foldl_snoc {A B} (f : B → A → B) (b : B) (l : list A) (x : A) :
  foldl f b (l ++ [x]) = f (foldl f b l) x.
Proof. by rewrite foldl_app. Qed.

Ltac norm_tests :=
  repeat match goal with
         | H : _ || _ = false |- _ => apply orb_false_iff in H as [? ?]
         | H : bool_decide _ = false |- _ => apply bool_decide_eq_false in H
         | H : bool_decide _ = true |- _ => apply bool_decide_eq_true in H
         end.

Lemma Forall_set_insert (P : Z → Prop) (x : Z) (s : list Z) :
  P x → Forall P s → Forall P (set_insert x s).
Proof.
  intros Hx Hs. unfold set_insert. destruct (set_contains s x); [done|].
  apply Forall_app. split; [done|]. by apply Forall_singleton.
Qed.

Section ParserInvariant.

Variable J : ParseState → Prop.
Variable ok_words : list string → Prop.

Hypothesis J_problem :
  ∀ lineIndex words st declared declaredClauses top wcnf hwcnf,
    0 < lineIndex → ok_words words → head words = Some "p" →
    J st → problemLineIndex st = MIN_INT →
    J {| this := set_header declared top (this st);
         declaredClauseCount := declaredClauses;
         processedClauseCount := processedClauseCount st;
         problemLineIndex := lineIndex;
         wcnfFlag := wcnf; hwcnfFlag := hwcnf |}.

Hypothesis J_wbo :
  ∀ lineIndex words st declared declaredClauses top,
    0 < lineIndex → ok_words words → is_wbo_header words = true → J st →
    J {| this := set_header declared top (this st);
         declaredClauseCount := declaredClauses;
         processedClauseCount := processedClauseCount st;
         problemLineIndex := lineIndex;
         wcnfFlag := wcnfFlag st; hwcnfFlag := hwcnfFlag st |}.

Hypothesis J_weight :
  ∀ st literal weight,
    weightedCounting = true → J st → problemLineIndex st ≠ MIN_INT →
    Z.abs literal ≤ declaredVarCount (this st) →
    Number_lt weight Number_default = false →
    J (set_this (set_literalWeights (<[literal:=weight]> (literalWeights (this st)))
                                    (this st)) st).

Hypothesis J_show :
  ∀ st nums,
    projectedCounting || maxsatSolving = true → J st → problemLineIndex st ≠ MIN_INT →
    Forall (λ v, 1 ≤ v ≤ declaredVarCount (this st)) nums →
    J (set_this (set_additiveVars
                   (foldl (λ s v, set_insert v s) (additiveVars (this st)) nums)
                   (this st)) st).

Hypothesis J_pb :
  ∀ st clause weight comparator coefs k,
    J st → problemLineIndex st ≠ MIN_INT →
    J (set_this (addClause clause "p"%char weight comparator coefs k (this st)) st).

Hypothesis J_clause :
  ∀ st clause type weight,
    J st → problemLineIndex st ≠ MIN_INT → clause ≠ [] →
    Forall (literal_ok (declaredVarCount (this st))) clause →
    type = "c"%char ∨ type = "x"%char →
    J (add_parsed_clause clause type weight st).

Lemma inv_parse_problem_line (i : Z) (words : list string) (st : ParseState) :
  0 < i → ok_words words → head words = Some "p" → J st →
  returns (parse_problem_line i words st) J.
Proof.
  intros Hi Hok Hp Hst. unfold parse_problem_line. cbv zeta.
  case_bool_decide as Hpl; [apply returns_Throw|].
  repeat ret_step. apply returns_Ret. apply (J_problem i words); try done.
  all: destruct (decide (problemLineIndex st = MIN_INT)); done.
Qed.

Lemma inv_parse_wbo_line (i : Z) (words : list string) (st : ParseState) :
  0 < i → ok_words words → is_wbo_header words = true → J st →
  returns (parse_wbo_line i words st) J.
Proof.
  intros Hi Hok Hw Hst. unfold parse_wbo_line.
  repeat ret_step. apply returns_Ret. by apply (J_wbo i words).
Qed.

Lemma inv_parse_weight_line (words : list string) (st : ParseState) :
  weightedCounting = true → J st → returns (parse_weight_line words st) J.
Proof.
  intros Hw Hst. unfold parse_weight_line. cbv zeta.
  case_bool_decide as Hpl; [apply returns_Throw|].
  repeat ret_step. apply returns_Ret. apply J_weight; try done.
  match goal with H : bool_decide (_ > _) = false |- _ =>
    apply bool_decide_eq_false in H; lia end.
Qed.

Lemma inv_parse_show_line (words : list string) (st : ParseState) :
  projectedCounting || maxsatSolving = true → J st →
  pm_returns (parse_show_line words st) J.
Proof.
  intros Hflag Hst. unfold parse_show_line.
  case_bool_decide as Hpl; [apply pm_returns_lift, returns_Throw|].
  apply pm_returns_bind_lift. intros w0 Hw0. cbv zeta.
  apply (pm_returns_bind _ _
           (λ additive, ∃ nums, Forall (λ v, 1 ≤ v ≤ declaredVarCount (this st)) nums
                                ∧ additive = foldl (λ s v, set_insert v s)
                                                   (additiveVars (this st)) nums)).
  - apply pm_returns_foldl; [by exists []|].
    intros additive i (nums & Hnums & ->). unfold show_word.
    apply pm_returns_bind_any. intros _.
    repeat ret_step; apply pm_returns_lift, returns_Ret; norm_tests.
    + by exists nums.
    + match goal with
      | |- ∃ _, _ ∧ set_insert ?n _ = _ => exists (nums ++ [n])
      end.
      split; [|by rewrite foldl_snoc].
      apply Forall_app. split; [done|]. apply Forall_singleton. lia.
  - intros additive (nums & Hnums & ->).
    apply pm_returns_lift, returns_Ret. by apply J_show.
Qed.

Lemma inv_parse_pb (words : list string) (weight : spec_float) (st : ParseState) :
  J st → problemLineIndex st ≠ MIN_INT → returns (parse_pb words weight st) J.
Proof.
  intros Hst Hpl. unfold parse_pb. cbv zeta.
  apply returns_bind_any. intros [clause coefs] _.
  repeat ret_step.
  destruct (PB_canonicalize _ _ _ _) as [[[clause' coefs'] k'] comparator'].
  apply returns_Ret. by apply J_pb.
Qed.

Lemma inv_parse_clause_words (cw : bool) (i : Z) (line : string) (words : list string)
    (weight : spec_float) (st : ParseState) :
  J st → problemLineIndex st ≠ MIN_INT →
  pm_returns (parse_clause_words cw i line words weight st) J.
Proof.
  intros Hst Hpl. unfold parse_clause_words.
  apply (pm_returns_bind _ _
           (λ acc : ClauseLoop,
              (acc.1.1.1 = "c"%char ∨ acc.1.1.1 = "x"%char)
              ∧ J acc.2 ∧ problemLineIndex acc.2 ≠ MIN_INT
              ∧ Forall (literal_ok (declaredVarCount (this acc.2))) acc.1.2)).
  - apply pm_returns_foldl; [simpl; split_and!; auto|].
    intros [[[type wt] clause] st0] j (Htype & Hst0 & Hpl0 & Hcl). simpl in *.
    unfold clause_word.
    repeat ret_step; apply pm_returns_lift, returns_Ret; simpl; norm_tests;
      (split_and!; [by auto|try done..]).
    + by apply J_clause.
    + apply Forall_set_insert; [unfold literal_ok; lia|done].
  - intros acc (_ & Hacc & _). apply pm_returns_lift, returns_Ret. done.
Qed.

Lemma inv_parse_constraint_line (i : Z) (line : string) (words : list string)
    (st : ParseState) :
  J st → pm_returns (parse_constraint_line i line words st) J.
Proof.
  intros Hst. unfold parse_constraint_line. cbv zeta.
  case_bool_decide as Hpl; [apply pm_returns_lift, returns_Throw|].
  repeat first
    [ apply inv_parse_clause_words; done
    | apply pm_returns_lift, inv_parse_pb; done
    | apply pm_returns_bind_any; intros ?
    | ret_step ].
Qed.

Lemma is_wbo_header_test (front : string) (rest : list string) (w1 : string) :
  str_eqb front "*" = true → vec_at (front :: rest) 1 = Ret w1 →
  str_eqb w1 "#variable=" = true → is_wbo_header (front :: rest) = true.
Proof.
  intros Hf Hw1 Hv. destruct rest as [|w1' rest]; [done|].
  injection Hw1 as ->. simpl. by rewrite Hf, Hv.
Qed.

Lemma inv_parse_line (i : Z) (line : string) (st : ParseState) :
  0 < i → ok_words (util.splitInputLine line) → J st →
  pm_returns (parse_line i line st) J.
Proof.
  intros Hi Hok Hst. unfold parse_line. cbv zeta.
  destruct (util.splitInputLine line) as [|front rest] eqn:Ewords.
  { by apply pm_returns_lift, returns_Ret. }
  destruct (str_eqb front "p") eqn:Ep.
  { apply pm_returns_lift, inv_parse_problem_line; try done.
    simpl. f_equal. by apply bool_decide_eq_true in Ep. }
  apply (pm_returns_bind _ _ (λ isWbo : bool,
           isWbo = true → is_wbo_header (front :: rest) = true)).
  { destruct (str_eqb front "*") eqn:Estar.
    - apply pm_returns_bind_lift. intros w1 Hw1. apply pm_returns_lift, returns_Ret.
      intros Hv. by apply (is_wbo_header_test front rest w1).
    - by apply pm_returns_lift, returns_Ret. }
  intros [|] Hwbo.
  { apply pm_returns_lift, inv_parse_wbo_line; auto. }
  case_bool_decide.
  { apply pm_returns_bind_lift. intros [|] Hweight.
    - apply pm_returns_lift, inv_parse_weight_line; [|done].
      by apply (is_weight_line_flag (front :: rest)).
    - apply pm_returns_bind_lift. intros [|] Hshow.
      + apply inv_parse_show_line; [|done]. by apply (is_show_line_flag (front :: rest)).
      + by apply pm_returns_lift, returns_Ret. }
  case_bool_decide; [apply pm_returns_lift, returns_Throw|].
  destruct (negb (starts_with front "c") && negb (starts_with front "*")
            && negb (starts_with front "soft")).
  - by apply inv_parse_constraint_line.
  - by apply pm_returns_lift, returns_Ret.
Qed.

Lemma inv_parse_from (lines : list string) :
  ∀ i st, 0 ≤ i → Forall (λ line, ok_words (util.splitInputLine line)) lines → J st →
          pm_returns (parse_from i lines st) J.
Proof.
  induction lines as [|line lines IH]; intros i st Hi Hok Hst; simpl.
  - by apply pm_returns_lift, returns_Ret.
  - apply Forall_cons_1 in Hok as [Hline Hok].
    apply (pm_returns_bind _ _ J); [apply inv_parse_line; [lia|done..]|].
    intros st1 Hst1. apply IH; [lia|done..].
Qed.

End ParserInvariant.

(** *** [addClause] and the index of the clauses *)

Lemma varToClauses_step (idx var : Z) (m : list (Z * list Z)) :
  let m' := match map_find m var with
            | Some s => map_assign var (set_insert idx s) m
            | None => map_assign var [idx] m
            end in
  NoDup (map_keys m) → (∀ v s, map_find m v = Some s → NoDup s ∧ s ≠ []) →
  NoDup (map_keys m')
  ∧ (∀ v s, map_find m' v = Some s → NoDup s ∧ s ≠ [])
  ∧ (∀ v i, (∃ s, map_find m' v = Some s ∧ i ∈ s)
            ↔ (∃ s, map_find m v = Some s ∧ i ∈ s) ∨ (i = idx ∧ v = var)).
Proof.
  intros m' Hkeys Hsets. subst m'.
  destruct (map_find m var) as [s0|] eqn:E0.
  - destruct (Hsets var s0 E0) as [Hnd0 Hne0]. split_and!.
    + rewrite map_keys_assign_in; [done|]. apply map_find_keys. eauto.
    + intros v s. rewrite map_find_assign. case_bool_decide as Hv.
      * intros [= <-]. split; [by apply NoDup_set_insert|].
        intros Hnil. apply Hne0. destruct s0 as [|x s0]; [done|].
        assert (x ∈ set_insert idx (x :: s0)) as Hx
          by (apply elem_of_set_insert; right; apply list_elem_of_here).
        rewrite Hnil in Hx. by apply elem_of_nil in Hx.
      * apply Hsets.
    + intros v i. rewrite map_find_assign. case_bool_decide as Hv.
      * subst v. rewrite E0. split.
        -- intros (s & [= <-] & [->|Hi]%elem_of_set_insert); [by right|left; eauto].
        -- intros [(s & [= <-] & Hi)|[-> _]]; eexists; (split; [done|]);
             apply elem_of_set_insert; auto.
      * split; [by left|]. intros [?|[_ ->]]; done.
  - split_and!.
    + rewrite map_keys_assign_new.
      * apply NoDup_app. split_and!; [done| |apply NoDup_singleton].
        intros x Hx ->%list_elem_of_singleton. apply map_find_keys in Hx as [? Hx]. congruence.
      * intros Hin. apply map_find_keys in Hin as [? Hin]. congruence.
    + intros v s. rewrite map_find_assign. case_bool_decide as Hv.
      * intros [= <-]. split; [apply NoDup_singleton|done].
      * apply Hsets.
    + intros v i. rewrite map_find_assign. case_bool_decide as Hv.
      * subst v. rewrite E0. split.
        -- intros (s & [= <-] & ->%list_elem_of_singleton). by right.
        -- intros [(s & [=] & _)|[-> _]]. eexists. split; [done|]. apply list_elem_of_here.
      * split; [by left|]. intros [?|[_ ->]]; done.
Qed.

Lemma varToClauses_fold (idx : Z) (clause : list Z) (m : list (Z * list Z)) :
  let m' := foldl (λ m literal,
                     let var := Z.abs literal in
                     match map_find m var with
                     | Some s => map_assign var (set_insert idx s) m
                     | None => map_assign var [idx] m
                     end) m clause in
  NoDup (map_keys m) → (∀ v s, map_find m v = Some s → NoDup s ∧ s ≠ []) →
  NoDup (map_keys m')
  ∧ (∀ v s, map_find m' v = Some s → NoDup s ∧ s ≠ [])
  ∧ (∀ v i, (∃ s, map_find m' v = Some s ∧ i ∈ s)
            ↔ (∃ s, map_find m v = Some s ∧ i ∈ s)
              ∨ (i = idx ∧ ∃ l, l ∈ clause ∧ v = Z.abs l)).
Proof.
  cbv zeta. revert m. induction clause as [|l clause IH]; intros m Hkeys Hsets; simpl.
  - split; [done|]. split; [done|]. intros v i. split; [by left|].
    intros [?|[_ (l & Hl & _)]]; [done|]. by apply elem_of_nil in Hl.
  - destruct (varToClauses_step idx (Z.abs l) m Hkeys Hsets) as (Hkeys1 & Hsets1 & Hin1).
    cbv zeta in *.
    destruct (IH _ Hkeys1 Hsets1) as (Hkeys2 & Hsets2 & Hin2).
    split; [done|]. split; [done|]. intros v i. rewrite Hin2, Hin1. split.
    + intros [[?|[-> ->]]|[-> (l' & Hl' & ->)]].
      * by left.
      * right. split; [done|]. exists l. split; [apply list_elem_of_here|done].
      * right. split; [done|]. exists l'. split; [by apply list_elem_of_further|done].
    + intros [?|[-> (l' & [->|Hl']%elem_of_cons & ->)]].
      * left. by left.
      * left. by right.
      * right. split; [done|]. by exists l'.
Qed.

Lemma addClause_indexed (clause : list Z) (type : ascii) (weight : spec_float)
    (comparator : Z) (coefs : gmap Z Z) (k : Z) (cnf : Cnf) :
  Cnf_indexed cnf → Cnf_indexed (addClause clause type weight comparator coefs k cnf).
Proof.
  intros (H1 & H2 & H3 & H4 & H5 & Hkeys & Hsets & Hidx).
  destruct (varToClauses_fold (Z.of_nat (length (clauses cnf))) clause (varToClauses cnf)
              Hkeys Hsets) as (Hkeys' & Hsets' & Hin').
  unfold Cnf_indexed, addClause. cbn [types weights coefLists comparators klist clauses
                                       varToClauses].
  rewrite !length_app. simpl length.
  split_and!; try lia; try done.
  intros v i. cbv zeta in Hin'. rewrite Hin', Hidx. split.
  - intros [(Hi & c & l & Hc & Hl & ->)|[-> (l & Hl & ->)]].
    + split; [done|]. exists c, l. split; [|done].
      rewrite lookup_app_l; [done|]. by apply lookup_lt_Some in Hc.
    + split; [lia|]. exists clause, l. split; [|done].
      rewrite Nat2Z.id. by rewrite list_lookup_middle.
  - intros (Hi & c & l & Hc & Hl & ->).
    destruct (decide (Z.to_nat i < length (clauses cnf))%nat) as [Hlt|Hge].
    + left. split; [done|]. exists c, l. split; [|done]. by rewrite lookup_app_l in Hc.
    + right. rewrite lookup_app_r in Hc by lia.
      destruct (Z.to_nat i - length (clauses cnf))%nat as [|n] eqn:En; [|by destruct n].
      injection Hc as <-. split; [lia|]. by exists l.
Qed.

(** What [finish] keeps of the object the lines have built. *)
Lemma finish_fields (st : ParseState) (cnf : Cnf) :
  finish st = Ret cnf →
  problemLineIndex st ≠ MIN_INT
  ∧ declaredVarCount cnf = declaredVarCount (this st)
  ∧ clauses cnf = clauses (this st) ∧ types cnf = types (this st)
  ∧ weights cnf = weights (this st) ∧ coefLists cnf = coefLists (this st)
  ∧ comparators cnf = comparators (this st) ∧ klist cnf = klist (this st)
  ∧ varToClauses cnf = varToClauses (this st)
  ∧ apparentVars cnf
    = foldl (λ s kv, set_insert kv.1 s) (apparentVars (this st)) (varToClauses (this st))
  ∧ additiveVars cnf
    = (if negb projectedCounting && negb maxsatSolving
       then foldl (λ s var, set_insert var s) (additiveVars (this st))
                  (seqZ 1 (declaredVarCount (this st)))
       else additiveVars (this st)).
Proof.
  unfold finish. case_bool_decide as Hpl; [done|]. cbv zeta.
  destruct (negb projectedCounting && negb maxsatSolving);
    destruct (foldlM complete_var _ _) as [lw|]; simpl; [|done| |done];
    intros [= <-]; simpl; split_and!; done.
Qed.

Lemma Cnf_ctor_Ret (lines : list string) (world world' : World) (cnf : Cnf) :
  Cnf_ctor lines world = (Ret cnf, world') →
  ∃ st, parse_lines lines ParseState_init world = (Ret st, world') ∧ finish st = Ret cnf.
Proof.
  unfold Cnf_ctor, pm_bind, lift.
  destruct (parse_lines lines ParseState_init world) as [[st|e] world1]; [|done].
  intros [= Hf <-]. by exists st.
Qed.

Lemma keys_as_set {V} (m : list (Z * V)) :
  NoDup (map_keys m) → foldl (λ s kv, set_insert kv.1 s) [] m = map_keys m.
Proof.
  intros Hnd. unfold map_keys.
  rewrite <- (foldl_fmap (λ s v, set_insert v s) [] m fst).
  change (m.*1) with ([] ++ m.*1) at 2. by apply foldl_set_insert_NoDup.
Qed.

Lemma ctor_gives_indexed (lines : list string) (world world' : World) (cnf : Cnf) :
  Cnf_ctor lines world = (Ret cnf, world') →
  Cnf_indexed cnf
  ∧ apparentVars cnf = map_keys (varToClauses cnf)
  ∧ ∀ v, v ∈ apparentVars cnf ↔ ∃ clause l, clause ∈ clauses cnf ∧ l ∈ clause ∧ v = Z.abs l.
Proof.
  intros (st & Hparse & Hfinish)%Cnf_ctor_Ret.
  assert (HJ : Cnf_indexed (this st) ∧ apparentVars (this st) = []).
  { apply (inv_parse_from (λ st, Cnf_indexed (this st) ∧ apparentVars (this st) = [])
             (λ _, True)) with (lines := lines) (i := 0) (st := ParseState_init)
             (world := world) (world' := world'); try done.
    - intros st0 clause weight comparator coefs k [Hidx Hav] _. split; [|done].
      by apply addClause_indexed.
    - intros st0 clause type weight [Hidx Hav] _ _ _ _. split; [|done].
      by apply addClause_indexed.
    - by apply Forall_forall.
    - split; [|done]. unfold Cnf_indexed. simpl. split_and!; try done.
      + apply NoDup_nil_2.
      + intros v i. split; [by intros (s & [=] & _)|]. by intros (_ & c & l & [=] & _). }
  destruct HJ as [Hidx Hav].
  destruct (finish_fields st cnf Hfinish)
    as (_ & _ & Ec & Et & Ew & Eco & Ecm & Ek & Evtc & Eav & _).
  assert (Hidx' : Cnf_indexed cnf).
  { unfold Cnf_indexed. rewrite Ec, Et, Ew, Eco, Ecm, Ek, Evtc. exact Hidx. }
  split; [done|].
  destruct Hidx' as (_ & _ & _ & _ & _ & Hkeys & Hsets & Hin).
  assert (Hav' : apparentVars cnf = map_keys (varToClauses cnf)).
  { rewrite Eav, Hav, Evtc. apply keys_as_set. by rewrite <- Evtc. }
  split; [done|]. intros v. rewrite Hav', map_find_keys. split.
  - intros [s Hs]. destruct (Hsets v s Hs) as [_ Hne].
    destruct s as [|i s]; [done|].
    destruct (Hin v i) as [(Hi & c & l & Hc & Hl & Hv) _].
    { exists (i :: s). split; [done|apply list_elem_of_here]. }
    exists c, l. split; [|done]. apply list_elem_of_lookup. eauto.
  - intros (c & l & Hc & Hl & ->). apply list_elem_of_lookup in Hc as [n Hn].
    destruct (Hin (Z.abs l) (Z.of_nat n)) as [_ (s & Hs & _)]; [|eauto].
    split; [lia|]. exists c, l. by rewrite Nat2Z.id.
Qed.

(** X17. In every [Cnf] that the constructor returns, [types], [weights],
    [coefLists], [comparators] and [klist] have one entry for each clause;
    [varToClauses] maps each variable to the indices of the clauses that
    hold a literal of it, and has no variable with no clause; and
    [apparentVars] holds, each once, the keys of [varToClauses]: the
    variables that have a literal in some clause. *)
Theorem Cnf_ctor_indexed (lines : list string) (world world' : World) (cnf : Cnf) :
  Cnf_ctor lines world = (Ret cnf, world') →
  Cnf_indexed cnf
  ∧ NoDup (apparentVars cnf)
  ∧ (∀ v, v ∈ apparentVars cnf ↔ v ∈ map_keys (varToClauses cnf))
  ∧ ∀ v, v ∈ apparentVars cnf ↔ ∃ clause l, clause ∈ clauses cnf ∧ l ∈ clause ∧ v = Z.abs l.
Proof.
  intros Hctor. destruct (ctor_gives_indexed lines world world' cnf Hctor) as (Hidx & Hav & Hvars).
  split; [done|]. split; [rewrite Hav; apply Hidx|]. split; [by rewrite Hav|done].
Qed.

(** *** Ranges *)

Lemma ranged_add (st : ParseState) (clause : list Z) (type : ascii) (weight : spec_float)
    (comparator : Z) (coefs : gmap Z Z) (k : Z) (st' : ParseState) :
  Cnf_ranged st → problemLineIndex st ≠ MIN_INT →
  this st' = addClause clause type weight comparator coefs k (this st) →
  problemLineIndex st' = problemLineIndex st →
  (type ≠ "p"%char → Forall (literal_ok (declaredVarCount (this st))) clause) →
  Cnf_ranged st'.
Proof.
  intros (Hempty & Hlen & Hcl & Hadd & Hlw) Hpl Hthis Hpl' Hnew.
  unfold Cnf_ranged. rewrite Hthis, Hpl'.
  cbn [addClause declaredVarCount clauses types additiveVars literalWeights].
  split_and!; try done.
  - rewrite !length_app. simpl. lia.
  - intros i c t Hc Ht Hnp.
    destruct (decide (i < length (clauses (this st)))%nat) as [Hlt|Hge].
    + rewrite lookup_app_l in Hc by done. rewrite lookup_app_l in Ht by lia.
      by apply (Hcl i c t).
    + rewrite lookup_app_r in Hc by lia. rewrite lookup_app_r in Ht by lia.
      rewrite Hlen in Ht.
      destruct (i - length (clauses (this st)))%nat as [|n]; [|by destruct n].
      injection Hc as <-. injection Ht as <-. by apply Hnew.
Qed.

Lemma ranged_parse_from (lines : list string) (st st' : ParseState) (world world' : World)
    (i : Z) :
  0 ≤ i → Forall (λ line, is_wbo_header (util.splitInputLine line) = false) lines →
  Cnf_ranged st → parse_from i lines st world = (Ret st', world') → Cnf_ranged st'.
Proof.
  intros Hi Hlines Hst Hrun.
  apply (inv_parse_from Cnf_ranged (λ words, is_wbo_header words = false))
    with (lines := lines) (i := i) (st := st) (world := world) (world' := world');
    try done.
  - intros lineIndex words st0 declared declaredClauses top wcnf hwcnf _ _ _
      (Hempty & Hlen & Hcl & Hadd & Hlw) Hpl.
    destruct (Hempty Hpl) as (Ec & Ea & El).
    unfold Cnf_ranged. simpl. rewrite Ec, Ea, El in *. split_and!; try done.
    all: intros l w; by rewrite lookup_empty.
  - intros lineIndex words st0 declared declaredClauses top _ Hok Hw. congruence.
  - intros st0 literal weight _ (Hempty & Hlen & Hcl & Hadd & Hlw) Hpl Hrange Hnonneg.
    unfold Cnf_ranged. simpl. split_and!; try done.
    intros l w. rewrite lookup_insert. case_decide as Hl.
    + subst l. intros [= <-]. done.
    + apply Hlw.
  - intros st0 nums _ (Hempty & Hlen & Hcl & Hadd & Hlw) Hpl Hnums.
    unfold Cnf_ranged. simpl. split_and!; try done.
    clear Hempty. revert Hadd. generalize (additiveVars (this st0)).
    induction nums as [|v nums IH]; intros s Hs; simpl; [done|].
    apply Forall_cons_1 in Hnums as [Hv Hnums].
    apply IH; [done|]. by apply Forall_set_insert.
  - intros st0 clause weight comparator coefs k Hst0 Hpl.
    by apply (ranged_add st0 clause "p"%char weight comparator coefs k).
  - intros st0 clause type weight Hst0 Hpl _ Hclause _.
    by apply (ranged_add st0 clause type weight addClause_comparator addClause_coefs
                addClause_k).
Qed.

Lemma ranged_init : Cnf_ranged ParseState_init.
Proof.
  unfold Cnf_ranged. simpl. split_and!; try done.
  all: intros l w; by rewrite lookup_empty.
Qed.

Lemma ctor_gives_ranges (lines : list string) (world world' : World) (cnf : Cnf) :
  Forall (λ line, is_wbo_header (util.splitInputLine line) = false) lines →
  Cnf_ctor lines world = (Ret cnf, world') →
  (∀ (i : nat) clause type,
     clauses cnf !! i = Some clause → types cnf !! i = Some type → type ≠ "p"%char →
     Forall (literal_ok (declaredVarCount cnf)) clause)
  ∧ Forall (λ v, 1 ≤ v ≤ declaredVarCount cnf) (additiveVars cnf).
Proof.
  intros Hlines (st & Hparse & Hfinish)%Cnf_ctor_Ret.
  pose proof (ranged_parse_from lines _ st world world' 0 ltac:(lia) Hlines ranged_init Hparse)
    as (_ & _ & Hcl & Hadd & _).
  destruct (finish_fields st cnf Hfinish) as (_ & En & Ec & Et & _ & _ & _ & _ & _ & _ & Ea).
  rewrite En, Ec, Et, Ea. split; [done|].
  destruct (negb projectedCounting && negb maxsatSolving); [|done].
  revert Hadd. generalize (additiveVars (this st)).
  assert (Hseq : Forall (λ v, 1 ≤ v ≤ declaredVarCount (this st))
                        (seqZ 1 (declaredVarCount (this st)))).
  { apply Forall_forall. intros v Hv%elem_of_seqZ. lia. }
  revert Hseq. generalize (seqZ 1 (declaredVarCount (this st))).
  induction l as [|v l IH]; intros Hl s Hs; simpl; [done|].
  apply Forall_cons_1 in Hl as [Hv Hl]. apply IH; [done|]. by apply Forall_set_insert.
Qed.

(** X18. In a file with no WBO/PBO problem line ([* #variable= ...]), what
    the lines put into the object lies within the declared variables: when
    the constructor returns, every clause that is not a PB constraint holds
    literals of [-n..n] other than 0, [n] being [declaredVarCount], and every
    additive variable is one of [1..n]. *)
Theorem Cnf_ctor_ranges (lines : list string) (world world' : World) (cnf : Cnf) :
  Forall (λ line, is_wbo_header (util.splitInputLine line) = false) lines →
  Cnf_ctor lines world = (Ret cnf, world') →
  (∀ (i : nat) clause type,
     clauses cnf !! i = Some clause → types cnf !! i = Some type → type ≠ "p"%char →
     Forall (literal_ok (declaredVarCount cnf)) clause)
  ∧ Forall (λ v, 1 ≤ v ≤ declaredVarCount cnf) (additiveVars cnf).
Proof.
  apply ctor_gives_ranges.
Qed.

(** X19. In a file with no WBO/PBO problem line, every weight that the
    weight lines have supplied is the weight of a literal [l] with
    [|l| <= declaredVarCount] (0 is not refused), and is not below the
    default [Number]. *)
Theorem supplied_weights_ok (lines : list string) (world world' : World) (st : ParseState)
    (l : Z) (w : Number) :
  Forall (λ line, is_wbo_header (util.splitInputLine line) = false) lines →
  parse_lines lines ParseState_init world = (Ret st, world') →
  literalWeights (this st) !! l = Some w →
  Z.abs l ≤ declaredVarCount (this st) ∧ Number_lt w Number_default = false.
Proof.
  intros Hlines Hparse Hl.
  pose proof (ranged_parse_from lines _ st world world' 0 ltac:(lia) Hlines ranged_init Hparse)
    as (_ & _ & _ & _ & Hlw).
  by apply Hlw.
Qed.

(** X20. For a file with no WBO/PBO problem line and no PB constraint, the
    [Cnf] that the constructor returns satisfies [Cnf_wf], which is what the
    variable orders of [getCnfVarOrder] rely on. *)
Theorem Cnf_ctor_wf (lines : list string) (world world' : World) (cnf : Cnf) :
  Forall (λ line, is_wbo_header (util.splitInputLine line) = false) lines →
  Cnf_ctor lines world = (Ret cnf, world') →
  Forall (λ type, type ≠ "p"%char) (types cnf) →
  Cnf_wf cnf.
Proof.
  intros Hlines Hctor Htypes.
  destruct (ctor_gives_indexed lines world world' cnf Hctor) as (Hidx & Hav & Hvars).
  destruct (ctor_gives_ranges lines world world' cnf Hlines Hctor) as [Hrange _].
  destruct Hidx as (Hlen & _ & _ & _ & _ & Hkeys & _).
  unfold Cnf_wf. rewrite Hav. split_and!; try done.
  - by apply Forall_forall.
  - by apply Forall_forall.
  - apply Forall_forall. intros clause Hclause. apply Forall_forall. intros l Hl.
    rewrite <- Hav. apply Hvars. by exists clause, l.
  - apply Forall_forall. intros v Hv. rewrite <- Hav in Hv.
    apply Hvars in Hv as (clause & l & Hclause & Hl & ->).
    apply list_elem_of_lookup in Hclause as [i Hi].
    assert (is_Some (types cnf !! i)) as [type Htype].
    { apply lookup_lt_is_Some. rewrite Hlen. by apply lookup_lt_Some in Hi. }
    assert (type ≠ "p"%char) as Hnp.
    { rewrite Forall_forall in Htypes. apply Htypes. apply list_elem_of_lookup. eauto. }
    pose proof (Hrange i clause type Hi Htype Hnp) as Hok.
    rewrite Forall_forall in Hok. destruct (Hok l Hl) as [? ?]. lia.
Qed.

(** *** The problem line *)

(** X21. The constructor returns a [Cnf] only for a file that has a problem
    line: a line whose first word is [p], or one that begins with
    [* #variable=]. *)
Theorem problem_line_required (lines : list string) (world world' : World) (cnf : Cnf) :
  Cnf_ctor lines world = (Ret cnf, world') →
  ∃ line, line ∈ lines ∧ is_header (util.splitInputLine line) = true.
Proof.
  intros (st & Hparse & Hfinish)%Cnf_ctor_Ret.
  destruct (decide (Exists (λ line, is_header (util.splitInputLine line) = true) lines))
    as [Hex|Hno].
  { apply Exists_exists in Hex as (line & Hin & Hline). by exists line. }
  exfalso. apply not_Exists_Forall in Hno; [|intros line; apply _].
  assert (HJ : problemLineIndex st = MIN_INT).
  { apply (inv_parse_from (λ st, problemLineIndex st = MIN_INT)
             (λ words, is_header words = false))
      with (lines := lines) (i := 0) (st := ParseState_init)
           (world := world) (world' := world'); try done.
    - intros lineIndex words st0 declared declaredClauses top wcnf hwcnf _ Hok Hp.
      destruct words as [|w0 rest]; [done|]. injection Hp as ->. done.
    - intros lineIndex words st0 declared declaredClauses top _ Hok Hw.
      destruct words as [|w0 rest]; [done|]. unfold is_header in Hok.
      rewrite Hw, orb_true_r in Hok. done.
    - eapply Forall_impl; [exact Hno|]. intros line Hline. simpl in Hline.
      by destruct (is_header (util.splitInputLine line)). }
  apply finish_fields in Hfinish as [Hpl _]. done.
Qed.

Lemma header_sets_index (i : Z) (line : string) (st : ParseState) :
  is_header (util.splitInputLine line) = true →
  pm_returns (parse_line i line st) (λ st', problemLineIndex st' = i).
Proof.
  intros Hh. unfold parse_line. cbv zeta.
  destruct (util.splitInputLine line) as [|front rest] eqn:Ewords; [done|].
  destruct (str_eqb front "p") eqn:Ep.
  { apply pm_returns_lift. unfold parse_problem_line. cbv zeta.
    repeat ret_step. by apply returns_Ret. }
  simpl in Hh. rewrite Ep in Hh. simpl in Hh.
  destruct rest as [|w1 rest]; [done|]. apply andb_true_iff in Hh as [Hstar Hvar].
  rewrite Hstar. unfold pm_bind at 2, lift at 1. cbn [vec_at]. simpl vec_at.
  intros world a world'. unfold pm_bind, lift. simpl. rewrite Hvar.
  unfold parse_wbo_line.
  repeat match goal with
         | |- context [bind ?r _] => destruct r; simpl; [|done]
         end.
  by intros [= <- _].
Qed.

Lemma index_kept (lines : list string) (i : Z) (st st' : ParseState) (world world' : World) :
  MIN_INT ≤ 0 → 0 ≤ i → problemLineIndex st ≠ MIN_INT →
  parse_from i lines st world = (Ret st', world') → problemLineIndex st' ≠ MIN_INT.
Proof.
  intros Hmin Hi Hst Hrun.
  apply (inv_parse_from (λ st, problemLineIndex st ≠ MIN_INT) (λ _, True))
    with (lines := lines) (i := i) (st := st) (world := world) (world' := world');
    try done.
  - intros lineIndex words st0 declared declaredClauses top Hpos _ _ _. simpl. lia.
  - by apply Forall_forall.
Qed.

(** X22. With [MIN_INT] not above 0 (it marks "no problem line yet", and
    line indices start at 1): once a problem line has been read, a later
    line whose first word is [p] makes the constructor throw [MyError]
    ("multiple problem lines"), and the lines after it are not read. *)
Theorem second_problem_line_rejected (l1 l2 l3 : list string) (a b : string)
    (st : ParseState) (world world1 : World) :
  MIN_INT ≤ 0 →
  parse_lines (l1 ++ a :: l2) ParseState_init world = (Ret st, world1) →
  is_header (util.splitInputLine a) = true →
  head (util.splitInputLine b) = Some "p" →
  Cnf_ctor (l1 ++ a :: l2 ++ b :: l3) world
  = (Throw (MyError "multiple problem lines: "), world1).
Proof.
  intros Hmin Hparse Ha Hb.
  assert (Hpl : problemLineIndex st ≠ MIN_INT).
  { unfold parse_lines in Hparse. rewrite parse_from_app in Hparse.
    destruct (parse_from 0 l1 ParseState_init world) as [[st1|e] wa]; [|done].
    simpl in Hparse. unfold pm_bind in Hparse.
    destruct (parse_line (0 + vec_size l1 + 1) a st1 wa) as [[st2|e] wb] eqn:Eline; [|done].
    pose proof (header_sets_index _ a st1 Ha wa st2 wb Eline) as Hidx. simpl in Hidx.
    apply (index_kept l2 (0 + vec_size l1 + 1) st2 st wb world1); try done.
    - unfold vec_size. lia.
    - rewrite Hidx. unfold vec_size. lia. }
  unfold Cnf_ctor, parse_lines, pm_bind in *.
  replace (l1 ++ a :: l2 ++ b :: l3) with ((l1 ++ a :: l2) ++ b :: l3)
    by (rewrite <- app_assoc; done).
  rewrite parse_from_app, Hparse. simpl. unfold pm_bind, parse_line. cbv zeta.
  destruct (util.splitInputLine b) as [|front rest]; [done|]. injection Hb as ->.
  change (str_eqb "p" "p") with true. cbv iota. unfold lift, parse_problem_line.
  rewrite bool_decide_eq_true_2 by done. done.
Qed.

(** *** Without projected counting and MaxSAT *)

Lemma filter_none {A} (P : A → Prop) `{∀ x, Decision (P x)} (l : list A) :
  (∀ x, x ∈ l → ¬ P x) → filter P l = [].
Proof.
  induction l as [|x l IH]; intros Hl; [done|]. rewrite filter_cons.
  rewrite decide_False by (apply Hl, list_elem_of_here).
  apply IH. intros y Hy. by apply Hl, list_elem_of_further.
Qed.

(** X23. Without projected counting and without MaxSAT solving no line is
    read as a show line, and the [Cnf] that the constructor returns has
    exactly the declared variables [1..declaredVarCount], each once, as its
    additive variables, and no disjunctive variable. *)
Theorem all_variables_additive (lines : list string) (world world' : World) (cnf : Cnf) :
  projectedCounting || maxsatSolving = false →
  Cnf_ctor lines world = (Ret cnf, world') →
  additiveVars cnf ≡ₚ seqZ 1 (declaredVarCount cnf) ∧ getDisjunctiveVars cnf = [].
Proof.
  intros Hflags (st & Hparse & Hfinish)%Cnf_ctor_Ret.
  assert (HJ : additiveVars (this st) = []).
  { apply (inv_parse_from (λ st, additiveVars (this st) = []) (λ _, True))
      with (lines := lines) (i := 0) (st := ParseState_init)
           (world := world) (world' := world'); try done.
    - intros st0 nums Hon. congruence.
    - by apply Forall_forall. }
  destruct (finish_fields st cnf Hfinish) as (_ & En & _ & _ & _ & _ & _ & _ & _ & _ & Ea).
  apply orb_false_iff in Hflags as [Hp Hm]. rewrite Hp, Hm, HJ in Ea. simpl in Ea.
  assert (Hadd : additiveVars cnf = seqZ 1 (declaredVarCount cnf)).
  { rewrite Ea, En.
    change (seqZ 1 (declaredVarCount (this st)))
      with ([] ++ seqZ 1 (declaredVarCount (this st))) at 2.
    apply foldl_set_insert_NoDup. simpl. apply NoDup_seqZ. }
  split; [by rewrite Hadd|]. unfold getDisjunctiveVars. rewrite Hadd.
  apply filter_none. intros v Hv Hnot. by apply set_contains_false in Hnot.
Qed.

Lemma keeps_lift {A} (r : result A) : pm_keeps_flag (lift r).
Proof. by intros w. Qed.

Lemma keeps_throw {A} (i : Z) (line : string) :
  pm_keeps_flag (A:=A) (throw_EmptyClauseException i line).
Proof. by intros w. Qed.

Lemma keeps_bind {A B} (m : PM A) (k : A → PM B) :
  pm_keeps_flag m → (∀ a, pm_keeps_flag (k a)) → pm_keeps_flag (pm_bind m k).
Proof.
  intros Hm Hk w. unfold pm_bind. specialize (Hm w).
  destruct (m w) as [[a|e] w1]; simpl in *; [|done]. rewrite <- Hm. apply Hk.
Qed.

Lemma keeps_bind_lift {A B} (r : result A) (k : A → PM B) :
  (∀ a, r = Ret a → pm_keeps_flag (k a)) → pm_keeps_flag (pm_bind (lift r) k).
Proof.
  intros Hk w. unfold pm_bind, lift. destruct r as [a|e]; [|done]. by apply Hk.
Qed.

Lemma keeps_foldl {A B} (f : B → A → PM B) (b : B) (l : list A) :
  (∀ b x, pm_keeps_flag (f b x)) → pm_keeps_flag (pm_foldl f b l).
Proof.
  intros Hf. revert b. induction l as [|x l IH]; intros b; simpl.
  - apply keeps_lift.
  - apply keeps_bind; [apply Hf|apply IH].
Qed.

Ltac keep_step :=
  match goal with
  | |- pm_keeps_flag (lift _) => apply keeps_lift
  | |- pm_keeps_flag (throw_EmptyClauseException _ _) => apply keeps_throw
  | |- pm_keeps_flag (pm_bind (lift _) _) => apply keeps_bind_lift; intros ? ?
  | |- pm_keeps_flag (pm_bind _ _) => apply keeps_bind; [|intros ?]
  | |- pm_keeps_flag (pm_foldl _ _ _) => apply keeps_foldl; intros ? ?; cbv beta
  | |- pm_keeps_flag (if ?b then _ else _) => destruct b
  | |- pm_keeps_flag (match ?x with _ => _ end) => destruct x
  end.

Lemma keeps_parse_constraint_line (i : Z) (line : string) (words : list string)
    (st : ParseState) :
  pm_keeps_flag (parse_constraint_line i line words st).
Proof.
  unfold parse_constraint_line, parse_clause_words, clause_word. repeat keep_step.
Qed.

Lemma keeps_parse_line (i : Z) (line : string) (st : ParseState) :
  projectedCounting || maxsatSolving = false → pm_keeps_flag (parse_line i line st).
Proof.
  intros Hflags. unfold parse_line. cbv zeta.
  destruct (util.splitInputLine line) as [|front rest]; [apply keeps_lift|].
  destruct (str_eqb front "p"); [apply keeps_lift|].
  apply keeps_bind; [repeat keep_step|]. intros [|]; [apply keeps_lift|].
  case_bool_decide.
  { apply keeps_bind_lift. intros [|] _; [apply keeps_lift|].
    apply keeps_bind_lift. intros [|] Hshow; [|apply keeps_lift].
    apply is_show_line_flag in Hshow. congruence. }
  case_bool_decide; [apply keeps_lift|].
  destruct (_ && _); [apply keeps_parse_constraint_line|apply keeps_lift].
Qed.

(** X24. Without projected counting and without MaxSAT solving the
    constructor leaves the global [minMaxsatSolving] as it finds it, whether
    it returns or throws. *)
Theorem minMaxsatSolving_untouched (lines : list string) (world : World) :
  projectedCounting || maxsatSolving = false →
  minMaxsatSolving (Cnf_ctor lines world).2 = minMaxsatSolving world.
Proof.
  intros Hflags.
  assert (Hfrom : ∀ lines i st, pm_keeps_flag (parse_from i lines st)).
  { induction lines0 as [|line lines0 IH]; intros i st; simpl; [apply keeps_lift|].
    apply keeps_bind; [by apply keeps_parse_line|]. intros st1. apply IH. }
  revert world. change (pm_keeps_flag (Cnf_ctor lines)). unfold Cnf_ctor, parse_lines.
  apply keeps_bind; [apply Hfrom|]. intros st. apply keeps_lift.
Qed.

(** ** The slices of [getAdditiveAssignments] *)

Lemma enumerates_empty : enumerates [∅] [].
Proof.
  split; [apply NoDup_singleton|]. intros a. rewrite list_elem_of_singleton. split.
  - intros -> v. rewrite lookup_empty, elem_of_nil. split; [by intros [? ?]|done].
  - intros Ha. apply map_empty. intros v. destruct (a !! v) eqn:E; [|done].
    exfalso. eapply elem_of_nil. apply Ha. eauto.
Qed.

Lemma enumerates_extend (A : list (gmap Z bool)) (D : list Z) (v : Z) :
  A ≠ [] → enumerates A D → v ∉ D → enumerates (extendAssignments A v) (D ++ [v]).
Proof.
  intros Hne [Hnd Hin] Hv. rewrite extendAssignments_nonempty by done.
  assert (Hdom : ∀ a, a ∈ A → ∀ u, is_Some (a !! u) ↔ u ∈ D)
    by (intros a Ha; by apply Hin).
  assert (Hfresh : ∀ a, a ∈ A → a !! v = None).
  { intros a Ha. destruct (a !! v) eqn:E; [|done]. exfalso. apply Hv, (Hdom a Ha). eauto. }
  split.
  - apply NoDup_bind; [| |done].
    + intros a1 a2 b Ha1 Ha2 Hb1 Hb2.
      assert (Hdel : ∀ a, a ∈ A → b ∈ [<[v:=false]> a; <[v:=true]> a] → delete v b = a).
      { intros a Ha Hb. rewrite !elem_of_cons, elem_of_nil in Hb.
        destruct Hb as [->|[->|[]]]; apply delete_insert_id; by apply Hfresh. }
      by rewrite <- (Hdel a1 Ha1 Hb1), <- (Hdel a2 Ha2 Hb2).
    + intros a Ha. apply NoDup_cons. split; [|apply NoDup_singleton].
      intros Heq%list_elem_of_singleton. apply (f_equal (λ m, m !! v)) in Heq.
      by rewrite !lookup_insert_eq in Heq.
  - intros b. rewrite list_elem_of_bind. split.
    + intros (a & Hb & Ha) u. rewrite elem_of_app, list_elem_of_singleton, <- (Hdom a Ha u).
      rewrite !elem_of_cons, elem_of_nil in Hb.
      destruct Hb as [->|[->|[]]]; rewrite lookup_insert; case_decide; subst;
        split; eauto; intros [?|?]; try done; by rewrite Hfresh in * by done.
    + intros Hb. assert (is_Some (b !! v)) as [x Hx].
      { apply Hb, elem_of_app. right. apply list_elem_of_here. }
      exists (delete v b). split.
      * rewrite <- (insert_delete_id b v x Hx) at 1.
        destruct x; rewrite !elem_of_cons; auto.
      * apply Hin. intros u. rewrite lookup_delete. case_decide as Hu.
        -- subst u. split; [by intros [? ?]|done].
        -- rewrite (Hb u), elem_of_app, list_elem_of_singleton. split; [|by left].
           intros [?|?]; [done|congruence].
Qed.

Lemma slice_loop_enumerates (cnf : Cnf) (k : Z) (varOrder : list Z) :
  ∀ (assignedVars : Z) (A : list (gmap Z bool)) (D : list Z),
    NoDup varOrder → (∀ v, v ∈ D → v ∉ varOrder) → assignedVars = Z.of_nat (length D) →
    enumerates (match A with [] => [∅] | _ => A end) D →
    enumerates
      (match slice_loop cnf k varOrder assignedVars A with
       | [] => [∅]
       | R => R
       end)
      (D ++ take (Z.to_nat (k - assignedVars))
                 (filter (λ v, v ∈ additiveVars cnf) varOrder)).
Proof.
  induction varOrder as [|v varOrder IH]; intros assigned A D Hnd Hdisj Hlen HA.
  - cbn [slice_loop]. rewrite filter_nil, take_nil, app_nil_r. by destruct A.
  - apply NoDup_cons in Hnd as [Hv Hnd]. cbn [slice_loop]. rewrite filter_cons.
    case_bool_decide as Hlt.
    + destruct (set_contains (additiveVars cnf) v) eqn:Eadd.
      * apply set_contains_true in Eadd. rewrite decide_True by done.
        replace (Z.to_nat (k - assigned)) with (S (Z.to_nat (k - (assigned + 1)))) by lia.
        cbn [take]. replace (D ++ v :: take (Z.to_nat (k - (assigned + 1)))
                                       (filter (λ v0, v0 ∈ additiveVars cnf) varOrder))
          with ((D ++ [v]) ++ take (Z.to_nat (k - (assigned + 1)))
                                   (filter (λ v0, v0 ∈ additiveVars cnf) varOrder))
          by (rewrite <- app_assoc; done).
        apply IH; [done| | |].
        -- intros u [Hu|Hu%list_elem_of_singleton]%elem_of_app; [|by subst u].
           intros Hin. apply (Hdisj u Hu). by apply list_elem_of_further.
        -- rewrite length_app. simpl. lia.
        -- assert (Hext : extendAssignments A v
                          = extendAssignments (match A with [] => [∅] | _ => A end) v)
             by (destruct A; [by rewrite extendAssignments_cons|done]).
           assert (Hne : match A with [] => [∅] | _ => A end ≠ []) by by destruct A.
           assert (Hnew : v ∉ D).
           { intros Hin. apply (Hdisj v Hin). apply list_elem_of_here. }
           pose proof (enumerates_extend _ D v Hne HA Hnew) as Henum.
           rewrite <- Hext in Henum.
           pose proof (extendAssignments_length v A) as Hl.
           destruct (extendAssignments A v) eqn:E; [simpl in Hl; lia|done].
      * apply set_contains_false in Eadd. rewrite decide_False by done.
        apply IH; [done| |done..].
        intros u Hu Hin. apply (Hdisj u Hu). by apply list_elem_of_further.
    + replace (Z.to_nat (k - assigned)) with 0%nat by lia. rewrite take_0, app_nil_r.
      by destruct A.
Qed.

(** X25. When the variable order has no variable twice and [k > 0], the
    slices of [getAdditiveAssignments] are the assignments of the first [k]
    additive variables of the order (of all of them when there are fewer),
    each assignment exactly once; provided there is such a variable. *)
Theorem getAdditiveAssignments_exhaustive (cnf : Cnf) (terminalCount : Z) (node : JoinNode)
    (h k : Z) (varOrder : list Z) :
  0 < k → getVarOrder cnf terminalCount node h = Ret varOrder → NoDup varOrder →
  take (Z.to_nat k) (filter (λ v, v ∈ additiveVars cnf) varOrder) ≠ [] →
  ∃ A, getAdditiveAssignments cnf terminalCount node h k = Ret A
       ∧ enumerates A (take (Z.to_nat k) (filter (λ v, v ∈ additiveVars cnf) varOrder)).
Proof.
  intros Hk Hord Hnd Hne. unfold getAdditiveAssignments.
  rewrite bool_decide_eq_false_2 by lia. rewrite Hord. simpl.
  eexists. split; [done|].
  pose proof (slice_loop_enumerates cnf k varOrder 0 [] [] Hnd) as Henum.
  rewrite Z.sub_0_r in Henum. simpl in Henum.
  specialize (Henum ltac:(by intros v ?%elem_of_nil) eq_refl enumerates_empty).
  destruct (slice_loop cnf k varOrder 0 []) as [|a R] eqn:E; [|done].
  exfalso. destruct Henum as [_ Hin].
  destruct (take (Z.to_nat k) (filter (λ v, v ∈ additiveVars cnf) varOrder)) as [|v D];
    [done|].
  assert (is_Some ((∅ : gmap Z bool) !! v)) as [? Hx].
  { apply (Hin ∅); [apply list_elem_of_here|]. apply list_elem_of_here. }
  by rewrite lookup_empty in Hx.
Qed.

(** ** A clause line *)

Lemma digits_go_first (s : string) (n : Z) :
  digits_go 0 false s = Some n → ∃ c rest, s = String c rest ∧ is_Some (digit_of c).
Proof.
  destruct s as [|c rest]; simpl; [done|].
  destruct (digit_of c) eqn:E; [|done]. intros _. exists c, rest. split; [done|eauto].
Qed.

(** What [stoll] accepts begins with white space, a sign or a digit. *)
Lemma stoll_first (w : string) (l : Z) :
  stoll w = Ret l →
  ∃ c rest, w = String c rest
            ∧ (util.isspace c = true ∨ c = "-"%char ∨ c = "+"%char ∨ is_Some (digit_of c)).
Proof.
  unfold stoll, sto. destruct w as [|c rest]; [done|]. intros Hrun.
  exists c, rest. split; [done|].
  destruct (util.isspace c) eqn:Esp; [by left|]. right.
  cbn [skip_space] in Hrun. rewrite Esp in Hrun.
  destruct (decide (c = "-"%char)) as [->|Hm]; [by left|].
  destruct (decide (c = "+"%char)) as [->|Hp]; [by right; left|]. right. right.
  assert (Hbody : ∃ n, digits_go 0 false (String c rest) = Some n).
  { destruct c as [[] [] [] [] [] [] [] []]; try done;
      destruct (digits_go 0 false _) eqn:E; eauto; done. }
  destruct Hbody as [n Hn]. apply digits_go_first in Hn as (c' & rest' & [= <- <-] & Hd). done.
Qed.

Lemma number_word (w : string) (l : Z) :
  stoll w = Ret l →
  str_eqb w "p" = false ∧ str_eqb w "*" = false ∧ str_eqb w "x" = false
  ∧ bool_decide (w ∈ ["w"; "vp"; "c"; "vm"]) = false
  ∧ bool_decide (w ∈ ["s"; "INDETERMINATE"]) = false
  ∧ starts_with w "c" = false ∧ starts_with w "*" = false
  ∧ starts_with w "soft" = false ∧ starts_with w "[" = false
  ∧ starts_with w "x" = false.
Proof.
  intros (c & rest & -> & Hc)%stoll_first.
  assert (Hne : ∀ c0 : ascii,
            util.isspace c0 = false → c0 ≠ "-"%char → c0 ≠ "+"%char → digit_of c0 = None →
            c ≠ c0).
  { intros c0 Hsp Hm Hp Hd ->. destruct Hc as [?|[?|[?|[? ?]]]]; congruence. }
  assert (Hp : c ≠ "p"%char) by by apply Hne.
  assert (Hs : c ≠ "*"%char) by by apply Hne.
  assert (Hx : c ≠ "x"%char) by by apply Hne.
  assert (Hw : c ≠ "w"%char) by by apply Hne.
  assert (Hv : c ≠ "v"%char) by by apply Hne.
  assert (Hcc : c ≠ "c"%char) by by apply Hne.
  assert (Hss : c ≠ "s"%char) by by apply Hne.
  assert (Hi : c ≠ "I"%char) by by apply Hne.
  assert (Hb : c ≠ "["%char) by by apply Hne.
  unfold str_eqb. split_and!.
  - apply bool_decide_eq_false_2. by intros [= ->].
  - apply bool_decide_eq_false_2. by intros [= ->].
  - apply bool_decide_eq_false_2. by intros [= ->].
  - apply bool_decide_eq_false_2. rewrite !elem_of_cons, elem_of_nil.
    intros [[= ->]|[[= ->]|[[= ->]|[[= ->]|[]]]]]; done.
  - apply bool_decide_eq_false_2. rewrite !elem_of_cons, elem_of_nil.
    intros [[= ->]|[[= ->]|[]]]; done.
  - simpl. by rewrite bool_decide_eq_false_2 by congruence.
  - simpl. by rewrite bool_decide_eq_false_2 by congruence.
  - simpl. by rewrite bool_decide_eq_false_2 by congruence.
  - simpl. by rewrite bool_decide_eq_false_2 by congruence.
  - simpl. by rewrite bool_decide_eq_false_2 by congruence.
Qed.

Lemma vec_at_middle {A} (pre : list A) (x : A) (post : list A) :
  vec_at (pre ++ x :: post) (vec_size pre) = Ret x.
Proof.
  unfold vec_at, vec_size. rewrite bool_decide_eq_true_2 by lia.
  by rewrite Nat2Z.id, list_lookup_middle.
Qed.

Lemma clause_loop (i : Z) (line : string) (weight : spec_float) (st : ParseState)
    (world : World) (lits : list Z) :
  wcnfFlag st = false → 0 ≤ declaredVarCount (this st) →
  Forall (literal_ok (declaredVarCount (this st))) lits →
  ∀ (pre ws : list string) (clause : list Z),
    Forall2 (λ w l, stoll w = Ret l) ws (lits ++ [0]) →
    clause ≠ [] ∨ lits ≠ [] →
    pm_foldl (clause_word true i line (pre ++ ws)) ("c"%char, weight, clause, st)
             (seqZ (vec_size pre) (vec_size ws)) world
    = (Ret ("c"%char, weight, foldl (λ clause l, set_insert l clause) clause lits,
            add_parsed_clause (foldl (λ clause l, set_insert l clause) clause lits)
                              "c"%char weight st),
       world).
Proof.
  intros Hwcnf Hn Hlits. induction lits as [|l lits IH]; intros pre ws clause Hws Hne.
  - destruct ws as [|w0 ws]; [by apply Forall2_nil_cons_inv in Hws|].
    apply Forall2_cons_1 in Hws as [Hw0 Hws]. apply Forall2_nil_inv_r in Hws as ->.
    unfold vec_size at 2. simpl length. rewrite seqZ_succ. simpl seqZ. cbn [pm_foldl].
    unfold pm_bind at 1. unfold clause_word at 1.
    destruct (number_word w0 0 Hw0) as (_ & _ & Hx & _).
    unfold pm_bind, lift. rewrite vec_at_middle, Hx, Hwcnf, Hw0. cbn [andb].
    rewrite (bool_decide_eq_false_2 (0 > _)) by lia.
    rewrite (bool_decide_eq_false_2 (0 < _)) by lia. cbn [orb].
    rewrite (bool_decide_eq_true_2 (0 = 0)) by done.
    rewrite (bool_decide_eq_false_2 (vec_size pre ≠ _))
      by (unfold vec_size; rewrite length_app; simpl; lia).
    destruct Hne as [Hne|?]; [|done].
    rewrite (bool_decide_eq_false_2 (clause = [])) by done. done.
  - destruct ws as [|w0 ws]; [by apply Forall2_nil_cons_inv in Hws|].
    simpl in Hws. apply Forall2_cons_1 in Hws as [Hw0 Hws].
    apply Forall_cons_1 in Hlits as [[Hl0 Hl] Hlits].
    assert (ws ≠ []) as Hws_ne.
    { intros ->. apply Forall2_nil_inv_l in Hws. by destruct lits. }
    unfold vec_size at 2. simpl length. rewrite seqZ_succ. cbn [pm_foldl].
    unfold pm_bind at 1. unfold clause_word at 1.
    destruct (number_word w0 l Hw0) as (_ & _ & Hx & _).
    unfold pm_bind, lift. rewrite vec_at_middle, Hx, Hwcnf, Hw0.
    cbn [andb]. cbn beta iota.
    rewrite (bool_decide_eq_false_2 (l > _)) by lia.
    rewrite (bool_decide_eq_false_2 (l < _)) by lia. cbn [orb].
    rewrite (bool_decide_eq_false_2 (l = 0)) by done.
    rewrite (bool_decide_eq_false_2 (vec_size pre = _)).
    2:{ unfold vec_size. rewrite length_app. simpl. destruct ws; [done|]. simpl. lia. }
    specialize (IH Hlits (pre ++ [w0]) ws (set_insert l clause) Hws).
    rewrite <- app_assoc in IH. simpl in IH.
    replace (vec_size (pre ++ [w0])) with (vec_size pre + 1) in IH
      by (unfold vec_size; rewrite length_app; simpl; lia).
    simpl foldl. apply IH. left. unfold set_insert.
    destruct (set_contains clause l) eqn:E.
    + apply set_contains_true in E. intros ->. by apply elem_of_nil in E.
    + by destruct clause.
Qed.

Lemma clause_line_run (i : Z) (line : string) (st : ParseState) (world : World)
    (lits : list Z) :
  problemLineIndex st ≠ MIN_INT → hwcnfFlag st = false → wcnfFlag st = false →
  lits ≠ [] → Forall (literal_ok (declaredVarCount (this st))) lits →
  Forall2 (λ w l, stoll w = Ret l) (util.splitInputLine line) (lits ++ [0]) →
  parse_line i line st world
  = (Ret (add_parsed_clause (foldl (λ clause l, set_insert l clause) [] lits)
                            "c"%char (double_of_Int 1) st),
     world).
Proof.
  intros Hpl Hh Hw Hne Hlits Hwords.
  assert (Hn : 0 ≤ declaredVarCount (this st)).
  { destruct lits as [|l lits]; [done|]. apply Forall_cons_1 in Hlits as [[? ?] _]. lia. }
  pose proof (clause_loop i line (double_of_Int 1) st world lits Hw Hn Hlits []
                (util.splitInputLine line) [] Hwords (or_intror Hne)) as Hloop.
  unfold parse_line. cbv zeta. revert Hwords Hloop.
  destruct (util.splitInputLine line) as [|front rest]; intros Hwords Hloop;
    [apply Forall2_nil_inv_l in Hwords; by destruct lits|].
  destruct rest as [|w1 rest].
  { apply Forall2_cons_inv_l in Hwords as (l0 & ls & _ & Hrest & Heq).
    apply Forall2_nil_inv_l in Hrest as ->. by destruct lits as [|? [|? ?]]. }
  assert (∃ l0, stoll front = Ret l0) as [l0 Hfront].
  { apply Forall2_cons_inv_l in Hwords as (l0 & ls & ? & _). eauto. }
  assert (∃ l1, stoll w1 = Ret l1) as [l1 Hw1].
  { apply Forall2_cons_inv_l in Hwords as (? & ls & _ & Hrest & _).
    apply Forall2_cons_inv_l in Hrest as (l1 & ? & ? & _). eauto. }
  destruct (number_word front l0 Hfront)
    as (Hp & Hstar & _ & Hset1 & Hset2 & Hc & Hst & Hsoft & Hbr & _).
  destruct (number_word w1 l1 Hw1) as (_ & _ & _ & _ & _ & _ & _ & _ & _ & Hx1).
  rewrite Hp, Hstar. unfold pm_bind, lift. cbn beta iota.
  rewrite Hset1, Hset2, Hc, Hst, Hsoft. cbn [negb andb].
  unfold parse_constraint_line.
  rewrite (bool_decide_eq_false_2 (problemLineIndex st = MIN_INT)) by done. rewrite Hh.
  cbv zeta. unfold pm_bind, lift. cbn [vec_at]. cbn beta iota.
  change (vec_at (front :: w1 :: rest) 0) with (Ret front).
  change (vec_at (front :: w1 :: rest) 1) with (Ret w1).
  cbn beta iota. rewrite Hbr, Hx1.
  unfold parse_clause_words, pm_bind, lift.
  change (vec_size (@nil string)) with 0 in Hloop. simpl app in Hloop.
  rewrite Hloop. done.
Qed.

(** X26. In a file that is not a (hybrid) weighted MaxSAT file, after the
    problem line: a line whose words [stoll] reads as the literals [lits]
    (not empty, each other than 0 and within the declared variables)
    followed by 0 is a clause line.  It makes one call of [addClause], with
    type ['c'], weight 1 and a clause that holds exactly these literals,
    each once, and counts the clause; nothing is printed and no global is
    changed. *)
Theorem clause_line_parsed (i : Z) (line : string) (st : ParseState) (world : World)
    (lits : list Z) :
  problemLineIndex st ≠ MIN_INT → hwcnfFlag st = false → wcnfFlag st = false →
  lits ≠ [] → Forall (literal_ok (declaredVarCount (this st))) lits →
  Forall2 (λ w l, stoll w = Ret l) (util.splitInputLine line) (lits ++ [0]) →
  ∃ clause st',
    parse_line i line st world = (Ret st', world)
    ∧ NoDup clause ∧ (∀ l, l ∈ clause ↔ l ∈ lits)
    ∧ st' = add_parsed_clause clause "c"%char (double_of_Int 1) st
    ∧ clauses (this st') = clauses (this st) ++ [clause]
    ∧ types (this st') = types (this st) ++ ["c"%char]
    ∧ weights (this st') = weights (this st) ++ [double_of_Int 1]
    ∧ processedClauseCount st' = processedClauseCount st + 1.
Proof.
  intros Hpl Hh Hw Hne Hlits Hwords.
  exists (foldl (λ clause l, set_insert l clause) [] lits). eexists.
  split; [by apply clause_line_run|].
  split; [apply (foldl_set_insert_NoDup_gen (λ l, l)), NoDup_nil_2|].
  split; [|done].
  intros l. rewrite (foldl_set_insert_elem (λ l, l)), elem_of_nil. split.
  - intros [[]|(x & Hx & ->)]. done.
  - intros Hl. right. by exists l.
Qed.

(** ** JoinNode::updateVarSizes *)

Lemma updateVarSizes_unfold (cnf : Cnf) (node : JoinNode) (varSizes : list (Z * Z)) :
  updateVarSizes cnf node varSizes
  = match node with
    | JoinTerminal nodeIndex _ _ =>
        let* clause := vec_at (clauses cnf) nodeIndex in
        Ret (foldl (bump_size (vec_size (getClauseVars clause))) varSizes
                   (getClauseVars clause))
    | JoinNonterminal _ preProjectionVars _ children =>
        foldlM (λ varSizes child, updateVarSizes cnf child varSizes)
               (foldl (bump_size (vec_size preProjectionVars)) varSizes preProjectionVars)
               children
    end.
Proof.
  destruct node as [i pre proj|i pre proj children]; [done|]. simpl.
  generalize (foldl (bump_size (vec_size pre)) varSizes pre).
  induction children as [|c cs IH]; intros vs; simpl; [done|].
  destruct (updateVarSizes cnf c vs); simpl; [apply IH|done].
Qed.

Lemma map_find_bump (n : Z) (vars : list Z) (varSizes : list (Z * Z)) (v : Z) :
  map_find (foldl (bump_size n) varSizes vars) v
  = if bool_decide (v ∈ vars) then Some (Z.max (size_of varSizes v) n)
    else map_find varSizes v.
Proof.
  revert varSizes. induction vars as [|x vars IH]; intros vs; cbn [foldl].
  - by rewrite bool_decide_eq_false_2 by apply not_elem_of_nil.
  - rewrite IH. unfold size_of, bump_size. rewrite map_find_assign.
    destruct (decide (v ∈ vars)) as [Hin|Hout].
    + rewrite (bool_decide_eq_true_2 (v ∈ vars)) by done.
      rewrite (bool_decide_eq_true_2 (v ∈ x :: vars)) by by right.
      destruct (decide (x = v)) as [->|Hne].
      * rewrite (bool_decide_eq_true_2 (v = v)) by done. simpl. f_equal. lia.
      * by rewrite (bool_decide_eq_false_2 (x = v)) by done.
    + rewrite (bool_decide_eq_false_2 (v ∈ vars)) by done.
      destruct (decide (x = v)) as [->|Hne].
      * rewrite (bool_decide_eq_true_2 (v = v)) by done.
        by rewrite (bool_decide_eq_true_2 (v ∈ v :: vars)) by by left.
      * rewrite (bool_decide_eq_false_2 (x = v)) by done.
        rewrite (bool_decide_eq_false_2 (v ∈ x :: vars)); [done|].
        intros [?|?]%elem_of_cons; congruence.
Qed.

Lemma sizes_updated_nil (cnf : Cnf) (varSizes : list (Z * Z)) :
  sizes_updated cnf [] varSizes varSizes.
Proof.
  unfold sizes_updated. split_and!.
  - intros v. split; [by left|]. intros [?|(n & Hn & _)]; [done|]. by apply elem_of_nil in Hn.
  - intros v. lia.
  - intros v n Hn. by apply elem_of_nil in Hn.
  - intros v. by left.
Qed.

Lemma sizes_updated_app (cnf : Cnf) (ns1 ns2 : list JoinNode) (vs vs1 vs2 : list (Z * Z)) :
  sizes_updated cnf ns1 vs vs1 → sizes_updated cnf ns2 vs1 vs2 →
  sizes_updated cnf (ns1 ++ ns2) vs vs2.
Proof.
  intros (Hk1 & Hm1 & Hu1 & Ha1) (Hk2 & Hm2 & Hu2 & Ha2). unfold sizes_updated. split_and!.
  - intros v. rewrite Hk2, Hk1. split.
    + intros [[?|(n & Hn & Hv)]|(n & Hn & Hv)]; [by left|right..];
        exists n; (split; [|done]); apply elem_of_app; [by left|by right].
    + intros [?|(n & [Hn|Hn]%elem_of_app & Hv)]; [by left; left| |].
      * left. right. by exists n.
      * right. by exists n.
  - intros v. specialize (Hm1 v). specialize (Hm2 v). lia.
  - intros v n [Hn|Hn]%elem_of_app Hv.
    + specialize (Hu1 v n Hn Hv). specialize (Hm2 v). lia.
    + by apply Hu2.
  - intros v. destruct (Ha2 v) as [E2|(n & Hn & Hv & E2)].
    + destruct (Ha1 v) as [E1|(n & Hn & Hv & E1)].
      * left. congruence.
      * right. exists n. split; [apply elem_of_app; by left|]. split; [done|congruence].
    + right. exists n. split; [apply elem_of_app; by right|]. by split.
Qed.

Lemma sizes_updated_own (cnf : Cnf) (node : JoinNode) (varSizes : list (Z * Z)) :
  sizes_updated cnf [node] varSizes
    (foldl (bump_size (vec_size (sized_vars cnf node))) varSizes (sized_vars cnf node)).
Proof.
  set (vars := sized_vars cnf node).
  assert (Hsize : ∀ v, size_of (foldl (bump_size (vec_size vars)) varSizes vars) v
                       = if bool_decide (v ∈ vars)
                         then Z.max (size_of varSizes v) (vec_size vars)
                         else size_of varSizes v).
  { intros v. unfold size_of at 1. rewrite map_find_bump. by case_bool_decide. }
  unfold sizes_updated. split_and!.
  - intros v. rewrite map_find_bump. case_bool_decide as Hv.
    + split; [|by eauto]. intros _. right. exists node. split; [apply list_elem_of_here|done].
    + split; [by left|]. intros [?|(n & Hn%list_elem_of_singleton & Hin)]; [done|].
      by subst n.
  - intros v. rewrite Hsize. case_bool_decide; lia.
  - intros v n Hn%list_elem_of_singleton Hv. subst n. fold vars in Hv |- *.
    rewrite Hsize, bool_decide_eq_true_2 by done. lia.
  - intros v. rewrite Hsize. case_bool_decide as Hv; [|by left].
    destruct (Z.max_spec (size_of varSizes v) (vec_size vars)) as [[_ ->]|[_ ->]].
    + right. exists node. split; [apply list_elem_of_here|]. by split.
    + by left.
Qed.

Lemma terminals_in_range_children (cnf : Cnf) (i : Z) (pre proj : list Z)
    (children : list JoinNode) :
  terminals_in_range cnf (JoinNonterminal i pre proj children)
  ↔ Forall (terminals_in_range cnf) children.
Proof.
  unfold terminals_in_range. simpl. rewrite Forall_cons. simpl.
  rewrite !Forall_forall. split.
  - intros [_ Hall] c Hc. apply Forall_forall. intros n Hn. apply Hall.
    apply elem_of_flat_map. by exists c.
  - intros Hall. split; [done|]. intros n (c & Hc & Hn)%elem_of_flat_map.
    specialize (Hall c Hc). rewrite Forall_forall in Hall. by apply Hall.
Qed.

Lemma updateVarSizes_returns (cnf : Cnf) (node : JoinNode) :
  terminals_in_range cnf node →
  ∀ varSizes, ∃ varSizes', updateVarSizes cnf node varSizes = Ret varSizes'
                           ∧ sizes_updated cnf (subnodes node) varSizes varSizes'.
Proof.
  induction node as [i pre proj|i pre proj children IH] using JoinNode_children_ind;
    intros Hrange vs; rewrite updateVarSizes_unfold.
  - unfold terminals_in_range in Hrange. simpl in Hrange.
    apply Forall_cons_1 in Hrange as [Hi _]. specialize (Hi eq_refl). simpl in Hi.
    pose proof (sizes_updated_own cnf (JoinTerminal i pre proj) vs) as Hown.
    unfold sized_vars in Hown. unfold vec_at in *.
    rewrite bool_decide_eq_true_2 in * by lia.
    destruct (clauses cnf !! Z.to_nat i) as [clause|] eqn:E.
    + simpl. eexists. split; [done|]. exact Hown.
    + apply lookup_ge_None in E. unfold vec_size in Hi. lia.
  - apply terminals_in_range_children in Hrange.
    pose proof (sizes_updated_own cnf (JoinNonterminal i pre proj children) vs) as Hown.
    simpl sized_vars in Hown. simpl subnodes.
    revert Hown. generalize (foldl (bump_size (vec_size pre)) vs pre). intros vs0 Hown.
    change (JoinNonterminal i pre proj children :: flat_map subnodes children)
      with ([JoinNonterminal i pre proj children] ++ flat_map subnodes children).
    revert Hown. generalize [JoinNonterminal i pre proj children]. revert vs0.
    induction children as [|c cs IHcs]; intros vs0 seen Hown; simpl.
    + eexists. split; [done|]. by rewrite app_nil_r.
    + apply Forall_cons_1 in IH as [IHc IH]. apply Forall_cons_1 in Hrange as [Hc Hrange].
      destruct (IHc Hc vs0) as (vs1 & -> & Hup1). simpl.
      destruct (IHcs IH Hrange vs1 (seen ++ subnodes c)) as (vs2 & E2 & Hup2).
      { by apply (sizes_updated_app cnf seen (subnodes c) vs vs0 vs1). }
      exists vs2. split; [done|]. by rewrite <- app_assoc in Hup2.
Qed.

Lemma updateVarSizes_throws (cnf : Cnf) (node : JoinNode) :
  ∀ varSizes,
    match updateVarSizes cnf node varSizes with
    | Ret _ => terminals_in_range cnf node
    | Throw e => e = StdException out_of_range
    end.
Proof.
  induction node as [i pre proj|i pre proj children IH] using JoinNode_children_ind;
    intros vs; rewrite updateVarSizes_unfold.
  - unfold vec_at. case_bool_decide as Hi; [|done].
    destruct (clauses cnf !! Z.to_nat i) as [clause|] eqn:E; simpl; [|done].
    unfold terminals_in_range. simpl. apply Forall_cons. split; [|done].
    intros _. simpl. apply lookup_lt_Some in E. unfold vec_size. lia.
  - generalize (foldl (bump_size (vec_size pre)) vs pre). intros vs0.
    assert (Hloop : match foldlM (λ varSizes child, updateVarSizes cnf child varSizes)
                            vs0 children with
                    | Ret _ => Forall (terminals_in_range cnf) children
                    | Throw e => e = StdException out_of_range
                    end).
    { revert vs0. induction children as [|c cs IHcs]; intros vs0; simpl; [done|].
      apply Forall_cons_1 in IH as [IHc IH]. specialize (IHc vs0).
      destruct (updateVarSizes cnf c vs0) as [vs1|e]; simpl; [|done].
      specialize (IHcs IH vs1).
      destruct (foldlM _ vs1 cs); [|done]. by apply Forall_cons. }
    destruct (foldlM _ vs0 children); [|done]. by apply terminals_in_range_children.
Qed.

(** X27. [updateVarSizes] returns exactly when every [JoinTerminal] of the
    subtree has the index of a clause, and throws [std::out_of_range]
    otherwise.  When it returns, the map holds its old variables and the
    variables of the nodes of the subtree (of its clause for a
    [JoinTerminal], the [preProjectionVars] for a [JoinNonterminal]); no
    size has gone down; and the size of a variable is the greatest among
    its old size and the sizes of the nodes that hold it. *)
Theorem updateVarSizes_spec (cnf : Cnf) (node : JoinNode) (varSizes : list (Z * Z)) :
  (terminals_in_range cnf node ↔ ∃ varSizes', updateVarSizes cnf node varSizes = Ret varSizes')
  ∧ (¬ terminals_in_range cnf node →
       updateVarSizes cnf node varSizes = Throw (StdException out_of_range))
  ∧ (∀ varSizes', updateVarSizes cnf node varSizes = Ret varSizes' →
       sizes_updated cnf (subnodes node) varSizes varSizes').
Proof.
  pose proof (updateVarSizes_throws cnf node varSizes) as Hthrows.
  split_and!.
  - split.
    + intros Hrange. destruct (updateVarSizes_returns cnf node Hrange varSizes) as (vs & E & _).
      by exists vs.
    + intros [vs E]. by rewrite E in Hthrows.
  - intros Hnot. destruct (updateVarSizes cnf node varSizes) as [vs|e]; [done|by subst e].
  - intros vs' E. rewrite E in Hthrows.
    destruct (updateVarSizes_returns cnf node Hthrows varSizes) as (vs & E' & Hup).
    rewrite E in E'. by injection E' as <-.
Qed.

(** ** Cnf::getDeclaredVarOrder *)

Lemma seqZ_ordered (k : Z) (n : nat) : ordered Z.lt (seqZ k (Z.of_nat n)).
Proof.
  revert k. induction n as [|n IH]; intros k; [done|].
  rewrite seqZ_succ. split; [|apply IH]. intros y Hy%elem_of_seqZ. lia.
Qed.

Lemma ordered_filter {A} (R : A → A → Prop) (P : A → Prop) `{∀ x, Decision (P x)}
    (l : list A) :
  ordered R l → ordered R (filter P l).
Proof.
  induction l as [|x l IH]; [done|]. intros [Hx Hl]. rewrite filter_cons.
  destruct (decide (P x)); [|by apply IH]. split; [|by apply IH].
  intros y Hy%list_elem_of_filter. apply Hx, Hy.
Qed.

(** X28. The DECLARED order is strictly increasing, and it holds exactly
    the apparent variables among [1..declaredVarCount]: an apparent variable
    above the declared count is left out. *)
Theorem getDeclaredVarOrder_increasing (cnf : Cnf) :
  ordered Z.lt (getDeclaredVarOrder cnf)
  ∧ (∀ (i j : nat) u v, (i < j)%nat → getDeclaredVarOrder cnf !! i = Some u →
       getDeclaredVarOrder cnf !! j = Some v → u < v)
  ∧ ∀ v, v ∈ getDeclaredVarOrder cnf ↔ v ∈ apparentVars cnf ∧ 1 ≤ v ≤ declaredVarCount cnf.
Proof.
  assert (Hord : ordered Z.lt (getDeclaredVarOrder cnf)).
  { unfold getDeclaredVarOrder. apply ordered_filter.
    destruct (decide (0 ≤ declaredVarCount cnf)) as [Hn|Hn].
    - rewrite <- (Z2Nat.id (declaredVarCount cnf)) by done. apply seqZ_ordered.
    - unfold seqZ. by rewrite Z2Nat.nonpos by lia. }
  split; [done|]. split.
  - intros i j u v Hij Hi Hj. by apply (ordered_lookup Z.lt _ i j u v Hord).
  - intros v. unfold getDeclaredVarOrder.
    rewrite list_elem_of_filter, set_contains_true, elem_of_seqZ. intuition lia.
Qed.
End Logic.

(* ===================================================================== *)
(** * Part III: the theorems at concrete inputs *)
(* ===================================================================== *)

Local Abbreviation E0 := (refEnv false false false false false).
Local Abbreviation W0 := {| minMaxsatSolving := false; cout := [] |}.

(** The [Cnf] that the constructor builds from [lines], when it builds
    one. *)
Local Abbreviation parsed E lines :=
  (match (Cnf_ctor (H:=E) lines W0).1 with Ret cnf => cnf | Throw _ => Cnf_empty (H:=E) end).

Lemma refEnv_lib_ok (wc pc ms mp lc : bool) : lib_ok (H:=refEnv wc pc ms mp lc).
Proof.
  intros s. unfold no_ece. simpl. unfold ref_strtod, ref_mpq_of_mpf, ref_mpq.
  split_and!.
  - destruct (decimal s) as [[n k]|]; intros [=].
  - destruct (decimal s) as [[n k]|]; intros [=].
  - destruct (str_find "/" s) as [i|].
    + destruct (sto 4096 (String.substring 0 i s)); [|intros [=]].
      destruct (sto 4096 _); [|intros [=]]. case_bool_decide; intros [=].
    + pose proof (no_ece_sto 4096 s) as Hs. destruct (sto 4096 s); [intros [=]|simpl; intros [= ->]; by apply Hs].
  - destruct (decimal s) as [[n k]|]; intros [=].
Qed.

(** *** C1 *)

(** C1 fails for a zero coefficient: the PB constraint [0 x1 >= 0] is parsed
    and canonicalized, and its coefficient stays 0, which is not strictly
    positive. *)
Lemma PB_canonicalize_zero_coefficient :
  ∃ cnf world,
    Cnf_ctor (H:=E0) ["p cnf 1 1"; "0 x1 >= 0 0"] W0 = (Ret cnf, world)
    ∧ ∃ coefs, coefLists cnf = [coefs] ∧ coefs !! 1 = Some 0
               ∧ ¬ (∀ l c, coefs !! l = Some c → 0 < c).
Proof.
  eexists _, _. split; [vm_compute; reflexivity|].
  eexists. split; [reflexivity|]. split; [reflexivity|].
  intros Hpos. specialize (Hpos 1 0 eq_refl). lia.
Qed.

Lemma pb_wf_example : pb_wf [1; 2] (<[1:=3]> (<[2:=-2]> ∅)) 1 3.
Proof.
  split_and!.
  - apply (bool_decide_unpack _). by vm_compute.
  - intros v Hv. rewrite !elem_of_cons, elem_of_nil in Hv. lia.
  - intros v. rewrite !elem_of_cons, elem_of_nil.
    destruct (decide (v = 1)) as [->|H1];
      [rewrite lookup_insert_eq; split; [eauto|intros _; by left]|].
    rewrite lookup_insert_ne by done.
    destruct (decide (v = 2)) as [->|H2];
      [rewrite lookup_insert_eq; split; [eauto|intros _; right; by left]|].
    rewrite lookup_insert_ne, lookup_empty by done.
    split; [tauto|]. by intros [? ?].
  - intros v c.
    destruct (decide (v = 1)) as [->|H1]; [rewrite lookup_insert_eq; intros [= <-]; lia|].
    rewrite lookup_insert_ne by done.
    destruct (decide (v = 2)) as [->|H2]; [rewrite lookup_insert_eq; intros [= <-]; lia|].
    by rewrite lookup_insert_ne, lookup_empty.
  - lia.
  - lia.
  - by right; right.
Qed.

Lemma PB_canonicalize_spec_witness :
  pb_wf [1; 2] (<[1:=3]> (<[2:=-2]> ∅)) 1 3
  ∧ ∀ x, pb_sat x (PB_canonicalize [1; 2] (<[1:=3]> (<[2:=-2]> ∅)) 1 3)
         = pb_sat x ([1; 2], <[1:=3]> (<[2:=-2]> ∅), 1, 3).
Proof.
  split; [exact pb_wf_example|].
  destruct (PB_canonicalize [1; 2] (<[1:=3]> (<[2:=-2]> ∅)) 1 3)
    as [[[clause' coefs'] k'] comparator'] eqn:E.
  apply (PB_canonicalize_spec _ _ _ _ _ _ _ _ pb_wf_example E).
  vm_compute. split; [intros [=]|reflexivity].
Defined.

(** *** C2 *)

(** C2 fails on the empty clause of a wcnf file, the line [1 0] (the
    weight 1, no literal, the terminating 0): the warning is printed and
    [EmptyClauseException] leaves the constructor, so that the line after it
    is not read and no [Cnf] results. *)
Lemma empty_clause_stops_parsing :
  Cnf_ctor (H:=E0) ["p wcnf 1 2"; "1 0"; "1 1 0"] W0
  = (Throw EmptyClauseException, {| minMaxsatSolving := false; cout := [(2, "1 0")] |})
  ∧ ¬ (∃ cnf world, Cnf_ctor (H:=E0) ["p wcnf 1 2"; "1 0"; "1 1 0"] W0 = (Ret cnf, world)).
Proof.
  assert (E : Cnf_ctor (H:=E0) ["p wcnf 1 2"; "1 0"; "1 1 0"] W0
              = (Throw EmptyClauseException,
                 {| minMaxsatSolving := false; cout := [(2, "1 0")] |}))
    by (vm_compute; reflexivity).
  split; [exact E|]. intros (cnf & world & E'). rewrite E in E'. discriminate.
Qed.

(** A line that holds the terminating [0] only does not reach the test for
    an empty clause: the parser reads [words.at(1)] of the one word, which
    throws [std::out_of_range]; no warning is printed. *)
Lemma bare_zero_line_out_of_range :
  Cnf_ctor (H:=E0) ["p cnf 1 1"; "0"] W0 = (Throw (StdException out_of_range), W0)
  ∧ ¬ (∃ cnf world, Cnf_ctor (H:=E0) ["p cnf 1 1"; "0"] W0 = (Ret cnf, world)).
Proof.
  assert (E : Cnf_ctor (H:=E0) ["p cnf 1 1"; "0"] W0
              = (Throw (StdException out_of_range), W0)) by (vm_compute; reflexivity).
  split; [exact E|]. intros (cnf & world & E'). rewrite E in E'. discriminate.
Qed.

Lemma empty_clause_exception_aborts_witness :
  lib_ok (H:=E0)
  ∧ Cnf_ctor (H:=E0) ["p cnf 1 2"; "x 0"; "1 0"] W0
    = (Throw EmptyClauseException, {| minMaxsatSolving := false; cout := [(2, "x 0")] |}).
Proof.
  split; [apply refEnv_lib_ok|].
  destruct (parse_lines (H:=E0) ["p cnf 1 2"] (ParseState_init (H:=E0)) W0) as [[st|e] w1] eqn:E1;
    [|vm_compute in E1; discriminate].
  assert (Hw1 : w1 = W0) by (vm_compute in E1; congruence).
  assert (Hline : parse_line (H:=E0) (vec_size ["p cnf 1 2"] + 1) "x 0" st w1
                  = (Throw EmptyClauseException,
                     {| minMaxsatSolving := false; cout := [(2, "x 0")] |})).
  { vm_compute in E1. injection E1 as <- <-. vm_compute. reflexivity. }
  exact (proj2 (empty_clause_exception_aborts (H:=E0) ["p cnf 1 2"] ["1 0"] "x 0" st W0 w1 _
                  (refEnv_lib_ok _ _ _ _ _) E1 Hline)).
Defined.

(** *** C3 *)

Lemma literalWeights_complete_witness :
  ∃ cnf world one w3 w7,
    Cnf_ctor (H:=refEnv true false false false false) ["p cnf 1 1"; "w 1 0.3"; "1 0"] W0
    = (Ret cnf, world)
    ∧ Number_of_string (H:=refEnv true false false false false) "1" = Ret one
    ∧ Number_of_string (H:=refEnv true false false false false) "0.3" = Ret w3
    ∧ Number_of_string (H:=refEnv true false false false false) "0.7" = Ret w7
    ∧ literalWeights cnf !! 1 = Some w3
    ∧ literalWeights cnf !! (-1) = Some w7.
Proof.
  destruct (Cnf_ctor (H:=refEnv true false false false false)
              ["p cnf 1 1"; "w 1 0.3"; "1 0"] W0) as [[cnf|e] world] eqn:E;
    [|vm_compute in E; discriminate].
  destruct (literalWeights_complete _ _ _ _ E) as (st & Est & Hn & _ & Hc).
  assert (Hd : declaredVarCount cnf = 1) by (vm_compute in E; by injection E as <- _).
  specialize (Hc 1). rewrite Hd in Hc. specialize (Hc ltac:(lia)).
  assert (Hst : literalWeights (this st) !! 1
                = Some {| quotient := 0%Q;
                          fraction := S754_finite false 11068046444225730970 (-65) |}
                ∧ literalWeights (this st) !! (-1) = None).
  { clear E Hc. vm_compute in Est. injection Est as <- _. split; reflexivity. }
  destruct Hst as [Hp Hm]. unfold completed in Hc. cbn [weightedCounting refEnv Z.opp] in Hc.
  change (Z.opp 1) with (-1) in Hc. rewrite Hp, Hm in Hc. destruct Hc as (one & d & Hone & Hd7 & H1 & H7).
  exists cnf, world, one, {| quotient := 0%Q;
                            fraction := S754_finite false 11068046444225730970 (-65) |}, d.
  split; [done|]. split; [done|]. split; [vm_compute; reflexivity|].
  split; [|split; done].
  vm_compute in Hone. injection Hone as <-. vm_compute in Hd7. injection Hd7 as <-.
  vm_compute. reflexivity.
Defined.

(** *** C4 *)

(** C4 fails for the code 0.  When a heuristic has the code 0 (here
    RANDOM), [- 0] is the same code and [cnfVarOrderHeuristic < 0] is false
    for it: [getCnfVarOrder] returns the same order again, which is not its
    own reverse. *)
Lemma getCnfVarOrder_zero_not_reversed :
  Z.abs 0 ∈ CNF_VAR_ORDER_HEURISTICS (H:=refEnv0)
  ∧ ∃ cnf world varOrder,
      Cnf_ctor (H:=refEnv0) ["p cnf 2 1"; "1 2 0"] W0 = (Ret cnf, world)
      ∧ getCnfVarOrder (H:=refEnv0) cnf 0 = Ret varOrder
      ∧ getCnfVarOrder (H:=refEnv0) cnf (- 0) ≠ Ret (rev varOrder).
Proof.
  split; [apply list_elem_of_here|].
  eexists _, _, _. split; [vm_compute; reflexivity|].
  split; [vm_compute; reflexivity|]. vm_compute. intros [=].
Qed.

(** The parser checks the literals of CNF and XOR clauses against the
    declared variable count, but not the variables of PB constraints.  A PB
    variable above the count is apparent, and the DECLARED order, which runs
    over [1..declaredVarCount], leaves it out. *)
Lemma getCnfVarOrder_declared_drops_variable :
  ∃ cnf world,
    Cnf_ctor (H:=E0) ["p cnf 1 1"; "1 x2 >= 1 0"] W0 = (Ret cnf, world)
    ∧ apparentVars cnf = [2]
    ∧ getCnfVarOrder (H:=E0) cnf (DECLARED (Env:=E0)) = Ret []
    ∧ ¬ ([] ≡ₚ apparentVars cnf).
Proof.
  eexists _, _. split; [vm_compute; reflexivity|].
  split; [reflexivity|]. split; [vm_compute; reflexivity|].
  intros Hp. by apply Permutation_nil_l in Hp.
Qed.

Lemma getCnfVarOrder_permutation_witness :
  Cnf_vars_wf (parsed E0 ["p cnf 4 3"; "1 -2 0"; "-2 3 4 0"; "1 -1 0"])
  ∧ ∃ varOrder,
      getCnfVarOrder (H:=E0) (parsed E0 ["p cnf 4 3"; "1 -2 0"; "-2 3 4 0"; "1 -1 0"])
        (LEXM (Env:=E0)) = Ret varOrder
      ∧ varOrder ≡ₚ apparentVars (parsed E0 ["p cnf 4 3"; "1 -2 0"; "-2 3 4 0"; "1 -1 0"])
      ∧ getCnfVarOrder (H:=E0) (parsed E0 ["p cnf 4 3"; "1 -2 0"; "-2 3 4 0"; "1 -1 0"])
          (- LEXM (Env:=E0)) = Ret (rev varOrder).
Proof.
  assert (Hwf : Cnf_vars_wf (parsed E0 ["p cnf 4 3"; "1 -2 0"; "-2 3 4 0"; "1 -1 0"])).
  { unfold Cnf_vars_wf. apply (bool_decide_unpack _). vm_compute. exact I. }
  split; [exact Hwf|].
  destruct (getCnfVarOrder_permutation (H:=E0)
              (parsed E0 ["p cnf 4 3"; "1 -2 0"; "-2 3 4 0"; "1 -1 0"]) (LEXM (Env:=E0)))
    as (varOrder & E & Hp & Hrev).
  - reflexivity.
  - intros seed l. reflexivity.
  - exact Hwf.
  - vm_compute. repeat first [apply list_elem_of_here | apply list_elem_of_further].
  - discriminate.
  - discriminate.
  - exists varOrder. split; [exact E|]. split; [exact Hp|]. apply Hrev. discriminate.
Defined.

(** *** C5 *)

(** With [k > 0] and no additive variable in the order the loop never runs,
    and the result is the empty list of assignments: not one assignment, as
    [2^0] has it, and not the [[∅]] of [k <= 0].  Here projected counting is
    on and the file has no show line, so that no variable is additive. *)
Lemma getAdditiveAssignments_no_additive :
  getAdditiveAssignments (H:=refEnv false true false false false)
    (parsed (refEnv false true false false false) ["p cnf 1 1"; "1 0"]) 0
    (JoinNonterminal 0 [1] [1] [JoinTerminal 0 [1] []])
    (DECLARED (Env:=refEnv false true false false false)) 1 = Ret []
  ∧ getAdditiveAssignments (H:=refEnv false true false false false)
      (parsed (refEnv false true false false false) ["p cnf 1 1"; "1 0"]) 0
      (JoinNonterminal 0 [1] [1] [JoinTerminal 0 [1] []])
      (DECLARED (Env:=refEnv false true false false false)) 0 = Ret [∅].
Proof. split; vm_compute; reflexivity. Qed.

Lemma getAdditiveAssignments_length_witness :
  ∃ A, getAdditiveAssignments (H:=E0) (parsed E0 ["p cnf 2 1"; "1 2 0"]) 0
         (JoinNonterminal 0 [1; 2] [1; 2] [JoinTerminal 0 [1; 2] []]) (DECLARED (Env:=E0)) 1
       = Ret A
       ∧ length A = 2%nat.
Proof.
  destruct (getAdditiveAssignments_length (H:=E0) (parsed E0 ["p cnf 2 1"; "1 2 0"]) 0
              (JoinNonterminal 0 [1; 2] [1; 2] [JoinTerminal 0 [1; 2] []])
              (DECLARED (Env:=E0)) 1 [1; 2]) as [_ Hpos].
  destruct Hpos as (A & E & Hlen); [reflexivity|vm_compute; reflexivity|].
  exists A. split; [exact E|]. rewrite Hlen. vm_compute. reflexivity.
Defined.

(** *** C6 *)

Lemma chooseClusterIndex_spec_witness :
  ∃ target,
    chooseClusterIndex (H:=E0) (JoinTerminal 0 [1; 2] [1]) 0 [[1]; [3]; [2]] "bet" = Ret target
    ∧ 0 < target ≤ 3
    ∧ (target < 3 → ∃ s, [[1]; [3]; [2]] !! Z.to_nat target = Some s
                        ∧ ¬ disjoint_sets (getPostProjectionVars (JoinTerminal 0 [1; 2] [1])) s).
Proof.
  destruct (chooseClusterIndex_spec (H:=E0) (JoinTerminal 0 [1; 2] [1]) 0 [[1]; [3]; [2]] "bet")
    as [_ Hin]; [discriminate..|].
  destruct Hin as [_ Hmeets]; [vm_compute; split; [intros [=]|reflexivity]|].
  destruct Hmeets as [_ Htree].
  { intros Hall. apply (Hall [2] ltac:(repeat constructor) 2); repeat constructor. }
  destruct Htree as (target & E & Hr & _ & Hm); [by left|].
  exists target. split; [exact E|]. split; [exact Hr|exact Hm].
Defined.

(** *** C8 *)

(** C8 fails for [addEdge(v, v)], which puts [v] among its own
    neighbours. *)
Lemma addEdge_self_loop :
  ∃ g, run_calls [1] [call_addEdge 1 1] = Ret g ∧ isNeighbor g 1 1 = Ret true.
Proof. eexists. split; vm_compute; reflexivity. Qed.

Lemma graph_calls_spec_witness :
  ∃ g, run_calls [1; 2; 3] [call_addEdge 1 2; call_addEdge 2 3; call_removeVertex 2] = Ret g
       ∧ (2 ∉ vertices g)
       ∧ hasPath g 1 1 = Ret true
       ∧ isNeighbor g 1 1 ≠ Ret true.
Proof.
  destruct (run_calls [1; 2; 3] [call_addEdge 1 2; call_addEdge 2 3; call_removeVertex 2])
    as [g|e] eqn:E; [|vm_compute in E; discriminate].
  exists g. split; [reflexivity|].
  destruct (graph_calls_spec _ _ _ E) as (_ & _ & Hrem & Hpath & Hloop).
  split; [|split].
  - apply Hrem. repeat constructor.
  - apply Hpath.
  - apply Hloop. intros v1 v2 Hin.
    rewrite !elem_of_cons, elem_of_nil in Hin.
    destruct Hin as [[= -> ->]|[[= -> ->]|[[=]|[]]]]; discriminate.
Defined.

(** *** C9 *)

Lemma getLogSumExp_spec_witness :
  logCounting (Env:=refEnv false false false false true) = true
  ∧ getLogSumExp (H:=refEnv false false false false true)
      {| quotient := 0; fraction := S754_finite false 3 0 |}
      {| quotient := 0; fraction := SFopp INF |}
    = Ret (S754_finite false 3 0)
  ∧ getLogSumExp (H:=refEnv false false false false true)
      {| quotient := 0; fraction := SFopp INF |}
      {| quotient := 0; fraction := S754_finite false 3 0 |}
    = Ret (S754_finite false 3 0).
Proof.
  split; [reflexivity|]. split.
  - apply (getLogSumExp_spec (H:=refEnv false false false false true)
             {| quotient := 0; fraction := S754_finite false 3 0 |}
             {| quotient := 0; fraction := SFopp INF |} eq_refl).
    reflexivity.
  - apply (getLogSumExp_spec (H:=refEnv false false false false true)
             {| quotient := 0; fraction := SFopp INF |}
             {| quotient := 0; fraction := S754_finite false 3 0 |} eq_refl).
    reflexivity.
Defined.

(** *** C10 *)

Lemma show_line_sets_minMaxsatSolving_witness :
  ∃ st st' world',
    parse_lines (H:=refEnv false false true false false) ["p cnf 2 1"]
      (ParseState_init (H:=refEnv false false true false false)) W0 = (Ret st, W0)
    ∧ parse_line (H:=refEnv false false true false false) 2 "vp 1 2 0" st W0 = (Ret st', world')
    ∧ minMaxsatSolving world' = true.
Proof.
  destruct (parse_lines (H:=refEnv false false true false false) ["p cnf 2 1"]
              (ParseState_init (H:=refEnv false false true false false)) W0)
    as [[st|e] w1] eqn:E1; [|vm_compute in E1; discriminate].
  assert (Hw1 : w1 = W0) by (vm_compute in E1; congruence). subst w1.
  destruct (parse_line (H:=refEnv false false true false false) 2 "vp 1 2 0" st W0)
    as [[st'|e] world'] eqn:E2;
    [|vm_compute in E1; injection E1 as <-; vm_compute in E2; discriminate].
  exists st, st', world'. split; [reflexivity|]. split; [exact E2|].
  apply (show_line_sets_minMaxsatSolving (H:=refEnv false false true false false)
           2 "vp 1 2 0" st st' W0 world').
  - reflexivity.
  - exists "1", ["2"; "0"]. left. vm_compute. reflexivity.
  - vm_compute. reflexivity.
  - exact E2.
Defined.

(** *** The graph *)

Local Abbreviation path3 := [call_addEdge 1 2; call_addEdge 2 3].

Lemma addEdge_spec_witness :
  (∃ g', addEdge 1 2 (Graph_ctor [1; 2; 3]) = Ret g'
         ∧ vertices g' = vertices (Graph_ctor [1; 2; 3])
         ∧ isNeighbor g' 2 1 = Ret true)
  ∧ addEdge 1 4 (Graph_ctor [1; 2; 3]) = Throw (StdException out_of_range).
Proof.
  destruct (Graph_ctor_spec [1; 2; 3]) as [Hinv _].
  destruct (addEdge_spec 1 2 (Graph_ctor [1; 2; 3]) Hinv) as [Hin _].
  destruct (addEdge_spec 1 4 (Graph_ctor [1; 2; 3]) Hinv) as [_ Hout].
  split.
  - destruct Hin as (g' & E & _ & Hv & Hn);
      [apply (bool_decide_unpack _); vm_compute; exact I..|].
    exists g'. split; [exact E|]. split; [exact Hv|]. apply Hn. right. right. by split.
  - apply Hout. right. apply (bool_decide_unpack _). vm_compute. exact I.
Defined.

Lemma removeVertex_spec_witness :
  ∃ g, run_calls [1; 2; 3] path3 = Ret g
       ∧ Graph_inv (removeVertex 2 g)
       ∧ (2 ∉ vertices (removeVertex 2 g))
       ∧ removeVertex 4 g = g.
Proof.
  destruct (run_calls [1; 2; 3] path3) as [g|e] eqn:E; [|vm_compute in E; discriminate].
  exists g. split; [reflexivity|].
  destruct (removeVertex_spec _ _ g 2 E) as (Hinv & Hv & _ & _).
  destruct (removeVertex_spec _ _ g 4 E) as (_ & _ & _ & Hsame).
  split; [exact Hinv|]. split.
  - rewrite Hv. by intros [_ ?].
  - apply Hsame. vm_compute in E. injection E as <-.
    apply (bool_decide_unpack _). vm_compute. exact I.
Defined.

Lemma fillInEdges_spec_witness :
  ∃ g g', run_calls [1; 2; 3] path3 = Ret g
          ∧ fillInEdges 2 g = Ret g'
          ∧ isNeighbor g' 1 3 = Ret true
          ∧ countFillInEdges g' 2 = Ret 0.
Proof.
  destruct (run_calls [1; 2; 3] path3) as [g|e] eqn:E; [|vm_compute in E; discriminate].
  assert (Hin : 2 ∈ vertices g).
  { vm_compute in E. injection E as <-. apply (bool_decide_unpack _). vm_compute. exact I. }
  assert (Hn : isNeighbor g 2 1 = Ret true ∧ isNeighbor g 2 3 = Ret true).
  { vm_compute in E. injection E as <-. split; vm_compute; reflexivity. }
  destruct (fillInEdges_spec g 2 (run_calls_Graph_inv _ _ _ E) Hin)
    as (g' & E' & _ & _ & Hedges & Hcount).
  exists g, g'. split; [reflexivity|]. split; [exact E'|]. split; [|exact Hcount].
  apply Hedges. right. destruct Hn as [H1 H3]. split; [exact H1|]. split; [exact H3|lia].
Defined.

Lemma getMinfillVertex_spec_witness :
  ∃ g v c, run_calls [1; 2; 3] path3 = Ret g
           ∧ getMinfillVertex (H:=E0) g = Ret v
           ∧ countFillInEdges g v = Ret c
           ∧ ∀ u c', u ∈ vertices g → countFillInEdges g u = Ret c' → c ≤ c'.
Proof.
  destruct (run_calls [1; 2; 3] path3) as [g|e] eqn:E; [|vm_compute in E; discriminate].
  assert (Hv : vertices g = [1; 2; 3]) by (vm_compute in E; by injection E as <-).
  destruct (getMinfillVertex_spec (H:=E0) g (run_calls_Graph_inv _ _ _ E)) as [_ Hsome].
  - rewrite Hv. vm_compute. reflexivity.
  - rewrite Hv. intros v Hin. rewrite !elem_of_cons, elem_of_nil in Hin.
    intros ->. vm_compute in Hin. destruct Hin as [[=]|[[=]|[[=]|[]]]].
  - destruct Hsome as (v & c & _ & _ & Emin & _ & Ec & Hleast & _); [by rewrite Hv|].
    exists g, v, c. split; [reflexivity|]. split; [exact Emin|]. split; [exact Ec|exact Hleast].
Defined.

Lemma hasPath_spec_witness :
  ∃ g, run_calls [1; 2; 3] path3 = Ret g
       ∧ (∃ b, hasPath g 1 3 = Ret b ∧ (b = true ↔ rtc (edge g) 1 3))
       ∧ hasPath g 4 1 = Throw (StdException out_of_range).
Proof.
  destruct (run_calls [1; 2; 3] path3) as [g|e] eqn:E; [|vm_compute in E; discriminate].
  assert (Hv : vertices g = [1; 2; 3]) by (vm_compute in E; by injection E as <-).
  exists g. split; [reflexivity|]. split.
  - apply (hasPath_spec g 1 3 (run_calls_Graph_inv _ _ _ E)).
    rewrite Hv. apply list_elem_of_here.
  - apply (hasPath_spec g 4 1 (run_calls_Graph_inv _ _ _ E)).
    rewrite Hv. apply (bool_decide_unpack _). vm_compute. exact I.
Defined.

Lemma getPrimalGraph_spec_witness :
  ∃ cnf world g,
    Cnf_ctor (H:=E0) ["p cnf 3 2"; "1 -2 0"; "2 3 0"] W0 = (Ret cnf, world)
    ∧ getPrimalGraph cnf = Ret g
    ∧ vertices g = apparentVars cnf
    ∧ isNeighbor g 1 2 = Ret true.
Proof.
  destruct (Cnf_ctor (H:=E0) ["p cnf 3 2"; "1 -2 0"; "2 3 0"] W0) as [[cnf|e] world] eqn:E;
    [|vm_compute in E; discriminate].
  assert (Hcnf : Cnf_wf cnf ∧ [1; -2] ∈ clauses cnf).
  { vm_compute in E. injection E as <- _. split.
    - unfold Cnf_wf. apply (bool_decide_unpack _). vm_compute. exact I.
    - apply list_elem_of_here. }
  destruct Hcnf as [Hwf Hclause].
  destruct (getPrimalGraph_spec cnf Hwf) as (g & Eg & _ & Hv & Hn).
  exists cnf, world, g. split; [reflexivity|]. split; [exact Eg|]. split; [exact Hv|].
  apply Hn. exists [1; -2], 0%nat, 1%nat, 1, (-2).
  split; [exact Hclause|]. by split_and!.
Defined.

(** *** The join tree *)

Lemma getNodeRank_spec_witness :
  0 ≤ getNodeRank (H:=E0) (JoinTerminal 0 [1; 2] []) [3; 2; 1] (BUCKET_LIST (Env:=E0)) < 3
  ∧ getNodeRank (H:=E0) (JoinTerminal 0 [1; 2] []) [3; 2; 1] (BUCKET_LIST (Env:=E0)) ≤ 1.
Proof.
  destruct (getNodeRank_spec (H:=E0) (JoinTerminal 0 [1; 2] []) [3; 2; 1]
              (BUCKET_LIST (Env:=E0))) as [_ Hin];
    [vm_compute; reflexivity|vm_compute; intros [=]|].
  destruct Hin as (Hr & _ & Hleast).
  { exists 2. split; apply (bool_decide_unpack _); vm_compute; exact I. }
  split; [exact Hr|].
  specialize (Hleast 1%nat 2 eq_refl). rewrite bool_decide_eq_true_2 in Hleast by by left.
  apply Hleast. apply (bool_decide_unpack _). vm_compute. exact I.
Defined.

Lemma getVarOrder_negate_witness :
  getVarOrder (H:=E0) (parsed E0 ["p cnf 3 2"; "1 -2 0"; "2 3 0"]) 2
    (JoinNonterminal 2 [1; 2; 3] [1] [JoinTerminal 0 [1; 2] []; JoinTerminal 1 [2; 3] []])
    (- DECLARED (Env:=E0))
  = Ret (rev [1; 2; 3]).
Proof.
  apply (getVarOrder_negate (H:=E0)).
  - vm_compute. intros [=].
  - vm_compute. reflexivity.
Defined.

Lemma getHighestNodeVarOrder_spec_witness :
  ∃ order rest,
    getHighestNodeVarOrder 2
      (JoinNonterminal 3 [1; 2; 3] [1]
         [JoinTerminal 0 [1; 2] [];
          JoinNonterminal 2 [2; 3] [3] [JoinTerminal 1 [2; 3] []]])
    = Ret order
    ∧ order = [1] ++ rest.
Proof.
  destruct (getHighestNodeVarOrder_spec 2
              (JoinNonterminal 3 [1; 2; 3] [1]
                 [JoinTerminal 0 [1; 2] [];
                  JoinNonterminal 2 [2; 3] [3] [JoinTerminal 1 [2; 3] []]]))
    as (order & rest & E & Ho & _).
  - reflexivity.
  - unfold classes_agree. apply (bool_decide_unpack _). vm_compute. exact I.
  - exists order, rest. split; [exact E|exact Ho].
Defined.

(** *** The constructor of [Cnf] *)

Local Abbreviation two_clauses := ["p cnf 3 2"; "1 -2 0"; "2 3 0"].

Lemma getMostClausesVarOrder_sorted_witness :
  (length [0] ≤ length [0; 1])%nat
  ∧ (length [1] = length [0] → before (map_keys (varToClauses (parsed E0 two_clauses))) 1 3).
Proof.
  assert (Hwf : Cnf_wf (parsed E0 two_clauses)).
  { unfold Cnf_wf. apply (bool_decide_unpack _). vm_compute. exact I. }
  split.
  - apply (getMostClausesVarOrder_sorted (parsed E0 two_clauses) 0 1 2 1 [0; 1] [0] Hwf);
      [lia|reflexivity..].
  - apply (getMostClausesVarOrder_sorted (parsed E0 two_clauses) 1 2 1 3 [0] [1] Hwf);
      [lia|reflexivity..].
Defined.

Lemma Cnf_ctor_indexed_witness :
  Cnf_indexed (parsed E0 two_clauses)
  ∧ NoDup (apparentVars (parsed E0 two_clauses))
  ∧ ∀ v, v ∈ apparentVars (parsed E0 two_clauses)
         ↔ v ∈ map_keys (varToClauses (parsed E0 two_clauses)).
Proof.
  destruct (Cnf_ctor_indexed (H:=E0) two_clauses W0 W0 (parsed E0 two_clauses))
    as (Hidx & Hnd & Hav & _); [vm_compute; reflexivity|].
  split; [exact Hidx|]. split; [exact Hnd|exact Hav].
Defined.

Lemma Cnf_ctor_ranges_witness :
  Forall (literal_ok (declaredVarCount (parsed E0 two_clauses))) [1; -2]
  ∧ Forall (λ v, 1 ≤ v ≤ declaredVarCount (parsed E0 two_clauses))
           (additiveVars (parsed E0 two_clauses)).
Proof.
  destruct (Cnf_ctor_ranges (H:=E0) two_clauses W0 W0 (parsed E0 two_clauses))
    as [Hcl Hadd].
  - apply (bool_decide_unpack _). vm_compute. exact I.
  - vm_compute. reflexivity.
  - split; [|exact Hadd].
    apply (Hcl 0%nat [1; -2] "c"%char); [reflexivity|reflexivity|discriminate].
Defined.

Lemma supplied_weights_ok_witness :
  ∃ st w,
    parse_lines (H:=refEnv true false false false false) ["p cnf 1 1"; "w 1 0.3"]
      (ParseState_init (H:=refEnv true false false false false)) W0 = (Ret st, W0)
    ∧ literalWeights (this st) !! 1 = Some w
    ∧ Z.abs 1 ≤ declaredVarCount (this st)
    ∧ Number_lt (H:=refEnv true false false false false) w
        (Number_default (Env:=refEnv true false false false false)) = false.
Proof.
  destruct (parse_lines (H:=refEnv true false false false false) ["p cnf 1 1"; "w 1 0.3"]
              (ParseState_init (H:=refEnv true false false false false)) W0)
    as [[st|e] w1] eqn:E1; [|vm_compute in E1; discriminate].
  assert (Hw1 : w1 = W0) by (vm_compute in E1; congruence). subst w1.
  destruct (literalWeights (this st) !! 1) as [w|] eqn:Ew;
    [|vm_compute in E1; injection E1 as <-; vm_compute in Ew; discriminate].
  exists st, w. split; [reflexivity|]. split; [exact Ew|].
  apply (supplied_weights_ok (H:=refEnv true false false false false)
           ["p cnf 1 1"; "w 1 0.3"] W0 W0 st 1 w).
  - apply (bool_decide_unpack _). vm_compute. exact I.
  - exact E1.
  - exact Ew.
Defined.

Lemma Cnf_ctor_wf_witness : Cnf_wf (parsed E0 two_clauses).
Proof.
  apply (Cnf_ctor_wf (H:=E0) two_clauses W0 W0).
  - apply (bool_decide_unpack _). vm_compute. exact I.
  - vm_compute. reflexivity.
  - apply (bool_decide_unpack _). vm_compute. exact I.
Defined.

Lemma problem_line_required_witness :
  ∃ line, line ∈ ["c a comment"; "p cnf 1 1"; "1 0"]
          ∧ is_header (util.splitInputLine line) = true.
Proof.
  apply (problem_line_required (H:=E0) ["c a comment"; "p cnf 1 1"; "1 0"] W0 W0
           (parsed E0 ["c a comment"; "p cnf 1 1"; "1 0"])).
  vm_compute. reflexivity.
Defined.

Lemma second_problem_line_rejected_witness :
  Cnf_ctor (H:=E0) ["p cnf 1 1"; "p cnf 1 1"; "1 0"] W0
  = (Throw (MyError "multiple problem lines: "), W0).
Proof.
  eapply (second_problem_line_rejected (H:=E0) [] [] ["1 0"] "p cnf 1 1" "p cnf 1 1").
  - vm_compute. intros [=].
  - vm_compute. reflexivity.
  - vm_compute. reflexivity.
  - vm_compute. reflexivity.
Defined.

Lemma all_variables_additive_witness :
  additiveVars (parsed E0 two_clauses) ≡ₚ seqZ 1 (declaredVarCount (parsed E0 two_clauses))
  ∧ getDisjunctiveVars (parsed E0 two_clauses) = [].
Proof.
  apply (all_variables_additive (H:=E0) two_clauses W0 W0).
  - reflexivity.
  - vm_compute. reflexivity.
Defined.

Lemma minMaxsatSolving_untouched_witness :
  minMaxsatSolving (Cnf_ctor (H:=E0) ["p cnf 1 2"; "x 0"; "1 0"] W0).2 = minMaxsatSolving W0.
Proof.
  apply (minMaxsatSolving_untouched (H:=E0)). reflexivity.
Defined.

Lemma getAdditiveAssignments_exhaustive_witness :
  ∃ A, getAdditiveAssignments (H:=E0) (parsed E0 ["p cnf 2 1"; "1 2 0"]) 0
         (JoinNonterminal 0 [1; 2] [1; 2] [JoinTerminal 0 [1; 2] []]) (DECLARED (Env:=E0)) 1
       = Ret A
       ∧ enumerates A [1].
Proof.
  apply (getAdditiveAssignments_exhaustive (H:=E0) (parsed E0 ["p cnf 2 1"; "1 2 0"]) 0
           (JoinNonterminal 0 [1; 2] [1; 2] [JoinTerminal 0 [1; 2] []])
           (DECLARED (Env:=E0)) 1 [1; 2]).
  - lia.
  - vm_compute. reflexivity.
  - apply (bool_decide_unpack _). vm_compute. exact I.
  - vm_compute. intros [=].
Defined.

Lemma clause_line_parsed_witness :
  ∃ st st' clause,
    parse_lines (H:=E0) ["p cnf 3 2"] (ParseState_init (H:=E0)) W0 = (Ret st, W0)
    ∧ parse_line (H:=E0) 2 "1 -2 0" st W0 = (Ret st', W0)
    ∧ clauses (this st') = [clause]
    ∧ ∀ l, l ∈ clause ↔ l ∈ [1; -2].
Proof.
  destruct (parse_lines (H:=E0) ["p cnf 3 2"] (ParseState_init (H:=E0)) W0)
    as [[st|e] w1] eqn:E1; [|vm_compute in E1; discriminate].
  assert (Hw1 : w1 = W0) by (vm_compute in E1; congruence). subst w1.
  assert (Hst : problemLineIndex st ≠ MIN_INT (Env:=E0) ∧ hwcnfFlag st = false
                ∧ wcnfFlag st = false ∧ declaredVarCount (this st) = 3
                ∧ clauses (this st) = []).
  { vm_compute in E1. injection E1 as <-. split_and!; try reflexivity.
    vm_compute. intros [=]. }
  destruct Hst as (Hpl & Hh & Hw & Hn & Hc).
  assert (Hwords : util.splitInputLine "1 -2 0" = ["1"; "-2"; "0"])
    by (vm_compute; reflexivity).
  destruct (clause_line_parsed (H:=E0) 2 "1 -2 0" st W0 [1; -2] Hpl Hh Hw)
    as (clause & st' & Hline & _ & Hmem & _ & Hcl & _).
  - discriminate.
  - rewrite Hn. apply (bool_decide_unpack _). vm_compute. exact I.
  - rewrite Hwords. repeat (constructor; [vm_compute; reflexivity|]). constructor.
  - exists st, st', clause. split; [reflexivity|]. split; [exact Hline|].
    split; [by rewrite Hcl, Hc|exact Hmem].
Defined.
